(** * JSON schema engine of Yomichan (js/data/json-schema.js)

    A shallow embedding of [JsonSchemaValidator], [JsonSchemaProxyHandler],
    [JsonSchemaTraversalInfo] and [JsonSchemaValidationError], followed by the
    properties the design document states about them.

    Modelling conventions.
    - A JavaScript value handled by the engine is JSON-like: [value] below.
      [undefined] is the [None] of [option value]; it never occurs inside an
      array or an object.
    - Numbers are integers ([Z]), each standing for the binary64 number of
      the same value; fractional numbers, NaN and the infinities are not
      represented.  [Math.floor(v) === v] therefore holds for every number.
      Comparisons of such numbers are exact in binary64.  The one
      arithmetic expression of the engine, [Math.floor(value / multipleOf)
      * multipleOf], is computed here over the integers; binary64 computes
      the same when both numbers are below 2^53 in magnitude, and the
      statements that read the result as divisibility assume that range.
    - A string is held as the bytes of its UTF-8 encoding; the length the
      engine compares, [s.length], is the number of UTF-16 code units
      ([utf16_length]).
    - An object is the list of its own properties in insertion order, and
      its prototype is taken to be [Object.prototype].  The rule that
      integer-like keys are enumerated first is not represented.  The one
      name of the prototype that the functions below can reach through a
      property name taken from the data and that matters to them is
      [__proto__]: reading it from an object without such an own property
      finds the prototype object, and assigning to it replaces the
      prototype (or does nothing) instead of adding a property.  The read
      is part of the embedding where the engine performs it on a schema
      ([inherited_or_own]).  The assignment is not: values carry no
      prototype, and the statements about a write to a name given by the
      caller or by a [required] list exclude the name [__proto__]
      ([requires_no_proto]).  Where the source builds [new Set(names)],
      the embedding removes repeated names.
    - [===] between two arrays or two objects is identity of references.
      Schema and data are separate object graphs, so such a comparison is
      [false] here.
    - Recursion of the engine follows schema and value at once; the
      embedding ties the knot with a recursion budget and proves that the
      budget computed from the arguments suffices.
    - The validator compiles a pattern once and keeps the [RegExp] object
      in a cache.  The first engine below takes the test of a pattern as a
      function of the tested string, which is what the source computes
      whenever no cached pattern carries a position from one test to the
      next; the engine of module [Cached] keeps the cache and the
      [lastIndex] of every cached pattern, and the two are compared. *)

From Stdlib Require Import ZArith List String Ascii Bool Arith Lia.
From Stdlib Require Import DecimalString.
Import ListNotations.
Local Open Scope string_scope.
Local Open Scope list_scope.
Local Open Scope nat_scope.

Set Implicit Arguments.

(* ===================================================================== *)
(** ** Values *)
(* ===================================================================== *)

Unset Elimination Schemes.
Inductive value : Type :=
| VNull
| VBool (b : bool)
| VNum (n : Z)
| VStr (s : string)
| VArr (items : list value)
| VObj (fields : list (string * value)).
Set Elimination Schemes.

(** Induction principle that reaches the members of arrays and objects. *)
Section value_induction.
Variable P : value -> Prop.
Hypothesis Hnull : P VNull.
Hypothesis Hbool : forall b, P (VBool b).
Hypothesis Hnum : forall n, P (VNum n).
Hypothesis Hstr : forall s, P (VStr s).
Hypothesis Harr : forall l, Forall P l -> P (VArr l).
Hypothesis Hobj : forall fs, Forall (fun kv => P (snd kv)) fs -> P (VObj fs).

Fixpoint value_ind' (v : value) : P v :=
    match v with
    | VNull => Hnull
    | VBool b => Hbool b
    | VNum n => Hnum n
    | VStr s => Hstr s
    | VArr l =>
        Harr ((fix go (l : list value) : Forall P l :=
                 match l with
                 | [] => Forall_nil _
                 | x :: r => Forall_cons x (value_ind' x) (go r)
                 end) l)
    | VObj fs =>
        Hobj ((fix go (fs : list (string * value))
                 : Forall (fun kv => P (snd kv)) fs :=
                 match fs with
                 | [] => Forall_nil _
                 | kv :: r => Forall_cons kv (value_ind' (snd kv)) (go r)
                 end) fs)
    end.
End value_induction.

(** Nesting depth; the recursion budget of the engine is computed from it. *)
Fixpoint depth (v : value) : nat :=
  match v with
  | VArr l => fold_right (fun x acc => Nat.max (S (depth x)) acc) 0 l
  | VObj fs => fold_right (fun kv acc => Nat.max (S (depth (snd kv))) acc) 0 fs
  | _ => 0
  end.

Definition depth_opt (v : option value) : nat :=
  match v with Some x => depth x | None => 0 end.

(* ===================================================================== *)
(** ** Own properties of objects *)
(* ===================================================================== *)

Module Props.

Fixpoint lookup (k : string) (fs : list (string * value)) : option value :=
    match fs with
    | [] => None
    | (k', v) :: r => if String.eqb k k' then Some v else lookup k r
    end.

  (** [o[k] = v]: an existing property keeps its place, a new one goes last. *)
Fixpoint set (k : string) (v : value) (fs : list (string * value))
    : list (string * value) :=
    match fs with
    | [] => [(k, v)]
    | (k', v') :: r =>
        if String.eqb k k' then (k', v) :: r else (k', v') :: set k v r
    end.

  (** [delete o[k]]. *)
Fixpoint remove (k : string) (fs : list (string * value))
    : list (string * value) :=
    match fs with
    | [] => []
    | (k', v') :: r =>
        if String.eqb k k' then remove k r else (k', v') :: remove k r
    end.

Definition mem (k : string) (ks : list string) : bool :=
    existsb (String.eqb k) ks.

  (** The members of [new Set(names)], in order of first insertion. *)
Fixpoint dedup_from (seen : list string) (ks : list string) : list string :=
    match ks with
    | [] => []
    | k :: r =>
        if mem k seen then dedup_from seen r else k :: dedup_from (k :: seen) r
    end.

Definition dedup (ks : list string) : list string := dedup_from [] ks.

  (** [Object.getOwnPropertyNames(o)] collected into a [Set]. *)
Definition names (fs : list (string * value)) : list string :=
    dedup (map fst fs).

  (** [set.delete(k)]. *)
Definition drop (k : string) (ks : list string) : list string :=
    filter (fun k' => negb (String.eqb k k')) ks.

End Props.

(** [v.k] for a schema or any other value: [undefined] unless [v] is an
    object that owns [k]. *)
Definition get (v : value) (k : string) : option value :=
  match v with
  | VObj fs => Props.lookup k fs
  | _ => None
  end.

(* ===================================================================== *)
(** ** Conversions to strings and property keys *)
(* ===================================================================== *)

Definition string_of_nat (n : nat) : string :=
  NilZero.string_of_uint (Nat.to_uint n).

Definition string_of_Z (z : Z) : string :=
  NilZero.string_of_int (Z.to_int z).

Fixpoint join (sep : string) (parts : list string) : string :=
  match parts with
  | [] => ""
  | [p] => p
  | p :: r => (p ++ sep ++ join sep r)%string
  end.

(** [String(v)], as a template literal or a property access applies it. *)
Fixpoint js_to_string (v : value) : string :=
  match v with
  | VNull => "null"
  | VBool true => "true"
  | VBool false => "false"
  | VNum n => string_of_Z n
  | VStr s => s
  | VArr l =>
      join ","
        (map (fun x => match x with VNull => "" | _ => js_to_string x end) l)
  | VObj _ => "[object Object]"
  end.

Definition js_to_string_opt (v : option value) : string :=
  match v with Some x => js_to_string x | None => "undefined" end.

Definition digit_of_ascii (c : ascii) : option nat :=
  let n := nat_of_ascii c in
  if (48 <=? n) && (n <=? 57) then Some (n - 48) else None.

Fixpoint parse_digits (acc : nat) (s : string) : option nat :=
  match s with
  | EmptyString => Some acc
  | String c r =>
      match digit_of_ascii c with
      | Some d => parse_digits (10 * acc + d) r
      | None => None
      end
  end.

(** The UTF-16 code units of the character that starts with byte [c] of a
    UTF-8 encoding: none for a continuation byte (128 to 191), two for the
    first byte of a four-byte sequence (240 and above), which encodes a
    character outside the basic plane, one otherwise. *)
Definition utf16_units (c : ascii) : nat :=
  let n := nat_of_ascii c in
  if n <? 128 then 1
  else if n <? 192 then 0
  else if n <? 240 then 1
  else 2.

(** [s.length]. *)
Fixpoint utf16_length (s : string) : nat :=
  match s with
  | EmptyString => 0
  | String c r => utf16_units c + utf16_length r
  end.

(** [/^\d+$/.test(s)] followed by [parseInt(s, 10)]. *)
Definition parse_decimal (s : string) : option nat :=
  match s with
  | EmptyString => None
  | _ => parse_digits 0 s
  end.

(** The array index a property key denotes: the key must be the canonical
    decimal form of the index. *)
Definition array_index (k : string) : option nat :=
  match parse_decimal k with
  | Some n => if String.eqb (string_of_nat n) k then Some n else None
  | None => None
  end.

(** A property as the engine passes it around: a name, or a number produced
    by a loop counter or by [parseInt]. *)
Inductive property : Type :=
| PName (s : string)
| PNumber (n : Z).

Definition property_key (p : property) : string :=
  match p with
  | PName s => s
  | PNumber n => string_of_Z n
  end.

(** An entry of a [required] list used as a property.  An entry that is
    neither a string nor a number is used through its property key. *)
Definition property_of_value (v : value) : property :=
  match v with
  | VStr s => PName s
  | VNum n => PNumber n
  | _ => PName (js_to_string v)
  end.

(* ===================================================================== *)
(** ** Runtime types *)
(* ===================================================================== *)

(** [_isObject]. *)
Definition _isObject (v : option value) : bool :=
  match v with
  | Some (VObj _) => true
  | _ => false
  end.

(** [_getValueType]. *)
Definition _getValueType (v : option value) : string :=
  match v with
  | None => "undefined"
  | Some VNull => "null"
  | Some (VBool _) => "boolean"
  | Some (VNum _) => "number"
  | Some (VStr _) => "string"
  | Some (VArr _) => "array"
  | Some (VObj _) => "object"
  end.

(** [Math.floor(value) === value]: only a number is strictly equal to a
    number, and every number of the embedding is an integer. *)
Definition floor_is_self (v : option value) : bool :=
  match v with
  | Some (VNum _) => true
  | _ => false
  end.

(** [type === schemaType] for the string [type]. *)
Definition type_eq (type : string) (schemaType : value) : bool :=
  match schemaType with
  | VStr s => String.eqb type s
  | _ => false
  end.

(** [_isValueType]. *)
Definition _isValueType (v : option value) (type : string) (schemaType : value)
  : bool :=
  type_eq type schemaType
  || (type_eq "integer" schemaType && floor_is_self v).

(** [_isValueTypeAny]. *)
Definition _isValueTypeAny (v : option value) (type : string)
  (schemaTypes : option value) : bool :=
  match schemaTypes with
  | Some (VStr s) => _isValueType v type (VStr s)
  | Some (VArr l) => existsb (_isValueType v type) l
  | _ => true
  end.

(** [_valuesAreEqual]: strict equality. *)
Definition _valuesAreEqual (v1 : option value) (v2 : option value) : bool :=
  match v1, v2 with
  | None, None => true
  | Some VNull, Some VNull => true
  | Some (VBool a), Some (VBool b) => Bool.eqb a b
  | Some (VNum a), Some (VNum b) => Z.eqb a b
  | Some (VStr a), Some (VStr b) => String.eqb a b
  | _, _ => false
  end.

(** [_valuesAreEqualAny]. *)
Definition _valuesAreEqualAny (v1 : option value) (valueList : list value)
  : bool :=
  existsb (fun v2 => _valuesAreEqual v1 (Some v2)) valueList.

(** The result of [_getSchemaOrValueType]: a type name, [null], or a
    [type] entry of the schema that is neither a string, a list nor absent
    (no [case] of a [switch] on it is ever taken).  The function starts by
    reading [schema.type], so [schema] must not be [null]: inside the
    engines every schema has had its [type] read before it gets here, and
    the guarded view, which passes the schema it was created with, goes
    through [resolve] below. *)
Definition _getSchemaOrValueType (schema : value) (v : option value)
  : option string :=
  match get schema "type" with
  | Some (VArr types) =>
      match v with
      | Some _ =>
          let valueType := _getValueType v in
          if existsb (type_eq valueType) types then Some valueType else None
      | None => None
      end
  | None =>
      match v with
      | Some _ => Some (_getValueType v)
      | None => None
      end
  | Some (VStr type) => Some type
  | Some _ => None
  end.

(** [JsonSchemaValidator.unconstrainedSchema]. *)
Definition unconstrainedSchema : value := VObj [].

(* ===================================================================== *)
(** ** Traversal info *)
(* ===================================================================== *)

(** The first component of a trail entry: [null], a name or an index. *)
Inductive path_key : Type :=
| KNull
| KName (s : string)
| KIndex (n : Z).

Definition path_key_of (p : property) : path_key :=
  match p with
  | PName s => KName s
  | PNumber n => KIndex n
  end.

Definition trail := list (path_key * option value).

Record JsonSchemaTraversalInfo : Type := mkInfo {
  valuePath : trail;
  schemaPath : trail
}.

(** Traversal info objects live in a store; [info] arguments and the [info]
    field of an error are references into it. *)
Definition loc := nat.
Definition store := list JsonSchemaTraversalInfo.

Fixpoint update (i : loc) (f : JsonSchemaTraversalInfo -> JsonSchemaTraversalInfo)
  (st : store) : store :=
  match st, i with
  | [], _ => []
  | x :: r, O => f x :: r
  | x :: r, S j => x :: update j f r
  end.

Definition read (i : loc) (st : store) : option JsonSchemaTraversalInfo :=
  nth_error st i.

(* ===================================================================== *)
(** ** Exceptions and the validation monad *)
(* ===================================================================== *)

(** The [info] field of a [JsonSchemaValidationError]: a reference to a
    traversal info object, or a copy of such an object. *)
Inductive path_info : Type :=
| Reference (info : loc)
| Snapshot (copy : option JsonSchemaTraversalInfo).

Inductive exn : Type :=
| JsonSchemaValidationError
    (message : string) (value_ : option value) (schema : value)
    (info : path_info)
| TypeError (message : string)
| RangeError (message : string)
| Error (message : string).

Inductive outcome (A : Type) : Type :=
| Ok (a : A)
| Throw (e : exn)
| OutOfFuel.
Arguments Ok {A} a.
Arguments Throw {A} e.
Arguments OutOfFuel {A}.

Definition M (A : Type) : Type := store -> outcome A * store.

Definition ret {A} (a : A) : M A := fun st => (Ok a, st).

Definition bind {A B} (m : M A) (k : A -> M B) : M B :=
  fun st =>
    match m st with
    | (Ok a, st') => k a st'
    | (Throw e, st') => (Throw e, st')
    | (OutOfFuel, st') => (OutOfFuel, st')
    end.

Definition throw {A} (e : exn) : M A := fun st => (Throw e, st).

Definition out_of_fuel {A} : M A := fun st => (OutOfFuel, st).

(** [try { m; return true-branch } catch (e) { }]: whether [m] completed.
    Whatever [m] did to the store before throwing stays done. *)
Definition attempt {A} (m : M A) : M bool :=
  fun st =>
    match m st with
    | (Ok _, st') => (Ok true, st')
    | (Throw _, st') => (Ok false, st')
    | (OutOfFuel, st') => (OutOfFuel, st')
    end.

Declare Scope engine_scope.
Delimit Scope engine_scope with engine.
Notation "x <- m ;; k" := (bind m (fun x => k))
  (at level 61, m at next level, right associativity) : engine_scope.
Notation "m ;; k" := (bind m (fun _ => k))
  (at level 61, right associativity) : engine_scope.
Local Open Scope engine_scope.

Definition modify (i : loc)
  (f : JsonSchemaTraversalInfo -> JsonSchemaTraversalInfo) : M unit :=
  fun st => (Ok tt, update i f st).

Definition valuePush (i : loc) (path : path_key) (v : option value) : M unit :=
  modify i (fun x => mkInfo (valuePath x ++ [(path, v)]) (schemaPath x)).

Definition valuePop (i : loc) : M unit :=
  modify i (fun x => mkInfo (removelast (valuePath x)) (schemaPath x)).

Definition schemaPush (i : loc) (path : path_key) (s : value) : M unit :=
  modify i (fun x => mkInfo (valuePath x) (schemaPath x ++ [(path, Some s)])).

Definition schemaPop (i : loc) : M unit :=
  modify i (fun x => mkInfo (valuePath x) (removelast (schemaPath x))).

(** [new JsonSchemaTraversalInfo(value, schema)]. *)
Definition new_info (v : option value) (schema : value)
  : JsonSchemaTraversalInfo :=
  mkInfo [(KNull, v)] [(KNull, Some schema)].

Definition alloc_info (v : option value) (schema : value) : M loc :=
  fun st => (Ok (List.length st), st ++ [new_info v schema]).

(** [this.info = info] in the constructor of [JsonSchemaValidationError]:
    the error keeps the reference it is given. *)
Definition reference (info : loc) (st : store) : path_info := Reference info.

(** What the design document asks of an implementation instead: the error
    keeps a copy of the trails, made when the error is constructed. *)
Definition frozen (info : loc) (st : store) : path_info :=
  Snapshot (read info st).

(** The trails an error shows to whoever reads [e.info.valuePath] and
    [e.info.schemaPath] while the store is [st]. *)
Definition trails_of (e : exn) (st : store) : option JsonSchemaTraversalInfo :=
  match e with
  | JsonSchemaValidationError _ _ _ (Reference info) => read info st
  | JsonSchemaValidationError _ _ _ (Snapshot copy) => copy
  | _ => None
  end.

(* ===================================================================== *)
(** ** Schema navigator *)
(* ===================================================================== *)

(** The steps [_getPropertySchema] records in its [path] argument. *)
Definition schema_steps := list (path_key * value).

(** The tail shared by both cases of [_getPropertySchema]:
    [additionalProperties] or [additionalItems]. *)
Definition additional_schema (schema : value) (key : string)
  : option (value * schema_steps) :=
  match get schema key with
  | Some (VBool false) => None
  | Some (VObj fs) => Some (VObj fs, [(KName key, VObj fs)])
  | _ => Some (unconstrainedSchema, [(KNull, unconstrainedSchema)])
  end.

(** [property >= 0 && property < items.length] followed by
    [items[property]].  For a name the comparison converts it to a number,
    and the element access finds an element exactly when the name is the
    canonical decimal form of an index below the length. *)
Definition tuple_item (items : list value) (p : property) : option value :=
  match p with
  | PNumber n =>
      if (0 <=? n)%Z && (n <? Z.of_nat (List.length items))%Z
      then nth_error items (Z.to_nat n) else None
  | PName s =>
      match array_index s with
      | Some i => nth_error items i
      | None => None
      end
  end.

(** [Object.prototype], which every object of a schema inherits from.  It
    has none of the properties the engine reads by a fixed name, so that as
    a schema it is an object without keys. *)
Definition Object_prototype : value := VObj [].

(** [properties[property]] for the object [properties] of a schema and a
    name that comes from the data: the own property of that name, and for
    the name [__proto__] without an own property the prototype of the
    object.  The other names [Object.prototype] defines hold functions,
    which [_isObject] refuses as it refuses a missing property. *)
Definition inherited_or_own (fields : list (string * value)) (name : string)
  : option value :=
  match Props.lookup name fields with
  | Some x => Some x
  | None =>
      if String.eqb name "__proto__" then Some Object_prototype else None
  end.

(** [_getPropertySchema(schema, property, value, path)].  The result is
    [None] for [null]; the recorded steps are returned next to the schema
    (a caller that passes [path = null] drops them). *)
Definition _getPropertySchema (schema : value) (p : property)
  (v : option value) : option (value * schema_steps) :=
  match _getSchemaOrValueType schema v with
  | Some type =>
      if String.eqb type "object" then
        let found :=
          match get schema "properties" with
          | Some (VObj props) =>
              match inherited_or_own props (property_key p) with
              | Some (VObj ps) =>
                  Some (VObj ps, [(KName "properties", VObj props);
                                  (path_key_of p, VObj ps)])
              | _ => None
              end
          | _ => None
          end in
        match found with
        | Some r => Some r
        | None => additional_schema schema "additionalProperties"
        end
      else if String.eqb type "array" then
        match get schema "items" with
        | Some (VObj items) => Some (VObj items, [])
        | Some (VArr items) =>
            match tuple_item items p with
            | Some (VObj ps) =>
                Some (VObj ps, [(KName "items", VArr items);
                                (path_key_of p, VObj ps)])
            | _ => additional_schema schema "additionalItems"
            end
        | _ => additional_schema schema "additionalItems"
        end
      else None
  | None => None
  end.

(** [getPropertySchema(schema, property, value)]. *)
Definition getPropertySchema (schema : value) (p : property)
  (v : option value) : option value :=
  option_map fst (_getPropertySchema schema p v).

(* ===================================================================== *)
(** ** Validation engine *)
(* ===================================================================== *)

(** A number-valued key of the schema ([typeof x === 'number']). *)
Definition number_key (schema : value) (key : string) : option Z :=
  match get schema key with
  | Some (VNum n) => Some n
  | _ => None
  end.

(** [a < b] where either side may be [undefined]: a comparison with
    [undefined] is [false]. *)
Definition js_lt (a b : option Z) : bool :=
  match a, b with
  | Some x, Some y => (x <? y)%Z
  | _, _ => false
  end.

(** [properties.length] for a [Set]: a [Set] has [size] but no [length],
    so the expression is [undefined]. *)
Definition Set_length (members : list string) : option Z := None.

Fixpoint push_all (info : loc) (steps : schema_steps) : M unit :=
  match steps with
  | [] => ret tt
  | (p, s) :: r => schemaPush info p s ;; push_all info r
  end.

Fixpoint pop_n (info : loc) (n : nat) : M unit :=
  match n with
  | O => ret tt
  | S m => schemaPop info ;; pop_n info m
  end.

Section Engine.

(** What the constructor of [JsonSchemaValidationError] stores in the [info]
    field of the error.  The source stores the reference: [reference].  The
    engine is written over this choice so that the alternative the design
    document describes, [frozen], can be run and compared. *)
Variable keep : loc -> store -> path_info.

(** [throw new JsonSchemaValidationError(message, value, schema, info)]. *)
Definition validation_error {A} (message : string) (v : option value)
  (schema : value) (info : loc) : M A :=
  fun st => (Throw (JsonSchemaValidationError message v schema (keep info st)),
             st).

(** [if (cond) { throw new JsonSchemaValidationError(...) }]. *)
Definition fail_if (cond : bool) (message : string) (v : option value)
  (schema : value) (info : loc) : M unit :=
  if cond then validation_error message v schema info else ret tt.

(** [new RegExp(pattern, flags)]: the message of the error it throws, or the
    [test] function of the compiled pattern.  [_getRegex] adds a cache in
    front of it, which returns what a fresh compilation returns. *)
Variable RegExp : string -> string -> string + (string -> bool).

Definition _getRegex (pattern flags : string) : string + (string -> bool) :=
  RegExp pattern flags.

(** [_validateNumber].  The test [Math.floor(value / multipleOf) *
    multipleOf !== value] is computed over the integers, which is what
    binary64 computes when both numbers are below 2^53 in magnitude (see
    the conventions).  Dividing by zero gives an infinity or NaN, and its
    product with zero is NaN, which differs from every value. *)
Definition _validateNumber (n : Z) (schema : value) (info : loc) : M unit :=
  let v := Some (VNum n) in
  match number_key schema "multipleOf" with
  | Some m =>
      fail_if ((m =? 0)%Z || negb ((n / m) * m =? n)%Z)
        ("Number is not a multiple of " ++ string_of_Z m) v schema info
  | None => ret tt
  end ;;
  match number_key schema "minimum" with
  | Some m =>
      fail_if (n <? m)%Z ("Number is less than " ++ string_of_Z m)
        v schema info
  | None => ret tt
  end ;;
  match number_key schema "exclusiveMinimum" with
  | Some m =>
      fail_if (n <=? m)%Z
        ("Number is less than or equal to " ++ string_of_Z m) v schema info
  | None => ret tt
  end ;;
  match number_key schema "maximum" with
  | Some m =>
      fail_if (m <? n)%Z ("Number is greater than " ++ string_of_Z m)
        v schema info
  | None => ret tt
  end ;;
  match number_key schema "exclusiveMaximum" with
  | Some m =>
      fail_if (m <=? n)%Z
        ("Number is greater than or equal to " ++ string_of_Z m)
        v schema info
  | None => ret tt
  end.

(** [_validateString]. *)
Definition _validateString (s : string) (schema : value) (info : loc)
  : M unit :=
  let v := Some (VStr s) in
  let len := Z.of_nat (utf16_length s) in
  match number_key schema "minLength" with
  | Some m => fail_if (len <? m)%Z "String length too short" v schema info
  | None => ret tt
  end ;;
  match number_key schema "maxLength" with
  | Some m => fail_if (m <? len)%Z "String length too long" v schema info
  | None => ret tt
  end ;;
  match get schema "pattern" with
  | Some (VStr pattern) =>
      let patternFlags :=
        match get schema "patternFlags" with
        | Some (VStr f) => f
        | _ => ""
        end in
      match _getRegex pattern patternFlags with
      | inl message =>
          validation_error ("Pattern is invalid (" ++ message ++ ")")
            v schema info
      | inr test =>
          fail_if (negb (test s)) "Pattern match failed" v schema info
      end
  | _ => ret tt
  end.

Section Clauses.

(** The recursive call [this._validate(value, schema, info)]. *)
Variable rec : option value -> value -> loc -> M unit.

(** [_validateConditional]. *)
Definition _validateConditional (v : option value) (schema : value)
  (info : loc) : M unit :=
  match get schema "if" with
  | Some (VObj ifFields) =>
      let ifSchema := VObj ifFields in
      schemaPush info (KName "if") ifSchema ;;
      okay <- attempt (rec v ifSchema info) ;;
      schemaPop info ;;
      match (if okay : bool then get schema "then" else get schema "else") with
      | Some (VObj nextFields) =>
          let nextSchema := VObj nextFields in
          schemaPush info
            (KName (if okay : bool then "then" else "else")) nextSchema ;;
          rec v nextSchema info ;;
          schemaPop info
      | _ => ret tt
      end
  | _ => ret tt
  end.

Fixpoint allOf_loop (v : option value) (info : loc) (i : nat)
  (subSchemas : list value) : M unit :=
  match subSchemas with
  | [] => ret tt
  | subSchema :: rest =>
      schemaPush info (KIndex (Z.of_nat i)) subSchema ;;
      rec v subSchema info ;;
      schemaPop info ;;
      allOf_loop v info (S i) rest
  end.

(** [_validateAllOf]. *)
Definition _validateAllOf (v : option value) (schema : value) (info : loc)
  : M unit :=
  match get schema "allOf" with
  | Some (VArr subSchemas) =>
      schemaPush info (KName "allOf") (VArr subSchemas) ;;
      allOf_loop v info 0 subSchemas ;;
      schemaPop info
  | _ => ret tt
  end.

(** The loop of [_validateAnyOf]; the result tells whether the loop left
    the function through its [return]. *)
Fixpoint anyOf_loop (v : option value) (info : loc) (i : nat)
  (subSchemas : list value) : M bool :=
  match subSchemas with
  | [] => ret false
  | subSchema :: rest =>
      schemaPush info (KIndex (Z.of_nat i)) subSchema ;;
      okay <- attempt (rec v subSchema info) ;;
      if okay : bool then ret true
      else (schemaPop info ;; anyOf_loop v info (S i) rest)
  end.

(** [_validateAnyOf]. *)
Definition _validateAnyOf (v : option value) (schema : value) (info : loc)
  : M unit :=
  match get schema "anyOf" with
  | Some (VArr subSchemas) =>
      schemaPush info (KName "anyOf") (VArr subSchemas) ;;
      returned <- anyOf_loop v info 0 subSchemas ;;
      if returned : bool then ret tt
      else validation_error "0 anyOf schemas matched" v schema info
  | _ => ret tt
  end.

(** The loop of [_validateOneOf], returning the final [count]. *)
Fixpoint oneOf_loop (v : option value) (info : loc) (i : nat) (count : nat)
  (subSchemas : list value) : M nat :=
  match subSchemas with
  | [] => ret count
  | subSchema :: rest =>
      schemaPush info (KIndex (Z.of_nat i)) subSchema ;;
      okay <- attempt (rec v subSchema info) ;;
      schemaPop info ;;
      oneOf_loop v info (S i) (if okay : bool then S count else count) rest
  end.

(** [_validateOneOf]. *)
Definition _validateOneOf (v : option value) (schema : value) (info : loc)
  : M unit :=
  match get schema "oneOf" with
  | Some (VArr subSchemas) =>
      schemaPush info (KName "oneOf") (VArr subSchemas) ;;
      count <- oneOf_loop v info 0 0 subSchemas ;;
      (if Nat.eqb count 1 then ret tt
       else validation_error (string_of_nat count ++ " oneOf schemas matched")
              v schema info) ;;
      schemaPop info
  | _ => ret tt
  end.

Fixpoint noneOf_loop (v : option value) (schema : value) (info : loc)
  (i : nat) (subSchemas : list value) : M unit :=
  match subSchemas with
  | [] => ret tt
  | subSchema :: rest =>
      schemaPush info (KIndex (Z.of_nat i)) subSchema ;;
      okay <- attempt (rec v subSchema info) ;;
      if okay : bool then
        validation_error ("not[" ++ string_of_nat i ++ "] schema matched")
          v schema info
      else (schemaPop info ;; noneOf_loop v schema info (S i) rest)
  end.

(** [_validateNoneOf]. *)
Definition _validateNoneOf (v : option value) (schema : value) (info : loc)
  : M unit :=
  match get schema "not" with
  | Some (VArr subSchemas) =>
      schemaPush info (KName "not") (VArr subSchemas) ;;
      noneOf_loop v schema info 0 subSchemas ;;
      schemaPop info
  | _ => ret tt
  end.

(** The loop of [_validateArrayContains]; the result tells whether the loop
    left the function through its [return]. *)
Fixpoint contains_loop (containsSchema : value) (info : loc) (i : nat)
  (elements : list value) : M bool :=
  match elements with
  | [] => ret false
  | propertyValue :: rest =>
      valuePush info (KIndex (Z.of_nat i)) (Some propertyValue) ;;
      okay <- attempt (rec (Some propertyValue) containsSchema info) ;;
      if okay : bool then (schemaPop info ;; ret true)
      else (valuePop info ;; contains_loop containsSchema info (S i) rest)
  end.

(** [_validateArrayContains]. *)
Definition _validateArrayContains (elements : list value) (schema : value)
  (info : loc) : M unit :=
  match get schema "contains" with
  | Some (VObj containsFields) =>
      let containsSchema := VObj containsFields in
      schemaPush info (KName "contains") containsSchema ;;
      returned <- contains_loop containsSchema info 0 elements ;;
      if returned : bool then ret tt
      else validation_error "contains schema didn't match"
             (Some (VArr elements)) schema info
  | _ => ret tt
  end.

(** The element loop of [_validateArray]; [whole] is the array itself. *)
Fixpoint array_loop (whole : list value) (schema : value) (info : loc)
  (i : nat) (elements : list value) : M unit :=
  match elements with
  | [] => ret tt
  | propertyValue :: rest =>
      match _getPropertySchema schema (PNumber (Z.of_nat i))
              (Some (VArr whole)) with
      | None =>
          validation_error
            ("No schema found for array[" ++ string_of_nat i ++ "]")
            (Some (VArr whole)) schema info
      | Some (propertySchema, schemaPath) =>
          push_all info schemaPath ;;
          valuePush info (KIndex (Z.of_nat i)) (Some propertyValue) ;;
          rec (Some propertyValue) propertySchema info ;;
          valuePop info ;;
          pop_n info (List.length schemaPath) ;;
          array_loop whole schema info (S i) rest
      end
  end.

(** [_validateArray]. *)
Definition _validateArray (elements : list value) (schema : value)
  (info : loc) : M unit :=
  let v := Some (VArr elements) in
  let len := Z.of_nat (List.length elements) in
  match number_key schema "minItems" with
  | Some m => fail_if (len <? m)%Z "Array length too short" v schema info
  | None => ret tt
  end ;;
  match number_key schema "maxItems" with
  | Some m => fail_if (m <? len)%Z "Array length too long" v schema info
  | None => ret tt
  end ;;
  _validateArrayContains elements schema info ;;
  array_loop elements schema info 0 elements.

(** [properties.has(property)] for an entry of [required]: the set holds
    strings only. *)
Definition Set_has (members : list string) (entry : value) : bool :=
  match entry with
  | VStr s => Props.mem s members
  | _ => false
  end.

Fixpoint required_loop (properties : list string) (v : option value)
  (schema : value) (info : loc) (required : list value) : M unit :=
  match required with
  | [] => ret tt
  | entry :: rest =>
      fail_if (negb (Set_has properties entry))
        ("Missing property " ++ js_to_string entry) v schema info ;;
      required_loop properties v schema info rest
  end.

(** The property loop of [_validateObject]. *)
Fixpoint object_loop (fields : list (string * value)) (schema : value)
  (info : loc) (properties : list string) : M unit :=
  match properties with
  | [] => ret tt
  | name :: rest =>
      match _getPropertySchema schema (PName name) (Some (VObj fields)) with
      | None =>
          validation_error ("No schema found for " ++ name)
            (Some (VObj fields)) schema info
      | Some (propertySchema, schemaPath) =>
          let propertyValue := Props.lookup name fields in
          push_all info schemaPath ;;
          valuePush info (KName name) propertyValue ;;
          rec propertyValue propertySchema info ;;
          valuePop info ;;
          pop_n info (List.length schemaPath) ;;
          object_loop fields schema info rest
      end
  end.

(** [_validateObject]. *)
Definition _validateObject (fields : list (string * value)) (schema : value)
  (info : loc) : M unit :=
  let v := Some (VObj fields) in
  let properties := Props.names fields in
  match get schema "required" with
  | Some (VArr required) => required_loop properties v schema info required
  | _ => ret tt
  end ;;
  match number_key schema "minProperties" with
  | Some m =>
      fail_if (js_lt (Set_length properties) (Some m))
        "Not enough object properties" v schema info
  | None => ret tt
  end ;;
  match number_key schema "maxProperties" with
  | Some m =>
      fail_if (js_lt (Some m) (Set_length properties))
        "Too many object properties" v schema info
  | None => ret tt
  end ;;
  object_loop fields schema info properties.

(** [_validateSingleSchema].  Reading [schema.type] from [null] is a
    [TypeError]; any other schema that is not an object has no keys. *)
Definition _validateSingleSchema (v : option value) (schema : value)
  (info : loc) : M unit :=
  match schema with
  | VNull => throw (TypeError "Cannot read properties of null")
  | _ =>
      let type := _getValueType v in
      let schemaType := get schema "type" in
      fail_if (negb (_isValueTypeAny v type schemaType))
        ("Value type " ++ type ++ " does not match schema type "
           ++ js_to_string_opt schemaType) v schema info ;;
      match get schema "const" with
      | Some schemaConst =>
          fail_if (negb (_valuesAreEqual v (Some schemaConst)))
            "Invalid constant value" v schema info
      | None => ret tt
      end ;;
      match get schema "enum" with
      | Some (VArr schemaEnum) =>
          fail_if (negb (_valuesAreEqualAny v schemaEnum))
            "Invalid enum value" v schema info
      | _ => ret tt
      end ;;
      match v with
      | Some (VNum n) => _validateNumber n schema info
      | Some (VStr s) => _validateString s schema info
      | Some (VArr elements) => _validateArray elements schema info
      | Some (VObj fields) => _validateObject fields schema info
      | _ => ret tt
      end
  end.

(** The body of [_validate]. *)
Definition validate_body (v : option value) (schema : value) (info : loc)
  : M unit :=
  _validateSingleSchema v schema info ;;
  _validateConditional v schema info ;;
  _validateAllOf v schema info ;;
  _validateAnyOf v schema info ;;
  _validateOneOf v schema info ;;
  _validateNoneOf v schema info.

End Clauses.

(** [_validate], with the recursion budget made explicit. *)
Fixpoint _validate (fuel : nat) (v : option value) (schema : value)
  (info : loc) : M unit :=
  match fuel with
  | O => out_of_fuel
  | S n => validate_body (_validate n) v schema info
  end.

(** A budget that covers every chain of nested [_validate] calls: each
    nested call moves to a member of the schema or to a member of the
    value. *)
Definition budget (v : option value) (schema : value) : nat :=
  S (depth_opt v + depth schema).

(** [validate(value, schema)]. *)
Definition validate (v : option value) (schema : value) : M unit :=
  info <- alloc_info v schema ;;
  _validate (budget v schema) v schema info.

(** [isValid(value, schema)]. *)
Definition isValid (v : option value) (schema : value) : M bool :=
  attempt (validate v schema).

End Engine.

(** [isValid] of the source as a function: the traversal info it allocates
    is used by nobody else. *)
Definition is_valid (RegExp : string -> string -> string + (string -> bool))
  (v : option value) (schema : value) : bool :=
  match fst (validate reference RegExp v schema []) with
  | Ok _ => true
  | _ => false
  end.

(* ===================================================================== *)
(** ** Normalization engine *)
(* ===================================================================== *)

(** Modelled from the spec: [clone], the deep copy of core.js, which is not
    among the sources.  The spec calls it a deep copy of a JSON-like value;
    on the immutable trees of this embedding the copy is the tree itself.
    (The guarded view below works on a store of mutable objects, where the
    copy is a fresh object: see [Heap.clone].) *)
Definition clone (v : value) : value := v.

(** [_getDefaultTypeValue]. *)
Definition _getDefaultTypeValue (type : option value) : value :=
  match type with
  | Some (VStr t) =>
      if String.eqb t "null" then VNull
      else if String.eqb t "boolean" then VBool false
      else if String.eqb t "number" then VNum 0
      else if String.eqb t "integer" then VNum 0
      else if String.eqb t "string" then VStr ""
      else if String.eqb t "array" then VArr []
      else if String.eqb t "object" then VObj []
      else VNull
  | _ => VNull
  end.

(** [_getDefaultSchemaValue]. *)
Definition _getDefaultSchemaValue (schema : value) : value :=
  let schemaType := get schema "type" in
  match get schema "default" with
  | Some schemaDefault =>
      if _isValueTypeAny (Some schemaDefault)
           (_getValueType (Some schemaDefault)) schemaType
      then clone schemaDefault
      else _getDefaultTypeValue schemaType
  | None => _getDefaultTypeValue schemaType
  end.

(** [a[i] = x] for an index inside the array. *)
Fixpoint list_set (i : nat) (x : value) (l : list value) : list value :=
  match l, i with
  | [], _ => []
  | _ :: r, O => x :: r
  | y :: r, S j => y :: list_set j x r
  end.

(** [a.splice(start, deleteCount)] for integer arguments. *)
Definition Array_splice (l : list value) (start deleteCount : Z)
  : list value :=
  let len := Z.of_nat (List.length l) in
  let actualStart :=
    if (start <? 0)%Z then Z.max (len + start) 0 else Z.min start len in
  let actualDeleteCount :=
    Z.min (Z.max deleteCount 0) (len - actualStart) in
  firstn (Z.to_nat actualStart) l
    ++ skipn (Z.to_nat (actualStart + actualDeleteCount)) l.

(** [properties.delete(property)] for an entry of [required]. *)
Definition Set_delete (members : list string) (entry : value) : list string :=
  match entry with
  | VStr s => Props.drop s members
  | _ => members
  end.

Section Normalization.

Variable RegExp : string -> string -> string + (string -> bool).

Section Populate.

(** The recursive call [this._getValidValueOrDefault(schema, value, info)];
    [None] is an exhausted recursion budget.  The [info] argument of the
    normalization functions is pushed to and popped from but never read and
    never attached to an error, so the embedding leaves it out. *)
Variable rec : value -> option value -> option value.

(** The loop over [required] in [_populateObjectDefaults]; the state is the
    set of remaining property names and the object under repair.  The
    assignment [value[property] = ...] adds or replaces an own property;
    for an entry that names [__proto__] and an object without such an own
    property the source replaces the prototype of the object instead, which
    is outside the embedding (see the conventions). *)
Fixpoint required_defaults_loop (schema : value) (required : list value)
  (properties : list string) (fields : list (string * value))
  : option (list string * list (string * value)) :=
  match required with
  | [] => Some (properties, fields)
  | entry :: rest =>
      let properties' := Set_delete properties entry in
      let p := property_of_value entry in
      match _getPropertySchema schema p (Some (VObj fields)) with
      | None => required_defaults_loop schema rest properties' fields
      | Some (propertySchema, _) =>
          match rec propertySchema (Props.lookup (property_key p) fields) with
          | Some r =>
              required_defaults_loop schema rest properties'
                (Props.set (property_key p) r fields)
          | None => None
          end
      end
  end.

(** The loop over the remaining properties. *)
Fixpoint other_defaults_loop (schema : value) (properties : list string)
  (fields : list (string * value)) : option (list (string * value)) :=
  match properties with
  | [] => Some fields
  | name :: rest =>
      match _getPropertySchema schema (PName name) (Some (VObj fields)) with
      | None => other_defaults_loop schema rest (Props.remove name fields)
      | Some (propertySchema, _) =>
          match rec propertySchema (Props.lookup name fields) with
          | Some r =>
              other_defaults_loop schema rest (Props.set name r fields)
          | None => None
          end
      end
  end.

(** [_populateObjectDefaults]. *)
Definition _populateObjectDefaults (fields : list (string * value))
  (schema : value) : option value :=
  let properties := Props.names fields in
  match
    match get schema "required" with
    | Some (VArr required) =>
        required_defaults_loop schema required properties fields
    | _ => Some (properties, fields)
    end
  with
  | Some (properties', fields') =>
      option_map VObj (other_defaults_loop schema properties' fields')
  | None => None
  end.

(** The first loop of [_populateArrayDefaults]: [count] iterations remain,
    the next index is [i]. *)
Fixpoint element_defaults_loop (schema : value) (count i : nat)
  (elements : list value) : option (list value) :=
  match count with
  | O => Some elements
  | S c =>
      match _getPropertySchema schema (PNumber (Z.of_nat i))
              (Some (VArr elements)) with
      | None => element_defaults_loop schema c (S i) elements
      | Some (propertySchema, _) =>
          match rec propertySchema (nth_error elements i) with
          | Some r =>
              element_defaults_loop schema c (S i) (list_set i r elements)
          | None => None
          end
      end
  end.

(** The padding loop: [count] is the number of iterations [i < minItems]
    still allows; the next index is the current length. *)
Fixpoint padding_loop (schema : value) (count : nat) (elements : list value)
  : option (list value) :=
  match count with
  | O => Some elements
  | S c =>
      let i := List.length elements in
      match _getPropertySchema schema (PNumber (Z.of_nat i))
              (Some (VArr elements)) with
      | None => Some elements
      | Some (propertySchema, _) =>
          match rec propertySchema None with
          | Some item => padding_loop schema c (elements ++ [item])
          | None => None
          end
      end
  end.

(** [_populateArrayDefaults].  [minItems] and [maxItems] are integers, as
    every number of the embedding; what [splice] does with a fractional
    [maxItems] is outside it. *)
Definition _populateArrayDefaults (elements : list value) (schema : value)
  : option value :=
  match element_defaults_loop schema (List.length elements) 0 elements with
  | Some normalized =>
      let padded :=
        match number_key schema "minItems" with
        | Some minItems =>
            padding_loop schema
              (Z.to_nat (minItems - Z.of_nat (List.length normalized)))
              normalized
        | None => Some normalized
        end in
      match padded with
      | Some l =>
          let len := Z.of_nat (List.length l) in
          Some (VArr
            match number_key schema "maxItems" with
            | Some maxItems =>
                if (maxItems <? len)%Z
                then Array_splice l maxItems (len - maxItems)
                else l
            | None => l
            end)
      | None => None
      end
  | None => None
  end.

(** The body of [_getValidValueOrDefault]. *)
Definition normalize_body (schema : value) (v : option value)
  : option value :=
  let replaced :=
    match v with
    | None => _getDefaultSchemaValue schema
    | Some x =>
        if _isValueTypeAny v (_getValueType v) (get schema "type") then x
        else _getDefaultSchemaValue schema
    end in
  match replaced with
  | VObj fields => _populateObjectDefaults fields schema
  | VArr elements => _populateArrayDefaults elements schema
  | _ =>
      if is_valid RegExp (Some replaced) schema then Some replaced
      else
        let schemaDefault := _getDefaultSchemaValue schema in
        if is_valid RegExp (Some schemaDefault) schema
        then Some schemaDefault
        else Some replaced
  end.

End Populate.

(** [_getValidValueOrDefault], with the recursion budget made explicit. *)
Fixpoint _getValidValueOrDefault (fuel : nat) (schema : value)
  (v : option value) : option value :=
  match fuel with
  | O => None
  | S n => normalize_body (_getValidValueOrDefault n) schema v
  end.

(** A budget that covers every chain of nested calls: a nested call moves
    to a member of the schema, or keeps the unconstrained schema and moves
    to a member of the value; the value itself may have been replaced by a
    default taken from the schema. *)
Definition normalize_budget (schema : value) (v : option value) : nat :=
  S (depth schema + Nat.max (depth schema) (depth_opt v)).

(** [getValidValueOrDefault(schema, value)].  Every schema the engine
    passes down is an object; only the caller's schema can be [null], and
    reading [schema.type] from it is a [TypeError]. *)
Definition getValidValueOrDefault (schema : value) (v : option value)
  : outcome value :=
  match schema with
  | VNull => Throw (TypeError "Cannot read properties of null")
  | _ =>
      match _getValidValueOrDefault (normalize_budget schema v) schema v with
      | Some r => Ok r
      | None => OutOfFuel
      end
  end.

End Normalization.

(* ===================================================================== *)
(** ** Mutable objects *)
(* ===================================================================== *)

(** The guarded view mutates its backing value in place and is handed
    values its caller may keep using, so this part of the embedding works on
    a store of mutable objects addressed by reference. *)
Module Heap.

Definition ref := nat.

(** What a property or an array element holds.  [SUndefined] is an array
    hole; it only arises when a write to [length] extends an array. *)
Inductive slot : Type :=
| SUndefined
| SNull
| SBool (b : bool)
| SNum (n : Z)
| SStr (s : string)
| SRef (r : ref).

(** An array has its elements and, like every JavaScript array, possibly
    named own properties next to them. *)
Inductive object : Type :=
| Array (elements : list slot) (named : list (string * slot))
| Object (fields : list (string * slot)).

Definition heap := list object.

Fixpoint lookup (k : string) (fs : list (string * slot)) : option slot :=
  match fs with
  | [] => None
  | (k', v) :: r => if String.eqb k k' then Some v else lookup k r
  end.

Fixpoint put (k : string) (v : slot) (fs : list (string * slot))
  : list (string * slot) :=
  match fs with
  | [] => [(k, v)]
  | (k', v') :: r =>
      if String.eqb k k' then (k', v) :: r else (k', v') :: put k v r
  end.

Fixpoint remove (k : string) (fs : list (string * slot))
  : list (string * slot) :=
  match fs with
  | [] => []
  | (k', v') :: r =>
      if String.eqb k k' then remove k r else (k', v') :: remove k r
  end.

(** [a[i] = v] for [i <= a.length]: replaces an element or appends one. *)
Fixpoint put_index (i : nat) (v : slot) (l : list slot) : list slot :=
  match l, i with
  | [], _ => [v]
  | _ :: r, O => v :: r
  | x :: r, S j => x :: put_index j v r
  end.

Fixpoint store_at (r : ref) (o : object) (h : heap) : heap :=
  match h, r with
  | [], _ => []
  | _ :: t, O => o :: t
  | x :: t, S j => x :: store_at j o t
  end.

(** [f] applied to every element, if it succeeds on each. *)
Fixpoint view_items (f : slot -> option value) (l : list slot)
  : option (list value) :=
  match l with
  | [] => Some []
  | x :: t =>
      match f x, view_items f t with
      | Some vx, Some vt => Some (vx :: vt)
      | _, _ => None
      end
  end.

Fixpoint view_fields (f : slot -> option value) (l : list (string * slot))
  : option (list (string * value)) :=
  match l with
  | [] => Some []
  | (k, x) :: t =>
      match f x, view_fields f t with
      | Some vx, Some vt => Some ((k, vx) :: vt)
      | _, _ => None
      end
  end.

(** The JSON content reachable from a slot, if it is JSON-like: no hole
    and, within the budget, no cycle.  Named properties of arrays are not
    part of the JSON content. *)
Fixpoint view (h : heap) (fuel : nat) (s : slot) : option value :=
  match s with
  | SUndefined => None
  | SNull => Some VNull
  | SBool b => Some (VBool b)
  | SNum n => Some (VNum n)
  | SStr x => Some (VStr x)
  | SRef r =>
      match fuel with
      | O => None
      | S n =>
          match nth_error h r with
          | Some (Array elements _) =>
              option_map VArr (view_items (view h n) elements)
          | Some (Object fields) =>
              option_map VObj (view_fields (view h n) fields)
          | None => None
          end
      end
  end.

Section Alloc.
Variable alloc : value -> heap -> heap * slot.

Fixpoint alloc_items (l : list value) (h : heap) : heap * list slot :=
  match l with
  | [] => (h, [])
  | x :: t =>
      let '(h1, s) := alloc x h in
      let '(h2, ss) := alloc_items t h1 in
      (h2, s :: ss)
  end.

Fixpoint alloc_fields (l : list (string * value)) (h : heap)
  : heap * list (string * slot) :=
  match l with
  | [] => (h, [])
  | (k, x) :: t =>
      let '(h1, s) := alloc x h in
      let '(h2, ss) := alloc_fields t h1 in
      (h2, (k, s) :: ss)
  end.
End Alloc.

(** Builds fresh objects holding a JSON value; returns the extended heap
    and the slot that denotes the value. *)
Fixpoint alloc (v : value) (h : heap) : heap * slot :=
  match v with
  | VNull => (h, SNull)
  | VBool b => (h, SBool b)
  | VNum n => (h, SNum n)
  | VStr s => (h, SStr s)
  | VArr l =>
      let '(h1, slots) := alloc_items alloc l h in
      (h1 ++ [Array slots []], SRef (List.length h1))
  | VObj fs =>
      let '(h1, slots) := alloc_fields alloc fs h in
      (h1 ++ [Object slots], SRef (List.length h1))
  end.

(** Modelled from the spec: [clone], the deep copy of core.js, which is not
    among the sources.  The spec has the guarded view deep-copy the written
    value so that the caller retains no live alias into the target.  The
    copy of a JSON-like value is built from fresh objects; the result is the
    JSON content of the copy, the extended heap and the slot of the copy.
    The copy of [undefined] is [undefined].  There is no copy ([None]) of
    any other value that is not JSON-like. *)
Definition clone (h : heap) (v : slot)
  : option (option value * heap * slot) :=
  match v with
  | SUndefined => Some (None, h, SUndefined)
  | _ =>
      match view h (S (List.length h)) v with
      | Some content =>
          let '(h', copy) := alloc content h in Some (Some content, h', copy)
      | None => None
      end
  end.

End Heap.

(* ===================================================================== *)
(** ** Guarded view *)
(* ===================================================================== *)

(** The state a handler call runs in: the mutable objects and the
    traversal info objects. *)
Record state : Type := mkState {
  objects : Heap.heap;
  infos : store
}.

Definition P (A : Type) : Type := state -> outcome A * state.

(** The navigator inspects its [value] argument only through
    [_getValueType]; for a target in the heap the embedding passes a value
    of the same runtime type. *)
Definition runtime_type_of (o : Heap.object) : value :=
  match o with
  | Heap.Array _ _ => VArr []
  | Heap.Object _ => VObj []
  end.

(** [target[property] = value] on the object behind a guarded write, for
    a property other than [__proto__] (see the conventions). *)
Definition assign (o : Heap.object) (p : property) (v : Heap.slot)
  : Heap.object :=
  match o, p with
  | Heap.Array elements named, PNumber n =>
      Heap.Array (Heap.put_index (Z.to_nat n) v elements) named
  | Heap.Array elements named, PName k =>
      Heap.Array elements (Heap.put k v named)
  | Heap.Object fields, _ => Heap.Object (Heap.put (property_key p) v fields)
  end.

Section GuardedView.

Variable RegExp : string -> string -> string + (string -> bool).

(** [ToNumber] of the runtime for a string or an object (StringToNumber,
    ToPrimitive), which the repository does not define; [None] when the
    result is no integer. *)
Variable ToNumber_other : Heap.heap -> Heap.slot -> option Z.

Definition ToNumber (h : Heap.heap) (v : Heap.slot) : option Z :=
  match v with
  | Heap.SNum n => Some n
  | Heap.SNull => Some 0%Z
  | Heap.SBool true => Some 1%Z
  | Heap.SBool false => Some 0%Z
  | Heap.SUndefined => None
  | _ => ToNumber_other h v
  end.

(** [a.length = v] as the runtime performs it on an array: the value must
    convert to an integer in [0, 2^32), otherwise the assignment throws a
    RangeError ([None]); the array is cut or extended with holes. *)
Definition Array_set_length (h : Heap.heap) (elements : list Heap.slot)
  (v : Heap.slot) : option (list Heap.slot) :=
  match ToNumber h v with
  | Some n =>
      if (0 <=? n)%Z && (n <? 2 ^ 32)%Z then
        Some (firstn (Z.to_nat n) elements
                ++ repeat Heap.SUndefined
                     (Z.to_nat n - List.length elements))
      else None
  | None => None
  end.

(** Lines 86-88 of [set]: [target[property] = value; return true] for an
    array and a key that is not all digits.  Two such keys are no ordinary
    property names: [length] resizes the array, and [__proto__] (see the
    conventions) is outside the embedding. *)
Definition direct_write (target : Heap.ref) (elements : list Heap.slot)
  (named : list (string * Heap.slot)) (property : string) (v : Heap.slot)
  : P bool :=
  fun w =>
    if String.eqb property "length" then
      match Array_set_length (objects w) elements v with
      | Some elements' =>
          (Ok true,
           mkState
             (Heap.store_at target (Heap.Array elements' named) (objects w))
             (infos w))
      | None => (Throw (RangeError "Invalid array length"), w)
      end
    else
      (Ok true,
       mkState
         (Heap.store_at target
            (Heap.Array elements (Heap.put property v named)) (objects w))
         (infos w)).

(** [this._jsonSchemaValidator.getPropertySchema(this._schema, property,
    target)] as a handler calls it.  The schema of a view is whatever
    [createProxy] was given; the navigator starts by reading [schema.type],
    which is a [TypeError] when that schema is [null]. *)
Definition resolve (schema : value) (p : property) (o : Heap.object)
  : outcome (option value) :=
  match schema with
  | VNull => Throw (TypeError "Cannot read properties of null")
  | _ => Ok (getPropertySchema schema p (Some (runtime_type_of o)))
  end.

(** Lines 92-102 of [set]: resolve, clone, validate, commit. *)
Definition guarded_write (schema : value) (target : Heap.ref)
  (o : Heap.object) (p : property) (v : Heap.slot) : P bool :=
  fun w =>
    match resolve schema p o with
    | Throw e => (Throw e, w)
    | OutOfFuel => (OutOfFuel, w)
    | Ok None =>
        (Throw (Error ("Property " ++ property_key p ++ " not supported")), w)
    | Ok (Some propertySchema) =>
        match Heap.clone (objects w) v with
        | None => (Throw (Error "Circular"), w)
        | Some (content, h', copy) =>
            match validate reference RegExp content propertySchema (infos w) with
            | (Ok _, st') =>
                (Ok true,
                 mkState (Heap.store_at target (assign o p copy) h') st')
            | (Throw e, st') => (Throw e, mkState h' st')
            | (OutOfFuel, st') => (OutOfFuel, mkState h' st')
            end
        end
    end.

(** [JsonSchemaProxyHandler.set(target, property, value)] for a string
    [property]; [schema] is [this._schema]. *)
Definition set (schema : value) (target : Heap.ref) (property : string)
  (v : Heap.slot) : P bool :=
  fun w =>
    match nth_error (objects w) target with
    | None => (Throw (TypeError "target is not an object"), w)
    | Some (Heap.Array elements named) =>
        match parse_decimal property with
        | Some n =>
            if List.length elements <? n
            then (Throw (Error "Array index out of range"), w)
            else guarded_write schema target (Heap.Array elements named)
                   (PNumber (Z.of_nat n)) v w
        | None => direct_write target elements named property v w
        end
    | Some (Heap.Object fields) =>
        guarded_write schema target (Heap.Object fields) (PName property) v w
    end.

(** [required.includes(property)] for a string [property]. *)
Definition includes (required : list value) (property : string) : bool :=
  existsb (fun entry => _valuesAreEqual (Some entry) (Some (VStr property)))
    required.

(** [Reflect.deleteProperty(target, property)]: deleting an element leaves
    a hole; [length] cannot be deleted. *)
Definition Reflect_deleteProperty (o : Heap.object) (property : string)
  : bool * Heap.object :=
  match o with
  | Heap.Object fields => (true, Heap.Object (Heap.remove property fields))
  | Heap.Array elements named =>
      if String.eqb property "length" then (false, o)
      else
        match array_index property with
        | Some i =>
            (true,
             Heap.Array
               (if i <? List.length elements
                then Heap.put_index i Heap.SUndefined elements
                else elements) named)
        | None => (true, Heap.Array elements (Heap.remove property named))
        end
  end.

(** [JsonSchemaProxyHandler.deleteProperty(target, property)].  The
    handler starts by reading [this._schema.required], a [TypeError] when
    the schema of the view is [null]. *)
Definition deleteProperty (schema : value) (target : Heap.ref)
  (property : string) : P bool :=
  fun w =>
    match nth_error (objects w) target with
    | None => (Throw (TypeError "target is not an object"), w)
    | Some o =>
        match schema with
        | VNull => (Throw (TypeError "Cannot read properties of null"), w)
        | _ =>
            match get schema "required" with
            | Some (VArr required) =>
                if includes required property
                then (Throw (Error (property ++ " cannot be deleted")), w)
                else
                  let '(deleted, o') := Reflect_deleteProperty o property in
                  (Ok deleted,
                   mkState (Heap.store_at target o' (objects w)) (infos w))
            | _ =>
                let '(deleted, o') := Reflect_deleteProperty o property in
                (Ok deleted,
                 mkState (Heap.store_at target o' (objects w)) (infos w))
            end
        end
    end.

End GuardedView.

(* ===================================================================== *)
(** ** The validator with its pattern cache *)
(* ===================================================================== *)

(** The character [c] occurs in [s]. *)
Fixpoint mentions (c : ascii) (s : string) : bool :=
  match s with
  | EmptyString => false
  | String c' r => Ascii.eqb c c' || mentions c r
  end.

(** The engine above takes [regex.test(value)] as a function of [value].
    The validator of the source keeps every compiled pattern in
    [this._regexCache] and tests the cached object, and a [RegExp] object
    whose flags include [g] or [y] remembers in [lastIndex] where its last
    match ended.  This module embeds the engine once more with that state:
    the trails as before, and the cache with the patterns it holds.  Every
    function that does not reach [_validateString] is taken over from the
    engine above. *)
Module Cached.

(** A [RegExp] object: whether its flags make it keep a position between
    tests (flag [g] or [y]); its matcher, where [exec s i] is the index
    just after the match found when matching starts at index [i] of [s] (a
    search from [i] onwards or, for a sticky pattern, a match at [i]
    itself); and its [lastIndex]. *)
Record RegExp_object : Type := mkRegExp {
  resumes : bool;
  exec : string -> nat -> option nat;
  lastIndex : nat
}.

(** [regex.test(s)], as the runtime defines it (RegExpBuiltinExec).  A
    pattern that keeps no position is matched from index 0 and its
    [lastIndex] is left alone.  Any other pattern is matched from its
    [lastIndex], which becomes the index after the match, or 0 when there
    is none.  The result is the outcome and the object as the test leaves
    it. *)
Definition test (regex : RegExp_object) (s : string)
  : bool * RegExp_object :=
  if resumes regex then
    match exec regex s (lastIndex regex) with
    | Some e => (true, mkRegExp true (exec regex) e)
    | None => (false, mkRegExp true (exec regex) 0)
    end
  else
    (match exec regex s 0 with Some _ => true | None => false end, regex).

(** Modelled from the spec: the Regex Cache ([CacheMap], which is not among
    the sources), a bounded key-to-compiled-pattern cache that supplies
    compiled patterns to the validator and evicts entries when its capacity
    is exceeded.  The entries are kept in the order they were stored, the
    latest first, and the entries stored longest ago are the ones
    evicted. *)
Record CacheMap : Type := mkCacheMap {
  maxSize : nat;
  entries : list (string * RegExp_object)
}.

(** [new CacheMap(maxSize)]. *)
Definition new_CacheMap (maxSize : nat) : CacheMap := mkCacheMap maxSize [].

Fixpoint find (key : string) (l : list (string * RegExp_object))
  : option RegExp_object :=
  match l with
  | [] => None
  | (k, regex) :: r => if String.eqb key k then Some regex else find key r
  end.

Fixpoint without (key : string) (l : list (string * RegExp_object))
  : list (string * RegExp_object) :=
  match l with
  | [] => []
  | (k, regex) :: r =>
      if String.eqb key k then without key r else (k, regex) :: without key r
  end.

(** [cache.get(key)]; [None] is [undefined]. *)
Definition CacheMap_get (key : string) (cache : CacheMap)
  : option RegExp_object :=
  find key (entries cache).

(** [cache.set(key, value)]. *)
Definition CacheMap_set (key : string) (regex : RegExp_object)
  (cache : CacheMap) : CacheMap :=
  mkCacheMap (maxSize cache)
    (firstn (maxSize cache) ((key, regex) :: without key (entries cache))).

(** [cache.clear()]. *)
Definition CacheMap_clear (cache : CacheMap) : CacheMap :=
  mkCacheMap (maxSize cache) [].

(** The cache holds references.  A test changes the [RegExp] object it is
    applied to, and the cache sees the change when the object is one of its
    entries: the entry under the key of the object is replaced by the
    object as the test left it. *)
Fixpoint replace (key : string) (regex : RegExp_object)
  (l : list (string * RegExp_object)) : list (string * RegExp_object) :=
  match l with
  | [] => []
  | (k, old) :: r =>
      if String.eqb key k then (k, regex) :: r
      else (k, old) :: replace key regex r
  end.

Definition mutated (key : string) (regex : RegExp_object) (cache : CacheMap)
  : CacheMap :=
  mkCacheMap (maxSize cache) (replace key regex (entries cache)).

(** The state a validation runs in: the traversal info objects and the
    [_regexCache] of the validator. *)
Record world : Type := mkWorld {
  trails : store;
  _regexCache : CacheMap
}.

(** [new JsonSchemaValidator()], with no traversal info allocated yet. *)
Definition new_JsonSchemaValidator : world := mkWorld [] (new_CacheMap 100).

(** [clearCache]. *)
Definition clearCache (w : world) : world :=
  mkWorld (trails w) (CacheMap_clear (_regexCache w)).

Definition C (A : Type) : Type := world -> outcome A * world.

Definition retC {A} (a : A) : C A := fun w => (Ok a, w).

Definition bindC {A B} (m : C A) (k : A -> C B) : C B :=
  fun w =>
    match m w with
    | (Ok a, w') => k a w'
    | (Throw e, w') => (Throw e, w')
    | (OutOfFuel, w') => (OutOfFuel, w')
    end.

Definition out_of_fuelC {A} : C A := fun w => (OutOfFuel, w).

(** [try { m; ... } catch (e) { }]: whether [m] completed.  What [m] did to
    the trails and to the cached patterns before throwing stays done. *)
Definition attemptC {A} (m : C A) : C bool :=
  fun w =>
    match m w with
    | (Ok _, w') => (Ok true, w')
    | (Throw _, w') => (Ok false, w')
    | (OutOfFuel, w') => (OutOfFuel, w')
    end.

(** A step of the engine above, which works on the trails only. *)
Definition lift {A} (m : M A) : C A :=
  fun w =>
    let '(o, st) := m (trails w) in (o, mkWorld st (_regexCache w)).

Declare Scope cached_scope.
Delimit Scope cached_scope with cached.
Notation "x <- m ;; k" := (bindC m (fun x => k))
  (at level 61, m at next level, right associativity) : cached_scope.
Notation "m ;; k" := (bindC m (fun _ => k))
  (at level 61, right associativity) : cached_scope.
Local Open Scope cached_scope.

Section Engine.

Variable keep : loc -> store -> path_info.

(** What the runtime makes of a pattern and its flags: the message of the
    SyntaxError that [new RegExp(pattern, flags)] throws, or the matcher of
    the compiled pattern. *)
Variable compile : string -> string -> string + (string -> nat -> option nat).

(** [new RegExp(pattern, flags)]: a new object starts at [lastIndex] 0. *)
Definition new_RegExp (pattern flags : string) : string + RegExp_object :=
  match compile pattern flags with
  | inl message => inl message
  | inr matcher =>
      inr (mkRegExp (mentions "g" flags || mentions "y" flags) matcher 0)
  end.

(** The key of [_getRegex]: [`${flags}:${pattern}`]. *)
Definition cache_key (pattern flags : string) : string :=
  (flags ++ ":" ++ pattern)%string.

(** [try { regex = this._getRegex(pattern, flags); } catch (e) ...]: the
    message of the error caught, or the pattern returned.  A pattern found
    in the cache is returned as it is, with the [lastIndex] its last test
    left; a pattern that does not compile is not stored. *)
Definition _getRegex (pattern flags : string) (w : world)
  : (string + RegExp_object) * world :=
  let key := cache_key pattern flags in
  match CacheMap_get key (_regexCache w) with
  | Some regex => (inr regex, w)
  | None =>
      match new_RegExp pattern flags with
      | inl message => (inl message, w)
      | inr regex =>
          (inr regex,
           mkWorld (trails w) (CacheMap_set key regex (_regexCache w)))
      end
  end.

(** [_validateString]. *)
Definition _validateString (s : string) (schema : value) (info : loc)
  : C unit :=
  let v := Some (VStr s) in
  let len := Z.of_nat (utf16_length s) in
  lift match number_key schema "minLength" with
       | Some m =>
           fail_if keep (len <? m)%Z "String length too short" v schema info
       | None => ret tt
       end ;;
  lift match number_key schema "maxLength" with
       | Some m =>
           fail_if keep (m <? len)%Z "String length too long" v schema info
       | None => ret tt
       end ;;
  match get schema "pattern" with
  | Some (VStr pattern) =>
      let patternFlags :=
        match get schema "patternFlags" with
        | Some (VStr f) => f
        | _ => ""
        end in
      fun w =>
        match _getRegex pattern patternFlags w with
        | (inl message, w1) =>
            lift (validation_error keep
                    ("Pattern is invalid (" ++ message ++ ")") v schema info)
              w1
        | (inr regex, w1) =>
            let '(matched, regex') := test regex s in
            lift (fail_if keep (negb matched) "Pattern match failed"
                    v schema info)
              (mkWorld (trails w1)
                 (mutated (cache_key pattern patternFlags) regex'
                    (_regexCache w1)))
        end
  | _ => retC tt
  end.

Section Clauses.

(** The recursive call [this._validate(value, schema, info)]. *)
Variable rec : option value -> value -> loc -> C unit.

(** [_validateConditional]. *)
Definition _validateConditional (v : option value) (schema : value)
  (info : loc) : C unit :=
  match get schema "if" with
  | Some (VObj ifFields) =>
      let ifSchema := VObj ifFields in
      lift (schemaPush info (KName "if") ifSchema) ;;
      okay <- attemptC (rec v ifSchema info) ;;
      lift (schemaPop info) ;;
      match (if okay : bool then get schema "then" else get schema "else") with
      | Some (VObj nextFields) =>
          let nextSchema := VObj nextFields in
          lift (schemaPush info
                  (KName (if okay : bool then "then" else "else"))
                  nextSchema) ;;
          rec v nextSchema info ;;
          lift (schemaPop info)
      | _ => retC tt
      end
  | _ => retC tt
  end.

Fixpoint allOf_loop (v : option value) (info : loc) (i : nat)
  (subSchemas : list value) : C unit :=
  match subSchemas with
  | [] => retC tt
  | subSchema :: rest =>
      lift (schemaPush info (KIndex (Z.of_nat i)) subSchema) ;;
      rec v subSchema info ;;
      lift (schemaPop info) ;;
      allOf_loop v info (S i) rest
  end.

(** [_validateAllOf]. *)
Definition _validateAllOf (v : option value) (schema : value) (info : loc)
  : C unit :=
  match get schema "allOf" with
  | Some (VArr subSchemas) =>
      lift (schemaPush info (KName "allOf") (VArr subSchemas)) ;;
      allOf_loop v info 0 subSchemas ;;
      lift (schemaPop info)
  | _ => retC tt
  end.

Fixpoint anyOf_loop (v : option value) (info : loc) (i : nat)
  (subSchemas : list value) : C bool :=
  match subSchemas with
  | [] => retC false
  | subSchema :: rest =>
      lift (schemaPush info (KIndex (Z.of_nat i)) subSchema) ;;
      okay <- attemptC (rec v subSchema info) ;;
      if okay : bool then retC true
      else (lift (schemaPop info) ;; anyOf_loop v info (S i) rest)
  end.

(** [_validateAnyOf]. *)
Definition _validateAnyOf (v : option value) (schema : value) (info : loc)
  : C unit :=
  match get schema "anyOf" with
  | Some (VArr subSchemas) =>
      lift (schemaPush info (KName "anyOf") (VArr subSchemas)) ;;
      returned <- anyOf_loop v info 0 subSchemas ;;
      if returned : bool then retC tt
      else lift (validation_error keep "0 anyOf schemas matched"
                   v schema info)
  | _ => retC tt
  end.

Fixpoint oneOf_loop (v : option value) (info : loc) (i : nat) (count : nat)
  (subSchemas : list value) : C nat :=
  match subSchemas with
  | [] => retC count
  | subSchema :: rest =>
      lift (schemaPush info (KIndex (Z.of_nat i)) subSchema) ;;
      okay <- attemptC (rec v subSchema info) ;;
      lift (schemaPop info) ;;
      oneOf_loop v info (S i) (if okay : bool then S count else count) rest
  end.

(** [_validateOneOf]. *)
Definition _validateOneOf (v : option value) (schema : value) (info : loc)
  : C unit :=
  match get schema "oneOf" with
  | Some (VArr subSchemas) =>
      lift (schemaPush info (KName "oneOf") (VArr subSchemas)) ;;
      count <- oneOf_loop v info 0 0 subSchemas ;;
      (if Nat.eqb count 1 then retC tt
       else lift (validation_error keep
                    (string_of_nat count ++ " oneOf schemas matched")
                    v schema info)) ;;
      lift (schemaPop info)
  | _ => retC tt
  end.

Fixpoint noneOf_loop (v : option value) (schema : value) (info : loc)
  (i : nat) (subSchemas : list value) : C unit :=
  match subSchemas with
  | [] => retC tt
  | subSchema :: rest =>
      lift (schemaPush info (KIndex (Z.of_nat i)) subSchema) ;;
      okay <- attemptC (rec v subSchema info) ;;
      if okay : bool then
        lift (validation_error keep
                ("not[" ++ string_of_nat i ++ "] schema matched")
                v schema info)
      else (lift (schemaPop info) ;; noneOf_loop v schema info (S i) rest)
  end.

(** [_validateNoneOf]. *)
Definition _validateNoneOf (v : option value) (schema : value) (info : loc)
  : C unit :=
  match get schema "not" with
  | Some (VArr subSchemas) =>
      lift (schemaPush info (KName "not") (VArr subSchemas)) ;;
      noneOf_loop v schema info 0 subSchemas ;;
      lift (schemaPop info)
  | _ => retC tt
  end.

Fixpoint contains_loop (containsSchema : value) (info : loc) (i : nat)
  (elements : list value) : C bool :=
  match elements with
  | [] => retC false
  | propertyValue :: rest =>
      lift (valuePush info (KIndex (Z.of_nat i)) (Some propertyValue)) ;;
      okay <- attemptC (rec (Some propertyValue) containsSchema info) ;;
      if okay : bool then (lift (schemaPop info) ;; retC true)
      else (lift (valuePop info) ;;
            contains_loop containsSchema info (S i) rest)
  end.

(** [_validateArrayContains]. *)
Definition _validateArrayContains (elements : list value) (schema : value)
  (info : loc) : C unit :=
  match get schema "contains" with
  | Some (VObj containsFields) =>
      let containsSchema := VObj containsFields in
      lift (schemaPush info (KName "contains") containsSchema) ;;
      returned <- contains_loop containsSchema info 0 elements ;;
      if returned : bool then retC tt
      else lift (validation_error keep "contains schema didn't match"
                   (Some (VArr elements)) schema info)
  | _ => retC tt
  end.

Fixpoint array_loop (whole : list value) (schema : value) (info : loc)
  (i : nat) (elements : list value) : C unit :=
  match elements with
  | [] => retC tt
  | propertyValue :: rest =>
      match _getPropertySchema schema (PNumber (Z.of_nat i))
              (Some (VArr whole)) with
      | None =>
          lift (validation_error keep
                  ("No schema found for array[" ++ string_of_nat i ++ "]")
                  (Some (VArr whole)) schema info)
      | Some (propertySchema, schemaPath) =>
          lift (push_all info schemaPath) ;;
          lift (valuePush info (KIndex (Z.of_nat i)) (Some propertyValue)) ;;
          rec (Some propertyValue) propertySchema info ;;
          lift (valuePop info) ;;
          lift (pop_n info (List.length schemaPath)) ;;
          array_loop whole schema info (S i) rest
      end
  end.

(** [_validateArray]. *)
Definition _validateArray (elements : list value) (schema : value)
  (info : loc) : C unit :=
  let v := Some (VArr elements) in
  let len := Z.of_nat (List.length elements) in
  lift match number_key schema "minItems" with
       | Some m =>
           fail_if keep (len <? m)%Z "Array length too short" v schema info
       | None => ret tt
       end ;;
  lift match number_key schema "maxItems" with
       | Some m =>
           fail_if keep (m <? len)%Z "Array length too long" v schema info
       | None => ret tt
       end ;;
  _validateArrayContains elements schema info ;;
  array_loop elements schema info 0 elements.

Fixpoint object_loop (fields : list (string * value)) (schema : value)
  (info : loc) (properties : list string) : C unit :=
  match properties with
  | [] => retC tt
  | name :: rest =>
      match _getPropertySchema schema (PName name) (Some (VObj fields)) with
      | None =>
          lift (validation_error keep ("No schema found for " ++ name)
                  (Some (VObj fields)) schema info)
      | Some (propertySchema, schemaPath) =>
          let propertyValue := Props.lookup name fields in
          lift (push_all info schemaPath) ;;
          lift (valuePush info (KName name) propertyValue) ;;
          rec propertyValue propertySchema info ;;
          lift (valuePop info) ;;
          lift (pop_n info (List.length schemaPath)) ;;
          object_loop fields schema info rest
      end
  end.

(** [_validateObject]. *)
Definition _validateObject (fields : list (string * value)) (schema : value)
  (info : loc) : C unit :=
  let v := Some (VObj fields) in
  let properties := Props.names fields in
  lift match get schema "required" with
       | Some (VArr required) =>
           required_loop keep properties v schema info required
       | _ => ret tt
       end ;;
  lift match number_key schema "minProperties" with
       | Some m =>
           fail_if keep (js_lt (Set_length properties) (Some m))
             "Not enough object properties" v schema info
       | None => ret tt
       end ;;
  lift match number_key schema "maxProperties" with
       | Some m =>
           fail_if keep (js_lt (Some m) (Set_length properties))
             "Too many object properties" v schema info
       | None => ret tt
       end ;;
  object_loop fields schema info properties.

(** [_validateSingleSchema]. *)
Definition _validateSingleSchema (v : option value) (schema : value)
  (info : loc) : C unit :=
  match schema with
  | VNull => lift (throw (TypeError "Cannot read properties of null"))
  | _ =>
      let type := _getValueType v in
      let schemaType := get schema "type" in
      lift (fail_if keep (negb (_isValueTypeAny v type schemaType))
              ("Value type " ++ type ++ " does not match schema type "
                 ++ js_to_string_opt schemaType) v schema info) ;;
      lift match get schema "const" with
           | Some schemaConst =>
               fail_if keep (negb (_valuesAreEqual v (Some schemaConst)))
                 "Invalid constant value" v schema info
           | None => ret tt
           end ;;
      lift match get schema "enum" with
           | Some (VArr schemaEnum) =>
               fail_if keep (negb (_valuesAreEqualAny v schemaEnum))
                 "Invalid enum value" v schema info
           | _ => ret tt
           end ;;
      match v with
      | Some (VNum n) => lift (_validateNumber keep n schema info)
      | Some (VStr s) => _validateString s schema info
      | Some (VArr elements) => _validateArray elements schema info
      | Some (VObj fields) => _validateObject fields schema info
      | _ => retC tt
      end
  end.

(** The body of [_validate]. *)
Definition validate_body (v : option value) (schema : value) (info : loc)
  : C unit :=
  _validateSingleSchema v schema info ;;
  _validateConditional v schema info ;;
  _validateAllOf v schema info ;;
  _validateAnyOf v schema info ;;
  _validateOneOf v schema info ;;
  _validateNoneOf v schema info.

End Clauses.

(** [_validate], with the recursion budget made explicit. *)
Fixpoint _validate (fuel : nat) (v : option value) (schema : value)
  (info : loc) : C unit :=
  match fuel with
  | O => out_of_fuelC
  | S n => validate_body (_validate n) v schema info
  end.

(** [_validate] at the budget [validate] gives it. *)
Definition run (v : option value) (schema : value) (info : loc) : C unit :=
  _validate (budget v schema) v schema info.

(** [validate(value, schema)]. *)
Definition validate (v : option value) (schema : value) : C unit :=
  info <- lift (alloc_info v schema) ;;
  run v schema info.

(** [isValid(value, schema)]. *)
Definition isValid (v : option value) (schema : value) : C bool :=
  attemptC (validate v schema).

End Engine.

(** The normalization engine on the same state: it reaches the cache
    through [this.isValid]. *)
Section Normalization.

Variable compile : string -> string -> string + (string -> nat -> option nat).

(** A normalization step: its result, or [None] for an exhausted recursion
    budget, and the state it leaves. *)
Definition N (A : Type) : Type := world -> option A * world.

Definition retN {A} (a : A) : N A := fun w => (Some a, w).

Definition bindN {A B} (m : N A) (k : A -> N B) : N B :=
  fun w =>
    match m w with
    | (Some a, w') => k a w'
    | (None, w') => (None, w')
    end.

(** [this.isValid(value, schema)]: the errors of the validation carry
    their reference to the traversal info, as in the source. *)
Definition valid (v : option value) (schema : value) : N bool :=
  fun w =>
    match isValid reference compile v schema w with
    | (Ok b, w') => (Some b, w')
    | (_, w') => (None, w')
    end.

Section Populate.

(** The recursive call [this._getValidValueOrDefault(schema, value, info)]. *)
Variable rec : value -> option value -> N value.

Fixpoint required_defaults_loop (schema : value) (required : list value)
  (properties : list string) (fields : list (string * value))
  : N (list string * list (string * value)) :=
  match required with
  | [] => retN (properties, fields)
  | entry :: rest =>
      let properties' := Set_delete properties entry in
      let p := property_of_value entry in
      match _getPropertySchema schema p (Some (VObj fields)) with
      | None => required_defaults_loop schema rest properties' fields
      | Some (propertySchema, _) =>
          bindN (rec propertySchema (Props.lookup (property_key p) fields))
            (fun r =>
               required_defaults_loop schema rest properties'
                 (Props.set (property_key p) r fields))
      end
  end.

Fixpoint other_defaults_loop (schema : value) (properties : list string)
  (fields : list (string * value)) : N (list (string * value)) :=
  match properties with
  | [] => retN fields
  | name :: rest =>
      match _getPropertySchema schema (PName name) (Some (VObj fields)) with
      | None => other_defaults_loop schema rest (Props.remove name fields)
      | Some (propertySchema, _) =>
          bindN (rec propertySchema (Props.lookup name fields))
            (fun r => other_defaults_loop schema rest (Props.set name r fields))
      end
  end.

(** [_populateObjectDefaults]. *)
Definition _populateObjectDefaults (fields : list (string * value))
  (schema : value) : N value :=
  let properties := Props.names fields in
  bindN
    match get schema "required" with
    | Some (VArr required) =>
        required_defaults_loop schema required properties fields
    | _ => retN (properties, fields)
    end
    (fun state =>
       bindN (other_defaults_loop schema (fst state) (snd state))
         (fun fields' => retN (VObj fields'))).

Fixpoint element_defaults_loop (schema : value) (count i : nat)
  (elements : list value) : N (list value) :=
  match count with
  | O => retN elements
  | S c =>
      match _getPropertySchema schema (PNumber (Z.of_nat i))
              (Some (VArr elements)) with
      | None => element_defaults_loop schema c (S i) elements
      | Some (propertySchema, _) =>
          bindN (rec propertySchema (nth_error elements i))
            (fun r =>
               element_defaults_loop schema c (S i) (list_set i r elements))
      end
  end.

Fixpoint padding_loop (schema : value) (count : nat) (elements : list value)
  : N (list value) :=
  match count with
  | O => retN elements
  | S c =>
      let i := List.length elements in
      match _getPropertySchema schema (PNumber (Z.of_nat i))
              (Some (VArr elements)) with
      | None => retN elements
      | Some (propertySchema, _) =>
          bindN (rec propertySchema None)
            (fun item => padding_loop schema c (elements ++ [item]))
      end
  end.

(** [_populateArrayDefaults]. *)
Definition _populateArrayDefaults (elements : list value) (schema : value)
  : N value :=
  bindN (element_defaults_loop schema (List.length elements) 0 elements)
    (fun normalized =>
       bindN
         match number_key schema "minItems" with
         | Some minItems =>
             padding_loop schema
               (Z.to_nat (minItems - Z.of_nat (List.length normalized)))
               normalized
         | None => retN normalized
         end
         (fun l =>
            let len := Z.of_nat (List.length l) in
            retN (VArr
              match number_key schema "maxItems" with
              | Some maxItems =>
                  if (maxItems <? len)%Z
                  then Array_splice l maxItems (len - maxItems)
                  else l
              | None => l
              end))).

(** The body of [_getValidValueOrDefault]. *)
Definition normalize_body (schema : value) (v : option value) : N value :=
  let replaced :=
    match v with
    | None => _getDefaultSchemaValue schema
    | Some x =>
        if _isValueTypeAny v (_getValueType v) (get schema "type") then x
        else _getDefaultSchemaValue schema
    end in
  match replaced with
  | VObj fields => _populateObjectDefaults fields schema
  | VArr elements => _populateArrayDefaults elements schema
  | _ =>
      bindN (valid (Some replaced) schema)
        (fun okay =>
           if okay : bool then retN replaced
           else
             let schemaDefault := _getDefaultSchemaValue schema in
             bindN (valid (Some schemaDefault) schema)
               (fun okay' =>
                  if okay' : bool then retN schemaDefault else retN replaced))
  end.

End Populate.

(** [_getValidValueOrDefault], with the recursion budget made explicit. *)
Fixpoint _getValidValueOrDefault (fuel : nat) (schema : value)
  (v : option value) : N value :=
  match fuel with
  | O => fun w => (None, w)
  | S n => normalize_body (_getValidValueOrDefault n) schema v
  end.

(** [getValidValueOrDefault(schema, value)]. *)
Definition getValidValueOrDefault (schema : value) (v : option value)
  : C value :=
  fun w =>
    match schema with
    | VNull => (Throw (TypeError "Cannot read properties of null"), w)
    | _ =>
        match _getValidValueOrDefault (normalize_budget schema v) schema v w
        with
        | (Some r, w') => (Ok r, w')
        | (None, w') => (OutOfFuel, w')
        end
    end.

End Normalization.

End Cached.

(** The test of a pattern compiled afresh, which starts at index 0: the
    [RegExp] of the engine without the cache. *)
Definition fresh (compile : string -> string
                             -> string + (string -> nat -> option nat))
  : string -> string -> string + (string -> bool) :=
  fun pattern flags =>
    match compile pattern flags with
    | inl message => inl message
    | inr matcher =>
        inr (fun s => match matcher s 0 with Some _ => true | None => false end)
    end.

(** Flags that let a cached pattern be used like a fresh one: neither [g]
    nor [y], with which a test starts where the test before it ended, and
    no colon, with which the cache key of the pattern could be the key of
    another pattern. *)
Definition plain_flags (flags : string) : bool :=
  negb (mentions "g" flags || mentions "y" flags || mentions ":" flags).

(** Every [patternFlags] string in the schema, at any depth, is plain. *)
Fixpoint stateless_patterns (schema : value) : bool :=
  match schema with
  | VArr l => forallb stateless_patterns l
  | VObj fs =>
      match Props.lookup "patternFlags" fs with
      | Some (VStr flags) => plain_flags flags
      | _ => true
      end
      && forallb (fun kv => stateless_patterns (snd kv)) fs
  | _ => true
  end.

(** The entry of a [required] list is used as the property [__proto__]. *)
Definition names_proto (entry : value) : bool :=
  String.eqb (property_key (property_of_value entry)) "__proto__".

(** No [required] list in the schema, at any depth, names the property
    [__proto__]. *)
Fixpoint requires_no_proto (schema : value) : bool :=
  match schema with
  | VArr l => forallb requires_no_proto l
  | VObj fs =>
      match Props.lookup "required" fs with
      | Some (VArr required) => negb (existsb names_proto required)
      | _ => true
      end
      && forallb (fun kv => requires_no_proto (snd kv)) fs
  | _ => true
  end.

(* ===================================================================== *)
(** * Properties *)
(* ===================================================================== *)

(** ** Depth of the members of a value *)

Lemma depth_arr_cons (x : value) (r : list value) :
  depth (VArr (x :: r)) = Nat.max (S (depth x)) (depth (VArr r)).
Proof. reflexivity. Qed.

Lemma depth_obj_cons (k : string) (x : value) (r : list (string * value)) :
  depth (VObj ((k, x) :: r)) = Nat.max (S (depth x)) (depth (VObj r)).
Proof. reflexivity. Qed.

Lemma depth_member_arr (l : list value) (x : value) :
  In x l -> depth x < depth (VArr l).
Proof.
  induction l as [|y r IH]; intros H; [contradiction|].
  rewrite depth_arr_cons.
  destruct H as [->|H]; [lia|]. specialize (IH H). lia.
Qed.

Lemma depth_member_obj (fs : list (string * value)) (k : string) (x : value) :
  Props.lookup k fs = Some x -> depth x < depth (VObj fs).
Proof.
  induction fs as [|[k' y] r IH]; intros H; [discriminate|].
  rewrite depth_obj_cons. cbn [Props.lookup] in H.
  destruct (String.eqb k k').
  - injection H as ->. lia.
  - specialize (IH H). lia.
Qed.

Lemma depth_get (s : value) (k : string) (x : value) :
  get s k = Some x -> depth x < depth s.
Proof.
  destruct s; simpl; try discriminate. apply depth_member_obj.
Qed.

Lemma depth_nth (l : list value) (i : nat) (x : value) :
  nth_error l i = Some x -> depth x < depth (VArr l).
Proof. intros H. apply depth_member_arr. eapply nth_error_In; eauto. Qed.

Lemma depth_additional (schema : value) (key : string) ps steps :
  additional_schema schema key = Some (ps, steps) -> depth ps <= depth schema.
Proof.
  unfold additional_schema. intros H.
  destruct (get schema key) as [[| [] | | | |fs]|] eqn:G;
    try (injection H as <- <-; simpl; lia); try discriminate.
  injection H as <- <-. apply depth_get in G. lia.
Qed.

Lemma depth_tuple_item (items : list value) (p : property) (x : value) :
  tuple_item items p = Some x -> depth x < depth (VArr items).
Proof.
  unfold tuple_item. destruct p as [s|n].
  - destruct (array_index s); [apply depth_nth | discriminate].
  - destruct (_ && _); [apply depth_nth | discriminate].
Qed.

(** What [properties[name]] finds is an own property or the prototype. *)
Lemma inherited_or_own_cases fields name x :
  inherited_or_own fields name = Some x ->
  Props.lookup name fields = Some x \/ x = Object_prototype.
Proof.
  unfold inherited_or_own. intros H.
  destruct (Props.lookup name fields) as [y|]; [left; exact H|].
  destruct (String.eqb name "__proto__"); [|discriminate].
  injection H as <-. right. reflexivity.
Qed.

(** The schema the navigator resolves is a member of the given schema or
    the unconstrained schema: it is never deeper. *)
Lemma depth_getPropertySchema (schema : value) (p : property)
  (v : option value) ps steps :
  _getPropertySchema schema p v = Some (ps, steps) ->
  depth ps <= depth schema.
Proof.
  unfold _getPropertySchema. intros H.
  destruct (_getSchemaOrValueType schema v) as [type|]; [|discriminate].
  destruct (String.eqb type "object").
  - destruct (get schema "properties") as [[| | | | |props]|] eqn:G;
      try (eapply depth_additional; eassumption).
    destruct (inherited_or_own props (property_key p)) as [[| | | | |q]|] eqn:L;
      try (eapply depth_additional; eassumption).
    injection H as <- <-.
    apply inherited_or_own_cases in L. destruct L as [L|L].
    + apply depth_member_obj in L. apply depth_get in G. lia.
    + rewrite L. cbn. lia.
  - destruct (String.eqb type "array"); [|discriminate].
    destruct (get schema "items") as [[| | | |items|items]|] eqn:G;
      try (eapply depth_additional; eassumption).
    + destruct (tuple_item items p) as [[| | | | |q]|] eqn:T;
        try (eapply depth_additional; eassumption).
      injection H as <- <-.
      apply depth_tuple_item in T. apply depth_get in G. lia.
    + injection H as <- <-. apply depth_get in G. lia.
Qed.

Lemma names_nonempty (fs : list (string * value)) (name : string) :
  In name (Props.names fs) -> fs <> [].
Proof. destruct fs; [contradiction | discriminate]. Qed.

(** A property of an object is less deep than the object, and so is the
    [undefined] read from a property the object lacks. *)
Lemma depth_lookup (fs : list (string * value)) (name : string) :
  In name (Props.names fs) ->
  depth_opt (Props.lookup name fs) < depth (VObj fs).
Proof.
  intros H. destruct (Props.lookup name fs) as [x|] eqn:L.
  - eapply depth_member_obj; eassumption.
  - apply names_nonempty in H. destruct fs as [|[k x] r]; [congruence|].
    rewrite depth_obj_cons. cbn [depth_opt]. lia.
Qed.

(** ** Relating two runs of the validation engine

    The clauses of the engine are compared run against run: with another
    recursive call (a larger budget), or with another traversal info object
    and another store, or with another constructor of the error.  [E]
    relates the exceptions (the left one with the store it escapes in), [SR]
    the stores, and
    [oof b] is what is asked when the left run exhausts its budget ([b]
    tells whether the right run did so too). *)
Section Simulation.

Variable E : exn -> store -> exn -> Prop.
Variable SR : store -> store -> Prop.
Variable oof : bool -> Prop.
Variables i1 i2 : loc.
Variables keep1 keep2 : loc -> store -> path_info.

Hypothesis E_validation : forall m v s st1 st2,
  SR st1 st2 ->
  E (JsonSchemaValidationError m v s (keep1 i1 st1)) st1
    (JsonSchemaValidationError m v s (keep2 i2 st2)).
Hypothesis E_type : forall m st, E (TypeError m) st (TypeError m).
Hypothesis SR_update : forall f st1 st2,
  SR st1 st2 -> SR (update i1 f st1) (update i2 f st2).
Hypothesis oof_weaken : oof false -> oof true.

Definition related {A} (r1 r2 : outcome A * store) : Prop :=
  match r1, r2 with
  | (Ok a, s1), (Ok b, s2) => a = b /\ SR s1 s2
  | (Throw e1, s1), (Throw e2, s2) => E e1 s1 e2 /\ SR s1 s2
  | (OutOfFuel, _), (OutOfFuel, _) => oof true
  | (OutOfFuel, _), _ => oof false
  | _, _ => False
  end.

Definition sim {A} (m1 m2 : M A) : Prop :=
  forall st1 st2, SR st1 st2 -> related (m1 st1) (m2 st2).

Lemma sim_ret {A} (a : A) : sim (ret a) (ret a).
Proof. intros st1 st2 H. simpl. auto. Qed.

Lemma sim_validation_error {A} m v s :
  sim (@validation_error keep1 A m v s i1) (@validation_error keep2 A m v s i2).
Proof. intros st1 st2 H. simpl. auto. Qed.

Lemma sim_type_error {A} m :
  sim (@throw A (TypeError m)) (@throw A (TypeError m)).
Proof. intros st1 st2 H. simpl. auto. Qed.

Lemma sim_bind {A B} (m1 m2 : M A) (k1 k2 : A -> M B) :
  sim m1 m2 -> (forall a, sim (k1 a) (k2 a)) -> sim (bind m1 k1) (bind m2 k2).
Proof.
  intros Hm Hk st1 st2 H. specialize (Hm st1 st2 H).
  unfold bind, related in *.
  destruct (m1 st1) as [[a| e1 |] s1], (m2 st2) as [[b| e2 |] s2];
    try contradiction; auto.
  - destruct Hm as [<- Hs]. apply Hk, Hs.
  - destruct (k2 b s2) as [[c| e |] s]; auto.
Qed.

Lemma sim_attempt {A} (m1 m2 : M A) :
  sim m1 m2 -> sim (attempt m1) (attempt m2).
Proof.
  intros Hm st1 st2 H. specialize (Hm st1 st2 H).
  unfold attempt, related in *.
  destruct (m1 st1) as [[a| e1 |] s1], (m2 st2) as [[b| e2 |] s2];
    try contradiction; auto; tauto.
Qed.

Lemma sim_modify f : sim (modify i1 f) (modify i2 f).
Proof. intros st1 st2 H. simpl. auto. Qed.

Lemma sim_fail_if c m v s :
  sim (fail_if keep1 c m v s i1) (fail_if keep2 c m v s i2).
Proof.
  unfold fail_if. destruct c; [apply sim_validation_error | apply sim_ret].
Qed.

Lemma sim_push_all steps : sim (push_all i1 steps) (push_all i2 steps).
Proof.
  induction steps as [|[p s] r IH]; simpl; [apply sim_ret|].
  apply sim_bind; [apply sim_modify | intros _; exact IH].
Qed.

Lemma sim_pop_n n : sim (pop_n i1 n) (pop_n i2 n).
Proof.
  induction n as [|n IH]; simpl; [apply sim_ret|].
  apply sim_bind; [apply sim_modify | intros _; exact IH].
Qed.

Variable RegExp : string -> string -> string + (string -> bool).

(** One step of a comparison: both sides have the same shape. *)
Ltac sim_step :=
  lazymatch goal with
  | |- sim (ret _) (ret _) => apply sim_ret
  | |- sim (bind _ _) (bind _ _) => apply sim_bind; [|intros ?]
  | |- sim (attempt _) (attempt _) => apply sim_attempt
  | |- sim (fail_if _ _ _ _ _ _) (fail_if _ _ _ _ _ _) => apply sim_fail_if
  | |- sim (validation_error _ _ _ _ _) (validation_error _ _ _ _ _) =>
      apply sim_validation_error
  | |- sim (throw (TypeError _)) (throw (TypeError _)) => apply sim_type_error
  | |- sim (schemaPush _ _ _) (schemaPush _ _ _) => apply sim_modify
  | |- sim (schemaPop _) (schemaPop _) => apply sim_modify
  | |- sim (valuePush _ _ _) (valuePush _ _ _) => apply sim_modify
  | |- sim (valuePop _) (valuePop _) => apply sim_modify
  | |- sim (push_all _ _) (push_all _ _) => apply sim_push_all
  | |- sim (pop_n _ _) (pop_n _ _) => apply sim_pop_n
  | |- sim (match ?x with _ => _ end) (match ?x with _ => _ end) =>
      destruct x eqn:?
  end.

Lemma sim_validateNumber n schema :
  sim (_validateNumber keep1 n schema i1) (_validateNumber keep2 n schema i2).
Proof. unfold _validateNumber. repeat sim_step. Qed.

Lemma sim_validateString s schema :
  sim (_validateString keep1 RegExp s schema i1)
      (_validateString keep2 RegExp s schema i2).
Proof. unfold _validateString. repeat sim_step. Qed.

Variables rec1 rec2 : option value -> value -> loc -> M unit.

(** The recursive calls agree on every pair that is smaller than the node
    under validation. *)
Definition agree_below (v : option value) (schema : value) : Prop :=
  forall v' s',
    depth_opt v' + depth s' < depth_opt v + depth schema ->
    sim (rec1 v' s' i1) (rec2 v' s' i2).

Ltac smaller Hrec :=
  apply Hrec;
  repeat match goal with
  | H : (if ?b then _ else _) = Some _ |- _ => destruct b
  end;
  subst;
  repeat match goal with
  | H : get _ _ = Some _ |- _ => apply depth_get in H
  end;
  simpl in *; lia.

Lemma sim_validateConditional v schema :
  agree_below v schema ->
  sim (_validateConditional rec1 v schema i1)
      (_validateConditional rec2 v schema i2).
Proof.
  intros Hrec. unfold _validateConditional.
  repeat sim_step; try smaller Hrec.
Qed.

Lemma sim_members v schema (l : list value) :
  agree_below v schema ->
  get schema "allOf" = Some (VArr l) \/ get schema "anyOf" = Some (VArr l)
  \/ get schema "oneOf" = Some (VArr l) \/ get schema "not" = Some (VArr l) ->
  forall m, In m l -> sim (rec1 v m i1) (rec2 v m i2).
Proof.
  intros Hrec H m Hm. apply Hrec. apply depth_member_arr in Hm.
  destruct H as [H|[H|[H|H]]]; apply depth_get in H; lia.
Qed.

Lemma sim_allOf_loop v l :
  (forall m, In m l -> sim (rec1 v m i1) (rec2 v m i2)) ->
  forall i, sim (allOf_loop rec1 v i1 i l) (allOf_loop rec2 v i2 i l).
Proof.
  induction l as [|m r IH]; intros H i; simpl; repeat sim_step.
  - apply H; simpl; auto.
  - apply IH. intros; apply H; simpl; auto.
Qed.

Lemma sim_validateAllOf v schema :
  agree_below v schema ->
  sim (_validateAllOf rec1 v schema i1) (_validateAllOf rec2 v schema i2).
Proof.
  intros Hrec. unfold _validateAllOf. repeat sim_step.
  apply sim_allOf_loop. eapply sim_members; eauto.
Qed.

Lemma sim_anyOf_loop v l :
  (forall m, In m l -> sim (rec1 v m i1) (rec2 v m i2)) ->
  forall i, sim (anyOf_loop rec1 v i1 i l) (anyOf_loop rec2 v i2 i l).
Proof.
  induction l as [|m r IH]; intros H i; simpl; repeat sim_step.
  - apply H; simpl; auto.
  - apply IH. intros; apply H; simpl; auto.
Qed.

Lemma sim_validateAnyOf v schema :
  agree_below v schema ->
  sim (_validateAnyOf keep1 rec1 v schema i1) (_validateAnyOf keep2 rec2 v schema i2).
Proof.
  intros Hrec. unfold _validateAnyOf. repeat sim_step.
  apply sim_anyOf_loop. eapply sim_members; eauto.
Qed.

Lemma sim_oneOf_loop v l :
  (forall m, In m l -> sim (rec1 v m i1) (rec2 v m i2)) ->
  forall i count,
    sim (oneOf_loop rec1 v i1 i count l) (oneOf_loop rec2 v i2 i count l).
Proof.
  induction l as [|m r IH]; intros H i count; simpl; repeat sim_step.
  - apply H; simpl; auto.
  - apply IH. intros; apply H; simpl; auto.
Qed.

Lemma sim_validateOneOf v schema :
  agree_below v schema ->
  sim (_validateOneOf keep1 rec1 v schema i1) (_validateOneOf keep2 rec2 v schema i2).
Proof.
  intros Hrec. unfold _validateOneOf. repeat sim_step.
  apply sim_oneOf_loop. eapply sim_members; eauto 6.
Qed.

Lemma sim_noneOf_loop v schema l :
  (forall m, In m l -> sim (rec1 v m i1) (rec2 v m i2)) ->
  forall i,
    sim (noneOf_loop keep1 rec1 v schema i1 i l) (noneOf_loop keep2 rec2 v schema i2 i l).
Proof.
  induction l as [|m r IH]; intros H i; simpl; repeat sim_step.
  - apply H; simpl; auto.
  - apply IH. intros; apply H; simpl; auto.
Qed.

Lemma sim_validateNoneOf v schema :
  agree_below v schema ->
  sim (_validateNoneOf keep1 rec1 v schema i1) (_validateNoneOf keep2 rec2 v schema i2).
Proof.
  intros Hrec. unfold _validateNoneOf. repeat sim_step.
  apply sim_noneOf_loop. eapply sim_members; eauto 6.
Qed.

Lemma sim_contains_loop cs l :
  (forall x, In x l -> sim (rec1 (Some x) cs i1) (rec2 (Some x) cs i2)) ->
  forall i, sim (contains_loop rec1 cs i1 i l) (contains_loop rec2 cs i2 i l).
Proof.
  induction l as [|x r IH]; intros H i; simpl; repeat sim_step.
  - apply H; simpl; auto.
  - apply IH. intros; apply H; simpl; auto.
Qed.

Lemma sim_validateArrayContains elements schema :
  agree_below (Some (VArr elements)) schema ->
  sim (_validateArrayContains keep1 rec1 elements schema i1)
      (_validateArrayContains keep2 rec2 elements schema i2).
Proof.
  intros Hrec. unfold _validateArrayContains. repeat sim_step.
  apply sim_contains_loop. intros x Hx. apply Hrec.
  apply depth_member_arr in Hx.
  match goal with H : get _ _ = Some _ |- _ => apply depth_get in H end.
  cbn [depth_opt]. lia.
Qed.

Lemma sim_array_loop whole schema l :
  (forall x ps, In x l -> depth ps <= depth schema ->
                sim (rec1 (Some x) ps i1) (rec2 (Some x) ps i2)) ->
  forall i,
    sim (array_loop keep1 rec1 whole schema i1 i l)
        (array_loop keep2 rec2 whole schema i2 i l).
Proof.
  induction l as [|x r IH]; intros H i; simpl; repeat sim_step.
  - apply H; simpl; auto. eapply depth_getPropertySchema; eassumption.
  - apply IH. intros; apply H; simpl; auto.
Qed.

Lemma sim_validateArray elements schema :
  agree_below (Some (VArr elements)) schema ->
  sim (_validateArray keep1 rec1 elements schema i1)
      (_validateArray keep2 rec2 elements schema i2).
Proof.
  intros Hrec. unfold _validateArray. repeat sim_step.
  - apply sim_validateArrayContains, Hrec.
  - apply sim_array_loop. intros x ps Hx Hps. apply Hrec.
    apply depth_member_arr in Hx. cbn [depth_opt]. lia.
Qed.

Lemma sim_required_loop properties v schema required :
  sim (required_loop keep1 properties v schema i1 required)
      (required_loop keep2 properties v schema i2 required).
Proof. induction required as [|e r IH]; simpl; repeat sim_step. exact IH. Qed.

Lemma sim_object_loop fields schema properties :
  (forall name ps, In name properties -> depth ps <= depth schema ->
     sim (rec1 (Props.lookup name fields) ps i1)
         (rec2 (Props.lookup name fields) ps i2)) ->
  sim (object_loop keep1 rec1 fields schema i1 properties)
      (object_loop keep2 rec2 fields schema i2 properties).
Proof.
  induction properties as [|name r IH]; intros H; simpl; repeat sim_step.
  - apply H; simpl; auto. eapply depth_getPropertySchema; eassumption.
  - apply IH. intros; apply H; simpl; auto.
Qed.

Lemma sim_validateObject fields schema :
  agree_below (Some (VObj fields)) schema ->
  sim (_validateObject keep1 rec1 fields schema i1)
      (_validateObject keep2 rec2 fields schema i2).
Proof.
  intros Hrec. unfold _validateObject. repeat sim_step.
  - apply sim_required_loop.
  - apply sim_object_loop. intros name ps Hn Hps. apply Hrec.
    pose proof (depth_lookup fields name Hn).
    cbn [depth_opt]. lia.
Qed.

Lemma sim_validateSingleSchema v schema :
  agree_below v schema ->
  sim (_validateSingleSchema keep1 RegExp rec1 v schema i1)
      (_validateSingleSchema keep2 RegExp rec2 v schema i2).
Proof.
  intros Hrec. unfold _validateSingleSchema.
  destruct schema eqn:Hs; try apply sim_type_error; rewrite <- Hs in *;
    (repeat sim_step;
     [ apply sim_validateNumber | apply sim_validateString
     | apply sim_validateArray; assumption
     | apply sim_validateObject; assumption ]).
Qed.

(** The body of [_validate] under two recursive calls that agree below the
    node. *)
Lemma sim_validate_body v schema :
  agree_below v schema ->
  sim (validate_body keep1 RegExp rec1 v schema i1)
      (validate_body keep2 RegExp rec2 v schema i2).
Proof.
  intros Hrec. unfold validate_body. repeat sim_step.
  - apply sim_validateSingleSchema, Hrec.
  - apply sim_validateConditional, Hrec.
  - apply sim_validateAllOf, Hrec.
  - apply sim_validateAnyOf, Hrec.
  - apply sim_validateOneOf, Hrec.
  - apply sim_validateNoneOf, Hrec.
Qed.

End Simulation.

(** ** The recursion budget of the validation engine *)

(** What a run of the engine decides, without the reference to the
    traversal info that an error carries. *)
Inductive verdict : Type :=
| Passes
| Fails (message : string) (v : option value) (schema : value)
| Raises (e : exn)
| Exhausted.

Definition verdict_of {A} (o : outcome A) : verdict :=
  match o with
  | Ok _ => Passes
  | Throw (JsonSchemaValidationError m v s _) => Fails m v s
  | Throw e => Raises e
  | OutOfFuel => Exhausted
  end.

Section Budget.

Variable keep : loc -> store -> path_info.
Variable RegExp : string -> string -> string + (string -> bool).

(** Exceptions compared as they are. *)
Definition same_exn (e1 : exn) (st : store) (e2 : exn) : Prop := e1 = e2.

(** Exceptions compared by what they report, not by their [info]. *)
Definition same_report (e1 : exn) (st : store) (e2 : exn) : Prop :=
  verdict_of (@Throw unit e1) = verdict_of (@Throw unit e2).

(** A larger budget does not change a run that did not exhaust its own. *)
Lemma _validate_step_sim n : forall v s i,
  sim same_exn eq (fun _ => True)
      (_validate keep RegExp n v s i) (_validate keep RegExp (S n) v s i).
Proof.
  induction n as [|n IH]; intros v s i.
  - intros st1 st2 _. unfold related. simpl.
    destruct (validate_body _ _ _ _ _ _) as [[| |] ?]; exact I.
  - change (sim same_exn eq (fun _ => True)
              (validate_body keep RegExp (_validate keep RegExp n) v s i)
              (validate_body keep RegExp (_validate keep RegExp (S n)) v s i)).
    apply sim_validate_body; unfold same_exn; auto; try congruence.
    intros v' s' _. apply IH.
Qed.

Lemma _validate_step n v s i st :
  fst (_validate keep RegExp n v s i st) <> OutOfFuel ->
  _validate keep RegExp (S n) v s i st = _validate keep RegExp n v s i st.
Proof.
  intros H. pose proof (_validate_step_sim n v s i) as R.
  unfold sim in R. specialize (R st st eq_refl).
  unfold related in R.
  destruct (_validate keep RegExp n v s i st) as [[a|e|] s1],
           (_validate keep RegExp (S n) v s i st) as [[b|e'|] s2];
    simpl in *; try contradiction; try congruence.
  - destruct R; congruence.
  - destruct R; congruence.
Qed.

Lemma _validate_more n m v s i st :
  fst (_validate keep RegExp n v s i st) <> OutOfFuel ->
  n <= m ->
  _validate keep RegExp m v s i st = _validate keep RegExp n v s i st.
Proof.
  intros H Hle. induction Hle as [|m Hle IH]; [reflexivity|].
  rewrite _validate_step; [exact IH | rewrite IH; exact H].
Qed.

(** A budget above the combined depth of value and schema is never
    exhausted. *)
Lemma _validate_total_sim n : forall v s i,
  depth_opt v + depth s < n ->
  sim same_exn eq (fun _ => False)
      (_validate keep RegExp n v s i) (_validate keep RegExp n v s i).
Proof.
  induction n as [|n IH]; intros v s i Hn; [lia|].
  change (sim same_exn eq (fun _ => False)
            (validate_body keep RegExp (_validate keep RegExp n) v s i)
            (validate_body keep RegExp (_validate keep RegExp n) v s i)).
  apply sim_validate_body; unfold same_exn; auto; try congruence.
  intros v' s' Hlt. apply IH. lia.
Qed.

Lemma _validate_total n v s i st :
  depth_opt v + depth s < n ->
  fst (_validate keep RegExp n v s i st) <> OutOfFuel.
Proof.
  intros Hn. pose proof (_validate_total_sim v s i Hn) as R.
  unfold sim in R. specialize (R st st eq_refl).
  unfold related in R.
  destruct (_validate keep RegExp n v s i st) as [[a|e|] s1]; simpl;
    [discriminate | discriminate | contradiction].
Qed.

(** [_validate] at the budget [validate] gives it. *)
Definition run (v : option value) (schema : value) (info : loc) : M unit :=
  _validate keep RegExp (budget v schema) v schema info.

Lemma run_total v s i st : fst (run v s i st) <> OutOfFuel.
Proof. apply _validate_total. unfold budget. lia. Qed.

Lemma run_any_budget n v s i st :
  depth_opt v + depth s < n -> _validate keep RegExp n v s i st = run v s i st.
Proof.
  intros Hn. unfold run. apply _validate_more.
  - apply run_total.
  - unfold budget. lia.
Qed.

(** The equation of the source: [_validate] is its body, with [_validate]
    for the recursive call. *)
Lemma run_unfold v s i st : run v s i st = validate_body keep RegExp run v s i st.
Proof.
  unfold run at 1. unfold budget. cbn [_validate].
  assert (R : sim same_exn eq (fun _ => False)
                (validate_body keep RegExp
                   (_validate keep RegExp (depth_opt v + depth s)) v s i)
                (validate_body keep RegExp run v s i)).
  { apply sim_validate_body; unfold same_exn; auto; try congruence.
    intros v' s' Hlt st1 st2 <-.
    rewrite (run_any_budget v' s' i st1 Hlt).
    pose proof (run_total v' s' i st1) as T. unfold related.
    destruct (run v' s' i st1) as [[a|e|] s1]; simpl in *; auto. }
  unfold sim in R. specialize (R st st eq_refl). unfold related in R.
  destruct (validate_body keep RegExp (_validate keep RegExp _) v s i st)
    as [[a|e|] s1],
    (validate_body keep RegExp run v s i st) as [[b|e'|] s2];
    try contradiction; destruct R; congruence.
Qed.

Lemma validate_run v s st :
  validate keep RegExp v s st
  = run v s (List.length st) (st ++ [new_info v s]).
Proof. reflexivity. Qed.

(** The traversal info is used for diagnostics only: which info object a
    run works on, what the store holds and what the error keeps of the
    info does not change its verdict. *)
Lemma _validate_info_sim keep' n : forall v s i1 i2,
  sim same_report (fun _ _ => True) (fun b => b = true)
      (_validate keep RegExp n v s i1) (_validate keep' RegExp n v s i2).
Proof.
  induction n as [|n IH]; intros v s i1 i2.
  - intros st1 st2 _. simpl. reflexivity.
  - cbn [_validate].
    apply sim_validate_body; unfold same_report; auto; try congruence.
    intros v' s' _. apply IH.
Qed.

Lemma _validate_info_independent keep' n v s i1 st1 i2 st2 :
  verdict_of (fst (_validate keep RegExp n v s i1 st1))
  = verdict_of (fst (_validate keep' RegExp n v s i2 st2)).
Proof.
  pose proof (_validate_info_sim keep' n v s i1 i2) as R.
  unfold same_report in R.
  unfold sim in R. specialize (R st1 st2 I).
  unfold related in R.
  destruct (_validate keep RegExp n v s i1 st1) as [[a|e|] s1],
           (_validate keep' RegExp n v s i2 st2) as [[b|e'|] s2];
    simpl in *; try contradiction; try discriminate; try tauto.
Qed.

Lemma run_info_independent v s i1 st1 i2 st2 :
  verdict_of (fst (run v s i1 st1)) = verdict_of (fst (run v s i2 st2)).
Proof. apply _validate_info_independent. Qed.

Lemma validate_verdict v s i st st' :
  verdict_of (fst (validate keep RegExp v s st'))
  = verdict_of (fst (run v s i st)).
Proof. rewrite validate_run. apply run_info_independent. Qed.

(** [isValid] as a function, through [run]. *)
Lemma is_valid_run v s i st :
  is_valid RegExp v s = true <-> verdict_of (fst (run v s i st)) = Passes.
Proof.
  unfold is_valid, run. unfold validate, alloc_info, bind.
  cbn [List.length app].
  rewrite (_validate_info_independent reference (budget v s) v s i st 0
             [new_info v s]).
  destruct (_validate reference RegExp (budget v s) v s 0 [new_info v s])
    as [[a|e|] s1]; cbn [fst verdict_of].
  - tauto.
  - destruct e; split; discriminate.
  - split; discriminate.
Qed.

Lemma is_valid_attempt v s i st :
  fst (attempt (run v s i) st) = Ok (is_valid RegExp v s).
Proof.
  pose proof (is_valid_run v s i st) as H.
  pose proof (run_total v s i st) as T.
  unfold attempt. destruct (run v s i st) as [[a|e|] s1]; cbn [fst verdict_of] in *.
  - destruct (is_valid RegExp v s); [reflexivity|].
    destruct H as [_ H]. specialize (H eq_refl). discriminate.
  - destruct (is_valid RegExp v s); [|reflexivity].
    destruct H as [H _]. specialize (H eq_refl). destruct e; discriminate.
  - contradiction.
Qed.

End Budget.

(** ** Running the clauses *)

Lemma bind_ok {A B} (m : M A) (k : A -> M B) st a st' :
  m st = (Ok a, st') -> bind m k st = k a st'.
Proof. intros H. unfold bind. rewrite H. reflexivity. Qed.

Lemma bind_throw {A B} (m : M A) (k : A -> M B) st e st' :
  m st = (Throw e, st') -> bind m k st = (Throw e, st').
Proof. intros H. unfold bind. rewrite H. reflexivity. Qed.

Lemma bind_modify {B} i f (k : unit -> M B) st :
  bind (modify i f) k st = k tt (update i f st).
Proof. reflexivity. Qed.

Lemma bind_passes_inv {A B} (m : M A) (k : A -> M B) st :
  verdict_of (fst (bind m k st)) = Passes ->
  exists a st', m st = (Ok a, st') /\ verdict_of (fst (k a st')) = Passes.
Proof.
  unfold bind. destruct (m st) as [[a|e|] st']; simpl; intros H.
  - eauto.
  - destruct e; discriminate.
  - discriminate.
Qed.

Section Combinators.

Variable keep : loc -> store -> path_info.
Variable RegExp : string -> string -> string + (string -> bool).


(** An absorbed member validation: the outcome is [isValid] of the member,
    and the traversal info is left as the member validation left it. *)
Lemma attempt_run v s i st :
  attempt (run keep RegExp v s i) st = (Ok (is_valid RegExp v s), snd (run keep RegExp v s i st)).
Proof.
  pose proof (is_valid_attempt keep RegExp v s i st) as H.
  unfold attempt in *. destruct (run keep RegExp v s i st) as [[a|e|] st']; simpl in *;
    congruence.
Qed.

(** The members of a combinator list that validate the value. *)
Definition matching (v : option value) (subSchemas : list value) : nat :=
  List.length (filter (is_valid RegExp v) subSchemas).

Lemma oneOf_loop_counts v info subSchemas : forall i count st,
  fst (oneOf_loop (run keep RegExp) v info i count subSchemas st)
  = Ok (count + matching v subSchemas).
Proof.
  induction subSchemas as [|m r IH]; intros i count st.
  - simpl. f_equal. unfold matching. simpl. lia.
  - cbn [oneOf_loop]. unfold schemaPush, schemaPop.
    rewrite bind_modify.
    erewrite bind_ok by apply attempt_run.
    rewrite bind_modify. rewrite IH. f_equal.
    unfold matching. simpl. destruct (is_valid RegExp v m); simpl; lia.
Qed.

(** The final store of the loop is not needed for the result, but the
    clause runs one more step on it. *)
Lemma oneOf_loop_result v info subSchemas i count st :
  exists st',
    oneOf_loop (run keep RegExp) v info i count subSchemas st
    = (Ok (count + matching v subSchemas), st').
Proof.
  pose proof (oneOf_loop_counts v info subSchemas i count st) as H.
  destruct (oneOf_loop (run keep RegExp) v info i count subSchemas st) as [o st'].
  simpl in H. subst o. eauto.
Qed.

Lemma _validateOneOf_result v schema subSchemas info st :
  get schema "oneOf" = Some (VArr subSchemas) ->
  verdict_of (fst (_validateOneOf keep (run keep RegExp) v schema info st))
  = if Nat.eqb (matching v subSchemas) 1 then Passes
    else Fails (string_of_nat (matching v subSchemas)
                  ++ " oneOf schemas matched") v schema.
Proof.
  intros H. unfold _validateOneOf. rewrite H.
  unfold schemaPush at 1. rewrite bind_modify.
  match goal with
  | |- verdict_of (fst (bind _ _ ?st0)) = _ =>
      destruct (oneOf_loop_result v info subSchemas 0 0 st0) as [st' Hl]
  end.
  erewrite bind_ok by exact Hl. simpl.
  destruct (Nat.eqb (matching v subSchemas) 1); reflexivity.
Qed.

(** The first member of a combinator list that validates the value. *)
Fixpoint first_matching (v : option value) (subSchemas : list value)
  : option nat :=
  match subSchemas with
  | [] => None
  | m :: r =>
      if is_valid RegExp v m then Some 0
      else option_map S (first_matching v r)
  end.

Lemma noneOf_loop_result v schema info subSchemas : forall i st,
  match first_matching v subSchemas with
  | None =>
      fst (noneOf_loop keep (run keep RegExp) v schema info i subSchemas st)
      = Ok tt
  | Some k =>
      verdict_of
        (fst (noneOf_loop keep (run keep RegExp) v schema info i subSchemas st))
      = Fails ("not[" ++ string_of_nat (i + k) ++ "] schema matched") v schema
  end.
Proof.
  induction subSchemas as [|m r IH]; intros i st; [reflexivity|].
  cbn [noneOf_loop first_matching]. unfold schemaPush, schemaPop.
  rewrite bind_modify.
  erewrite bind_ok by apply attempt_run.
  destruct (is_valid RegExp v m).
  - simpl. rewrite Nat.add_0_r. reflexivity.
  - rewrite bind_modify.
    match goal with
    | |- context [noneOf_loop _ _ _ _ _ _ _ ?st0] => specialize (IH (S i) st0)
    end.
    destruct (first_matching v r) as [k|]; simpl; [|exact IH].
    rewrite Nat.add_succ_r. exact IH.
Qed.

Lemma _validateNoneOf_result v schema subSchemas info st :
  get schema "not" = Some (VArr subSchemas) ->
  verdict_of (fst (_validateNoneOf keep (run keep RegExp) v schema info st))
  = match first_matching v subSchemas with
    | None => Passes
    | Some k => Fails ("not[" ++ string_of_nat k ++ "] schema matched") v schema
    end.
Proof.
  intros H. unfold _validateNoneOf. rewrite H.
  unfold schemaPush at 1. rewrite bind_modify.
  match goal with
  | |- verdict_of (fst (bind _ _ ?st0)) = _ =>
      pose proof (noneOf_loop_result v schema info subSchemas 0 st0) as L;
      destruct (noneOf_loop keep (run keep RegExp) v schema info 0 subSchemas
                  st0) as [o st'] eqn:Hl
  end.
  destruct (first_matching v subSchemas) as [k|]; simpl in L.
  - unfold bind. rewrite Hl. destruct o as [a|e|]; simpl in *; try discriminate.
    exact L.
  - subst o. erewrite bind_ok by exact Hl. reflexivity.
Qed.

End Combinators.

(** ** Nodes without constraints of their own *)

(** A computation that completes with result [a] from every store. *)
Definition always {A} (m : M A) (a : A) : Prop :=
  forall st, fst (m st) = Ok a.

Lemma always_ret {A} (a : A) : always (ret a) a.
Proof. intros st. reflexivity. Qed.

Lemma always_bind {A B} (m : M A) (k : A -> M B) a b :
  always m a -> always (k a) b -> always (bind m k) b.
Proof.
  intros Hm Hk st. specialize (Hm st). unfold bind.
  destruct (m st) as [o st']. simpl in Hm. subst o. apply Hk.
Qed.

Lemma always_modify i f : always (modify i f) tt.
Proof. intros st. reflexivity. Qed.

Lemma always_push_all i steps : always (push_all i steps) tt.
Proof.
  induction steps as [|[p s] r IH]; simpl; [apply always_ret|].
  eapply always_bind; [apply always_modify | exact IH].
Qed.

Lemma always_pop_n i n : always (pop_n i n) tt.
Proof.
  induction n as [|n IH]; simpl; [apply always_ret|].
  eapply always_bind; [apply always_modify | exact IH].
Qed.

(** The keys [_validateSingleSchema] and the navigator look at. *)
Definition node_keys : list string :=
  ["type"; "const"; "enum"; "multipleOf"; "minimum"; "exclusiveMinimum";
   "maximum"; "exclusiveMaximum"; "minLength"; "maxLength"; "pattern";
   "minItems"; "maxItems"; "contains"; "items"; "additionalItems";
   "required"; "minProperties"; "maxProperties"; "properties";
   "additionalProperties"].

(** A schema object that constrains its node through combinators at most. *)
Definition combinators_only (schema : value) : bool :=
  match schema with
  | VObj _ =>
      forallb (fun k => match get schema k with None => true | _ => false end)
        node_keys
  | _ => false
  end.

Lemma combinators_only_get schema k :
  combinators_only schema = true -> In k node_keys -> get schema k = None.
Proof.
  unfold combinators_only. destruct schema; try discriminate.
  intros H Hk. rewrite forallb_forall in H. specialize (H k Hk).
  destruct (get _ k); [discriminate | reflexivity].
Qed.

Ltac node_key H :=
  rewrite (combinators_only_get _ H) by (simpl; tauto).

Lemma combinators_only_resolves schema p v :
  combinators_only schema = true ->
  (exists l, v = Some (VArr l)) \/ (exists fs, v = Some (VObj fs)) ->
  _getPropertySchema schema p v
  = Some (unconstrainedSchema, [(KNull, unconstrainedSchema)]).
Proof.
  intros H Hv. unfold _getPropertySchema, _getSchemaOrValueType.
  node_key H.
  destruct Hv as [[l ->]|[fs ->]]; simpl.
  - node_key H. unfold additional_schema. node_key H. reflexivity.
  - node_key H. unfold additional_schema. node_key H. reflexivity.
Qed.

Lemma always_bind_run {A B} (m : M A) (k : A -> M B) a st :
  always m a -> exists st', bind m k st = k a st'.
Proof.
  intros Hm. specialize (Hm st). unfold bind.
  destruct (m st) as [o st']. simpl in Hm. subst o. eauto.
Qed.

Lemma lookup_In (fs : list (string * value)) k x :
  Props.lookup k fs = Some x -> In (k, x) fs.
Proof.
  induction fs as [|[k' y] r IH]; simpl; [discriminate|].
  destruct (String.eqb k k') eqn:Ek.
  - apply String.eqb_eq in Ek. subst k'. intros H. injection H as ->. auto.
  - auto.
Qed.

Section Unconstrained.

Variable keep : loc -> store -> path_info.
Variable RegExp : string -> string -> string + (string -> bool).

(** The unconstrained schema accepts the value, whatever traversal info
    the run works on. *)
Definition accepted (x : option value) : Prop :=
  forall i, always (run keep RegExp x unconstrainedSchema i) tt.

Lemma array_loop_unconstrained schema whole i elements :
  combinators_only schema = true ->
  Forall (fun x => accepted (Some x)) elements ->
  forall idx, always (array_loop keep (run keep RegExp) whole schema i idx elements) tt.
Proof.
  intros Hs Hall. induction Hall as [|x r Hx Hr IH]; intros idx.
  - apply always_ret.
  - cbn [array_loop]. rewrite combinators_only_resolves by eauto.
    eapply always_bind; [apply always_push_all|].
    eapply always_bind; [apply always_modify|].
    eapply always_bind; [apply Hx|].
    eapply always_bind; [apply always_modify|].
    eapply always_bind; [apply always_pop_n|].
    apply IH.
Qed.

Lemma object_loop_unconstrained schema fields i properties :
  combinators_only schema = true ->
  (forall name, accepted (Props.lookup name fields)) ->
  always (object_loop keep (run keep RegExp) fields schema i properties) tt.
Proof.
  intros Hs Hall. induction properties as [|name r IH].
  - apply always_ret.
  - cbn [object_loop]. rewrite combinators_only_resolves by eauto.
    eapply always_bind; [apply always_push_all|].
    eapply always_bind; [apply always_modify|].
    eapply always_bind; [apply Hall|].
    eapply always_bind; [apply always_modify|].
    eapply always_bind; [apply always_pop_n|].
    apply IH.
Qed.

(** The members of a value are accepted by the unconstrained schema. *)
Definition members_accepted (v : option value) : Prop :=
  match v with
  | Some (VArr l) => Forall (fun x => accepted (Some x)) l
  | Some (VObj fs) => forall name, accepted (Props.lookup name fs)
  | _ => True
  end.

Lemma single_schema_passes schema v i :
  combinators_only schema = true ->
  members_accepted v ->
  always (_validateSingleSchema keep RegExp (run keep RegExp) v schema i) tt.
Proof.
  intros Hs Hv. unfold _validateSingleSchema.
  destruct schema as [| | | | |sf] eqn:Es; try discriminate. rewrite <- Es in *.
  node_key Hs. node_key Hs. node_key Hs. cbn [_isValueTypeAny negb fail_if].
  eapply always_bind; [apply always_ret|].
  eapply always_bind; [apply always_ret|].
  eapply always_bind; [apply always_ret|].
  destruct v as [[| | n | s | l | fs]|]; try apply always_ret.
  - unfold _validateNumber, number_key. repeat node_key Hs.
    repeat (eapply always_bind; [apply always_ret|]). apply always_ret.
  - unfold _validateString, number_key. repeat node_key Hs.
    repeat (eapply always_bind; [apply always_ret|]). apply always_ret.
  - unfold _validateArray, _validateArrayContains, number_key.
    repeat node_key Hs.
    repeat (eapply always_bind; [apply always_ret|]).
    apply array_loop_unconstrained; assumption.
  - unfold _validateObject, number_key. repeat node_key Hs.
    repeat (eapply always_bind; [apply always_ret|]).
    apply object_loop_unconstrained; assumption.
Qed.

Lemma no_combinators_pass v i :
  always (fun st =>
    (_validateConditional (run keep RegExp) v unconstrainedSchema i ;;
     _validateAllOf (run keep RegExp) v unconstrainedSchema i ;;
     _validateAnyOf keep (run keep RegExp) v unconstrainedSchema i ;;
     _validateOneOf keep (run keep RegExp) v unconstrainedSchema i ;;
     _validateNoneOf keep (run keep RegExp) v unconstrainedSchema i) st) tt.
Proof. intros st. reflexivity. Qed.

Lemma accepted_of_members v : members_accepted v -> accepted v.
Proof.
  intros Hv i st. rewrite run_unfold. unfold validate_body.
  destruct (always_bind_run
              (fun _ =>
                 _validateConditional (run keep RegExp) v unconstrainedSchema i ;;
                 _validateAllOf (run keep RegExp) v unconstrainedSchema i ;;
                 _validateAnyOf keep (run keep RegExp) v unconstrainedSchema i ;;
                 _validateOneOf keep (run keep RegExp) v unconstrainedSchema i ;;
                 _validateNoneOf keep (run keep RegExp) v unconstrainedSchema i) st
              (@single_schema_passes unconstrainedSchema v i eq_refl Hv))
    as [st' ->].
  reflexivity.
Qed.

(** The unconstrained schema matches any value. *)
Lemma unconstrained_accepts_value (x : value) : accepted (Some x).
Proof.
  induction x as [| b | n | s | l IH | fs IH] using value_ind';
    apply accepted_of_members; simpl; auto.
  intros name. destruct (Props.lookup name fs) as [y|] eqn:L.
  - apply lookup_In in L. rewrite Forall_forall in IH.
    apply (IH (name, y) L).
  - apply accepted_of_members. exact I.
Qed.

Lemma unconstrained_accepts (v : option value) : accepted v.
Proof.
  destruct v as [x|]; [apply unconstrained_accepts_value|].
  apply accepted_of_members. exact I.
Qed.

Lemma members_always_accepted v : members_accepted v.
Proof.
  destruct v as [[| | | | l | fs]|]; simpl; auto.
  - apply Forall_forall. intros x _. apply unconstrained_accepts.
  - intros name. apply unconstrained_accepts.
Qed.

(** A node whose schema has combinators only: its own checks pass. *)
Lemma combinators_only_single schema v i :
  combinators_only schema = true ->
  always (_validateSingleSchema keep RegExp (run keep RegExp) v schema i) tt.
Proof.
  intros H. apply single_schema_passes; [exact H|].
  apply members_always_accepted.
Qed.

End Unconstrained.

(** [isValid] decides what [is_valid] computes, whatever the trails. *)
Lemma isValid_is_valid keep RegExp v schema st :
  fst (isValid keep RegExp v schema st) = Ok (is_valid RegExp v schema).
Proof.
  unfold isValid, attempt. rewrite validate_run.
  pose proof (attempt_run keep RegExp v schema (List.length st)
                (st ++ [new_info v schema])) as H.
  unfold attempt in H.
  destruct (run keep RegExp v schema (List.length st)
              (st ++ [new_info v schema])) as [[a|e|] st'];
    cbn [fst] in *; congruence.
Qed.

(* ===================================================================== *)
(** * The engine with the cache and the engine without it *)
(* ===================================================================== *)

(** ** Schemas whose patterns keep no position *)

Lemma stateless_member_obj fs k x :
  stateless_patterns (VObj fs) = true ->
  Props.lookup k fs = Some x -> stateless_patterns x = true.
Proof.
  cbn [stateless_patterns]. intros H L.
  apply Bool.andb_true_iff in H. destruct H as [_ H].
  rewrite forallb_forall in H. apply lookup_In in L. apply (H (k, x) L).
Qed.

Lemma stateless_get schema k x :
  stateless_patterns schema = true ->
  get schema k = Some x -> stateless_patterns x = true.
Proof.
  destruct schema; try discriminate. cbn [get]. apply stateless_member_obj.
Qed.

Lemma stateless_member_arr l x :
  stateless_patterns (VArr l) = true ->
  In x l -> stateless_patterns x = true.
Proof.
  cbn [stateless_patterns]. intros H Hin.
  rewrite forallb_forall in H. apply H. exact Hin.
Qed.

Lemma stateless_cons x l :
  stateless_patterns (VArr (x :: l)) = true ->
  stateless_patterns x = true /\ stateless_patterns (VArr l) = true.
Proof. cbn [stateless_patterns forallb]. apply Bool.andb_true_iff. Qed.

Lemma stateless_additional schema key ps steps :
  stateless_patterns schema = true ->
  additional_schema schema key = Some (ps, steps) ->
  stateless_patterns ps = true.
Proof.
  unfold additional_schema. intros Hm H.
  destruct (get schema key) as [[| [] | | | |fs]|] eqn:G;
    try (injection H as <- <-; reflexivity); try discriminate.
  injection H as <- <-. eapply stateless_get; eassumption.
Qed.

(** The schemas the navigator resolves inherit the property. *)
Lemma stateless_getPropertySchema schema p v ps steps :
  stateless_patterns schema = true ->
  _getPropertySchema schema p v = Some (ps, steps) ->
  stateless_patterns ps = true.
Proof.
  unfold _getPropertySchema. intros Hm H.
  destruct (_getSchemaOrValueType schema v) as [type|]; [|discriminate].
  destruct (String.eqb type "object").
  - destruct (get schema "properties") as [[| | | | |props]|] eqn:G;
      try (eapply stateless_additional; eassumption).
    destruct (inherited_or_own props (property_key p)) as [[| | | | |q]|] eqn:L;
      try (eapply stateless_additional; eassumption).
    injection H as <- <-.
    apply inherited_or_own_cases in L. destruct L as [L|L].
    + eapply stateless_member_obj; [|exact L].
      eapply stateless_get; eassumption.
    + rewrite L. reflexivity.
  - destruct (String.eqb type "array"); [|discriminate].
    destruct (get schema "items") as [[| | | |items|items]|] eqn:G;
      try (eapply stateless_additional; eassumption).
    + destruct (tuple_item items p) as [[| | | | |q]|] eqn:T;
        try (eapply stateless_additional; eassumption).
      injection H as <- <-. unfold tuple_item in T.
      assert (Hin : In (VObj q) items).
      { destruct p as [s|n].
        - destruct (array_index s); [eapply nth_error_In; exact T
                                    | discriminate].
        - destruct (_ && _); [eapply nth_error_In; exact T | discriminate]. }
      eapply stateless_member_arr; [|exact Hin].
      eapply stateless_get; eassumption.
    + injection H as <- <-. eapply stateless_get; eassumption.
Qed.

(** The flags [_validateString] compiles the pattern of [schema] with. *)
Definition flags_of (schema : value) : string :=
  match get schema "patternFlags" with
  | Some (VStr f) => f
  | _ => ""
  end.

Lemma stateless_flags schema :
  stateless_patterns schema = true -> plain_flags (flags_of schema) = true.
Proof.
  unfold flags_of. destruct schema as [| | | | |fs]; try reflexivity.
  cbn [get stateless_patterns]. intros H.
  apply Bool.andb_true_iff in H. destruct H as [H _].
  destruct (Props.lookup "patternFlags" fs) as [[| | |f| |]|];
    try reflexivity.
  exact H.
Qed.

Lemma plain_flags_inv flags :
  plain_flags flags = true ->
  mentions "g" flags || mentions "y" flags = false
  /\ mentions ":" flags = false.
Proof.
  unfold plain_flags. intros H. apply Bool.negb_true_iff in H.
  apply Bool.orb_false_iff in H. exact H.
Qed.

(** ** The cache *)

(** Two keys built from flags without a colon are equal only when built
    from the same pattern and flags. *)
Lemma cache_key_inj pattern flags pattern' flags' :
  mentions ":" flags = false -> mentions ":" flags' = false ->
  Cached.cache_key pattern flags = Cached.cache_key pattern' flags' ->
  pattern = pattern' /\ flags = flags'.
Proof.
  unfold Cached.cache_key. revert flags'.
  induction flags as [|c r IH]; intros [|c' r'] H H' E; cbn in *.
  - injection E as ->. auto.
  - injection E as <- _. cbn in H'. discriminate.
  - injection E as -> _. cbn in H. discriminate.
  - injection E as -> E.
    apply Bool.orb_false_iff in H. apply Bool.orb_false_iff in H'.
    destruct (IH r' (proj2 H) (proj2 H') E) as [-> ->]. auto.
Qed.

Lemma find_without key key' l regex :
  Cached.find key (Cached.without key' l) = Some regex ->
  key <> key' /\ Cached.find key l = Some regex.
Proof.
  induction l as [|[k x] r IH]; cbn; [discriminate|].
  destruct (String.eqb key' k) eqn:E'.
  - apply String.eqb_eq in E'. subst k. intros H.
    destruct (IH H) as [Hne Hf]. split; [exact Hne|].
    apply String.eqb_neq in Hne. rewrite Hne. exact Hf.
  - cbn. destruct (String.eqb key k) eqn:E.
    + intros H. split; [|exact H]. apply String.eqb_eq in E. subst k.
      apply String.eqb_neq in E'. congruence.
    + exact IH.
Qed.

Lemma find_firstn n key : forall l regex,
  Cached.find key (firstn n l) = Some regex -> Cached.find key l = Some regex.
Proof.
  induction n as [|n IH]; intros [|[k x] r] regex; cbn; try discriminate.
  destruct (String.eqb key k); [auto | apply IH].
Qed.

Lemma get_set key key' regex' cache regex :
  Cached.CacheMap_get key (Cached.CacheMap_set key' regex' cache) = Some regex ->
  (key = key' /\ regex = regex')
  \/ (key <> key' /\ Cached.CacheMap_get key cache = Some regex).
Proof.
  unfold Cached.CacheMap_get, Cached.CacheMap_set. cbn [Cached.entries].
  intros H. apply find_firstn in H. cbn in H.
  destruct (String.eqb key key') eqn:E.
  - injection H as <-. apply String.eqb_eq in E. auto.
  - right. apply find_without in H. exact H.
Qed.

(** A test that leaves its object as it was leaves the cache as it was. *)
Lemma replace_same key regex l :
  (forall old, Cached.find key l = Some old -> old = regex) ->
  Cached.replace key regex l = l.
Proof.
  induction l as [|[k x] r IH]; cbn; [reflexivity|].
  destruct (String.eqb key k) eqn:E; intros H.
  - rewrite (H x eq_refl). reflexivity.
  - rewrite IH by exact H. reflexivity.
Qed.

Lemma mutated_same key regex cache :
  (forall old, Cached.CacheMap_get key cache = Some old -> old = regex) ->
  Cached.mutated key regex cache = cache.
Proof.
  unfold Cached.mutated, Cached.CacheMap_get. intros H.
  rewrite replace_same by exact H. destruct cache; reflexivity.
Qed.

Lemma get_set_same key regex cache old :
  Cached.CacheMap_get key (Cached.CacheMap_set key regex cache) = Some old ->
  old = regex.
Proof.
  intros H. apply get_set in H. destruct H as [[_ H]|[H _]]; congruence.
Qed.

(** ** Agreement *)

Section CachedAgrees.

Variable keep : loc -> store -> path_info.
Variable compile : string -> string -> string + (string -> nat -> option nat).

(** What the cache holds under the key of a pattern with plain flags is
    that pattern, compiled, and it keeps no position. *)
Definition consistent (cache : Cached.CacheMap) : Prop :=
  forall pattern flags regex,
    plain_flags flags = true ->
    Cached.CacheMap_get (Cached.cache_key pattern flags) cache = Some regex ->
    Cached.resumes regex = false
    /\ compile pattern flags = inr (Cached.exec regex).

Lemma consistent_new n : consistent (Cached.new_CacheMap n).
Proof. intros p f r _ H. discriminate H. Qed.

Lemma consistent_clear cache : consistent (Cached.CacheMap_clear cache).
Proof. intros p f r _ H. discriminate H. Qed.

Lemma consistent_set pattern flags matcher cache :
  plain_flags flags = true ->
  compile pattern flags = inr matcher ->
  consistent cache ->
  consistent
    (Cached.CacheMap_set (Cached.cache_key pattern flags)
       (Cached.mkRegExp (mentions "g" flags || mentions "y" flags) matcher 0)
       cache).
Proof.
  intros Hf Hc Hcache p f r Hp Hget.
  apply get_set in Hget. destruct Hget as [[Hk ->]|[_ Hget]].
  - destruct (plain_flags_inv _ Hf) as [Hgy Hcolon].
    destruct (plain_flags_inv _ Hp) as [_ Hcolon'].
    destruct (cache_key_inj _ _ _ _ Hcolon' Hcolon Hk) as [-> ->].
    cbn. split; assumption.
  - apply (Hcache p f r Hp Hget).
Qed.

(** The run with the cache does to the trails what the run without it
    does, ends as it ends, and leaves a consistent cache. *)
Definition agrees {A} (m : M A) (mc : Cached.C A) : Prop :=
  forall st cache,
    consistent cache ->
    exists cache',
      mc (Cached.mkWorld st cache)
      = (fst (m st), Cached.mkWorld (snd (m st)) cache')
      /\ consistent cache'.

Lemma agrees_lift {A} (m : M A) : agrees m (Cached.lift m).
Proof.
  intros st cache H. exists cache. split; [|exact H].
  unfold Cached.lift. cbn. destruct (m st). reflexivity.
Qed.

Lemma agrees_ret {A} (a : A) : agrees (ret a) (Cached.retC a).
Proof. intros st cache H. exists cache. split; [reflexivity | exact H]. Qed.

Lemma agrees_out_of_fuel {A} :
  agrees (@out_of_fuel A) (@Cached.out_of_fuelC A).
Proof. intros st cache H. exists cache. split; [reflexivity | exact H]. Qed.

Lemma agrees_bind {A B} (m : M A) (mc : Cached.C A) (k : A -> M B)
  (kc : A -> Cached.C B) :
  agrees m mc -> (forall a, agrees (k a) (kc a)) ->
  agrees (bind m k) (Cached.bindC mc kc).
Proof.
  intros Hm Hk st cache Hc. destruct (Hm st cache Hc) as (c1 & E & Hc1).
  unfold bind, Cached.bindC. rewrite E.
  destruct (m st) as [[a|e|] st1]; cbn [fst snd].
  - apply Hk. exact Hc1.
  - exists c1. auto.
  - exists c1. auto.
Qed.

Lemma agrees_attempt {A} (m : M A) (mc : Cached.C A) :
  agrees m mc -> agrees (attempt m) (Cached.attemptC mc).
Proof.
  intros Hm st cache Hc. destruct (Hm st cache Hc) as (c1 & E & Hc1).
  unfold attempt, Cached.attemptC. rewrite E.
  destruct (m st) as [[a|e|] st1]; cbn [fst snd]; exists c1; auto.
Qed.

(** [_validateString]: with plain flags the cached pattern is tested from
    index 0 and is left as it was. *)
Lemma agrees_validateString s schema info :
  stateless_patterns schema = true ->
  agrees (_validateString keep (fresh compile) s schema info)
    (Cached._validateString keep compile s schema info).
Proof.
  intros Hs. apply stateless_flags in Hs. unfold flags_of in Hs.
  unfold _validateString, Cached._validateString.
  apply agrees_bind; [apply agrees_lift|intros _].
  apply agrees_bind; [apply agrees_lift|intros _].
  destruct (get schema "pattern") as [[| | |pattern| |]|];
    try apply agrees_ret.
  set (flags := match get schema "patternFlags" with
                | Some (VStr f) => f
                | _ => ""
                end) in *.
  destruct (plain_flags_inv _ Hs) as [Hgy _].
  intros st cache Hc. unfold Cached._getRegex, _getRegex, fresh.
  cbn [Cached._regexCache Cached.trails].
  destruct (Cached.CacheMap_get (Cached.cache_key pattern flags) cache)
    as [regex|] eqn:G.
  - destruct (Hc pattern flags regex Hs G) as [Hres Hcomp].
    rewrite Hcomp. unfold Cached.test. rewrite Hres.
    cbn [Cached._regexCache Cached.trails].
    rewrite mutated_same by (intros old Hold; congruence).
    apply agrees_lift. exact Hc.
  - unfold Cached.new_RegExp.
    destruct (compile pattern flags) as [message|matcher] eqn:Hcomp.
    + apply agrees_lift. exact Hc.
    + rewrite Hgy. unfold Cached.test. cbn [Cached.resumes Cached.exec].
      cbn [Cached._regexCache Cached.trails].
      rewrite mutated_same by (intros old Hold; eapply get_set_same, Hold).
      apply agrees_lift.
      pose proof (@consistent_set pattern flags matcher cache Hs Hcomp Hc) as Hc'.
      rewrite Hgy in Hc'. exact Hc'.
Qed.

Section Clauses.

Variable rec : option value -> value -> loc -> M unit.
Variable recC : option value -> value -> loc -> Cached.C unit.

Hypothesis Hrec : forall v schema info,
  stateless_patterns schema = true -> agrees (rec v schema info) (recC v schema info).

Lemma agrees_validateConditional v schema info :
  stateless_patterns schema = true ->
  agrees (_validateConditional rec v schema info)
    (Cached._validateConditional recC v schema info).
Proof.
  intros Hs. unfold _validateConditional, Cached._validateConditional.
  destruct (get schema "if") as [[| | | | |ifFields]|] eqn:Hif;
    try apply agrees_ret.
  apply agrees_bind; [apply agrees_lift|intros _].
  apply agrees_bind;
    [apply agrees_attempt, Hrec; eapply stateless_get; eassumption|].
  intros okay. apply agrees_bind; [apply agrees_lift|intros _].
  destruct (if okay then get schema "then" else get schema "else")
    as [[| | | | |nextFields]|] eqn:Hnext; try apply agrees_ret.
  apply agrees_bind; [apply agrees_lift|intros _].
  apply agrees_bind; [|intros _; apply agrees_lift].
  apply Hrec. destruct okay; eapply stateless_get; eassumption.
Qed.

Lemma agrees_allOf_loop v info subSchemas : forall i,
  stateless_patterns (VArr subSchemas) = true ->
  agrees (allOf_loop rec v info i subSchemas)
    (Cached.allOf_loop recC v info i subSchemas).
Proof.
  induction subSchemas as [|m r IH]; intros i Hs; cbn [allOf_loop Cached.allOf_loop].
  - apply agrees_ret.
  - apply stateless_cons in Hs. destruct Hs as [Hm Hr].
    apply agrees_bind; [apply agrees_lift|intros _].
    apply agrees_bind; [apply Hrec, Hm|intros _].
    apply agrees_bind; [apply agrees_lift|intros _].
    apply IH, Hr.
Qed.

Lemma agrees_validateAllOf v schema info :
  stateless_patterns schema = true ->
  agrees (_validateAllOf rec v schema info)
    (Cached._validateAllOf recC v schema info).
Proof.
  intros Hs. unfold _validateAllOf, Cached._validateAllOf.
  destruct (get schema "allOf") as [[| | | |subSchemas|]|] eqn:G;
    try apply agrees_ret.
  apply agrees_bind; [apply agrees_lift|intros _].
  apply agrees_bind; [|intros _; apply agrees_lift].
  apply agrees_allOf_loop. eapply stateless_get; eassumption.
Qed.

Lemma agrees_anyOf_loop v info subSchemas : forall i,
  stateless_patterns (VArr subSchemas) = true ->
  agrees (anyOf_loop rec v info i subSchemas)
    (Cached.anyOf_loop recC v info i subSchemas).
Proof.
  induction subSchemas as [|m r IH]; intros i Hs; cbn [anyOf_loop Cached.anyOf_loop].
  - apply agrees_ret.
  - apply stateless_cons in Hs. destruct Hs as [Hm Hr].
    apply agrees_bind; [apply agrees_lift|intros _].
    apply agrees_bind; [apply agrees_attempt, Hrec, Hm|intros okay].
    destruct okay; [apply agrees_ret|].
    apply agrees_bind; [apply agrees_lift|intros _].
    apply IH, Hr.
Qed.

Lemma agrees_validateAnyOf v schema info :
  stateless_patterns schema = true ->
  agrees (_validateAnyOf keep rec v schema info)
    (Cached._validateAnyOf keep recC v schema info).
Proof.
  intros Hs. unfold _validateAnyOf, Cached._validateAnyOf.
  destruct (get schema "anyOf") as [[| | | |subSchemas|]|] eqn:G;
    try apply agrees_ret.
  apply agrees_bind; [apply agrees_lift|intros _].
  apply agrees_bind;
    [apply agrees_anyOf_loop; eapply stateless_get; eassumption|].
  intros returned. destruct returned; [apply agrees_ret | apply agrees_lift].
Qed.

Lemma agrees_oneOf_loop v info subSchemas : forall i count,
  stateless_patterns (VArr subSchemas) = true ->
  agrees (oneOf_loop rec v info i count subSchemas)
    (Cached.oneOf_loop recC v info i count subSchemas).
Proof.
  induction subSchemas as [|m r IH]; intros i count Hs;
    cbn [oneOf_loop Cached.oneOf_loop].
  - apply agrees_ret.
  - apply stateless_cons in Hs. destruct Hs as [Hm Hr].
    apply agrees_bind; [apply agrees_lift|intros _].
    apply agrees_bind; [apply agrees_attempt, Hrec, Hm|intros okay].
    apply agrees_bind; [apply agrees_lift|intros _].
    apply IH, Hr.
Qed.

Lemma agrees_validateOneOf v schema info :
  stateless_patterns schema = true ->
  agrees (_validateOneOf keep rec v schema info)
    (Cached._validateOneOf keep recC v schema info).
Proof.
  intros Hs. unfold _validateOneOf, Cached._validateOneOf.
  destruct (get schema "oneOf") as [[| | | |subSchemas|]|] eqn:G;
    try apply agrees_ret.
  apply agrees_bind; [apply agrees_lift|intros _].
  apply agrees_bind;
    [apply agrees_oneOf_loop; eapply stateless_get; eassumption|].
  intros count. apply agrees_bind; [|intros _; apply agrees_lift].
  destruct (Nat.eqb count 1); [apply agrees_ret | apply agrees_lift].
Qed.

Lemma agrees_noneOf_loop v schema info subSchemas : forall i,
  stateless_patterns (VArr subSchemas) = true ->
  agrees (noneOf_loop keep rec v schema info i subSchemas)
    (Cached.noneOf_loop keep recC v schema info i subSchemas).
Proof.
  induction subSchemas as [|m r IH]; intros i Hs;
    cbn [noneOf_loop Cached.noneOf_loop].
  - apply agrees_ret.
  - apply stateless_cons in Hs. destruct Hs as [Hm Hr].
    apply agrees_bind; [apply agrees_lift|intros _].
    apply agrees_bind; [apply agrees_attempt, Hrec, Hm|intros okay].
    destruct okay; [apply agrees_lift|].
    apply agrees_bind; [apply agrees_lift|intros _].
    apply IH, Hr.
Qed.

Lemma agrees_validateNoneOf v schema info :
  stateless_patterns schema = true ->
  agrees (_validateNoneOf keep rec v schema info)
    (Cached._validateNoneOf keep recC v schema info).
Proof.
  intros Hs. unfold _validateNoneOf, Cached._validateNoneOf.
  destruct (get schema "not") as [[| | | |subSchemas|]|] eqn:G;
    try apply agrees_ret.
  apply agrees_bind; [apply agrees_lift|intros _].
  apply agrees_bind; [|intros _; apply agrees_lift].
  apply agrees_noneOf_loop. eapply stateless_get; eassumption.
Qed.

Lemma agrees_contains_loop containsSchema info elements : forall i,
  stateless_patterns containsSchema = true ->
  agrees (contains_loop rec containsSchema info i elements)
    (Cached.contains_loop recC containsSchema info i elements).
Proof.
  induction elements as [|x r IH]; intros i Hs;
    cbn [contains_loop Cached.contains_loop].
  - apply agrees_ret.
  - apply agrees_bind; [apply agrees_lift|intros _].
    apply agrees_bind; [apply agrees_attempt, Hrec, Hs|intros okay].
    destruct okay.
    + apply agrees_bind; [apply agrees_lift|intros _; apply agrees_ret].
    + apply agrees_bind; [apply agrees_lift|intros _]. apply IH, Hs.
Qed.

Lemma agrees_validateArrayContains elements schema info :
  stateless_patterns schema = true ->
  agrees (_validateArrayContains keep rec elements schema info)
    (Cached._validateArrayContains keep recC elements schema info).
Proof.
  intros Hs. unfold _validateArrayContains, Cached._validateArrayContains.
  destruct (get schema "contains") as [[| | | | |containsFields]|] eqn:G;
    try apply agrees_ret.
  apply agrees_bind; [apply agrees_lift|intros _].
  apply agrees_bind;
    [apply agrees_contains_loop; eapply stateless_get; eassumption|].
  intros returned. destruct returned; [apply agrees_ret | apply agrees_lift].
Qed.

Lemma agrees_array_loop whole schema info elements : forall i,
  stateless_patterns schema = true ->
  agrees (array_loop keep rec whole schema info i elements)
    (Cached.array_loop keep recC whole schema info i elements).
Proof.
  induction elements as [|x r IH]; intros i Hs;
    cbn [array_loop Cached.array_loop].
  - apply agrees_ret.
  - destruct (_getPropertySchema schema (PNumber (Z.of_nat i))
                (Some (VArr whole))) as [[ps steps]|] eqn:G;
      [|apply agrees_lift].
    apply agrees_bind; [apply agrees_lift|intros _].
    apply agrees_bind; [apply agrees_lift|intros _].
    apply agrees_bind;
      [apply Hrec; eapply stateless_getPropertySchema; eassumption|intros _].
    apply agrees_bind; [apply agrees_lift|intros _].
    apply agrees_bind; [apply agrees_lift|intros _].
    apply IH, Hs.
Qed.

Lemma agrees_validateArray elements schema info :
  stateless_patterns schema = true ->
  agrees (_validateArray keep rec elements schema info)
    (Cached._validateArray keep recC elements schema info).
Proof.
  intros Hs. unfold _validateArray, Cached._validateArray.
  apply agrees_bind; [apply agrees_lift|intros _].
  apply agrees_bind; [apply agrees_lift|intros _].
  apply agrees_bind; [apply agrees_validateArrayContains, Hs|intros _].
  apply agrees_array_loop, Hs.
Qed.

Lemma agrees_object_loop fields schema info properties :
  stateless_patterns schema = true ->
  agrees (object_loop keep rec fields schema info properties)
    (Cached.object_loop keep recC fields schema info properties).
Proof.
  intros Hs. induction properties as [|name r IH];
    cbn [object_loop Cached.object_loop].
  - apply agrees_ret.
  - destruct (_getPropertySchema schema (PName name) (Some (VObj fields)))
      as [[ps steps]|] eqn:G; [|apply agrees_lift].
    apply agrees_bind; [apply agrees_lift|intros _].
    apply agrees_bind; [apply agrees_lift|intros _].
    apply agrees_bind;
      [apply Hrec; eapply stateless_getPropertySchema; eassumption|intros _].
    apply agrees_bind; [apply agrees_lift|intros _].
    apply agrees_bind; [apply agrees_lift|intros _].
    exact IH.
Qed.

Lemma agrees_validateObject fields schema info :
  stateless_patterns schema = true ->
  agrees (_validateObject keep rec fields schema info)
    (Cached._validateObject keep recC fields schema info).
Proof.
  intros Hs. unfold _validateObject, Cached._validateObject.
  apply agrees_bind; [apply agrees_lift|intros _].
  apply agrees_bind; [apply agrees_lift|intros _].
  apply agrees_bind; [apply agrees_lift|intros _].
  apply agrees_object_loop, Hs.
Qed.

Lemma agrees_validateSingleSchema v schema info :
  stateless_patterns schema = true ->
  agrees (_validateSingleSchema keep (fresh compile) rec v schema info)
    (Cached._validateSingleSchema keep compile recC v schema info).
Proof.
  intros Hs. unfold _validateSingleSchema, Cached._validateSingleSchema.
  assert (H : agrees
            (fail_if keep
               (negb (_isValueTypeAny v (_getValueType v) (get schema "type")))
               ("Value type " ++ _getValueType v
                  ++ " does not match schema type "
                  ++ js_to_string_opt (get schema "type")) v schema info ;;
             match get schema "const" with
             | Some schemaConst =>
                 fail_if keep (negb (_valuesAreEqual v (Some schemaConst)))
                   "Invalid constant value" v schema info
             | None => ret tt
             end ;;
             match get schema "enum" with
             | Some (VArr schemaEnum) =>
                 fail_if keep (negb (_valuesAreEqualAny v schemaEnum))
                   "Invalid enum value" v schema info
             | _ => ret tt
             end ;;
             match v with
             | Some (VNum n) => _validateNumber keep n schema info
             | Some (VStr s) => _validateString keep (fresh compile) s schema info
             | Some (VArr elements) =>
                 _validateArray keep rec elements schema info
             | Some (VObj fields) => _validateObject keep rec fields schema info
             | _ => ret tt
             end)%engine
            (Cached.bindC
               (Cached.lift
                  (fail_if keep
                     (negb (_isValueTypeAny v (_getValueType v)
                              (get schema "type")))
                     ("Value type " ++ _getValueType v
                        ++ " does not match schema type "
                        ++ js_to_string_opt (get schema "type")) v schema info))
               (fun _ =>
                Cached.bindC
                  (Cached.lift
                     match get schema "const" with
                     | Some schemaConst =>
                         fail_if keep
                           (negb (_valuesAreEqual v (Some schemaConst)))
                           "Invalid constant value" v schema info
                     | None => ret tt
                     end)
                  (fun _ =>
                   Cached.bindC
                     (Cached.lift
                        match get schema "enum" with
                        | Some (VArr schemaEnum) =>
                            fail_if keep
                              (negb (_valuesAreEqualAny v schemaEnum))
                              "Invalid enum value" v schema info
                        | _ => ret tt
                        end)
                     (fun _ =>
                      match v with
                      | Some (VNum n) =>
                          Cached.lift (_validateNumber keep n schema info)
                      | Some (VStr s) =>
                          Cached._validateString keep compile s schema info
                      | Some (VArr elements) =>
                          Cached._validateArray keep recC elements schema info
                      | Some (VObj fields) =>
                          Cached._validateObject keep recC fields schema info
                      | _ => Cached.retC tt
                      end))))).
  { apply agrees_bind; [apply agrees_lift|intros _].
    apply agrees_bind; [apply agrees_lift|intros _].
    apply agrees_bind; [apply agrees_lift|intros _].
    destruct v as [[| b | n | s | elements | fields]|];
      try apply agrees_ret.
    - apply agrees_lift.
    - apply agrees_validateString, Hs.
    - apply agrees_validateArray, Hs.
    - apply agrees_validateObject, Hs. }
  destruct schema; try exact H. apply agrees_lift.
Qed.

Lemma agrees_validate_body v schema info :
  stateless_patterns schema = true ->
  agrees (validate_body keep (fresh compile) rec v schema info)
    (Cached.validate_body keep compile recC v schema info).
Proof.
  intros Hs. unfold validate_body, Cached.validate_body.
  apply agrees_bind; [apply agrees_validateSingleSchema, Hs|intros _].
  apply agrees_bind; [apply agrees_validateConditional, Hs|intros _].
  apply agrees_bind; [apply agrees_validateAllOf, Hs|intros _].
  apply agrees_bind; [apply agrees_validateAnyOf, Hs|intros _].
  apply agrees_bind; [apply agrees_validateOneOf, Hs|intros _].
  apply agrees_validateNoneOf, Hs.
Qed.

End Clauses.

Lemma agrees_validate_fuel fuel : forall v schema info,
  stateless_patterns schema = true ->
  agrees (_validate keep (fresh compile) fuel v schema info)
    (Cached._validate keep compile fuel v schema info).
Proof.
  induction fuel as [|n IH]; intros v schema info Hs;
    cbn [_validate Cached._validate].
  - apply agrees_out_of_fuel.
  - apply agrees_validate_body; [exact IH | exact Hs].
Qed.

Lemma agrees_run v schema info :
  stateless_patterns schema = true ->
  agrees (run keep (fresh compile) v schema info)
    (Cached.run keep compile v schema info).
Proof. apply agrees_validate_fuel. Qed.

Lemma agrees_validate v schema :
  stateless_patterns schema = true ->
  agrees (validate keep (fresh compile) v schema)
    (Cached.validate keep compile v schema).
Proof.
  intros Hs. unfold validate, Cached.validate.
  apply agrees_bind; [apply agrees_lift|intros info].
  apply agrees_validate_fuel, Hs.
Qed.

Lemma agrees_isValid v schema :
  stateless_patterns schema = true ->
  agrees (isValid keep (fresh compile) v schema)
    (Cached.isValid keep compile v schema).
Proof.
  intros Hs. unfold isValid, Cached.isValid.
  apply agrees_attempt, agrees_validate, Hs.
Qed.

(** What agreement says of the outcome. *)
Lemma agrees_outcome {A} (m : M A) (mc : Cached.C A) st cache :
  agrees m mc -> consistent cache ->
  fst (mc (Cached.mkWorld st cache)) = fst (m st)
  /\ Cached.trails (snd (mc (Cached.mkWorld st cache))) = snd (m st)
  /\ consistent (Cached._regexCache (snd (mc (Cached.mkWorld st cache)))).
Proof.
  intros H Hc. destruct (H st cache Hc) as (c' & -> & Hc'). auto.
Qed.

End CachedAgrees.

(** For the examples: a runtime whose patterns are literal strings.  The
    only flags it knows are none, [g] and [y].  Without flag or with [g]
    the matcher looks for the first occurrence of the pattern at or after
    the index it starts at; with [y] the pattern has to occur at that index
    itself. *)
Definition literal (pattern flags : string)
  : string + (string -> nat -> option nat) :=
  if String.eqb flags "" || String.eqb flags "g" then
    inr (fun s i =>
           option_map (fun j => j + String.length pattern)
             (String.index i pattern s))
  else if String.eqb flags "y" then
    inr (fun s i =>
           if String.eqb (String.substring i (String.length pattern) s) pattern
              && (i + String.length pattern <=? String.length s)
           then Some (i + String.length pattern) else None)
  else inl "Invalid flags supplied to RegExp constructor".

(** ** The combinator clauses inside [validate] *)

Section Clause_in_validate.

Variable keep : loc -> store -> path_info.
Variable RegExp : string -> string -> string + (string -> bool).

(** A run that passes has passed each combinator clause on the way. *)
Lemma run_passes_inv v s i st :
  verdict_of (fst (run keep RegExp v s i st)) = Passes ->
  (exists st1,
     verdict_of
       (fst (_validateOneOf keep (run keep RegExp) v s i st1)) = Passes)
  /\ (exists st2,
        verdict_of
          (fst (_validateNoneOf keep (run keep RegExp) v s i st2)) = Passes).
Proof.
  rewrite run_unfold. unfold validate_body. intros H.
  apply bind_passes_inv in H. destruct H as (_ & st1 & _ & H).
  apply bind_passes_inv in H. destruct H as (_ & st2 & _ & H).
  apply bind_passes_inv in H. destruct H as (_ & st3 & _ & H).
  apply bind_passes_inv in H. destruct H as (_ & st4 & _ & H).
  apply bind_passes_inv in H. destruct H as (a & st5 & H5 & H).
  split.
  - exists st4. rewrite H5. reflexivity.
  - exists st5. exact H.
Qed.

(** On a node whose schema has combinators only, the run is decided by
    the combinator clauses. *)
Lemma run_combinators_only v s i st :
  combinators_only s = true ->
  exists st',
    run keep RegExp v s i st
    = (_validateConditional (run keep RegExp) v s i ;;
       _validateAllOf (run keep RegExp) v s i ;;
       _validateAnyOf keep (run keep RegExp) v s i ;;
       _validateOneOf keep (run keep RegExp) v s i ;;
       _validateNoneOf keep (run keep RegExp) v s i) st'.
Proof.
  intros H. rewrite run_unfold. unfold validate_body.
  apply always_bind_run with (a := tt).
  apply combinators_only_single, H.
Qed.

Lemma validate_only_oneOf v subSchemas st :
  verdict_of
    (fst (validate keep RegExp v (VObj [("oneOf", VArr subSchemas)]) st))
  = if Nat.eqb (matching RegExp v subSchemas) 1 then Passes
    else Fails (string_of_nat (matching RegExp v subSchemas)
                  ++ " oneOf schemas matched")
           v (VObj [("oneOf", VArr subSchemas)]).
Proof.
  rewrite (validate_verdict keep RegExp v _ 0 []).
  destruct (run_combinators_only v (VObj [("oneOf", VArr subSchemas)]) 0 []
              eq_refl) as [st' ->].
  change (verdict_of
            (fst ((_validateOneOf keep (run keep RegExp) v
                     (VObj [("oneOf", VArr subSchemas)]) 0 ;;
                   ret tt) st')) = 
          if Nat.eqb (matching RegExp v subSchemas) 1 then Passes
          else Fails (string_of_nat (matching RegExp v subSchemas)
                        ++ " oneOf schemas matched")
                 v (VObj [("oneOf", VArr subSchemas)])).
  rewrite <- (_validateOneOf_result keep RegExp v
                (VObj [("oneOf", VArr subSchemas)]) 0 st' eq_refl).
  unfold bind.
  destruct (_validateOneOf keep (run keep RegExp) v _ 0 st') as [[[]|e|] s1];
    reflexivity.
Qed.

Lemma validate_only_not v subSchemas st :
  verdict_of
    (fst (validate keep RegExp v (VObj [("not", VArr subSchemas)]) st))
  = match first_matching RegExp v subSchemas with
    | None => Passes
    | Some k =>
        Fails ("not[" ++ string_of_nat k ++ "] schema matched")
          v (VObj [("not", VArr subSchemas)])
    end.
Proof.
  rewrite (validate_verdict keep RegExp v _ 0 []).
  destruct (run_combinators_only v (VObj [("not", VArr subSchemas)]) 0 []
              eq_refl) as [st' ->].
  change (verdict_of
            (fst (_validateNoneOf keep (run keep RegExp) v
                    (VObj [("not", VArr subSchemas)]) 0 st')) = 
          match first_matching RegExp v subSchemas with
          | None => Passes
          | Some k =>
              Fails ("not[" ++ string_of_nat k ++ "] schema matched")
                v (VObj [("not", VArr subSchemas)])
          end).
  apply _validateNoneOf_result. reflexivity.
Qed.

End Clause_in_validate.

(** What [first_matching] finds. *)
Lemma first_matching_none RegExp v subSchemas :
  first_matching RegExp v subSchemas = None <->
  Forall (fun m => is_valid RegExp v m = false) subSchemas.
Proof.
  induction subSchemas as [|m r IH]; simpl.
  - split; auto.
  - destruct (is_valid RegExp v m) eqn:Hm.
    + split; [discriminate|]. intros H. inversion H. congruence.
    + destruct (first_matching RegExp v r); simpl.
      * split; [discriminate|]. intros H. inversion H; subst.
        apply IH in H3. discriminate.
      * split; auto. intros _. constructor; [exact Hm | apply IH; reflexivity].
Qed.

Lemma first_matching_some RegExp v subSchemas k :
  first_matching RegExp v subSchemas = Some k ->
  (exists m, nth_error subSchemas k = Some m /\ is_valid RegExp v m = true)
  /\ Forall (fun m => is_valid RegExp v m = false) (firstn k subSchemas).
Proof.
  revert k. induction subSchemas as [|m r IH]; simpl; intros k H.
  - discriminate.
  - destruct (is_valid RegExp v m) eqn:Hm.
    + injection H as <-. simpl. split; [eauto | constructor].
    + destruct (first_matching RegExp v r) as [j|]; [|discriminate].
      injection H as <-. destruct (IH j eq_refl) as [Hx Hb].
      simpl. split; [exact Hx | constructor; assumption].
Qed.

(** An engine for the examples: it knows no regular expression and reports
    every pattern as invalid. *)
Definition no_patterns : string -> string -> string + (string -> bool) :=
  fun _ _ => inl "Invalid regular expression".

Lemma stateless_only_key key subSchemas schema :
  stateless_patterns schema = true ->
  get schema key = Some (VArr subSchemas) ->
  String.eqb "patternFlags" key = false ->
  stateless_patterns (VObj [(key, VArr subSchemas)]) = true.
Proof.
  intros Hs G Hk. pose proof (stateless_get _ _ Hs G) as H.
  cbn [stateless_patterns Props.lookup forallb snd] in H |- *.
  rewrite Hk, H. reflexivity.
Qed.

(** C1, counterexample.  The pattern [a] with flag [g] matches the string
    "a", so a schema with that pattern validates "a"; under [oneOf] with
    that schema listed twice, two members validate the value, and yet
    [validate] returns: both members share one cached [RegExp] object, the
    test of the first leaves its [lastIndex] at 1 and the test of the
    second starts there and fails.  The same happens with flag [y].  And
    flags with a colon share their cache key with another pattern: the
    pattern [a] with flags [:g] does not compile, so the member [Q] that
    holds it validates nothing; listed after the member [P] with the
    pattern [g:a], it is served the pattern cached for [P], both members
    pass for "g:a" and [validate] throws although one member validates the
    value. *)
Lemma oneOf_counts_a_cached_pattern_once :
  (let A := fun flags =>
              VObj [("pattern", VStr "a"); ("patternFlags", VStr flags)] in
   let v := Some (VStr "a") in
   fst (Cached.isValid reference literal v (A "g")
          Cached.new_JsonSchemaValidator) = Ok true
   /\ fst (Cached.validate reference literal v
             (VObj [("oneOf", VArr [A "g"; A "g"])])
             Cached.new_JsonSchemaValidator) = Ok tt
   /\ fst (Cached.isValid reference literal v (A "y")
             Cached.new_JsonSchemaValidator) = Ok true
   /\ fst (Cached.validate reference literal v
             (VObj [("oneOf", VArr [A "y"; A "y"])])
             Cached.new_JsonSchemaValidator) = Ok tt)
  /\ (let P := VObj [("pattern", VStr "g:a")] in
      let Q := VObj [("pattern", VStr "a"); ("patternFlags", VStr ":g")] in
      let v := Some (VStr "g:a") in
      let schema := VObj [("oneOf", VArr [P; Q])] in
      fst (Cached.isValid reference literal v P Cached.new_JsonSchemaValidator)
      = Ok true
      /\ fst (Cached.isValid reference literal v Q
                Cached.new_JsonSchemaValidator)
         = Ok false
      /\ verdict_of
           (fst (Cached.validate reference literal v schema
                   Cached.new_JsonSchemaValidator))
         = Fails "2 oneOf schemas matched" v schema).
Proof. repeat split; vm_compute; reflexivity. Qed.

(** C1, as amended.  For a schema whose [oneOf] key is a list of
    sub-schemas and in which no [patternFlags] holds [g], [y] or a colon,
    and in whatever state the cache of the validator is: [isValid] decides
    for every member what it decides on a validator of its own; the
    [oneOf] clause passes when exactly one member validates the value and
    otherwise throws a validation error whose message names the number of
    members that do; what a member validation throws only enters the
    count.  Consequently [validate] fails whenever that number is not one,
    and on a schema that consists of the [oneOf] key it succeeds exactly
    when the number is one. *)
Theorem oneOf_counts_the_matching_members
  (keep : loc -> store -> path_info)
  (compile : string -> string -> string + (string -> nat -> option nat))
  (v : option value) (schema : value) (subSchemas : list value) :
  get schema "oneOf" = Some (VArr subSchemas) ->
  stateless_patterns schema = true ->
  let n := List.length (filter (is_valid (fresh compile) v) subSchemas) in
  (forall m st cache,
     In m subSchemas -> consistent compile cache ->
     fst (Cached.isValid keep compile v m (Cached.mkWorld st cache))
     = Ok (is_valid (fresh compile) v m))
  /\ (forall info st cache,
        consistent compile cache ->
        verdict_of
          (fst (Cached._validateOneOf keep (Cached.run keep compile)
                  v schema info (Cached.mkWorld st cache)))
        = if Nat.eqb n 1 then Passes
          else Fails (string_of_nat n ++ " oneOf schemas matched") v schema)
  /\ (n <> 1 ->
      forall st cache,
        consistent compile cache ->
        verdict_of
          (fst (Cached.validate keep compile v schema
                  (Cached.mkWorld st cache)))
        <> Passes)
  /\ (forall st cache,
        consistent compile cache ->
        verdict_of
          (fst (Cached.validate keep compile v
                  (VObj [("oneOf", VArr subSchemas)])
                  (Cached.mkWorld st cache)))
        = if Nat.eqb n 1 then Passes
          else Fails (string_of_nat n ++ " oneOf schemas matched")
                 v (VObj [("oneOf", VArr subSchemas)])).
Proof.
  intros H Hs n. split; [|split; [|split]].
  - intros m st cache Hin Hc.
    assert (Hm : stateless_patterns m = true).
    { eapply stateless_member_arr; [|exact Hin].
      eapply stateless_get; eassumption. }
    rewrite (proj1 (@agrees_outcome compile _ _ _ st cache
                      (@agrees_isValid keep compile v m Hm) Hc)).
    apply isValid_is_valid.
  - intros info st cache Hc.
    rewrite (proj1 (@agrees_outcome compile _ _ _ st cache
                      (@agrees_validateOneOf keep compile _ _
                         (fun v s i => @agrees_run keep compile v s i)
                         v schema info Hs) Hc)).
    apply _validateOneOf_result, H.
  - intros Hn st cache Hc Hp.
    rewrite (proj1 (@agrees_outcome compile _ _ _ st cache
                      (@agrees_validate keep compile v schema Hs) Hc)) in Hp.
    rewrite (validate_verdict keep (fresh compile) v schema 0 []) in Hp.
    apply run_passes_inv in Hp. destruct Hp as [[st1 H1] _].
    rewrite (_validateOneOf_result keep (fresh compile) v schema 0 st1 H)
      in H1.
    fold n in H1 |- *. unfold matching in H1. fold n in H1.
    destruct (Nat.eqb n 1) eqn:E; [|discriminate].
    apply Nat.eqb_eq in E. contradiction.
  - intros st cache Hc.
    rewrite (proj1 (@agrees_outcome compile _ _ _ st cache
                      (@agrees_validate keep compile v _
                         (@stateless_only_key "oneOf" subSchemas schema
                            Hs H eq_refl)) Hc)).
    apply validate_only_oneOf.
Qed.

Lemma oneOf_counts_the_matching_members_witness :
  let subSchemas := [VObj [("type", VStr "string")];
                     VObj [("pattern", VStr "1"); ("patternFlags", VStr "")];
                     VObj [("minimum", VNum 0)]] in
  let schema := VObj [("type", VStr "number"); ("oneOf", VArr subSchemas)] in
  get schema "oneOf" = Some (VArr subSchemas)
  /\ stateless_patterns schema = true
  /\ consistent literal (Cached.new_CacheMap 100)
  /\ verdict_of
       (fst (Cached._validateOneOf reference
               (Cached.run reference literal) (Some (VNum 1)) schema 0
               (Cached.mkWorld [new_info (Some (VNum 1)) schema]
                  (Cached.new_CacheMap 100))))
     = Fails "2 oneOf schemas matched" (Some (VNum 1)) schema.
Proof.
  intros subSchemas schema. split; [reflexivity|]. split; [reflexivity|].
  split; [apply consistent_new|].
  exact (proj1 (proj2 (@oneOf_counts_the_matching_members reference literal
                         (Some (VNum 1)) schema subSchemas eq_refl eq_refl))
           0 _ _ (@consistent_new literal 100)).
Defined.

(** C2, counterexample.  The pattern [a] with flag [g] matches the string
    "a", so the schema [G] with that pattern validates "a"; and yet
    [validate] returns for "a" under a schema that has the same pattern and
    lists [G] under [not]: the schema's own test leaves the [lastIndex] of
    the cached [RegExp] object at 1, and the test of [G] starts there and
    fails.  The same happens with flag [y].  And flags with a colon share
    their cache key with another pattern: the pattern [a] with flags [:g]
    does not compile, so the schema [Q] that holds it validates nothing;
    listed under [not] in a schema with the pattern [g:a], it is served the
    pattern cached for that schema, passes for "g:a", and [validate] throws
    although the listed sub-schema fails to validate the value. *)
Lemma not_misses_a_cached_pattern :
  (let G := fun flags =>
              VObj [("pattern", VStr "a"); ("patternFlags", VStr flags)] in
   let schema := fun flags =>
                   VObj [("pattern", VStr "a"); ("patternFlags", VStr flags);
                         ("not", VArr [G flags])] in
   let v := Some (VStr "a") in
   fst (Cached.isValid reference literal v (G "g")
          Cached.new_JsonSchemaValidator) = Ok true
   /\ fst (Cached.validate reference literal v (schema "g")
             Cached.new_JsonSchemaValidator) = Ok tt
   /\ fst (Cached.isValid reference literal v (G "y")
             Cached.new_JsonSchemaValidator) = Ok true
   /\ fst (Cached.validate reference literal v (schema "y")
             Cached.new_JsonSchemaValidator) = Ok tt)
  /\ (let Q := VObj [("pattern", VStr "a"); ("patternFlags", VStr ":g")] in
      let schema := VObj [("pattern", VStr "g:a"); ("not", VArr [Q])] in
      let v := Some (VStr "g:a") in
      fst (Cached.isValid reference literal v Q Cached.new_JsonSchemaValidator)
      = Ok false
      /\ verdict_of
           (fst (Cached.validate reference literal v schema
                   Cached.new_JsonSchemaValidator))
         = Fails "not[0] schema matched" v schema).
Proof. repeat split; vm_compute; reflexivity. Qed.

(** C2, as amended.  For a schema whose [not] key is a list of sub-schemas
    and in which no [patternFlags] holds [g], [y] or a colon, and in
    whatever state the cache of the validator is: [isValid] decides for
    every listed sub-schema what it decides on a validator of its own; the
    [not] clause passes when every listed sub-schema fails to validate the
    value and otherwise throws a validation error naming the index of the
    first listed sub-schema that validates it.  Consequently [validate]
    fails whenever a listed sub-schema validates the value, and for
    [not: [A]] alone it throws naming index 0 when [A] validates the value
    and succeeds when [A] fails. *)
Theorem not_names_the_first_matching_member
  (keep : loc -> store -> path_info)
  (compile : string -> string -> string + (string -> nat -> option nat))
  (v : option value) (schema : value) (subSchemas : list value) :
  get schema "not" = Some (VArr subSchemas) ->
  stateless_patterns schema = true ->
  (forall m st cache,
     In m subSchemas -> consistent compile cache ->
     fst (Cached.isValid keep compile v m (Cached.mkWorld st cache))
     = Ok (is_valid (fresh compile) v m))
  /\ (Forall (fun m => is_valid (fresh compile) v m = false) subSchemas ->
      forall info st cache,
        consistent compile cache ->
        verdict_of
          (fst (Cached._validateNoneOf keep (Cached.run keep compile)
                  v schema info (Cached.mkWorld st cache)))
        = Passes)
  /\ (forall k m,
        nth_error subSchemas k = Some m ->
        is_valid (fresh compile) v m = true ->
        Forall (fun m' => is_valid (fresh compile) v m' = false)
          (firstn k subSchemas) ->
        (forall info st cache,
           consistent compile cache ->
           verdict_of
             (fst (Cached._validateNoneOf keep (Cached.run keep compile)
                     v schema info (Cached.mkWorld st cache)))
           = Fails ("not[" ++ string_of_nat k ++ "] schema matched") v schema)
        /\ forall st cache,
             consistent compile cache ->
             verdict_of
               (fst (Cached.validate keep compile v schema
                       (Cached.mkWorld st cache)))
             <> Passes)
  /\ (forall A st cache,
        subSchemas = [A] ->
        consistent compile cache ->
        verdict_of
          (fst (Cached.validate keep compile v (VObj [("not", VArr [A])])
                  (Cached.mkWorld st cache)))
        = if is_valid (fresh compile) v A
          then Fails "not[0] schema matched" v (VObj [("not", VArr [A])])
          else Passes).
Proof.
  intros H Hs.
  assert (Hclause : forall info st cache,
             consistent compile cache ->
             verdict_of
               (fst (Cached._validateNoneOf keep (Cached.run keep compile)
                       v schema info (Cached.mkWorld st cache)))
             = match first_matching (fresh compile) v subSchemas with
               | None => Passes
               | Some k =>
                   Fails ("not[" ++ string_of_nat k ++ "] schema matched")
                     v schema
               end).
  { intros info st cache Hc.
    rewrite (proj1 (@agrees_outcome compile _ _ _ st cache
                      (@agrees_validateNoneOf keep compile _ _
                         (fun v s i => @agrees_run keep compile v s i)
                         v schema info Hs) Hc)).
    apply _validateNoneOf_result, H. }
  split; [|split; [|split]].
  - intros m st cache Hin Hc.
    assert (Hm : stateless_patterns m = true).
    { eapply stateless_member_arr; [|exact Hin].
      eapply stateless_get; eassumption. }
    rewrite (proj1 (@agrees_outcome compile _ _ _ st cache
                      (@agrees_isValid keep compile v m Hm) Hc)).
    apply isValid_is_valid.
  - intros Hall info st cache Hc. rewrite Hclause by exact Hc.
    apply first_matching_none in Hall. rewrite Hall. reflexivity.
  - intros k m Hk Hm Hbefore.
    assert (Hf : first_matching (fresh compile) v subSchemas = Some k).
    { destruct (first_matching (fresh compile) v subSchemas) as [j|] eqn:F.
      - destruct (first_matching_some _ _ _ F) as [[m' [Hj Hm']] Hb].
        destruct (Nat.lt_trichotomy j k) as [Hlt|[->|Hgt]]; [| reflexivity |].
        + exfalso. rewrite Forall_forall in Hbefore.
          assert (Hin : In m' (firstn k subSchemas)).
          { apply nth_error_In with (n := j).
            rewrite nth_error_firstn.
            apply Nat.ltb_lt in Hlt. rewrite Hlt. exact Hj. }
          specialize (Hbefore m' Hin). congruence.
        + exfalso. rewrite Forall_forall in Hb.
          assert (Hin : In m (firstn j subSchemas)).
          { apply nth_error_In with (n := k).
            rewrite nth_error_firstn.
            apply Nat.ltb_lt in Hgt. rewrite Hgt. exact Hk. }
          specialize (Hb m Hin). congruence.
      - exfalso. apply first_matching_none in F. rewrite Forall_forall in F.
        apply nth_error_In in Hk. specialize (F m Hk). congruence. }
    split.
    + intros info st cache Hc. rewrite Hclause by exact Hc. rewrite Hf.
      reflexivity.
    + intros st cache Hc Hp.
      rewrite (proj1 (@agrees_outcome compile _ _ _ st cache
                        (@agrees_validate keep compile v schema Hs) Hc))
        in Hp.
      rewrite (validate_verdict keep (fresh compile) v schema 0 []) in Hp.
      apply run_passes_inv in Hp. destruct Hp as [_ [st2 H2]].
      rewrite (_validateNoneOf_result keep (fresh compile) _ _ _ _ H), Hf
        in H2.
      discriminate.
  - intros A st cache -> Hc.
    rewrite (proj1 (@agrees_outcome compile _ _ _ st cache
                      (@agrees_validate keep compile v _
                         (@stateless_only_key "not" [A] schema
                            Hs H eq_refl)) Hc)).
    rewrite validate_only_not. simpl.
    destruct (is_valid (fresh compile) v A); reflexivity.
Qed.

Lemma not_names_the_first_matching_member_witness :
  let subSchemas := [VObj [("type", VStr "string")];
                     VObj [("type", VStr "number")]] in
  let schema := VObj [("not", VArr subSchemas)] in
  get schema "not" = Some (VArr subSchemas)
  /\ stateless_patterns schema = true
  /\ consistent literal (Cached.new_CacheMap 100)
  /\ verdict_of
       (fst (Cached.validate reference literal (Some (VNum 1)) schema
               Cached.new_JsonSchemaValidator))
     <> Passes.
Proof.
  intros subSchemas schema. split; [reflexivity|]. split; [reflexivity|].
  split; [apply consistent_new|].
  refine (proj2 (proj1 (proj2 (proj2
            (@not_names_the_first_matching_member reference literal
               (Some (VNum 1)) schema subSchemas eq_refl eq_refl)))
            1 (VObj [("type", VStr "number")]) eq_refl eq_refl _)
            [] _ (@consistent_new literal 100)).
  repeat constructor.
Defined.

(** ** Property counts, trail discipline and the path an error records *)

(** C6.  The code at the failing inputs: an object with no property
    passes [minProperties: 1], and an object with two properties passes
    [maxProperties: 1].  The two checks compare [properties.length], which
    a [Set] does not have, so neither can ever fail. *)
Theorem property_count_is_not_checked :
  (forall keep properties m message v schema info,
     fail_if keep (js_lt (Set_length properties) (Some m))
       message v schema info = ret tt
     /\ fail_if keep (js_lt (Some m) (Set_length properties))
          message v schema info = ret tt)
  /\ fst (validate reference no_patterns (Some (VObj []))
            (VObj [("type", VStr "object"); ("minProperties", VNum 1)]) [])
     = Ok tt
  /\ fst (validate reference no_patterns
            (Some (VObj [("a", VNum 1); ("b", VNum 2)]))
            (VObj [("type", VStr "object"); ("maxProperties", VNum 1)]) [])
     = Ok tt.
Proof.
  split; [|split]; [| reflexivity | reflexivity].
  intros keep properties m message v schema info.
  unfold Set_length, js_lt, fail_if. destruct m; auto.
Qed.

(** C7.  The code at the failing inputs.  After [validate(1, {anyOf:
    [{}]})] has returned, the schema trail still holds the [anyOf] entry
    and the entry of the member that matched; after [validate([1],
    {contains: {}})] the value trail still holds the entry of the element
    that matched; and after an absorbed failure below a [oneOf] member the
    schema trail still holds entries of that member. *)
Theorem trails_are_not_restored :
  validate reference no_patterns (Some (VNum 1))
    (VObj [("anyOf", VArr [VObj []])]) []
  = (Ok tt,
     [mkInfo [(KNull, Some (VNum 1))]
        [(KNull, Some (VObj [("anyOf", VArr [VObj []])]));
         (KName "anyOf", Some (VArr [VObj []]));
         (KIndex 0, Some (VObj []))]])
  /\ validate reference no_patterns (Some (VArr [VNum 1]))
       (VObj [("contains", VObj [])]) []
     = (Ok tt,
        [mkInfo [(KNull, Some (VArr [VNum 1])); (KIndex 0, Some (VNum 1))]
           [(KNull, Some (VObj [("contains", VObj [])]))]])
  /\ (let failing := VObj [("allOf", VArr [VObj [("type", VStr "string")]])] in
      let schema := VObj [("oneOf", VArr [failing; VObj []])] in
      validate reference no_patterns (Some (VNum 1)) schema []
      = (Ok tt,
         [mkInfo [(KNull, Some (VNum 1))]
            [(KNull, Some schema);
             (KName "oneOf", Some (VArr [failing; VObj []]));
             (KIndex 0, Some failing)]])).
Proof. repeat split. Qed.

(** C8, counterexample.  The error that escapes [validate(1, {type:
    "string"})] holds a reference to the traversal info of the call, not a
    copy: a pop performed on that object afterwards changes the trails read
    through the error. *)
Lemma escaping_error_holds_a_live_reference :
  let schema := VObj [("type", VStr "string")] in
  exists message v s st,
    validate reference no_patterns (Some (VNum 1)) schema []
    = (Throw (JsonSchemaValidationError message v s (Reference 0)), st)
    /\ trails_of (JsonSchemaValidationError message v s (Reference 0))
         (snd (schemaPop 0 st))
       <> trails_of (JsonSchemaValidationError message v s (Reference 0)) st.
Proof.
  simpl. eexists _, _, _, _. split; [reflexivity|]. simpl. discriminate.
Qed.

Section Snapshot.

Variable RegExp : string -> string -> string + (string -> bool).

(** An error of the source against the error an implementation that copies
    the trails at the throw would raise in its place: the same report, the
    reference to the traversal info [i] on one side and, on the other, the
    copy of what that object holds in the store the error escapes in. *)
Definition shows_the_copy (i : loc) (e1 : exn) (st : store) (e2 : exn) : Prop :=
  match e1, e2 with
  | JsonSchemaValidationError m1 v1 s1 p1,
    JsonSchemaValidationError m2 v2 s2 p2 =>
      m1 = m2 /\ v1 = v2 /\ s1 = s2
      /\ p1 = Reference i /\ p2 = Snapshot (read i st)
  | TypeError m1, TypeError m2 => m1 = m2
  | _, _ => False
  end.

Lemma _validate_frozen_sim i n : forall v s,
  sim (shows_the_copy i) eq (fun b => b = true)
      (_validate reference RegExp n v s i) (_validate frozen RegExp n v s i).
Proof.
  induction n as [|n IH]; intros v s.
  - intros st1 st2 _. simpl. reflexivity.
  - cbn [_validate]. apply sim_validate_body; auto; try congruence.
    + intros m a s0 st1 st2 <-. simpl. auto.
    + intros v' s' _. apply IH.
Qed.

Lemma validate_frozen v schema st :
  related (shows_the_copy (List.length st)) eq (fun b => b = true)
    (validate reference RegExp v schema st)
    (validate frozen RegExp v schema st).
Proof.
  unfold validate, alloc_info, bind.
  apply _validate_frozen_sim. reflexivity.
Qed.

End Snapshot.

(** C8, as amended.  A validation error that escapes [validate] holds a
    reference to the traversal info object the call created, not a copy.
    An engine that copies the trails when it constructs the error fails on
    the same inputs with the same report and leaves the same store, and
    its copy is what the reference shows in the store the error escapes
    in: nothing touches the trails between the throw and the escape. *)
Theorem escaping_error_shows_the_trails_at_the_throw
  (RegExp : string -> string -> string + (string -> bool))
  (v : option value) (schema : value) (st st' : store)
  (message : string) (a : option value) (s : value) (p : path_info) :
  validate reference RegExp v schema st
  = (Throw (JsonSchemaValidationError message a s p), st') ->
  p = Reference (List.length st)
  /\ exists copy,
       validate frozen RegExp v schema st
       = (Throw (JsonSchemaValidationError message a s (Snapshot copy)), st')
       /\ trails_of (JsonSchemaValidationError message a s p) st' = copy.
Proof.
  intros H. pose proof (validate_frozen RegExp v schema st) as R.
  unfold related in R. rewrite H in R.
  destruct (validate frozen RegExp v schema st) as [[u|e2|] st2];
    try contradiction.
  destruct R as [R <-]. unfold shows_the_copy in R.
  destruct e2 as [m2 v2 s2 p2| | |]; try contradiction.
  destruct R as (-> & -> & -> & -> & ->).
  split; [reflexivity|]. eexists. split; reflexivity.
Qed.

Lemma escaping_error_shows_the_trails_at_the_throw_witness :
  let schema := VObj [("type", VStr "string")] in
  let message := "Value type number does not match schema type string" in
  let e := JsonSchemaValidationError message (Some (VNum 1)) schema
             (Reference 0) in
  let st' := [new_info (Some (VNum 1)) schema] in
  validate reference no_patterns (Some (VNum 1)) schema [] = (Throw e, st')
  /\ (Reference 0 = Reference (List.length (@nil JsonSchemaTraversalInfo))
      /\ exists copy,
           validate frozen no_patterns (Some (VNum 1)) schema []
           = (Throw (JsonSchemaValidationError message (Some (VNum 1)) schema
                       (Snapshot copy)), st')
           /\ trails_of e st' = copy).
Proof.
  intros schema message e st'. split; [reflexivity|].
  apply (@escaping_error_shows_the_trails_at_the_throw no_patterns
           (Some (VNum 1)) schema [] st' message (Some (VNum 1)) schema
           (Reference 0)).
  reflexivity.
Defined.

(** ** The recursion budget of the normalization engine *)

Arguments depth : simpl never.

(** Every member of an object, or of an array, is at most [B] deep. *)
Definition fields_le (B : nat) (fs : list (string * value)) : Prop :=
  Forall (fun kv => depth (snd kv) <= B) fs.

Definition items_le (B : nat) (l : list value) : Prop :=
  Forall (fun x => depth x <= B) l.

Lemma depth_obj_le B fs : fields_le B fs -> fs <> [] -> depth (VObj fs) <= S B.
Proof.
  induction 1 as [|[k x] r Hx Hr IH]; intros Hne; [congruence|].
  rewrite depth_obj_cons. simpl in Hx.
  destruct r as [|kv r']; [simpl; lia|].
  assert (depth (VObj (kv :: r')) <= S B) by (apply IH; discriminate). lia.
Qed.

Lemma depth_arr_le B l : items_le B l -> l <> [] -> depth (VArr l) <= S B.
Proof.
  induction 1 as [|x r Hx Hr IH]; intros Hne; [congruence|].
  rewrite depth_arr_cons.
  destruct r as [|y r']; [simpl; lia|].
  assert (depth (VArr (y :: r')) <= S B) by (apply IH; discriminate). lia.
Qed.

Lemma fields_le_depth fs : fields_le (depth (VObj fs) - 1) fs.
Proof.
  apply Forall_forall. intros [k x] Hin. simpl.
  assert (depth x < depth (VObj fs)); [|lia].
  clear -Hin. induction fs as [|[k' y] r IH]; [contradiction|].
  rewrite depth_obj_cons. destruct Hin as [H|H].
  - injection H as -> ->. lia.
  - specialize (IH H). lia.
Qed.

Lemma items_le_depth l : items_le (depth (VArr l) - 1) l.
Proof.
  apply Forall_forall. intros x Hin.
  apply depth_member_arr in Hin. lia.
Qed.

Lemma fields_le_weaken B B' fs : B <= B' -> fields_le B fs -> fields_le B' fs.
Proof.
  intros Hle H. eapply Forall_impl; [|exact H]. simpl. intros; lia.
Qed.

Lemma items_le_weaken B B' l : B <= B' -> items_le B l -> items_le B' l.
Proof.
  intros Hle H. eapply Forall_impl; [|exact H]. simpl. intros; lia.
Qed.

Lemma fields_le_lookup B fs k :
  fields_le B fs -> depth_opt (Props.lookup k fs) <= B.
Proof.
  induction 1 as [|[k' x] r Hx Hr IH]; simpl; [lia|].
  destruct (String.eqb k k'); simpl in *; auto.
Qed.

Lemma fields_le_set B fs k x :
  fields_le B fs -> depth x <= B -> fields_le B (Props.set k x fs).
Proof.
  induction 1 as [|[k' y] r Hy Hr IH]; simpl; intros Hx.
  - repeat constructor. exact Hx.
  - destruct (String.eqb k k'); constructor; simpl; auto.
    apply IH, Hx.
Qed.

Lemma fields_le_remove B fs k :
  fields_le B fs -> fields_le B (Props.remove k fs).
Proof.
  induction 1 as [|[k' y] r Hy Hr IH]; simpl; [constructor|].
  destruct (String.eqb k k'); [exact IH | constructor; auto].
Qed.

Lemma items_le_nth B l i :
  items_le B l -> depth_opt (nth_error l i) <= B.
Proof.
  intros H. destruct (nth_error l i) as [x|] eqn:E; simpl; [|lia].
  apply nth_error_In in E. unfold items_le in H.
  rewrite Forall_forall in H. auto.
Qed.

Lemma items_le_set B l i x :
  items_le B l -> depth x <= B -> items_le B (list_set i x l).
Proof.
  intros H Hx. revert i.
  induction H as [|y r Hy Hr IH]; intros i; destruct i; simpl;
    try constructor; auto.
  apply IH.
Qed.

Lemma list_set_length i x l : List.length (list_set i x l) = List.length l.
Proof.
  revert i. induction l as [|y r IH]; intros i; destruct i; simpl; auto.
Qed.

Lemma items_le_app B l1 l2 :
  items_le B l1 -> items_le B l2 -> items_le B (l1 ++ l2).
Proof. intros. apply Forall_app; auto. Qed.

Lemma items_le_firstn B l n : items_le B l -> items_le B (firstn n l).
Proof.
  intros H. revert n. induction H as [|x r Hx Hr IH]; intros n;
    destruct n; simpl; constructor; auto. apply IH.
Qed.

Lemma items_le_skipn B l n : items_le B l -> items_le B (skipn n l).
Proof.
  intros H. revert n. induction H as [|x r Hx Hr IH]; intros n;
    destruct n; simpl; try constructor; auto.
Qed.

Lemma items_le_splice B l start count :
  items_le B l -> items_le B (Array_splice l start count).
Proof.
  intros H. unfold Array_splice. apply items_le_app.
  - apply items_le_firstn, H.
  - apply items_le_skipn, H.
Qed.

(** The schema the navigator resolves is a strict member of the schema, or
    the unconstrained schema. *)
Lemma resolved_additional schema key ps steps :
  additional_schema schema key = Some (ps, steps) ->
  depth ps < depth schema \/ ps = unconstrainedSchema.
Proof.
  unfold additional_schema. intros H.
  destruct (get schema key) as [[| [] | | | |fs]|] eqn:G;
    try (injection H as <- <-; right; reflexivity); try discriminate.
  injection H as <- <-. left. apply depth_get in G. exact G.
Qed.

Lemma resolved_getPropertySchema schema p v ps steps :
  _getPropertySchema schema p v = Some (ps, steps) ->
  depth ps < depth schema \/ ps = unconstrainedSchema.
Proof.
  unfold _getPropertySchema. intros H.
  destruct (_getSchemaOrValueType schema v) as [type|]; [|discriminate].
  destruct (String.eqb type "object").
  - destruct (get schema "properties") as [[| | | | |props]|] eqn:G;
      try (eapply resolved_additional; eassumption).
    destruct (inherited_or_own props (property_key p)) as [[| | | | |q]|] eqn:L;
      try (eapply resolved_additional; eassumption).
    injection H as <- <-.
    apply inherited_or_own_cases in L. destruct L as [L|L].
    + left. apply depth_member_obj in L. apply depth_get in G. lia.
    + right. exact L.
  - destruct (String.eqb type "array"); [|discriminate].
    destruct (get schema "items") as [[| | | |items|items]|] eqn:G;
      try (eapply resolved_additional; eassumption).
    + destruct (tuple_item items p) as [[| | | | |q]|] eqn:T;
        try (eapply resolved_additional; eassumption).
      injection H as <- <-. left.
      apply depth_tuple_item in T. apply depth_get in G. lia.
    + injection H as <- <-. left. apply depth_get in G. exact G.
Qed.

Lemma depth_zero_get schema k : depth schema = 0 -> get schema k = None.
Proof.
  intros H. destruct (get schema k) as [x|] eqn:G; [|reflexivity].
  apply depth_get in G. lia.
Qed.

Lemma depth_zero_obj fs : depth (VObj fs) = 0 -> fs = [].
Proof.
  destruct fs as [|[k x] r]; [reflexivity|]. rewrite depth_obj_cons. lia.
Qed.

Lemma depth_zero_arr l : depth (VArr l) = 0 -> l = [].
Proof.
  destruct l as [|x r]; [reflexivity|]. rewrite depth_arr_cons. lia.
Qed.

(** The measure that decreases along nested calls of
    [_getValidValueOrDefault]. *)
Definition phi (schema : value) (v : option value) : nat :=
  depth schema + Nat.max (depth schema) (depth_opt v).

Lemma depth_getDefaultTypeValue t : depth (_getDefaultTypeValue t) = 0.
Proof.
  unfold _getDefaultTypeValue. destruct t as [[| | |s| |]|]; try reflexivity.
  repeat match goal with
         | |- context [if ?b then _ else _] => destruct b
         end; reflexivity.
Qed.

Lemma depth_getDefaultSchemaValue schema :
  depth (_getDefaultSchemaValue schema) <= depth schema.
Proof.
  unfold _getDefaultSchemaValue, clone.
  destruct (get schema "default") as [d|] eqn:G.
  - destruct (_isValueTypeAny _ _ _).
    + apply depth_get in G. lia.
    + rewrite depth_getDefaultTypeValue. lia.
  - rewrite depth_getDefaultTypeValue. lia.
Qed.

Section NormalizeBudget.

Variable RegExp : string -> string -> string + (string -> bool).
Variables rec1 rec2 : value -> option value -> option value.

(** A call that both recursive functions answer alike, with a result that
    is at most [B] deep. *)
Definition call_ok (B : nat) (ps : value) (x : option value) : Prop :=
  rec1 ps x = rec2 ps x /\ exists r, rec1 ps x = Some r /\ depth r <= B.

Definition resolvable (schema ps : value) : Prop :=
  depth ps < depth schema \/ ps = unconstrainedSchema.

Definition calls_ok (schema : value) (B : nat) : Prop :=
  forall ps x, resolvable schema ps -> depth_opt x <= B -> call_ok B ps x.

Lemma required_defaults_loop_rel schema B required :
  calls_ok schema B ->
  forall properties fields,
    fields_le B fields ->
    required_defaults_loop rec1 schema required properties fields
    = required_defaults_loop rec2 schema required properties fields
    /\ exists properties' fields',
         required_defaults_loop rec1 schema required properties fields
         = Some (properties', fields')
         /\ fields_le B fields'.
Proof.
  intros Hcall. induction required as [|entry rest IH];
    intros properties fields Hle; cbn [required_defaults_loop].
  - split; [reflexivity|]. eauto.
  - destruct (_getPropertySchema schema (property_of_value entry)
                (Some (VObj fields))) as [[ps steps]|] eqn:Hps.
    + apply resolved_getPropertySchema in Hps.
      destruct (Hcall ps
                  (Props.lookup (property_key (property_of_value entry))
                     fields) Hps (fields_le_lookup _ Hle))
        as (Heq & r & Hr & Hd).
      rewrite <- Heq, Hr. apply IH. apply fields_le_set; assumption.
    + apply IH, Hle.
Qed.

Lemma other_defaults_loop_rel schema B properties :
  calls_ok schema B ->
  forall fields,
    fields_le B fields ->
    other_defaults_loop rec1 schema properties fields
    = other_defaults_loop rec2 schema properties fields
    /\ exists fields',
         other_defaults_loop rec1 schema properties fields = Some fields'
         /\ fields_le B fields'.
Proof.
  intros Hcall. induction properties as [|name rest IH];
    intros fields Hle; cbn [other_defaults_loop].
  - split; [reflexivity|]. eauto.
  - destruct (_getPropertySchema schema (PName name) (Some (VObj fields)))
      as [[ps steps]|] eqn:Hps.
    + apply resolved_getPropertySchema in Hps.
      destruct (Hcall ps (Props.lookup name fields) Hps
                  (fields_le_lookup _ Hle)) as (Heq & r & Hr & Hd).
      rewrite <- Heq, Hr. apply IH. apply fields_le_set; assumption.
    + apply IH. apply fields_le_remove, Hle.
Qed.

Lemma _populateObjectDefaults_rel schema B fields :
  calls_ok schema B ->
  fields_le B fields ->
  _populateObjectDefaults rec1 fields schema
  = _populateObjectDefaults rec2 fields schema
  /\ exists fields',
       _populateObjectDefaults rec1 fields schema = Some (VObj fields')
       /\ fields_le B fields'.
Proof.
  intros Hcall Hle. unfold _populateObjectDefaults.
  assert (Hreq :
    match get schema "required" with
    | Some (VArr required) =>
        required_defaults_loop rec1 schema required (Props.names fields) fields
    | _ => Some (Props.names fields, fields)
    end
    = match get schema "required" with
      | Some (VArr required) =>
          required_defaults_loop rec2 schema required (Props.names fields)
            fields
      | _ => Some (Props.names fields, fields)
      end
    /\ exists properties' fields',
         match get schema "required" with
         | Some (VArr required) =>
             required_defaults_loop rec1 schema required (Props.names fields)
               fields
         | _ => Some (Props.names fields, fields)
         end = Some (properties', fields')
         /\ fields_le B fields').
  { destruct (get schema "required") as [[| | | |required|]|];
      try (split; [reflexivity | eauto]).
    apply required_defaults_loop_rel; assumption. }
  destruct Hreq as (Heq & properties' & fields' & Hr & Hle').
  rewrite <- Heq, Hr.
  destruct (other_defaults_loop_rel properties' Hcall Hle')
    as (Heq2 & fields'' & Hr2 & Hle'').
  rewrite <- Heq2, Hr2. simpl. split; [reflexivity|]. eauto.
Qed.

Lemma element_defaults_loop_rel schema B count :
  calls_ok schema B ->
  forall i elements,
    items_le B elements ->
    element_defaults_loop rec1 schema count i elements
    = element_defaults_loop rec2 schema count i elements
    /\ exists elements',
         element_defaults_loop rec1 schema count i elements = Some elements'
         /\ items_le B elements'.
Proof.
  intros Hcall. induction count as [|count IH];
    intros i elements Hle; cbn [element_defaults_loop].
  - split; [reflexivity|]. eauto.
  - destruct (_getPropertySchema schema (PNumber (Z.of_nat i))
                (Some (VArr elements))) as [[ps steps]|] eqn:Hps.
    + apply resolved_getPropertySchema in Hps.
      destruct (Hcall ps (nth_error elements i) Hps (items_le_nth i Hle))
        as (Heq & r & Hr & Hd).
      rewrite <- Heq, Hr. apply IH. apply items_le_set; assumption.
    + apply IH, Hle.
Qed.

Lemma padding_loop_rel schema B count :
  calls_ok schema B ->
  forall elements,
    items_le B elements ->
    padding_loop rec1 schema count elements
    = padding_loop rec2 schema count elements
    /\ exists elements',
         padding_loop rec1 schema count elements = Some elements'
         /\ items_le B elements'.
Proof.
  intros Hcall. induction count as [|count IH];
    intros elements Hle; cbn [padding_loop].
  - split; [reflexivity|]. eauto.
  - destruct (_getPropertySchema schema
                (PNumber (Z.of_nat (List.length elements)))
                (Some (VArr elements))) as [[ps steps]|] eqn:Hps.
    + apply resolved_getPropertySchema in Hps.
      destruct (Hcall ps None Hps (Nat.le_0_l B)) as (Heq & r & Hr & Hd).
      rewrite <- Heq, Hr. apply IH. apply items_le_app; [exact Hle|].
      repeat constructor. exact Hd.
    + split; [reflexivity|]. eauto.
Qed.

Lemma _populateArrayDefaults_rel schema B elements :
  calls_ok schema B ->
  items_le B elements ->
  _populateArrayDefaults rec1 elements schema
  = _populateArrayDefaults rec2 elements schema
  /\ exists elements',
       _populateArrayDefaults rec1 elements schema = Some (VArr elements')
       /\ items_le B elements'.
Proof.
  intros Hcall Hle. unfold _populateArrayDefaults.
  destruct (element_defaults_loop_rel (List.length elements) Hcall 0 Hle)
    as (Heq & normalized & Hr & Hle1).
  rewrite <- Heq, Hr.
  assert (Hpad :
    match number_key schema "minItems" with
    | Some minItems =>
        padding_loop rec1 schema
          (Z.to_nat (minItems - Z.of_nat (List.length normalized))) normalized
    | None => Some normalized
    end
    = match number_key schema "minItems" with
      | Some minItems =>
          padding_loop rec2 schema
            (Z.to_nat (minItems - Z.of_nat (List.length normalized)))
            normalized
      | None => Some normalized
      end
    /\ exists padded,
         match number_key schema "minItems" with
         | Some minItems =>
             padding_loop rec1 schema
               (Z.to_nat (minItems - Z.of_nat (List.length normalized)))
               normalized
         | None => Some normalized
         end = Some padded
         /\ items_le B padded).
  { destruct (number_key schema "minItems");
      [apply padding_loop_rel; assumption | split; [reflexivity | eauto]]. }
  destruct Hpad as (Heq2 & padded & Hr2 & Hle2).
  rewrite <- Heq2, Hr2. split; [reflexivity|].
  eexists. split; [reflexivity|].
  destruct (number_key schema "maxItems"); [|exact Hle2].
  destruct (_ <? _)%Z; [apply items_le_splice|]; exact Hle2.
Qed.

(** The body of [_getValidValueOrDefault] under two recursive functions
    that answer alike, and not too deep, below the call. *)
Lemma normalize_body_rel schema v :
  (forall ps x, phi ps x < phi schema v ->
                call_ok (Nat.max (depth_opt x) (depth ps)) ps x) ->
  normalize_body RegExp rec1 schema v = normalize_body RegExp rec2 schema v
  /\ exists r,
       normalize_body RegExp rec1 schema v = Some r
       /\ depth r <= Nat.max (depth_opt v) (depth schema).
Proof.
  intros H. unfold normalize_body.
  set (replaced :=
         match v with
         | Some x =>
             if _isValueTypeAny v (_getValueType v) (get schema "type")
             then x else _getDefaultSchemaValue schema
         | None => _getDefaultSchemaValue schema
         end).
  assert (Hrep : depth replaced <= Nat.max (depth_opt v) (depth schema)).
  { pose proof (depth_getDefaultSchemaValue schema). subst replaced.
    destruct v as [x|]; [destruct (_isValueTypeAny _ _ _)|]; simpl; lia. }
  assert (Hdef : depth (_getDefaultSchemaValue schema)
                 <= Nat.max (depth_opt v) (depth schema)).
  { pose proof (depth_getDefaultSchemaValue schema). lia. }
  assert (Hcalls : 1 <= Nat.max (depth replaced) (depth schema) ->
                   calls_ok schema
                     (Nat.max (depth replaced) (depth schema) - 1)).
  { intros Hpos ps x Hps Hx.
    assert (Hphi : phi ps x < phi schema v).
    { unfold phi. destruct Hps as [Hps| ->].
      - lia.
      - change (depth unconstrainedSchema) with 0. lia. }
    destruct (H ps x Hphi) as (Heq & r & Hr & Hd).
    split; [exact Heq|]. exists r. split; [exact Hr|].
    destruct Hps as [Hps| ->].
    - lia.
    - change (depth unconstrainedSchema) with 0 in Hd. lia. }
  clearbody replaced.
  destruct replaced as [| b | n | s | elements | fields];
    try (split; [reflexivity|];
         repeat match goal with
                | |- context [if ?b then _ else _] => destruct b
                end; eexists; split; try reflexivity; assumption).
  - (* array *)
    destruct (Nat.eq_dec (Nat.max (depth (VArr elements)) (depth schema)) 0)
      as [Hz|Hnz].
    + assert (elements = []) by (apply depth_zero_arr; lia). subst elements.
      unfold _populateArrayDefaults, number_key.
      rewrite !depth_zero_get by lia. simpl.
      split; [reflexivity|]. eexists. split; [reflexivity|].
      change (depth (VArr [])) with 0. lia.
    + destruct (@_populateArrayDefaults_rel schema
                  (Nat.max (depth (VArr elements)) (depth schema) - 1)
                  elements) as (Heq & elements' & Hr & Hle).
      * apply Hcalls. lia.
      * eapply items_le_weaken; [|apply items_le_depth]. lia.
      * split; [exact Heq|]. exists (VArr elements'). split; [exact Hr|].
        destruct elements' as [|y r'].
        -- change (depth (VArr [])) with 0. lia.
        -- apply depth_arr_le in Hle; [lia | discriminate].
  - (* object *)
    destruct (Nat.eq_dec (Nat.max (depth (VObj fields)) (depth schema)) 0)
      as [Hz|Hnz].
    + assert (fields = []) by (apply depth_zero_obj; lia). subst fields.
      unfold _populateObjectDefaults.
      rewrite !depth_zero_get by lia. simpl.
      split; [reflexivity|]. eexists. split; [reflexivity|].
      change (depth (VObj [])) with 0. lia.
    + destruct (@_populateObjectDefaults_rel schema
                  (Nat.max (depth (VObj fields)) (depth schema) - 1)
                  fields) as (Heq & fields' & Hr & Hle).
      * apply Hcalls. lia.
      * eapply fields_le_weaken; [|apply fields_le_depth]. lia.
      * split; [exact Heq|]. exists (VObj fields'). split; [exact Hr|].
        destruct fields' as [|y r'].
        -- change (depth (VObj [])) with 0. lia.
        -- apply depth_obj_le in Hle; [lia | discriminate].
Qed.

End NormalizeBudget.

Section NormalizeTotal.

Variable RegExp : string -> string -> string + (string -> bool).

(** Any two budgets above the measure give the same result, and they give
    one. *)
Lemma _getValidValueOrDefault_stable n : forall m schema v,
  phi schema v < n -> phi schema v < m ->
  _getValidValueOrDefault RegExp n schema v
  = _getValidValueOrDefault RegExp m schema v
  /\ exists r,
       _getValidValueOrDefault RegExp n schema v = Some r
       /\ depth r <= Nat.max (depth_opt v) (depth schema).
Proof.
  induction n as [|n IH]; intros m schema v Hn Hm; [lia|].
  destruct m as [|m]; [lia|]. cbn [_getValidValueOrDefault].
  apply normalize_body_rel. intros ps x Hphi. apply IH; lia.
Qed.

(** [_getValidValueOrDefault] at the budget [getValidValueOrDefault] gives
    it. *)
Definition normalize (schema : value) (v : option value) : value :=
  match _getValidValueOrDefault RegExp (normalize_budget schema v) schema v with
  | Some r => r
  | None => VNull
  end.

Lemma normalize_any_budget n schema v :
  phi schema v < n ->
  _getValidValueOrDefault RegExp n schema v = Some (normalize schema v).
Proof.
  intros Hn. unfold normalize, normalize_budget. fold (phi schema v).
  destruct (@_getValidValueOrDefault_stable n (S (phi schema v)) schema v Hn
              (Nat.lt_succ_diag_r _)) as (Heq & r & Hr & _).
  rewrite <- Heq, Hr. reflexivity.
Qed.

Lemma depth_normalize schema v :
  depth (normalize schema v) <= Nat.max (depth_opt v) (depth schema).
Proof.
  destruct (@_getValidValueOrDefault_stable (S (phi schema v))
              (S (phi schema v)) schema v (Nat.lt_succ_diag_r _)
              (Nat.lt_succ_diag_r _)) as (_ & r & Hr & Hd).
  rewrite normalize_any_budget in Hr by lia. injection Hr as ->. exact Hd.
Qed.

(** The equation of the source: [_getValidValueOrDefault] is its body,
    with itself for the recursive call. *)
Lemma normalize_unfold schema v :
  normalize_body RegExp (fun s x => Some (normalize s x)) schema v
  = Some (normalize schema v).
Proof.
  rewrite <- (@normalize_any_budget (S (phi schema v)) schema v)
    by apply Nat.lt_succ_diag_r.
  cbn [_getValidValueOrDefault]. symmetry.
  apply normalize_body_rel. intros ps x Hphi. unfold call_ok.
  rewrite normalize_any_budget by exact Hphi.
  split; [reflexivity|]. eexists. split; [reflexivity|].
  apply depth_normalize.
Qed.

(** [getValidValueOrDefault] returns: its budget is never exhausted. *)
Lemma getValidValueOrDefault_returns schema v :
  schema <> VNull ->
  getValidValueOrDefault RegExp schema v = Ok (normalize schema v).
Proof.
  intros Hs. unfold getValidValueOrDefault.
  rewrite normalize_any_budget
    by (unfold normalize_budget; fold (phi schema v); lia).
  destruct schema; try reflexivity. congruence.
Qed.

End NormalizeTotal.

(** ** Substitution of defaults *)

Section Defaults.

Variable RegExp : string -> string -> string + (string -> bool).

(** The value [_getValidValueOrDefault] goes on with after its first
    step. *)
Definition replaced (schema : value) (v : option value) : value :=
  match v with
  | None => _getDefaultSchemaValue schema
  | Some x =>
      if _isValueTypeAny v (_getValueType v) (get schema "type") then x
      else _getDefaultSchemaValue schema
  end.



Lemma replaced_replaced schema v :
  replaced schema (Some (replaced schema v)) = replaced schema v.
Proof.
  unfold replaced at 1.
  destruct (_isValueTypeAny _ _ _) eqn:H; [reflexivity|].
  unfold replaced. destruct v as [x|]; [|reflexivity].
  destruct (_isValueTypeAny (Some x) _ _) eqn:H'; [|reflexivity].
  unfold replaced in H. rewrite H' in H. congruence.
Qed.

(** Normalization only looks at the value after its first step. *)
Lemma normalize_replaced schema v :
  normalize RegExp schema v
  = normalize RegExp schema (Some (replaced schema v)).
Proof.
  pose proof (normalize_unfold RegExp schema v) as H1.
  pose proof (normalize_unfold RegExp schema (Some (replaced schema v))) as H2.
  unfold normalize_body in H1, H2.
  fold (replaced schema v) in H1.
  fold (replaced schema (Some (replaced schema v))) in H2.
  rewrite replaced_replaced in H2. congruence.
Qed.

End Defaults.


(** ** Normalization with the cache and without it *)

Section CachedNormalization.

Variable compile : string -> string -> string + (string -> nat -> option nat).

(** The normalization step with the cache returns what the step without it
    returns, and leaves a consistent cache. *)
Definition agreesN {A} (r : option A) (mc : Cached.N A) : Prop :=
  forall st cache,
    consistent compile cache ->
    exists w',
      mc (Cached.mkWorld st cache) = (r, w')
      /\ consistent compile (Cached._regexCache w').

Lemma agreesN_ret {A} (a : A) : agreesN (Some a) (Cached.retN a).
Proof. intros st cache H. eexists. split; [reflexivity | exact H]. Qed.

Lemma agreesN_bind {A B} (r : option A) (mc : Cached.N A)
  (k : A -> option B) (kc : A -> Cached.N B) :
  agreesN r mc -> (forall a, r = Some a -> agreesN (k a) (kc a)) ->
  agreesN (match r with Some a => k a | None => None end)
    (Cached.bindN mc kc).
Proof.
  intros Hm Hk st cache Hc. destruct (Hm st cache Hc) as (w1 & E & Hc1).
  unfold Cached.bindN. rewrite E. destruct r as [a|].
  - destruct w1 as [st1 c1]. apply (Hk a eq_refl). exact Hc1.
  - exists w1. auto.
Qed.

Lemma agreesN_valid v schema :
  stateless_patterns schema = true ->
  agreesN (Some (is_valid (fresh compile) v schema))
    (Cached.valid compile v schema).
Proof.
  intros Hs st cache Hc. unfold Cached.valid.
  destruct (@agrees_isValid reference compile v schema Hs st cache Hc)
    as (c' & E & Hc').
  rewrite E, isValid_is_valid. eexists. split; [reflexivity | exact Hc'].
Qed.

Section Populate.

Variable rec : value -> option value -> option value.
Variable recC : value -> option value -> Cached.N value.

Hypothesis Hrec : forall schema v,
  stateless_patterns schema = true -> agreesN (rec schema v) (recC schema v).

Lemma agreesN_required_defaults_loop schema required :
  stateless_patterns schema = true ->
  forall properties fields,
    agreesN (required_defaults_loop rec schema required properties fields)
      (Cached.required_defaults_loop recC schema required properties fields).
Proof.
  intros Hs. induction required as [|entry rest IH]; intros properties fields;
    cbn [required_defaults_loop Cached.required_defaults_loop].
  - apply agreesN_ret.
  - destruct (_getPropertySchema schema (property_of_value entry)
                (Some (VObj fields))) as [[ps steps]|] eqn:G; [|apply IH].
    apply agreesN_bind with (k := fun r =>
             required_defaults_loop rec schema rest
               (Set_delete properties entry)
               (Props.set (property_key (property_of_value entry)) r fields)).
    + apply Hrec. eapply stateless_getPropertySchema; eassumption.
    + intros r _. apply IH.
Qed.

Lemma agreesN_other_defaults_loop schema properties :
  stateless_patterns schema = true ->
  forall fields,
    agreesN (other_defaults_loop rec schema properties fields)
      (Cached.other_defaults_loop recC schema properties fields).
Proof.
  intros Hs. induction properties as [|name rest IH]; intros fields;
    cbn [other_defaults_loop Cached.other_defaults_loop].
  - apply agreesN_ret.
  - destruct (_getPropertySchema schema (PName name) (Some (VObj fields)))
      as [[ps steps]|] eqn:G; [|apply IH].
    apply agreesN_bind with (k := fun r =>
             other_defaults_loop rec schema rest (Props.set name r fields)).
    + apply Hrec. eapply stateless_getPropertySchema; eassumption.
    + intros r _. apply IH.
Qed.

Lemma agreesN_populateObjectDefaults fields schema :
  stateless_patterns schema = true ->
  agreesN (_populateObjectDefaults rec fields schema)
    (Cached._populateObjectDefaults recC fields schema).
Proof.
  intros Hs. unfold _populateObjectDefaults, Cached._populateObjectDefaults.
  set (first := match get schema "required" with
                | Some (VArr required) =>
                    required_defaults_loop rec schema required
                      (Props.names fields) fields
                | _ => Some (Props.names fields, fields)
                end).
  assert (H1 : agreesN first
                 match get schema "required" with
                 | Some (VArr required) =>
                     Cached.required_defaults_loop recC schema required
                       (Props.names fields) fields
                 | _ => Cached.retN (Props.names fields, fields)
                 end).
  { subst first. destruct (get schema "required") as [[| | | |required|]|];
      try apply agreesN_ret.
    apply agreesN_required_defaults_loop, Hs. }
  replace (match first with
           | Some (properties', fields') =>
               option_map VObj (other_defaults_loop rec schema properties' fields')
           | None => None
           end)
    with (match first with
          | Some state =>
              match other_defaults_loop rec schema (fst state) (snd state) with
              | Some fields' => Some (VObj fields')
              | None => None
              end
          | None => None
          end)
    by (destruct first as [[ps fs]|]; [|reflexivity]; cbn [fst snd];
        destruct (other_defaults_loop rec schema ps fs); reflexivity).
  apply agreesN_bind with (k := fun state =>
           match other_defaults_loop rec schema (fst state) (snd state) with
           | Some fields' => Some (VObj fields')
           | None => None
           end); [exact H1|].
  intros state _.
  apply agreesN_bind with (k := fun fields' => Some (VObj fields')).
  - apply agreesN_other_defaults_loop, Hs.
  - intros fields' _. apply agreesN_ret.
Qed.

Lemma agreesN_element_defaults_loop schema count :
  stateless_patterns schema = true ->
  forall i elements,
    agreesN (element_defaults_loop rec schema count i elements)
      (Cached.element_defaults_loop recC schema count i elements).
Proof.
  intros Hs. induction count as [|c IH]; intros i elements;
    cbn [element_defaults_loop Cached.element_defaults_loop].
  - apply agreesN_ret.
  - destruct (_getPropertySchema schema (PNumber (Z.of_nat i))
                (Some (VArr elements))) as [[ps steps]|] eqn:G; [|apply IH].
    apply agreesN_bind with (k := fun r =>
             element_defaults_loop rec schema c (S i) (list_set i r elements)).
    + apply Hrec. eapply stateless_getPropertySchema; eassumption.
    + intros r _. apply IH.
Qed.

Lemma agreesN_padding_loop schema count :
  stateless_patterns schema = true ->
  forall elements,
    agreesN (padding_loop rec schema count elements)
      (Cached.padding_loop recC schema count elements).
Proof.
  intros Hs. induction count as [|c IH]; intros elements;
    cbn [padding_loop Cached.padding_loop].
  - apply agreesN_ret.
  - destruct (_getPropertySchema schema
                (PNumber (Z.of_nat (List.length elements)))
                (Some (VArr elements))) as [[ps steps]|] eqn:G;
      [|apply agreesN_ret].
    apply agreesN_bind with (k := fun item =>
             padding_loop rec schema c (elements ++ [item])).
    + apply Hrec. eapply stateless_getPropertySchema; eassumption.
    + intros r _. apply IH.
Qed.

Lemma agreesN_populateArrayDefaults elements schema :
  stateless_patterns schema = true ->
  agreesN (_populateArrayDefaults rec elements schema)
    (Cached._populateArrayDefaults recC elements schema).
Proof.
  intros Hs. unfold _populateArrayDefaults, Cached._populateArrayDefaults.
  apply agreesN_bind with (k := fun normalized =>
           match
             match number_key schema "minItems" with
             | Some minItems =>
                 padding_loop rec schema
                   (Z.to_nat (minItems - Z.of_nat (List.length normalized)))
                   normalized
             | None => Some normalized
             end
           with
           | Some l =>
               Some (VArr
                 match number_key schema "maxItems" with
                 | Some maxItems =>
                     if (maxItems <? Z.of_nat (List.length l))%Z
                     then Array_splice l maxItems
                            (Z.of_nat (List.length l) - maxItems)
                     else l
                 | None => l
                 end)
           | None => None
           end).
  - apply agreesN_element_defaults_loop, Hs.
  - intros normalized _.
    apply agreesN_bind with (k := fun l =>
             Some (VArr
               match number_key schema "maxItems" with
               | Some maxItems =>
                   if (maxItems <? Z.of_nat (List.length l))%Z
                   then Array_splice l maxItems
                          (Z.of_nat (List.length l) - maxItems)
                   else l
               | None => l
               end)).
    + destruct (number_key schema "minItems");
        [apply agreesN_padding_loop, Hs | apply agreesN_ret].
    + intros l _. apply agreesN_ret.
Qed.

Lemma agreesN_normalize_body schema v :
  stateless_patterns schema = true ->
  agreesN (normalize_body (fresh compile) rec schema v)
    (Cached.normalize_body compile recC schema v).
Proof.
  intros Hs. unfold normalize_body, Cached.normalize_body.
  set (replaced := match v with
                   | None => _getDefaultSchemaValue schema
                   | Some x =>
                       if _isValueTypeAny v (_getValueType v)
                            (get schema "type")
                       then x else _getDefaultSchemaValue schema
                   end).
  assert (Hprim :
    agreesN
      (if is_valid (fresh compile) (Some replaced) schema then Some replaced
       else if is_valid (fresh compile) (Some (_getDefaultSchemaValue schema))
                 schema
            then Some (_getDefaultSchemaValue schema)
            else Some replaced)
      (Cached.bindN (Cached.valid compile (Some replaced) schema)
         (fun okay =>
            if okay : bool then Cached.retN replaced
            else
              Cached.bindN
                (Cached.valid compile (Some (_getDefaultSchemaValue schema))
                   schema)
                (fun okay' =>
                   if okay' : bool
                   then Cached.retN (_getDefaultSchemaValue schema)
                   else Cached.retN replaced)))).
  { apply agreesN_bind with
             (r := Some (is_valid (fresh compile) (Some replaced) schema))
             (k := fun okay : bool =>
                if okay then Some replaced
                else if is_valid (fresh compile)
                          (Some (_getDefaultSchemaValue schema)) schema
                     then Some (_getDefaultSchemaValue schema)
                     else Some replaced);
      [apply agreesN_valid, Hs|].
    intros okay _. destruct okay; [apply agreesN_ret|].
    apply agreesN_bind with
             (r := Some (is_valid (fresh compile)
                           (Some (_getDefaultSchemaValue schema)) schema))
             (k := fun okay' : bool =>
                if okay' then Some (_getDefaultSchemaValue schema)
                else Some replaced);
      [apply agreesN_valid, Hs|].
    intros okay' _. destruct okay'; apply agreesN_ret. }
  destruct replaced as [| b | n | s | elements | fields]; try exact Hprim.
  - apply agreesN_populateArrayDefaults, Hs.
  - apply agreesN_populateObjectDefaults, Hs.
Qed.

End Populate.

Lemma agreesN_fuel fuel : forall schema v,
  stateless_patterns schema = true ->
  agreesN (_getValidValueOrDefault (fresh compile) fuel schema v)
    (Cached._getValidValueOrDefault compile fuel schema v).
Proof.
  induction fuel as [|n IH]; intros schema v Hs;
    cbn [_getValidValueOrDefault Cached._getValidValueOrDefault].
  - intros st cache Hc. eexists. split; [reflexivity | exact Hc].
  - apply agreesN_normalize_body; [exact IH | exact Hs].
Qed.

(** [getValidValueOrDefault] on a validator with a consistent cache
    returns what the engine without the cache returns, and leaves the
    cache consistent. *)
Lemma cached_getValidValueOrDefault schema v st cache :
  stateless_patterns schema = true ->
  consistent compile cache ->
  exists w',
    Cached.getValidValueOrDefault compile schema v (Cached.mkWorld st cache)
    = (getValidValueOrDefault (fresh compile) schema v, w')
    /\ consistent compile (Cached._regexCache w').
Proof.
  intros Hs Hc. unfold Cached.getValidValueOrDefault, getValidValueOrDefault.
  destruct (@agreesN_fuel (normalize_budget schema v) schema v Hs st cache Hc)
    as (w' & E & Hc').
  assert (H : exists w'0,
             match
               Cached._getValidValueOrDefault compile
                 (normalize_budget schema v) schema v (Cached.mkWorld st cache)
             with
             | (Some r, w1) => (Ok r, w1)
             | (None, w1) => (OutOfFuel, w1)
             end
             = (match
                  _getValidValueOrDefault (fresh compile)
                    (normalize_budget schema v) schema v
                with
                | Some r => Ok r
                | None => OutOfFuel
                end, w'0)
             /\ consistent compile (Cached._regexCache w'0)).
  { rewrite E. exists w'. split; [|exact Hc'].
    destruct (_getValidValueOrDefault (fresh compile) _ schema v);
      reflexivity. }
  destruct schema; try exact H.
  eexists. split; [reflexivity | exact Hc].
Qed.

End CachedNormalization.

(** ** Arrays: per-element normalization, padding and truncation *)

(** The navigator looks at the value only through its runtime type. *)
Lemma _getPropertySchema_array schema p l l' :
  _getPropertySchema schema p (Some (VArr l))
  = _getPropertySchema schema p (Some (VArr l')).
Proof. reflexivity. Qed.

Lemma _getPropertySchema_object schema p fs fs' :
  _getPropertySchema schema p (Some (VObj fs))
  = _getPropertySchema schema p (Some (VObj fs')).
Proof. reflexivity. Qed.

Lemma list_set_middle (pre : list value) x y r :
  list_set (List.length pre) y (pre ++ x :: r) = pre ++ y :: r.
Proof. induction pre as [|z pre IH]; simpl; [reflexivity|]. f_equal. exact IH. Qed.

Lemma nth_error_middle (pre : list value) x r :
  nth_error (pre ++ x :: r) (List.length pre) = Some x.
Proof. induction pre as [|z pre IH]; simpl; auto. Qed.

Lemma Array_splice_truncates l maxItems :
  (0 <= maxItems < Z.of_nat (List.length l))%Z ->
  Array_splice l maxItems (Z.of_nat (List.length l) - maxItems)
  = firstn (Z.to_nat maxItems) l.
Proof.
  intros H. unfold Array_splice.
  replace (maxItems <? 0)%Z with false by (symmetry; apply Z.ltb_ge; lia).
  rewrite Z.min_l by lia.
  rewrite Z.max_l by lia. rewrite Z.min_id.
  replace (maxItems + (Z.of_nat (List.length l) - maxItems))%Z
    with (Z.of_nat (List.length l)) by lia.
  rewrite Nat2Z.id, skipn_all, app_nil_r. reflexivity.
Qed.

Section ArrayDefaults.

Variable RegExp : string -> string -> string + (string -> bool).

(** The sub-schema that governs index [i] of an array. *)
Definition item_schema (schema : value) (i : nat) : option value :=
  getPropertySchema schema (PNumber (Z.of_nat i)) (Some (VArr [])).

(** Second definition, following the design document: every existing
    element is normalized through its resolved sub-schema (an element for
    which none resolves is left alone). *)
Fixpoint normalized_from (schema : value) (i : nat) (elements : list value)
  : list value :=
  match elements with
  | [] => []
  | x :: r =>
      match item_schema schema i with
      | Some ps => normalize RegExp ps (Some x)
      | None => x
      end :: normalized_from schema (S i) r
  end.

(** Second definition, following the design document: new trailing
    elements are synthesized by normalizing an absent value against each
    newly needed index's resolved schema, stopping early if no schema
    resolves; [count] is the number of elements still missing. *)
Fixpoint synthesized (schema : value) (count : nat) (l : list value)
  : list value :=
  match count with
  | O => l
  | S c =>
      match item_schema schema (List.length l) with
      | Some ps => synthesized schema c (l ++ [normalize RegExp ps None])
      | None => l
      end
  end.

Lemma element_defaults_loop_spec schema l : forall pre,
  element_defaults_loop (fun s x => Some (normalize RegExp s x)) schema
    (List.length l) (List.length pre) (pre ++ l)
  = Some (pre ++ normalized_from schema (List.length pre) l).
Proof.
  induction l as [|x r IH]; intros pre; [reflexivity|].
  cbn [element_defaults_loop List.length normalized_from].
  unfold item_schema, getPropertySchema.
  rewrite (_getPropertySchema_array schema _ (pre ++ x :: r) []).
  destruct (_getPropertySchema schema _ (Some (VArr []))) as [[ps steps]|].
  - cbn [option_map fst]. rewrite nth_error_middle, list_set_middle.
    specialize (IH (pre ++ [normalize RegExp ps (Some x)])).
    rewrite <- !app_assoc in IH. cbn [app] in IH.
    rewrite length_app, Nat.add_1_r in IH. exact IH.
  - cbn [option_map]. specialize (IH (pre ++ [x])).
    rewrite <- !app_assoc in IH. cbn [app] in IH.
    rewrite length_app, Nat.add_1_r in IH. exact IH.
Qed.

Lemma padding_loop_spec schema count : forall l,
  padding_loop (fun s x => Some (normalize RegExp s x)) schema count l
  = Some (synthesized schema count l).
Proof.
  induction count as [|c IH]; intros l; [reflexivity|].
  cbn [padding_loop synthesized]. unfold item_schema, getPropertySchema.
  rewrite (_getPropertySchema_array schema _ l []).
  destruct (_getPropertySchema schema _ (Some (VArr []))) as [[ps steps]|];
    cbn [option_map fst]; [apply IH | reflexivity].
Qed.

Lemma normalized_from_length schema l : forall i,
  List.length (normalized_from schema i l) = List.length l.
Proof. induction l as [|x r IH]; intros i; simpl; auto. Qed.

Lemma synthesized_extends schema count : forall l,
  exists extra, synthesized schema count l = l ++ extra.
Proof.
  induction count as [|c IH]; intros l; simpl.
  - exists []. rewrite app_nil_r. reflexivity.
  - destruct (item_schema schema (List.length l)) as [ps|].
    + destruct (IH (l ++ [normalize RegExp ps None])) as [extra ->].
      rewrite <- app_assoc. eauto.
    + exists []. rewrite app_nil_r. reflexivity.
Qed.

(** Padding stops at the wanted length or at an index without schema. *)
Lemma synthesized_length schema count : forall l,
  List.length (synthesized schema count l) = List.length l + count
  \/ (List.length (synthesized schema count l) < List.length l + count
      /\ item_schema schema (List.length (synthesized schema count l)) = None).
Proof.
  induction count as [|c IH]; intros l; simpl.
  - left. lia.
  - destruct (item_schema schema (List.length l)) as [ps|] eqn:E.
    + specialize (IH (l ++ [normalize RegExp ps None])).
      rewrite length_app in IH. simpl in IH.
      destruct IH as [IH|[IH1 IH2]]; [left; lia | right; split; [lia|exact IH2]].
    + right. split; [lia | exact E].
Qed.

(** Each synthesized element is the normalization of an absent value
    against the schema of its index. *)
Lemma synthesized_elements schema count : forall l j x,
  List.length l <= j ->
  nth_error (synthesized schema count l) j = Some x ->
  exists ps, item_schema schema j = Some ps /\ x = normalize RegExp ps None.
Proof.
  induction count as [|c IH]; intros l j x Hj H; simpl in H.
  - assert (j < List.length l) by (apply nth_error_Some; congruence). lia.
  - destruct (item_schema schema (List.length l)) as [ps|] eqn:E.
    + destruct (Nat.eq_dec j (List.length l)) as [->|Hne].
      * destruct (synthesized_extends schema c (l ++ [normalize RegExp ps None]))
          as [extra Hx].
        rewrite Hx, <- app_assoc in H. cbn [app] in H.
        rewrite nth_error_middle in H. injection H as <-. eauto.
      * apply (IH (l ++ [normalize RegExp ps None])); [|exact H].
        rewrite length_app. simpl. lia.
    + assert (j < List.length l) by (apply nth_error_Some; congruence). lia.
Qed.

Lemma _populateArrayDefaults_spec schema elements :
  _populateArrayDefaults (fun s x => Some (normalize RegExp s x)) elements
    schema
  = let normalized := normalized_from schema 0 elements in
    let padded :=
      match number_key schema "minItems" with
      | Some minItems =>
          synthesized schema
            (Z.to_nat (minItems - Z.of_nat (List.length normalized)))
            normalized
      | None => normalized
      end in
    Some (VArr
      match number_key schema "maxItems" with
      | Some maxItems =>
          if (maxItems <? Z.of_nat (List.length padded))%Z
          then Array_splice padded maxItems
                 (Z.of_nat (List.length padded) - maxItems)
          else padded
      | None => padded
      end).
Proof.
  unfold _populateArrayDefaults.
  pose proof (element_defaults_loop_spec schema elements []) as E.
  cbn [app List.length] in E. rewrite E.
  destruct (number_key schema "minItems") as [minItems|];
    [rewrite padding_loop_spec|]; reflexivity.
Qed.

End ArrayDefaults.




(** ** Deep copies *)

Module HeapFacts.
Import Heap.

Lemma nth_error_store_at_eq (h : heap) r o :
  r < List.length h -> nth_error (store_at r o h) r = Some o.
Proof.
  revert r. induction h as [|x t IH]; intros r Hr; [simpl in Hr; lia|].
  destruct r; simpl; [reflexivity|]. apply IH. simpl in Hr. lia.
Qed.

Lemma nth_error_store_at_ne (h : heap) r r' o :
  r <> r' -> nth_error (store_at r o h) r' = nth_error h r'.
Proof.
  revert r r'. induction h as [|x t IH]; intros r r' Hne.
  - destruct r; reflexivity.
  - destruct r, r'; simpl; try reflexivity; try congruence.
    apply IH. congruence.
Qed.

Lemma store_at_length (h : heap) r o :
  List.length (store_at r o h) = List.length h.
Proof.
  revert r. induction h as [|x t IH]; intros r; destruct r; simpl; auto.
Qed.

Lemma store_at_app (h ext : heap) r o :
  r < List.length h -> store_at r o (h ++ ext) = store_at r o h ++ ext.
Proof.
  revert r. induction h as [|x t IH]; intros r Hr; [simpl in Hr; lia|].
  destruct r; simpl; [reflexivity|]. f_equal. apply IH. simpl in Hr. lia.
Qed.

(** What [alloc] promises for a value [x]: the heap grows by objects that
    depend on the length of the heap only, and in any heap of that length
    so extended, the slot returned denotes [x]. *)
Definition allocates (x : value) : Prop :=
  forall h, exists ext s,
    alloc x h = (h ++ ext, s)
    /\ (forall r, s = SRef r -> List.length h <= r)
    /\ forall h0 post n,
         List.length h0 = List.length h -> depth x < n ->
         view (h0 ++ ext ++ post) n s = Some x.

Lemma alloc_items_spec l :
  Forall allocates l ->
  forall h, exists ext slots,
    alloc_items alloc l h = (h ++ ext, slots)
    /\ forall h0 post n,
         List.length h0 = List.length h ->
         (forall x, In x l -> depth x < n) ->
         view_items (view (h0 ++ ext ++ post) n) slots = Some l.
Proof.
  induction 1 as [|x t Hx Ht IH]; intros h.
  - exists [], []. split; [simpl; rewrite app_nil_r; reflexivity|].
    reflexivity.
  - destruct (Hx h) as (ext1 & s & Ha & _ & Hv).
    destruct (IH (h ++ ext1)) as (ext2 & ss & Hb & Hvs).
    exists (ext1 ++ ext2), (s :: ss). split.
    + cbn [alloc_items]. rewrite Ha, Hb, app_assoc. reflexivity.
    + intros h0 post n Hlen Hn. cbn [view_items].
      rewrite <- app_assoc.
      rewrite (Hv h0 (ext2 ++ post) n Hlen) by (apply Hn; simpl; auto).
      specialize (Hvs (h0 ++ ext1) post n).
      rewrite <- !app_assoc in Hvs. rewrite Hvs; [reflexivity| |].
      * rewrite !length_app. lia.
      * intros y Hy. apply Hn. simpl. auto.
Qed.

Lemma alloc_fields_spec l :
  Forall (fun kv => allocates (snd kv)) l ->
  forall h, exists ext slots,
    alloc_fields alloc l h = (h ++ ext, slots)
    /\ forall h0 post n,
         List.length h0 = List.length h ->
         (forall kv, In kv l -> depth (snd kv) < n) ->
         view_fields (view (h0 ++ ext ++ post) n) slots = Some l.
Proof.
  induction 1 as [|[k x] t Hx Ht IH]; intros h.
  - exists [], []. split; [simpl; rewrite app_nil_r; reflexivity|].
    reflexivity.
  - simpl in Hx. destruct (Hx h) as (ext1 & s & Ha & _ & Hv).
    destruct (IH (h ++ ext1)) as (ext2 & ss & Hb & Hvs).
    exists (ext1 ++ ext2), ((k, s) :: ss). split.
    + cbn [alloc_fields]. rewrite Ha, Hb, app_assoc. reflexivity.
    + intros h0 post n Hlen Hn. cbn [view_fields].
      rewrite <- app_assoc.
      rewrite (Hv h0 (ext2 ++ post) n Hlen)
        by (apply (Hn (k, x)); simpl; auto).
      specialize (Hvs (h0 ++ ext1) post n).
      rewrite <- !app_assoc in Hvs. rewrite Hvs; [reflexivity| |].
      * rewrite !length_app. lia.
      * intros y Hy. apply Hn. simpl. auto.
Qed.

Lemma nth_error_after (h0 ext : heap) o post :
  nth_error (h0 ++ (ext ++ [o]) ++ post) (List.length h0 + List.length ext)
  = Some o.
Proof.
  rewrite nth_error_app2 by lia.
  replace (List.length h0 + List.length ext - List.length h0)
    with (List.length ext) by lia.
  rewrite <- app_assoc. rewrite nth_error_app2 by lia.
  rewrite Nat.sub_diag. reflexivity.
Qed.

Lemma alloc_allocates x : allocates x.
Proof.
  induction x as [| b | z | s | l IH | fs IH] using value_ind'; intros h;
    try (exists []; eexists; split; [simpl; rewrite app_nil_r; reflexivity|];
         split; [discriminate|]; intros h0 post [|n] Hlen Hn;
         [lia | reflexivity]).
  - destruct (alloc_items_spec IH h) as (ext & slots & Ha & Hv).
    exists (ext ++ [Array slots []]), (SRef (List.length (h ++ ext))).
    split; [|split].
    + cbn [alloc]. rewrite Ha, app_assoc. reflexivity.
    + intros r Hr. injection Hr as <-. rewrite length_app. lia.
    + intros h0 post [|n] Hlen Hn; [lia|]. cbn [view].
      rewrite length_app, <- Hlen, nth_error_after.
      rewrite <- app_assoc. rewrite (Hv h0 ([Array slots []] ++ post) n Hlen).
      * reflexivity.
      * intros y Hy. apply depth_member_arr in Hy. lia.
  - destruct (alloc_fields_spec IH h) as (ext & slots & Ha & Hv).
    exists (ext ++ [Object slots]), (SRef (List.length (h ++ ext))).
    split; [|split].
    + cbn [alloc]. rewrite Ha, app_assoc. reflexivity.
    + intros r Hr. injection Hr as <-. rewrite length_app. lia.
    + intros h0 post [|n] Hlen Hn; [lia|]. cbn [view].
      rewrite length_app, <- Hlen, nth_error_after.
      rewrite <- app_assoc. rewrite (Hv h0 ([Object slots] ++ post) n Hlen).
      * reflexivity.
      * intros [k y] Hy. simpl.
        assert (depth y < depth (VObj fs)); [|lia].
        clear -Hy. induction fs as [|[k' z] r IHr]; [contradiction|].
        rewrite depth_obj_cons. destruct Hy as [Hy|Hy].
        -- injection Hy as -> ->. lia.
        -- specialize (IHr Hy). lia.
Qed.

(** A deep copy of [v] made in heap [h]: the result [h'] keeps every
    object of [h] and adds fresh ones; the copy denotes the JSON content
    of [v]; and it does so whatever becomes of the objects of [h], so it
    shares nothing with them. *)
Definition deep_copy (h : heap) (v : slot) (content : option value)
  (h' : heap) (copy : slot) : Prop :=
  match content with
  | None => v = SUndefined /\ copy = SUndefined /\ h' = h
  | Some c =>
      view h (S (List.length h)) v = Some c
      /\ exists ext,
           h' = h ++ ext
           /\ (forall r, copy = SRef r -> List.length h <= r)
           /\ forall h0 n,
                List.length h0 = List.length h -> depth c < n ->
                view (h0 ++ ext) n copy = Some c
  end.

Lemma clone_deep_copy h v content h' copy :
  clone h v = Some (content, h', copy) -> deep_copy h v content h' copy.
Proof.
  unfold clone. intros H.
  assert (Hgen :
    match view h (S (List.length h)) v with
    | Some c => let '(h1, s) := alloc c h in Some (Some c, h1, s)
    | None => None
    end = Some (content, h', copy) -> deep_copy h v content h' copy).
  { destruct (view h (S (List.length h)) v) as [c|] eqn:Hv; [|discriminate].
    destruct (alloc_allocates c h) as (ext & s & Ha & Hf & Hview).
    rewrite Ha. intros Hc. injection Hc as <- <- <-.
    split; [exact Hv|].
    exists ext. split; [reflexivity|]. split; [exact Hf|].
    intros h0 n Hlen Hn. specialize (Hview h0 [] n Hlen Hn).
    rewrite app_nil_r in Hview. exact Hview. }
  destruct v; try (apply Hgen; exact H).
  injection H as <- <- <-. simpl. auto.
Qed.

End HeapFacts.

(** ** Writes through the guarded view *)

(** For the examples: no string and no object converts to an integer. *)
Definition nothing_converts : Heap.heap -> Heap.slot -> option Z :=
  fun _ _ => None.

(** The property a write goes through the schema with: any key of an
    object that is no array; for an array, a key of decimal digits that
    denotes an index not beyond the length. *)
Definition guarded_property (o : Heap.object) (key : string)
  : option property :=
  match o with
  | Heap.Object _ => Some (PName key)
  | Heap.Array elements _ =>
      match parse_decimal key with
      | Some n =>
          if List.length elements <? n then None
          else Some (PNumber (Z.of_nat n))
      | None => None
      end
  end.

(** [target[property]], read back. *)
Definition read_property (o : Heap.object) (p : property)
  : option Heap.slot :=
  match o, p with
  | Heap.Array elements _, PNumber n => nth_error elements (Z.to_nat n)
  | Heap.Array _ named, PName k => Heap.lookup k named
  | Heap.Object fields, _ => Heap.lookup (property_key p) fields
  end.

Lemma lookup_put (fs : list (string * Heap.slot)) k v :
  Heap.lookup k (Heap.put k v fs) = Some v.
Proof.
  induction fs as [|[k' x] r IH]; simpl.
  - rewrite String.eqb_refl. reflexivity.
  - destruct (String.eqb k k') eqn:E; simpl; rewrite E; auto.
Qed.

Lemma nth_error_put_index (l : list Heap.slot) i v :
  i <= List.length l -> nth_error (Heap.put_index i v l) i = Some v.
Proof.
  revert i. induction l as [|x r IH]; intros i Hi.
  - simpl in Hi. assert (i = 0) by lia. subst i. reflexivity.
  - destruct i; simpl; [reflexivity|]. apply IH. simpl in Hi. lia.
Qed.

Lemma read_assign o key p v :
  guarded_property o key = Some p ->
  read_property (assign o p v) p = Some v.
Proof.
  unfold guarded_property. destruct o as [elements named|fields].
  - destruct (parse_decimal key) as [n|]; [|discriminate].
    destruct (List.length elements <? n) eqn:E; [discriminate|].
    intros H. injection H as <-. simpl. rewrite Nat2Z.id.
    apply nth_error_put_index. apply Nat.ltb_ge in E. exact E.
  - intros H. injection H as <-. simpl. apply lookup_put.
Qed.

Lemma resolve_schema schema p o :
  schema <> VNull ->
  resolve schema p o = Ok (getPropertySchema schema p (Some (runtime_type_of o))).
Proof. intros H. destruct schema; try reflexivity. congruence. Qed.

Lemma resolve_null p o :
  resolve VNull p o = Throw (TypeError "Cannot read properties of null").
Proof. reflexivity. Qed.

Section Writes.

Variable RegExp : string -> string -> string + (string -> bool).
Variable ToNumber_other : Heap.heap -> Heap.slot -> option Z.

Lemma set_guarded schema target o key p v w :
  nth_error (objects w) target = Some o ->
  guarded_property o key = Some p ->
  set RegExp ToNumber_other schema target key v w
  = guarded_write RegExp schema target o p v w.
Proof.
  intros Ho Hp. unfold set. rewrite Ho. unfold guarded_property in Hp.
  destruct o as [elements named|fields].
  - destruct (parse_decimal key) as [n|]; [|discriminate].
    destruct (List.length elements <? n); [discriminate|].
    injection Hp as <-. reflexivity.
  - injection Hp as <-. reflexivity.
Qed.

Lemma set_direct schema target elements named key v w :
  nth_error (objects w) target = Some (Heap.Array elements named) ->
  parse_decimal key = None ->
  set RegExp ToNumber_other schema target key v w
  = direct_write ToNumber_other target elements named key v w.
Proof. intros Ho Hp. unfold set. rewrite Ho, Hp. reflexivity. Qed.

End Writes.

(** C5, counterexample.  Over an array target, a write to the key "foo"
    succeeds although no sub-schema resolves for it, and a write to index 5
    of an empty array throws although a sub-schema resolves for it. *)
Lemma array_writes_leave_the_protocol :
  let w := mkState [Heap.Array [] []] [] in
  (getPropertySchema (VObj [("type", VStr "string")]) (PName "foo")
     (Some (VArr [])) = None
   /\ fst (set no_patterns nothing_converts (VObj [("type", VStr "string")])
             0 "foo" (Heap.SNum 1) w) = Ok true)
  /\ (getPropertySchema (VObj []) (PNumber 5) (Some (VArr []))
      = Some unconstrainedSchema
      /\ fst (set no_patterns nothing_converts (VObj []) 0 "5"
                (Heap.SNum 1) w)
         = Throw (Error "Array index out of range")).
Proof. repeat split. Qed.

(** C5, as amended.  A write of a key other than [__proto__] through a
    guarded view takes one of three paths.
    - The guarded path, for a target that is no array and for an array
      target with a key of decimal digits that denotes an index not beyond
      the length, when the schema of the view is not [null]: the write
      throws "Property ... not supported" when no sub-schema resolves;
      otherwise the value is deep-copied, the copy is validated against the
      resolved sub-schema (the validation returns or throws, it never
      exhausts its budget), a validation failure is the failure of the
      write and leaves every object that existed before the write as it
      was, and on success the copy, which shares nothing with the caller's
      value, is stored in the target and can be read back from it.
    - Over an array, a key of decimal digits that denotes an index beyond
      the length throws "Array index out of range", whatever the schema,
      and changes nothing.
    - Over an array, a key that is not all decimal digits is assigned to
      the array as it is: the outcome is the same under every schema, no
      object is created and no traversal info is created.
    In particular the two writes of the design document behave as it
    says. *)
Theorem guarded_write_commits_a_validated_copy
  (RegExp : string -> string -> string + (string -> bool))
  (ToNumber_other : Heap.heap -> Heap.slot -> option Z)
  (schema : value) (target : Heap.ref) (o : Heap.object)
  (key : string) (v : Heap.slot) (w : state) :
  nth_error (objects w) target = Some o ->
  key <> "__proto__" ->
  (forall p,
     guarded_property o key = Some p ->
     schema <> VNull ->
     (getPropertySchema schema p (Some (runtime_type_of o)) = None ->
      set RegExp ToNumber_other schema target key v w
      = (Throw (Error ("Property " ++ property_key p ++ " not supported")),
         w))
     /\ (forall ps content h' copy,
           getPropertySchema schema p (Some (runtime_type_of o)) = Some ps ->
           Heap.clone (objects w) v = Some (content, h', copy) ->
           HeapFacts.deep_copy (objects w) v content h' copy
           /\ fst (validate reference RegExp content ps (infos w))
              <> OutOfFuel
           /\ (forall e st',
                 validate reference RegExp content ps (infos w)
                 = (Throw e, st') ->
                 set RegExp ToNumber_other schema target key v w
                 = (Throw e, mkState h' st')
                 /\ forall r, r < List.length (objects w) ->
                              nth_error h' r = nth_error (objects w) r)
           /\ (forall st',
                 validate reference RegExp content ps (infos w)
                 = (Ok tt, st') ->
                 set RegExp ToNumber_other schema target key v w
                 = (Ok true,
                    mkState (Heap.store_at target (assign o p copy) h') st')
                 /\ nth_error (Heap.store_at target (assign o p copy) h')
                      target
                    = Some (assign o p copy)
                 /\ read_property (assign o p copy) p = Some copy)))
  /\ (forall elements named n,
        o = Heap.Array elements named ->
        parse_decimal key = Some n ->
        List.length elements < n ->
        set RegExp ToNumber_other schema target key v w
        = (Throw (Error "Array index out of range"), w))
  /\ (forall elements named,
        o = Heap.Array elements named ->
        parse_decimal key = None ->
        (forall RegExp' schema',
           set RegExp' ToNumber_other schema' target key v w
           = set RegExp ToNumber_other schema target key v w)
        /\ infos (snd (set RegExp ToNumber_other schema target key v w))
           = infos w
        /\ List.length
             (objects (snd (set RegExp ToNumber_other schema target key v w)))
           = List.length (objects w))
  /\ (let guard :=
        VObj [("type", VStr "object");
              ("properties", VObj [("a", VObj [("type", VStr "number")])]);
              ("additionalProperties", VBool false)] in
      let w0 := mkState [Heap.Object []] [] in
      (exists st,
         set no_patterns nothing_converts guard 0 "a" (Heap.SNum 5) w0
         = (Ok true, mkState [Heap.Object [("a", Heap.SNum 5)]] st))
      /\ set no_patterns nothing_converts guard 0 "b" (Heap.SNum 1) w0
         = (Throw (Error "Property b not supported"), w0)).
Proof.
  intros Ho Hkey. split; [|split; [|split; [|split]]].
  - intros p Hp Hschema. split.
    + intros Hnone.
      rewrite (@set_guarded RegExp ToNumber_other schema target o key p v w
                 Ho Hp).
      unfold guarded_write. rewrite (resolve_schema p o Hschema), Hnone.
      reflexivity.
    + intros ps content h' copy Hps Hclone.
      pose proof (HeapFacts.clone_deep_copy _ _ Hclone) as Hdeep.
      assert (Hext : exists ext, h' = objects w ++ ext).
      { unfold HeapFacts.deep_copy in Hdeep. destruct content as [c|].
        - destruct Hdeep as (_ & ext & -> & _). eauto.
        - destruct Hdeep as (_ & _ & ->). exists []. rewrite app_nil_r.
          reflexivity. }
      split; [exact Hdeep|]. split; [|split].
      * rewrite validate_run. apply run_total.
      * intros e st' Hval.
        rewrite (@set_guarded RegExp ToNumber_other schema target o key p v
                   w Ho Hp).
        unfold guarded_write.
        rewrite (resolve_schema p o Hschema), Hps, Hclone, Hval.
        split; [reflexivity|]. intros r Hr. destruct Hext as [ext ->].
        apply nth_error_app1. exact Hr.
      * intros st' Hval.
        rewrite (@set_guarded RegExp ToNumber_other schema target o key p v
                   w Ho Hp).
        unfold guarded_write.
        rewrite (resolve_schema p o Hschema), Hps, Hclone, Hval.
        split; [reflexivity|]. split.
        -- apply HeapFacts.nth_error_store_at_eq. destruct Hext as [ext ->].
           rewrite length_app.
           assert (target < List.length (objects w))
             by (apply nth_error_Some; congruence).
           lia.
        -- eapply read_assign; eassumption.
  - intros elements named n -> Hk Hn. unfold set. rewrite Ho, Hk.
    replace (List.length elements <? n) with true; [reflexivity|].
    symmetry. apply Nat.ltb_lt. exact Hn.
  - intros elements named -> Hk.
    assert (Hd : forall R s,
               set R ToNumber_other s target key v w
               = direct_write ToNumber_other target elements named key v w).
    { intros R s. apply set_direct; assumption. }
    split; [|split].
    + intros R s. rewrite !Hd. reflexivity.
    + rewrite Hd. unfold direct_write.
      destruct (String.eqb key "length"); [|reflexivity].
      destruct (Array_set_length ToNumber_other (objects w) elements v);
        reflexivity.
    + rewrite Hd. unfold direct_write.
      destruct (String.eqb key "length"); cbn [snd objects].
      * destruct (Array_set_length ToNumber_other (objects w) elements v);
          cbn [snd objects]; [apply HeapFacts.store_at_length | reflexivity].
      * apply HeapFacts.store_at_length.
  - eexists. reflexivity.
  - reflexivity.
Qed.

Lemma guarded_write_commits_a_validated_copy_witness :
  let guard :=
    VObj [("type", VStr "object");
          ("properties", VObj [("a", VObj [("type", VStr "number")])]);
          ("additionalProperties", VBool false)] in
  let w0 := mkState [Heap.Object []] [] in
  nth_error (objects w0) 0 = Some (Heap.Object [])
  /\ "b" <> "__proto__"
  /\ guarded_property (Heap.Object []) "b" = Some (PName "b")
  /\ guard <> VNull
  /\ set no_patterns nothing_converts guard 0 "b" (Heap.SNum 1) w0
     = (Throw (Error "Property b not supported"), w0).
Proof.
  intros guard w0.
  assert (Hkey : "b" <> "__proto__") by discriminate.
  assert (Hguard : guard <> VNull) by discriminate.
  split; [reflexivity|]. split; [exact Hkey|]. split; [reflexivity|].
  split; [exact Hguard|].
  exact (proj1 (proj1 (@guarded_write_commits_a_validated_copy no_patterns
                         nothing_converts guard 0 (Heap.Object []) "b"
                         (Heap.SNum 1) w0 eq_refl Hkey)
                  (PName "b") eq_refl Hguard) eq_refl).
Defined.

(** C10, counterexample.  Over an array target the key "length" is not all
    decimal digits, and the write of [-1] to it is not reported as
    successful: the assignment to the backing array throws. *)
Lemma length_write_can_fail :
  let w := mkState [Heap.Array [Heap.SNum 1] []] [] in
  parse_decimal "length" = None
  /\ set no_patterns nothing_converts (VObj []) 0 "length"
       (Heap.SNum (-1)) w
     = (Throw (RangeError "Invalid array length"), w).
Proof. split; reflexivity. Qed.

(** C10, as amended.  Over an array target, a write whose key is a string
    that is not all decimal digits is handed to the backing array as it
    is: no sub-schema is resolved (the schema plays no part, so the write
    goes through also where none would resolve, and under a [null]
    schema), the value is stored itself, not a copy of it (no object is
    created), and nothing is validated (no traversal info is created).
    For every such key other than "length" and "__proto__" the value
    becomes a named property of the array and the write reports success;
    for "length" the write is the array's own length assignment, which
    resizes the array or throws. *)
Theorem named_array_write_is_direct
  (RegExp : string -> string -> string + (string -> bool))
  (ToNumber_other : Heap.heap -> Heap.slot -> option Z)
  (schema : value) (target : Heap.ref)
  (elements : list Heap.slot) (named : list (string * Heap.slot))
  (key : string) (v : Heap.slot) (w : state) :
  nth_error (objects w) target = Some (Heap.Array elements named) ->
  parse_decimal key = None ->
  (key <> "length" -> key <> "__proto__" ->
   set RegExp ToNumber_other schema target key v w
   = (Ok true,
      mkState
        (Heap.store_at target
           (Heap.Array elements (Heap.put key v named)) (objects w))
        (infos w))
   /\ Heap.lookup key (Heap.put key v named) = Some v
   /\ List.length
        (Heap.store_at target
           (Heap.Array elements (Heap.put key v named)) (objects w))
      = List.length (objects w))
  /\ (key = "length" ->
      set RegExp ToNumber_other schema target key v w
      = match Array_set_length ToNumber_other (objects w) elements v with
        | Some elements' =>
            (Ok true,
             mkState
               (Heap.store_at target (Heap.Array elements' named) (objects w))
               (infos w))
        | None => (Throw (RangeError "Invalid array length"), w)
        end).
Proof.
  intros Ho Hp. rewrite (@set_direct RegExp ToNumber_other schema target elements named key v w
             Ho Hp).
  unfold direct_write. split.
  - intros Hne _. apply String.eqb_neq in Hne. rewrite Hne.
    split; [reflexivity|]. split.
    + apply lookup_put.
    + apply HeapFacts.store_at_length.
  - intros ->. reflexivity.
Qed.

Lemma named_array_write_is_direct_witness :
  let w := mkState [Heap.Array [Heap.SNum 1] []; Heap.Object []] [] in
  nth_error (objects w) 0 = Some (Heap.Array [Heap.SNum 1] [])
  /\ parse_decimal "foo" = None
  /\ "foo" <> "length"
  /\ "foo" <> "__proto__"
  /\ set no_patterns nothing_converts (VObj [("type", VStr "string")]) 0
       "foo" (Heap.SRef 1) w
     = (Ok true,
        mkState [Heap.Array [Heap.SNum 1] [("foo", Heap.SRef 1)];
                 Heap.Object []] []).
Proof.
  intros w. split; [reflexivity|]. split; [reflexivity|].
  assert (Hne : "foo" <> "length") by discriminate.
  assert (Hnp : "foo" <> "__proto__") by discriminate.
  split; [exact Hne|]. split; [exact Hnp|].
  exact (proj1 (proj1 (@named_array_write_is_direct no_patterns
                         nothing_converts (VObj [("type", VStr "string")]) 0
                         [Heap.SNum 1] [] "foo" (Heap.SRef 1) w
                         eq_refl eq_refl) Hne Hnp)).
Defined.

(** ** Own properties: reading after writing *)

Module PropsFacts.

Lemma lookup_set_eq k v (fs : list (string * value)) :
  Props.lookup k (Props.set k v fs) = Some v.
Proof.
  induction fs as [|[k' x] r IH]; simpl.
  - rewrite String.eqb_refl. reflexivity.
  - destruct (String.eqb k k') eqn:E; simpl; rewrite E; auto.
Qed.

Lemma lookup_set_ne k k' v (fs : list (string * value)) :
  k <> k' -> Props.lookup k' (Props.set k v fs) = Props.lookup k' fs.
Proof.
  intros Hne. induction fs as [|[k0 x] r IH]; simpl.
  - apply not_eq_sym in Hne. apply String.eqb_neq in Hne. rewrite Hne.
    reflexivity.
  - destruct (String.eqb k k0) eqn:E; simpl.
    + apply String.eqb_eq in E. subst k0.
      apply not_eq_sym in Hne. apply String.eqb_neq in Hne. rewrite Hne.
      reflexivity.
    + rewrite IH. reflexivity.
Qed.

Lemma lookup_remove_eq k (fs : list (string * value)) :
  Props.lookup k (Props.remove k fs) = None.
Proof.
  induction fs as [|[k' x] r IH]; simpl; [reflexivity|].
  destruct (String.eqb k k') eqn:E; simpl; [|rewrite E]; exact IH.
Qed.

Lemma lookup_remove_ne k k' (fs : list (string * value)) :
  k <> k' -> Props.lookup k' (Props.remove k fs) = Props.lookup k' fs.
Proof.
  intros Hne. induction fs as [|[k0 x] r IH]; simpl; [reflexivity|].
  destruct (String.eqb k k0) eqn:E; simpl.
  - apply String.eqb_eq in E. subst k0.
    apply not_eq_sym in Hne. apply String.eqb_neq in Hne. rewrite Hne.
    exact IH.
  - rewrite IH. reflexivity.
Qed.

(** Writing to a property the value it holds changes nothing. *)
Lemma set_same k v (fs : list (string * value)) :
  Props.lookup k fs = Some v -> Props.set k v fs = fs.
Proof.
  induction fs as [|[k' x] r IH]; simpl; [discriminate|].
  destruct (String.eqb k k') eqn:E.
  - intros H. injection H as ->. reflexivity.
  - intros H. rewrite IH by exact H. reflexivity.
Qed.

Lemma mem_In k ks : Props.mem k ks = true <-> In k ks.
Proof.
  unfold Props.mem. rewrite existsb_exists. split.
  - intros (x & Hx & E). apply String.eqb_eq in E. subst x. exact Hx.
  - intros H. exists k. split; [exact H | apply String.eqb_refl].
Qed.

Lemma dedup_from_In seen ks k :
  In k (Props.dedup_from seen ks) <-> In k ks /\ ~ In k seen.
Proof.
  revert seen. induction ks as [|k0 r IH]; intros seen; simpl; [tauto|].
  destruct (Props.mem k0 seen) eqn:M.
  - apply mem_In in M. rewrite IH. split.
    + tauto.
    + intros [[->|H] Hs]; tauto.
  - assert (Hk0 : ~ In k0 seen).
    { intros H. apply mem_In in H. congruence. }
    simpl. rewrite IH. simpl. split.
    + intros [->|[H Hs]]; [tauto|]. split; [tauto|]. intros Hin. apply Hs. auto.
    + intros [[->|H] Hs]; [tauto|].
      destruct (string_dec k0 k) as [->|Hne]; [tauto|]. right. split; [exact H|].
      intros [E|Hin]; tauto.
Qed.

(** The names of an object are the keys that read as a value. *)
Lemma names_In (fs : list (string * value)) k :
  In k (Props.names fs) <-> Props.lookup k fs <> None.
Proof.
  unfold Props.names, Props.dedup. rewrite dedup_from_In. simpl.
  induction fs as [|[k' x] r IH]; simpl.
  - split; [tauto | congruence].
  - destruct (String.eqb k k') eqn:E.
    + apply String.eqb_eq in E. subst k'. split; [congruence | tauto].
    + apply String.eqb_neq in E. split.
      * intros [[H|H] _]; [congruence|]. apply IH. tauto.
      * intros H. apply IH in H. tauto.
Qed.

Lemma drop_In k k' ks : In k (Props.drop k' ks) <-> In k ks /\ k' <> k.
Proof.
  unfold Props.drop. rewrite filter_In. split.
  - intros [H E]. split; [exact H|]. apply Bool.negb_true_iff in E.
    apply String.eqb_neq in E. exact E.
  - intros [H E]. split; [exact H|]. apply Bool.negb_true_iff.
    apply String.eqb_neq. exact E.
Qed.

(** What is left of a set after [delete] was called for every entry of a
    list: the members that are not a string entry of the list. *)
Lemma Set_delete_fold_In entries : forall ks k,
  In k (fold_left Set_delete entries ks)
  <-> In k ks /\ ~ In (VStr k) entries.
Proof.
  induction entries as [|e r IH]; intros ks k; simpl; [tauto|].
  rewrite IH. unfold Set_delete.
  destruct e as [| b | n | s | l | fs]; try (split; [intros [H1 H2]; split;
    [exact H1 | intros [E|E]; [discriminate | tauto]] | tauto]).
  rewrite drop_In. split.
  - intros [[H1 H2] H3]. split; [exact H1|].
    intros [E|E]; [injection E as ->; tauto | tauto].
  - intros [H1 H2]. split; [split; [exact H1|] | tauto].
    intros ->. tauto.
Qed.

End PropsFacts.

(** ** Objects: what [_populateObjectDefaults] computes *)

(** The sub-schema that governs the property named [k] of an object. *)
Definition field_schema (schema : value) (k : string) : option value :=
  getPropertySchema schema (PName k) (Some (VObj [])).

(** The entries of [schema.required], none when it is not a list. *)
Definition required_of (schema : value) : list value :=
  match get schema "required" with
  | Some (VArr required) => required
  | _ => []
  end.

(** The property key an entry of [required] is used through. *)
Definition entry_key (entry : value) : string :=
  property_key (property_of_value entry).

(** Properties of an object are resolved through their key: a number and
    the name that spells it resolve to the same sub-schema. *)
Definition keyed_by_name (schema : value) : Prop :=
  forall p fields,
    getPropertySchema schema p (Some (VObj fields))
    = field_schema schema (property_key p).

Lemma object_type_keyed_by_name schema fields :
  _isValueTypeAny (Some (VObj fields)) "object" (get schema "type") = true ->
  keyed_by_name schema.
Proof.
  intros H p fields'. unfold field_schema, getPropertySchema, _getPropertySchema.
  assert (T : _getSchemaOrValueType schema (Some (VObj fields'))
              = _getSchemaOrValueType schema (Some (VObj [])))
    by reflexivity.
  rewrite T.
  assert (O : _getSchemaOrValueType schema (Some (VObj [])) = Some "object"
              \/ _getSchemaOrValueType schema (Some (VObj [])) = None).
  { unfold _getSchemaOrValueType. unfold _isValueTypeAny in H.
    destruct (get schema "type") as [[| b | n | s | l | fs]|]; auto.
    - unfold _isValueType, type_eq in H. cbn [floor_is_self] in H.
      rewrite Bool.andb_false_r, Bool.orb_false_r in H.
      apply String.eqb_eq in H. subst s. auto.
    - left. cbn [_getValueType].
      replace (existsb (type_eq "object") l) with true; [reflexivity|].
      symmetry. apply existsb_exists. apply existsb_exists in H.
      destruct H as (t & Ht & E). exists t. split; [exact Ht|].
      unfold _isValueType in E. cbn [floor_is_self] in E.
      rewrite Bool.andb_false_r, Bool.orb_false_r in E. exact E. }
  destruct O as [-> | ->]; [|reflexivity].
  cbn [String.eqb Ascii.eqb Bool.eqb]. cbn [property_key].
  destruct (get schema "properties") as [[| | | | |props]|]; try reflexivity.
  destruct (inherited_or_own props (property_key p)) as [[| | | | |q]|];
    reflexivity.
Qed.

Section ObjectDefaults.

(** The normalizer the loops call back into. *)
Variable N : value -> option value -> value.

Variable schema : value.

(** One step of the loop over [required]. *)
Definition touch (fields : list (string * value)) (k : string)
  : list (string * value) :=
  match field_schema schema k with
  | Some ps => Props.set k (N ps (Props.lookup k fields)) fields
  | None => fields
  end.

(** One step of the loop over the remaining names. *)
Definition visit (fields : list (string * value)) (k : string)
  : list (string * value) :=
  match field_schema schema k with
  | Some ps => Props.set k (N ps (Props.lookup k fields)) fields
  | None => Props.remove k fields
  end.

(** The object [_populateObjectDefaults] returns. *)
Definition populated (fields : list (string * value))
  : list (string * value) :=
  fold_left visit
    (fold_left Set_delete (required_of schema) (Props.names fields))
    (fold_left touch (map entry_key (required_of schema)) fields).

Hypothesis Hkeyed : keyed_by_name schema.

Lemma required_defaults_loop_fold required : forall properties fields,
  required_defaults_loop (fun s x => Some (N s x)) schema required
    properties fields
  = Some (fold_left Set_delete required properties,
          fold_left touch (map entry_key required) fields).
Proof.
  induction required as [|e r IH]; intros properties fields; [reflexivity|].
  cbn [required_defaults_loop map fold_left].
  pose proof (Hkeyed (property_of_value e) fields) as K.
  unfold getPropertySchema in K. unfold touch at 2. fold (entry_key e) in K.
  destruct (_getPropertySchema schema (property_of_value e)
              (Some (VObj fields))) as [[ps steps]|];
    cbn [option_map fst] in K; rewrite <- K; apply IH.
Qed.

Lemma other_defaults_loop_fold properties : forall fields,
  other_defaults_loop (fun s x => Some (N s x)) schema properties fields
  = Some (fold_left visit properties fields).
Proof.
  induction properties as [|k r IH]; intros fields; [reflexivity|].
  cbn [other_defaults_loop fold_left].
  pose proof (Hkeyed (PName k) fields) as K.
  unfold getPropertySchema in K. cbn [property_key] in K. unfold visit at 2.
  destruct (_getPropertySchema schema (PName k) (Some (VObj fields)))
    as [[ps steps]|];
    cbn [option_map fst] in K; rewrite <- K; apply IH.
Qed.

Lemma _populateObjectDefaults_populated fields :
  _populateObjectDefaults (fun s x => Some (N s x)) fields schema
  = Some (VObj (populated fields)).
Proof.
  unfold _populateObjectDefaults, populated, required_of.
  destruct (get schema "required") as [[| | | |required|]|];
    try (cbn [fold_left map]; rewrite other_defaults_loop_fold; reflexivity).
  rewrite required_defaults_loop_fold, other_defaults_loop_fold. reflexivity.
Qed.

(** *** A property that is already normal is left as it is *)

(** The property [k] of [fields] holds a fixed point of the normalizer. *)
Definition normal_at (fields : list (string * value)) (k : string) : Prop :=
  forall ps, field_schema schema k = Some ps ->
             exists x, Props.lookup k fields = Some x /\ N ps (Some x) = x.

Lemma touch_normal fields k : normal_at fields k -> touch fields k = fields.
Proof.
  unfold normal_at, touch. intros H.
  destruct (field_schema schema k) as [ps|]; [|reflexivity].
  destruct (H ps eq_refl) as (x & L & Hx). rewrite L, Hx.
  apply PropsFacts.set_same. exact L.
Qed.

Lemma touch_fold_normal fields ks :
  (forall k, In k ks -> normal_at fields k) ->
  fold_left touch ks fields = fields.
Proof.
  induction ks as [|k r IH]; intros H; [reflexivity|].
  cbn [fold_left]. rewrite touch_normal by (apply H; left; reflexivity).
  apply IH. intros k' Hk'. apply H. right. exact Hk'.
Qed.

Lemma visit_fold_normal fields ks :
  (forall k, In k ks -> field_schema schema k <> None /\ normal_at fields k) ->
  fold_left visit ks fields = fields.
Proof.
  induction ks as [|k r IH]; intros H; [reflexivity|].
  cbn [fold_left].
  assert (V : visit fields k = fields).
  { destruct (H k (or_introl eq_refl)) as [Hs Hn].
    pose proof (touch_normal Hn) as T. unfold touch in T. unfold visit.
    destruct (field_schema schema k); [exact T | congruence]. }
  rewrite V. apply IH. intros k' Hk'. apply H. right. exact Hk'.
Qed.

(** An object whose properties are normal, that has its required
    properties, and whose properties without a sub-schema are all named in
    [required], is returned as it is. *)
Lemma populated_normal fields :
  (forall k, Props.lookup k fields <> None -> normal_at fields k) ->
  (forall e, In e (required_of schema) ->
             field_schema schema (entry_key e) <> None ->
             Props.lookup (entry_key e) fields <> None) ->
  (forall k, Props.lookup k fields <> None ->
             field_schema schema k = None ->
             In (VStr k) (required_of schema)) ->
  populated fields = fields.
Proof.
  intros HA HB HC. unfold populated.
  rewrite touch_fold_normal.
  - apply visit_fold_normal. intros k Hk.
    apply PropsFacts.Set_delete_fold_In in Hk. destruct Hk as [Hn Hr].
    apply PropsFacts.names_In in Hn. split.
    + intros Hs. apply Hr. apply HC; assumption.
    + apply HA. exact Hn.
  - intros k Hk. apply in_map_iff in Hk. destruct Hk as (e & <- & He).
    intros ps Hps.
    assert (L : Props.lookup (entry_key e) fields <> None)
      by (apply HB; [exact He | congruence]).
    apply (HA _ L ps Hps).
Qed.

End ObjectDefaults.

(** Whether a name is an entry of a list of values can be decided. *)
Lemma In_VStr_dec k (entries : list value) :
  In (VStr k) entries \/ ~ In (VStr k) entries.
Proof.
  induction entries as [|e r IH]; [right; intros []|].
  destruct IH as [IH|IH]; [left; right; exact IH|].
  destruct e as [| b | n | s | l | fs];
    try (right; intros [E|E]; [discriminate | tauto]).
  destruct (string_dec s k) as [->|Hne]; [left; left; reflexivity|].
  right. intros [E|E]; [injection E as E; tauto | tauto].
Qed.

Section ObjectIdempotence.

Variable N : value -> option value -> value.
Variable schema : value.

(** The normalizer is idempotent at every sub-schema that governs a
    property. *)
Hypothesis Hidem : forall k ps x,
  field_schema schema k = Some ps -> N ps (Some (N ps x)) = N ps x.

Lemma lookup_touch_other fields k k' :
  k <> k' ->
  Props.lookup k' (touch N schema fields k) = Props.lookup k' fields.
Proof.
  intros Hne. unfold touch. destruct (field_schema schema k); [|reflexivity].
  apply PropsFacts.lookup_set_ne. exact Hne.
Qed.

Lemma lookup_visit_other fields k k' :
  k <> k' ->
  Props.lookup k' (visit N schema fields k) = Props.lookup k' fields.
Proof.
  intros Hne. unfold visit. destruct (field_schema schema k).
  - apply PropsFacts.lookup_set_ne. exact Hne.
  - apply PropsFacts.lookup_remove_ne. exact Hne.
Qed.

Lemma lookup_touch_fold_out ks : forall fields k,
  ~ In k ks \/ field_schema schema k = None ->
  Props.lookup k (fold_left (touch N schema) ks fields)
  = Props.lookup k fields.
Proof.
  induction ks as [|k0 r IH]; intros fields k H; [reflexivity|].
  cbn [fold_left]. rewrite IH by (simpl in H; tauto).
  destruct (string_dec k0 k) as [->|Hne].
  - destruct H as [H|H]; [simpl in H; tauto|].
    unfold touch. rewrite H. reflexivity.
  - apply lookup_touch_other. exact Hne.
Qed.

Lemma lookup_touch_fold_in ks : forall fields k ps,
  In k ks -> field_schema schema k = Some ps ->
  Props.lookup k (fold_left (touch N schema) ks fields)
  = Some (N ps (Props.lookup k fields)).
Proof.
  induction ks as [|k0 r IH]; intros fields k ps Hin Hps; [destruct Hin|].
  cbn [fold_left].
  assert (Step : forall y, Props.lookup k (touch N schema fields k0) = y ->
                           N ps y = N ps (Props.lookup k fields)
                           \/ (k0 <> k /\ y = Props.lookup k fields)).
  { intros y <-. destruct (string_dec k0 k) as [->|Hne].
    - left. unfold touch. rewrite Hps, PropsFacts.lookup_set_eq.
      apply Hidem with (k := k). exact Hps.
    - right. split; [exact Hne | apply lookup_touch_other; exact Hne]. }
  destruct (in_dec string_dec k r) as [Hr|Hr].
  - rewrite (IH _ k ps Hr Hps). f_equal.
    destruct (Step _ eq_refl) as [E|[_ E]]; [exact E | rewrite E; reflexivity].
  - rewrite lookup_touch_fold_out by (left; exact Hr).
    destruct Hin as [->|Hin]; [|contradiction].
    unfold touch. rewrite Hps. apply PropsFacts.lookup_set_eq.
Qed.

Lemma lookup_visit_fold_out ks : forall fields k,
  ~ In k ks ->
  Props.lookup k (fold_left (visit N schema) ks fields)
  = Props.lookup k fields.
Proof.
  induction ks as [|k0 r IH]; intros fields k H; [reflexivity|].
  cbn [fold_left]. rewrite IH by (simpl in H; tauto).
  apply lookup_visit_other. simpl in H. intros ->. tauto.
Qed.

Lemma lookup_visit_fold_none ks : forall fields k,
  In k ks -> field_schema schema k = None ->
  Props.lookup k (fold_left (visit N schema) ks fields) = None.
Proof.
  induction ks as [|k0 r IH]; intros fields k Hin Hs; [destruct Hin|].
  cbn [fold_left].
  destruct (in_dec string_dec k r) as [Hr|Hr]; [apply IH; assumption|].
  rewrite lookup_visit_fold_out by exact Hr.
  destruct Hin as [->|Hin]; [|contradiction].
  unfold visit. rewrite Hs. apply PropsFacts.lookup_remove_eq.
Qed.

Lemma lookup_visit_fold_in ks : forall fields k ps,
  In k ks -> field_schema schema k = Some ps ->
  Props.lookup k (fold_left (visit N schema) ks fields)
  = Some (N ps (Props.lookup k fields)).
Proof.
  induction ks as [|k0 r IH]; intros fields k ps Hin Hps; [destruct Hin|].
  cbn [fold_left].
  destruct (in_dec string_dec k r) as [Hr|Hr].
  - rewrite (IH _ k ps Hr Hps). f_equal.
    destruct (string_dec k0 k) as [->|Hne].
    + unfold visit. rewrite Hps, PropsFacts.lookup_set_eq.
      apply Hidem with (k := k). exact Hps.
    + rewrite lookup_visit_other by exact Hne. reflexivity.
  - rewrite lookup_visit_fold_out by exact Hr.
    destruct Hin as [->|Hin]; [|contradiction].
    unfold visit. rewrite Hps. apply PropsFacts.lookup_set_eq.
Qed.

Lemma entry_key_string k : entry_key (VStr k) = k.
Proof. reflexivity. Qed.

(** The object [_populateObjectDefaults] returns is returned as it is by a
    second call. *)
Lemma populated_populated fields :
  populated N schema (populated N schema fields) = populated N schema fields.
Proof.
  set (required := required_of schema).
  set (touched := fold_left (touch N schema) (map entry_key required) fields).
  set (rest := fold_left Set_delete required (Props.names fields)).
  assert (Hpop : populated N schema fields
                 = fold_left (visit N schema) rest touched) by reflexivity.
  assert (Hrest : forall k, In k rest <->
                    Props.lookup k fields <> None /\ ~ In (VStr k) required).
  { intros k. unfold rest. rewrite PropsFacts.Set_delete_fold_In.
    rewrite PropsFacts.names_In. tauto. }
  assert (Hreq : forall k, In (VStr k) required ->
                           In k (map entry_key required)).
  { intros k Hk. apply in_map_iff. exists (VStr k). auto. }
  (* a property with a sub-schema, if present, holds a normalized value *)
  assert (HA : forall k ps x,
             Props.lookup k (populated N schema fields) = Some x ->
             field_schema schema k = Some ps ->
             exists y, x = N ps y).
  { intros k ps x L Hps. rewrite Hpop in L.
    destruct (in_dec string_dec k rest) as [Hr|Hr].
    - rewrite (@lookup_visit_fold_in rest touched k ps Hr Hps) in L.
      injection L as <-. eauto.
    - rewrite lookup_visit_fold_out in L by exact Hr. unfold touched in L.
      destruct (in_dec string_dec k (map entry_key required)) as [Hq|Hq].
      + rewrite (@lookup_touch_fold_in _ fields k ps Hq Hps) in L.
        injection L as <-. eauto.
      + rewrite lookup_touch_fold_out in L by (left; exact Hq).
        exfalso. apply Hr. apply Hrest. split; [congruence|].
        intros Hk. apply Hq. apply Hreq. exact Hk. }
  apply populated_normal.
  - intros k L ps Hps.
    destruct (Props.lookup k (populated N schema fields)) as [x|] eqn:E;
      [|congruence].
    destruct (HA k ps x E Hps) as [y ->]. eexists. split; [reflexivity|].
    apply Hidem with (k := k). exact Hps.
  - intros e He Hs.
    destruct (field_schema schema (entry_key e)) as [ps|] eqn:Hps;
      [|congruence].
    assert (Hq : In (entry_key e) (map entry_key required))
      by (apply in_map; exact He).
    rewrite Hpop.
    destruct (in_dec string_dec (entry_key e) rest) as [Hr|Hr].
    + rewrite (@lookup_visit_fold_in rest touched _ ps Hr Hps). discriminate.
    + rewrite lookup_visit_fold_out by exact Hr. unfold touched.
      rewrite (@lookup_touch_fold_in _ fields _ ps Hq Hps). discriminate.
  - intros k L Hs. rewrite Hpop in L.
    destruct (in_dec string_dec k rest) as [Hr|Hr].
    + rewrite (@lookup_visit_fold_none rest touched k Hr Hs) in L. congruence.
    + rewrite lookup_visit_fold_out in L by exact Hr. unfold touched in L.
      rewrite lookup_touch_fold_out in L by (right; exact Hs).
      destruct (In_VStr_dec k required) as [Hk|Hk]; [exact Hk|].
      exfalso. apply Hr. apply Hrest. tauto.
Qed.

End ObjectIdempotence.

(** ** Arrays: what [_populateArrayDefaults] computes *)

Section ArrayIdempotence.

Variable RegExp : string -> string -> string + (string -> bool).
Variable schema : value.

(** The padding step. *)
Definition padded (l : list value) : list value :=
  match number_key schema "minItems" with
  | Some minItems =>
      synthesized RegExp schema
        (Z.to_nat (minItems - Z.of_nat (List.length l))) l
  | None => l
  end.

(** The truncation step. *)
Definition truncated (l : list value) : list value :=
  match number_key schema "maxItems" with
  | Some maxItems =>
      if (maxItems <? Z.of_nat (List.length l))%Z
      then Array_splice l maxItems (Z.of_nat (List.length l) - maxItems)
      else l
  | None => l
  end.

(** The array [_populateArrayDefaults] returns. *)
Definition arranged (elements : list value) : list value :=
  truncated (padded (normalized_from RegExp schema 0 elements)).

Lemma _populateArrayDefaults_arranged elements :
  _populateArrayDefaults (fun s x => Some (normalize RegExp s x)) elements
    schema
  = Some (VArr (arranged elements)).
Proof. rewrite _populateArrayDefaults_spec. reflexivity. Qed.

(** Every element, counted from index [i], is a fixed point of the
    normalizer at the sub-schema of its index. *)
Definition normal_from (i : nat) (l : list value) : Prop :=
  forall j x ps,
    nth_error l j = Some x -> item_schema schema (i + j) = Some ps ->
    normalize RegExp ps (Some x) = x.

Lemma normalized_from_normal l : forall i,
  normal_from i l -> normalized_from RegExp schema i l = l.
Proof.
  induction l as [|x r IH]; intros i H; [reflexivity|].
  cbn [normalized_from]. f_equal.
  - destruct (item_schema schema i) as [ps|] eqn:E; [|reflexivity].
    apply (H 0 x ps); [reflexivity | rewrite Nat.add_0_r; exact E].
  - apply IH. intros j y ps Hj Hps. apply (H (S j) y ps); [exact Hj|].
    rewrite Nat.add_succ_r. exact Hps.
Qed.

Lemma normal_from_app l extra :
  normal_from 0 l -> normal_from (List.length l) extra ->
  normal_from 0 (l ++ extra).
Proof.
  intros Hl He j x ps Hj Hps. destruct (Nat.lt_ge_cases j (List.length l)).
  - rewrite nth_error_app1 in Hj by assumption. apply (Hl j x ps Hj Hps).
  - rewrite nth_error_app2 in Hj by assumption.
    apply (He (j - List.length l) x ps Hj).
    replace (List.length l + (j - List.length l)) with j by lia. exact Hps.
Qed.

Lemma nth_error_firstn_some (l : list value) : forall n j x,
  nth_error (firstn n l) j = Some x -> nth_error l j = Some x.
Proof.
  induction l as [|y r IH]; intros n j x H.
  - rewrite firstn_nil in H. destruct j; discriminate.
  - destruct n; [destruct j; discriminate|].
    destruct j; simpl in *; [exact H | eapply IH; exact H].
Qed.

Lemma normal_from_firstn n l :
  normal_from 0 l -> normal_from 0 (firstn n l).
Proof.
  intros H j x ps Hj Hps. apply (H j x ps); [|exact Hps].
  eapply nth_error_firstn_some. exact Hj.
Qed.

(** Padding a list that is long enough, or that stops where no sub-schema
    resolves, adds nothing. *)
Lemma synthesized_nothing count l :
  count = 0 \/ item_schema schema (List.length l) = None ->
  synthesized RegExp schema count l = l.
Proof.
  intros [-> | H]; [reflexivity|]. destruct count; [reflexivity|].
  cbn [synthesized]. rewrite H. reflexivity.
Qed.

Lemma padded_extends l : exists extra, padded l = l ++ extra.
Proof.
  unfold padded. destruct (number_key schema "minItems") as [m|].
  - apply synthesized_extends.
  - exists []. rewrite app_nil_r. reflexivity.
Qed.

Lemma padded_padded l : padded (padded l) = padded l.
Proof.
  unfold padded at 1. destruct (number_key schema "minItems") as [m|] eqn:E;
    [|reflexivity].
  apply synthesized_nothing. unfold padded. rewrite E.
  destruct (synthesized_length RegExp schema
              (Z.to_nat (m - Z.of_nat (List.length l))) l) as [H|[_ H]].
  - left. rewrite H. lia.
  - right. exact H.
Qed.

(** An array of normal elements that is neither too short nor too long is
    returned as it is. *)
Lemma arranged_normal l :
  normal_from 0 l ->
  (forall m, number_key schema "minItems" = Some m ->
             (m <= Z.of_nat (List.length l))%Z) ->
  (forall m, number_key schema "maxItems" = Some m ->
             (Z.of_nat (List.length l) <= m)%Z) ->
  arranged l = l.
Proof.
  intros Hn Hmin Hmax. unfold arranged.
  rewrite normalized_from_normal by exact Hn.
  assert (P : padded l = l).
  { unfold padded. destruct (number_key schema "minItems") as [m|];
      [|reflexivity].
    apply synthesized_nothing. left. specialize (Hmin m eq_refl). lia. }
  rewrite P. unfold truncated.
  destruct (number_key schema "maxItems") as [m|]; [|reflexivity].
  specialize (Hmax m eq_refl).
  replace (m <? Z.of_nat (List.length l))%Z with false; [reflexivity|].
  symmetry. apply Z.ltb_ge. exact Hmax.
Qed.

(** The normalizer is idempotent at every sub-schema that governs an
    index. *)
Hypothesis Hidem : forall i ps x,
  item_schema schema i = Some ps ->
  normalize RegExp ps (Some (normalize RegExp ps x)) = normalize RegExp ps x.

(** No negative [maxItems]. *)
Hypothesis Hmax : forall m,
  number_key schema "maxItems" = Some m -> (0 <= m)%Z.

Lemma normalized_from_is_normal l : forall i,
  normal_from i (normalized_from RegExp schema i l).
Proof.
  induction l as [|x r IH]; intros i j y ps Hj Hps.
  - destruct j; discriminate.
  - cbn [normalized_from] in Hj. destruct j.
    + rewrite Nat.add_0_r in Hps. rewrite Hps in Hj. simpl in Hj.
      injection Hj as <-. apply Hidem with (i := i). exact Hps.
    + simpl in Hj. apply (IH (S i) j y ps Hj).
      rewrite Nat.add_succ_r in Hps. exact Hps.
Qed.

Lemma synthesized_is_normal count l :
  normal_from 0 l -> normal_from 0 (synthesized RegExp schema count l).
Proof.
  intros Hl j x ps Hj Hps. destruct (Nat.lt_ge_cases j (List.length l)).
  - destruct (synthesized_extends RegExp schema count l) as [extra E].
    rewrite E, nth_error_app1 in Hj by assumption. apply (Hl j x ps Hj Hps).
  - destruct (@synthesized_elements RegExp schema count l j x H Hj)
      as (ps' & Hps' & ->).
    simpl in Hps. rewrite Hps in Hps'. injection Hps' as <-.
    apply Hidem with (i := j). exact Hps.
Qed.

Lemma padded_is_normal l : normal_from 0 l -> normal_from 0 (padded l).
Proof.
  intros H. unfold padded. destruct (number_key schema "minItems");
    [apply synthesized_is_normal|]; exact H.
Qed.

(** The array [_populateArrayDefaults] returns is returned as it is by a
    second call. *)
Lemma arranged_arranged elements :
  arranged (arranged elements) = arranged elements.
Proof.
  set (p := padded (normalized_from RegExp schema 0 elements)).
  assert (Hp : normal_from 0 p)
    by (apply padded_is_normal, normalized_from_is_normal).
  assert (Hpp : padded p = p) by apply padded_padded.
  assert (E : arranged elements = truncated p) by reflexivity.
  rewrite E. unfold truncated.
  destruct (number_key schema "maxItems") as [m|] eqn:Em.
  - destruct (m <? Z.of_nat (List.length p))%Z eqn:C.
    + apply Z.ltb_lt in C. pose proof (@Hmax m eq_refl) as Hm.
      rewrite Array_splice_truncates by lia.
      set (r := firstn (Z.to_nat m) p).
      assert (Hlen : List.length r = Z.to_nat m)
        by (unfold r; rewrite length_firstn; lia).
      unfold arranged.
      rewrite normalized_from_normal by (apply normal_from_firstn; exact Hp).
      destruct (padded_extends r) as [extra Hx]. rewrite Hx.
      unfold truncated. rewrite Em.
      destruct (m <? Z.of_nat (List.length (r ++ extra)))%Z eqn:C'.
      * apply Z.ltb_lt in C'. rewrite Array_splice_truncates by lia.
        rewrite <- Hlen, firstn_app, Nat.sub_diag, firstn_all. simpl.
        apply app_nil_r.
      * apply Z.ltb_ge in C'. rewrite length_app in C'.
        destruct extra; [apply app_nil_r | simpl in C'; lia].
    + unfold arranged. rewrite normalized_from_normal by exact Hp.
      rewrite Hpp. unfold truncated. rewrite Em, C. reflexivity.
  - unfold arranged. rewrite normalized_from_normal by exact Hp.
    rewrite Hpp. unfold truncated. rewrite Em. reflexivity.
Qed.

End ArrayIdempotence.

(** ** What a passing validation has checked *)

(** The computation passes from some store. *)
Definition passes {A} (m : M A) : Prop :=
  exists st, verdict_of (fst (m st)) = Passes.

Lemma passes_bind {A B} (m : M A) (k : A -> M B) :
  passes (bind m k) -> passes m /\ exists a, passes (k a).
Proof.
  intros [st H]. apply bind_passes_inv in H.
  destruct H as (a & st' & Hm & Hk). split.
  - exists st. rewrite Hm. reflexivity.
  - exists a, st'. exact Hk.
Qed.

Lemma passes_seq {A} (m : M unit) (k : M A) :
  passes (bind m (fun _ => k)) -> passes m /\ passes k.
Proof.
  intros H. apply passes_bind in H. destruct H as [Hm [_ Hk]]. auto.
Qed.

Section Passing.

Variable keep : loc -> store -> path_info.
Variable RegExp : string -> string -> string + (string -> bool).

Lemma passes_validation_error {A} message v schema info :
  ~ passes (@validation_error keep A message v schema info).
Proof. intros [st H]. discriminate. Qed.

Lemma passes_fail_if cond message v schema info :
  passes (fail_if keep cond message v schema info) -> cond = false.
Proof.
  destruct cond; [|reflexivity]. intros H.
  apply passes_validation_error in H. contradiction.
Qed.

Lemma passes_run v schema info :
  passes (run keep RegExp v schema info) -> is_valid RegExp v schema = true.
Proof. intros [st H]. apply (is_valid_run keep RegExp v schema info st). exact H. Qed.

Lemma is_valid_passes v schema info :
  is_valid RegExp v schema = true ->
  passes (validate_body keep RegExp (run keep RegExp) v schema info).
Proof.
  intros H. exists []. rewrite <- run_unfold.
  apply (is_valid_run keep RegExp v schema info []). exact H.
Qed.

(** A passing element loop found a sub-schema for every index, and every
    element is valid against the sub-schema of its index. *)
Lemma array_loop_passes whole schema info elements : forall idx,
  passes (array_loop keep (run keep RegExp) whole schema info idx elements) ->
  forall j x,
    nth_error elements j = Some x ->
    exists ps, item_schema schema (idx + j) = Some ps
               /\ is_valid RegExp (Some x) ps = true.
Proof.
  induction elements as [|y r IH]; intros idx H j x Hj;
    [destruct j; discriminate|].
  cbn [array_loop] in H.
  destruct (_getPropertySchema schema (PNumber (Z.of_nat idx))
              (Some (VArr whole))) as [[ps steps]|] eqn:E.
  - apply passes_seq in H. destruct H as [_ H].
    apply passes_seq in H. destruct H as [_ H].
    apply passes_seq in H. destruct H as [Hy H].
    apply passes_seq in H. destruct H as [_ H].
    apply passes_seq in H. destruct H as [_ H].
    destruct j.
    + injection Hj as <-. exists ps. split; [|apply passes_run in Hy; exact Hy].
      rewrite Nat.add_0_r. unfold item_schema, getPropertySchema.
      rewrite (_getPropertySchema_array schema _ [] whole), E. reflexivity.
    + rewrite Nat.add_succ_r. apply (IH (S idx) H j x Hj).
  - apply passes_validation_error in H. contradiction.
Qed.

(** A passing property loop found a sub-schema for every name, and every
    property is valid against the sub-schema of its name. *)
Lemma object_loop_passes fields schema info properties :
  passes (object_loop keep (run keep RegExp) fields schema info properties) ->
  forall name,
    In name properties ->
    exists ps, field_schema schema name = Some ps
               /\ is_valid RegExp (Props.lookup name fields) ps = true.
Proof.
  induction properties as [|k r IH]; intros H name Hin; [destruct Hin|].
  cbn [object_loop] in H.
  destruct (_getPropertySchema schema (PName k) (Some (VObj fields)))
    as [[ps steps]|] eqn:E.
  - apply passes_seq in H. destruct H as [_ H].
    apply passes_seq in H. destruct H as [_ H].
    apply passes_seq in H. destruct H as [Hk H].
    apply passes_seq in H. destruct H as [_ H].
    apply passes_seq in H. destruct H as [_ H].
    destruct Hin as [->|Hin]; [|apply IH; assumption].
    exists ps. split; [|apply passes_run in Hk; exact Hk].
    unfold field_schema, getPropertySchema.
    rewrite (_getPropertySchema_object schema _ [] fields), E. reflexivity.
  - apply passes_validation_error in H. contradiction.
Qed.

(** A passing loop over [required] found every entry among the names. *)
Lemma required_loop_passes properties v schema info required :
  passes (required_loop keep properties v schema info required) ->
  forall e, In e required -> exists k, e = VStr k /\ In k properties.
Proof.
  induction required as [|e0 r IH]; intros H e Hin; [destruct Hin|].
  cbn [required_loop] in H. apply passes_seq in H. destruct H as [H0 H].
  destruct Hin as [->|Hin]; [|apply IH; assumption].
  apply passes_fail_if in H0. apply Bool.negb_false_iff in H0.
  unfold Set_has in H0. destruct e as [| | |k| |]; try discriminate.
  exists k. split; [reflexivity | apply PropsFacts.mem_In; exact H0].
Qed.

(** A valid value has the type the schema asks for. *)
Lemma valid_type v schema :
  is_valid RegExp v schema = true ->
  _isValueTypeAny v (_getValueType v) (get schema "type") = true.
Proof.
  intros H. apply (is_valid_passes _ _ 0) in H. unfold validate_body in H.
  apply passes_seq in H. destruct H as [H _].
  unfold _validateSingleSchema in H.
  destruct schema;
    try (apply passes_seq in H; destruct H as [H _];
         apply passes_fail_if in H; apply Bool.negb_false_iff in H; exact H).
  destruct H as [st H]. discriminate.
Qed.

(** What a valid array has passed. *)
Lemma valid_array elements schema :
  is_valid RegExp (Some (VArr elements)) schema = true ->
  _isValueTypeAny (Some (VArr elements)) "array" (get schema "type") = true
  /\ (forall m, number_key schema "minItems" = Some m ->
                (m <= Z.of_nat (List.length elements))%Z)
  /\ (forall m, number_key schema "maxItems" = Some m ->
                (Z.of_nat (List.length elements) <= m)%Z)
  /\ (forall j x,
        nth_error elements j = Some x ->
        exists ps, item_schema schema j = Some ps
                   /\ is_valid RegExp (Some x) ps = true).
Proof.
  intros H. apply (is_valid_passes _ _ 0) in H. unfold validate_body in H.
  apply passes_seq in H. destruct H as [H _].
  unfold _validateSingleSchema in H.
  assert (H' : passes
    (fail_if keep
       (negb (_isValueTypeAny (Some (VArr elements)) "array"
                (get schema "type")))
       ("Value type " ++ "array" ++ " does not match schema type "
          ++ js_to_string_opt (get schema "type"))
       (Some (VArr elements)) schema 0 ;;
     match get schema "const" with
     | Some schemaConst =>
         fail_if keep
           (negb (_valuesAreEqual (Some (VArr elements)) (Some schemaConst)))
           "Invalid constant value" (Some (VArr elements)) schema 0
     | None => ret tt
     end ;;
     match get schema "enum" with
     | Some (VArr schemaEnum) =>
         fail_if keep
           (negb (_valuesAreEqualAny (Some (VArr elements)) schemaEnum))
           "Invalid enum value" (Some (VArr elements)) schema 0
     | _ => ret tt
     end ;;
     _validateArray keep (run keep RegExp) elements schema 0)%engine).
  { destruct schema; try exact H. destruct H as [st H]. discriminate. }
  clear H. apply passes_seq in H'. destruct H' as [Ht H].
  apply passes_fail_if in Ht. apply Bool.negb_false_iff in Ht.
  apply passes_seq in H. destruct H as [_ H].
  apply passes_seq in H. destruct H as [_ H].
  unfold _validateArray in H.
  apply passes_seq in H. destruct H as [Hmin H].
  apply passes_seq in H. destruct H as [Hmax H].
  apply passes_seq in H. destruct H as [_ H].
  split; [exact Ht|]. split; [|split].
  - intros m Em. rewrite Em in Hmin. apply passes_fail_if in Hmin.
    apply Z.ltb_ge in Hmin. exact Hmin.
  - intros m Em. rewrite Em in Hmax. apply passes_fail_if in Hmax.
    apply Z.ltb_ge in Hmax. exact Hmax.
  - intros j x Hj. apply (@array_loop_passes _ _ _ _ 0 H j x Hj).
Qed.

(** What a valid object has passed. *)
Lemma valid_object fields schema :
  is_valid RegExp (Some (VObj fields)) schema = true ->
  _isValueTypeAny (Some (VObj fields)) "object" (get schema "type") = true
  /\ (forall e, In e (required_of schema) ->
                exists k, e = VStr k /\ Props.lookup k fields <> None)
  /\ (forall k,
        Props.lookup k fields <> None ->
        exists ps, field_schema schema k = Some ps
                   /\ is_valid RegExp (Props.lookup k fields) ps = true).
Proof.
  intros H. apply (is_valid_passes _ _ 0) in H. unfold validate_body in H.
  apply passes_seq in H. destruct H as [H _].
  unfold _validateSingleSchema in H.
  assert (H' : passes
    (fail_if keep
       (negb (_isValueTypeAny (Some (VObj fields)) "object"
                (get schema "type")))
       ("Value type " ++ "object" ++ " does not match schema type "
          ++ js_to_string_opt (get schema "type"))
       (Some (VObj fields)) schema 0 ;;
     match get schema "const" with
     | Some schemaConst =>
         fail_if keep
           (negb (_valuesAreEqual (Some (VObj fields)) (Some schemaConst)))
           "Invalid constant value" (Some (VObj fields)) schema 0
     | None => ret tt
     end ;;
     match get schema "enum" with
     | Some (VArr schemaEnum) =>
         fail_if keep
           (negb (_valuesAreEqualAny (Some (VObj fields)) schemaEnum))
           "Invalid enum value" (Some (VObj fields)) schema 0
     | _ => ret tt
     end ;;
     _validateObject keep (run keep RegExp) fields schema 0)%engine).
  { destruct schema; try exact H. destruct H as [st H]. discriminate. }
  clear H. apply passes_seq in H'. destruct H' as [Ht H].
  apply passes_fail_if in Ht. apply Bool.negb_false_iff in Ht.
  apply passes_seq in H. destruct H as [_ H].
  apply passes_seq in H. destruct H as [_ H].
  unfold _validateObject in H.
  apply passes_seq in H. destruct H as [Hreq H].
  apply passes_seq in H. destruct H as [_ H].
  apply passes_seq in H. destruct H as [_ H].
  split; [exact Ht|]. split.
  - intros e He. unfold required_of in He.
    destruct (get schema "required") as [[| | | |required|]|];
      try destruct He.
    destruct (@required_loop_passes _ _ _ _ _ Hreq e He) as (k & -> & Hk).
    exists k. split; [reflexivity | apply PropsFacts.names_In; exact Hk].
  - intros k Hk. apply (@object_loop_passes _ _ _ _ H).
    apply PropsFacts.names_In. exact Hk.
Qed.

End Passing.

(** ** A valid value is a fixed point of normalization *)

Section ValidIsNormal.

Variable RegExp : string -> string -> string + (string -> bool).

Lemma depth_item_schema schema i ps :
  item_schema schema i = Some ps -> depth ps <= depth schema.
Proof.
  unfold item_schema, getPropertySchema.
  destruct (_getPropertySchema schema _ _) as [[q steps]|] eqn:E;
    [|discriminate].
  intros H. injection H as <-. eapply depth_getPropertySchema. exact E.
Qed.

Lemma depth_field_schema schema k ps :
  field_schema schema k = Some ps -> depth ps <= depth schema.
Proof.
  unfold field_schema, getPropertySchema.
  destruct (_getPropertySchema schema _ _) as [[q steps]|] eqn:E;
    [|discriminate].
  intros H. injection H as <-. eapply depth_getPropertySchema. exact E.
Qed.

(** Normalization of an object of the right type. *)
Lemma normalize_object schema fields :
  _isValueTypeAny (Some (VObj fields)) "object" (get schema "type") = true ->
  normalize RegExp schema (Some (VObj fields))
  = VObj (populated (normalize RegExp) schema fields).
Proof.
  intros T. pose proof (normalize_unfold RegExp schema (Some (VObj fields))) as U.
  unfold normalize_body in U. cbn [_getValueType] in U. rewrite T in U.
  rewrite _populateObjectDefaults_populated in U
    by (eapply object_type_keyed_by_name; exact T).
  injection U as <-. reflexivity.
Qed.

(** Normalization of an array of the right type. *)
Lemma normalize_array schema elements :
  _isValueTypeAny (Some (VArr elements)) "array" (get schema "type") = true ->
  normalize RegExp schema (Some (VArr elements))
  = VArr (arranged RegExp schema elements).
Proof.
  intros T. pose proof (normalize_unfold RegExp schema (Some (VArr elements))) as U.
  unfold normalize_body in U. cbn [_getValueType] in U. rewrite T in U.
  rewrite _populateArrayDefaults_arranged in U.
  injection U as <-. reflexivity.
Qed.

Lemma valid_is_normal n : forall schema x,
  depth schema + depth x < n ->
  is_valid RegExp (Some x) schema = true ->
  normalize RegExp schema (Some x) = x.
Proof.
  induction n as [|n IH]; intros schema x Hn V; [lia|].
  pose proof (valid_type reference RegExp _ _ V) as T.
  destruct x as [| b | z | s | elements | fields].
  1-4: match goal with
       | |- normalize _ _ (Some ?x) = _ =>
           pose proof (normalize_unfold RegExp schema (Some x)) as U
       end;
       unfold normalize_body in U; rewrite T, V in U;
       injection U as <-; reflexivity.
  - cbn [_getValueType] in T. rewrite normalize_array by exact T.
    destruct (valid_array reference RegExp _ _ V) as (_ & Hmin & Hmax & Hel).
    f_equal. apply arranged_normal; try assumption.
    intros j x ps Hj Hps. destruct (Hel j x Hj) as (ps' & Hps' & Vx).
    simpl in Hps. rewrite Hps in Hps'. injection Hps' as <-.
    apply IH; [|exact Vx].
    apply depth_item_schema in Hps. apply depth_nth in Hj. lia.
  - cbn [_getValueType] in T. rewrite normalize_object by exact T.
    destruct (valid_object reference RegExp _ _ V) as (_ & Hreq & Hfs).
    f_equal. apply populated_normal.
    + intros k Hk ps Hps. destruct (Hfs k Hk) as (ps' & Hps' & Vx).
      rewrite Hps in Hps'. injection Hps' as <-.
      destruct (Props.lookup k fields) as [x|] eqn:L; [|congruence].
      exists x. split; [reflexivity|]. apply IH; [|exact Vx].
      apply depth_field_schema in Hps. apply depth_member_obj in L. lia.
    + intros e He _. destruct (Hreq e He) as (k & -> & Hk). exact Hk.
    + intros k Hk Hs. destruct (Hfs k Hk) as (ps' & Hps' & _). congruence.
Qed.

(** Whatever is valid against the schema is returned as it is. *)
Lemma valid_normalizes_to_itself schema x :
  is_valid RegExp (Some x) schema = true ->
  normalize RegExp schema (Some x) = x.
Proof. apply (valid_is_normal (n := S (depth schema + depth x))). lia. Qed.

Lemma unconstrained_valid x :
  is_valid RegExp (Some x) unconstrainedSchema = true.
Proof.
  apply (is_valid_run reference RegExp (Some x) unconstrainedSchema 0 []).
  rewrite (unconstrained_accepts reference RegExp (Some x) 0 []).
  reflexivity.
Qed.

End ValidIsNormal.

(** ** Idempotence of normalization *)

(** No [maxItems] in the schema, at any depth, is a negative number. *)
Fixpoint maxItems_nonnegative (v : value) : bool :=
  match v with
  | VArr l => forallb maxItems_nonnegative l
  | VObj fs =>
      match Props.lookup "maxItems" fs with
      | Some (VNum m) => (0 <=? m)%Z
      | _ => true
      end
      && forallb (fun kv => maxItems_nonnegative (snd kv)) fs
  | _ => true
  end.

Lemma maxItems_member_obj fs k x :
  maxItems_nonnegative (VObj fs) = true ->
  Props.lookup k fs = Some x -> maxItems_nonnegative x = true.
Proof.
  cbn [maxItems_nonnegative]. intros H L.
  apply Bool.andb_true_iff in H. destruct H as [_ H].
  rewrite forallb_forall in H. apply lookup_In in L. apply (H (k, x) L).
Qed.

Lemma maxItems_get schema k x :
  maxItems_nonnegative schema = true ->
  get schema k = Some x -> maxItems_nonnegative x = true.
Proof.
  destruct schema; try discriminate. cbn [get]. apply maxItems_member_obj.
Qed.

Lemma maxItems_member_arr l x :
  maxItems_nonnegative (VArr l) = true ->
  In x l -> maxItems_nonnegative x = true.
Proof.
  cbn [maxItems_nonnegative]. intros H Hin.
  rewrite forallb_forall in H. apply H. exact Hin.
Qed.

Lemma maxItems_bound schema m :
  maxItems_nonnegative schema = true ->
  number_key schema "maxItems" = Some m -> (0 <= m)%Z.
Proof.
  unfold number_key. destruct schema as [| | | | |fs]; try discriminate.
  cbn [get maxItems_nonnegative]. intros H.
  apply Bool.andb_true_iff in H. destruct H as [H _].
  destruct (Props.lookup "maxItems" fs) as [[| | z | | |]|]; try discriminate.
  intros E. injection E as <-. apply Z.leb_le. exact H.
Qed.

Lemma maxItems_unconstrained : maxItems_nonnegative unconstrainedSchema = true.
Proof. reflexivity. Qed.

Lemma maxItems_additional schema key ps steps :
  maxItems_nonnegative schema = true ->
  additional_schema schema key = Some (ps, steps) ->
  maxItems_nonnegative ps = true.
Proof.
  unfold additional_schema. intros Hm H.
  destruct (get schema key) as [[| [] | | | |fs]|] eqn:G;
    try (injection H as <- <-; reflexivity); try discriminate.
  injection H as <- <-. eapply maxItems_get; eassumption.
Qed.

Lemma tuple_item_In items p x : tuple_item items p = Some x -> In x items.
Proof.
  unfold tuple_item. destruct p as [s|n].
  - destruct (array_index s); [apply nth_error_In | discriminate].
  - destruct (_ && _); [apply nth_error_In | discriminate].
Qed.

(** The schemas the navigator resolves inherit the property. *)
Lemma maxItems_getPropertySchema schema p v ps steps :
  maxItems_nonnegative schema = true ->
  _getPropertySchema schema p v = Some (ps, steps) ->
  maxItems_nonnegative ps = true.
Proof.
  unfold _getPropertySchema. intros Hm H.
  destruct (_getSchemaOrValueType schema v) as [type|]; [|discriminate].
  destruct (String.eqb type "object").
  - destruct (get schema "properties") as [[| | | | |props]|] eqn:G;
      try (eapply maxItems_additional; eassumption).
    destruct (inherited_or_own props (property_key p)) as [[| | | | |q]|] eqn:L;
      try (eapply maxItems_additional; eassumption).
    injection H as <- <-.
    apply inherited_or_own_cases in L. destruct L as [L|L].
    + eapply maxItems_member_obj; [|exact L]. eapply maxItems_get; eassumption.
    + rewrite L. reflexivity.
  - destruct (String.eqb type "array"); [|discriminate].
    destruct (get schema "items") as [[| | | |items|items]|] eqn:G;
      try (eapply maxItems_additional; eassumption).
    + destruct (tuple_item items p) as [[| | | | |q]|] eqn:T;
        try (eapply maxItems_additional; eassumption).
      injection H as <- <-. apply tuple_item_In in T.
      eapply maxItems_member_arr; [|exact T]. eapply maxItems_get; eassumption.
    + injection H as <- <-. eapply maxItems_get; eassumption.
Qed.

Section Idempotence.

Variable RegExp : string -> string -> string + (string -> bool).

Lemma normalize_idempotent_below n : forall schema v,
  depth schema < n ->
  maxItems_nonnegative schema = true ->
  normalize RegExp schema (Some (normalize RegExp schema v))
  = normalize RegExp schema v.
Proof.
  induction n as [|n IH]; intros schema v Hn Hm; [lia|].
  assert (Hsub : forall p w ps steps x,
             _getPropertySchema schema p w = Some (ps, steps) ->
             normalize RegExp ps (Some (normalize RegExp ps x))
             = normalize RegExp ps x).
  { intros p w ps steps x H.
    destruct (resolved_getPropertySchema _ _ _ H) as [Hd | ->].
    - apply IH; [lia | eapply maxItems_getPropertySchema; eassumption].
    - apply valid_normalizes_to_itself, unconstrained_valid. }
  rewrite (normalize_replaced RegExp schema v).
  pose proof (replaced_replaced schema v) as Hx.
  remember (replaced schema v) as x eqn:Ex. clear Ex v.
  pose proof (normalize_unfold RegExp schema (Some x)) as U.
  unfold normalize_body in U. fold (replaced schema (Some x)) in U.
  rewrite Hx in U.
  destruct x as [| b | z | s | elements | fields].
  1-4: destruct (is_valid RegExp (Some _) schema) eqn:V1 in U;
       [injection U as U; rewrite <- U; rewrite <- U; reflexivity|];
       destruct (is_valid RegExp (Some (_getDefaultSchemaValue schema)) schema)
         eqn:V2;
       injection U as U; rewrite <- U;
       [apply valid_normalizes_to_itself; exact V2
       | rewrite <- U; reflexivity].
  - destruct (_isValueTypeAny (Some (VArr elements)) "array"
                (get schema "type")) eqn:T.
    + rewrite (normalize_array RegExp schema elements T).
      rewrite normalize_array by exact T. f_equal.
      apply arranged_arranged.
      * intros i ps y Hps. unfold item_schema, getPropertySchema in Hps.
        destruct (_getPropertySchema schema (PNumber (Z.of_nat i))
                    (Some (VArr []))) as [[q steps]|] eqn:E; [|discriminate].
        injection Hps as <-. eapply Hsub. exact E.
      * intros m. apply maxItems_bound. exact Hm.
    + assert (E : exists l, normalize RegExp schema (Some (VArr elements))
                            = VArr l).
      { unfold _populateArrayDefaults in U.
        destruct (element_defaults_loop _ _ _ _ _) as [l0|]; [|discriminate].
        destruct (match number_key schema "minItems" with
                  | Some _ => _ | None => _ end) as [l1|]; [|discriminate].
        injection U as <-. eauto. }
      destruct E as [l E]. rewrite E. rewrite normalize_replaced.
      unfold replaced in Hx |- *. cbn [_getValueType] in Hx |- *.
      change (_isValueTypeAny (Some (VArr l)) "array" (get schema "type"))
        with (_isValueTypeAny (Some (VArr elements)) "array"
                (get schema "type")).
      rewrite T in Hx |- *. rewrite Hx. exact E.
  - destruct (_isValueTypeAny (Some (VObj fields)) "object"
                (get schema "type")) eqn:T.
    + rewrite (normalize_object RegExp schema fields T).
      rewrite normalize_object by exact T. f_equal.
      apply populated_populated.
      intros k ps y Hps. unfold field_schema, getPropertySchema in Hps.
      destruct (_getPropertySchema schema (PName k) (Some (VObj [])))
        as [[q steps]|] eqn:E; [|discriminate].
      injection Hps as <-. eapply Hsub. exact E.
    + assert (E : exists fs, normalize RegExp schema (Some (VObj fields))
                             = VObj fs).
      { unfold _populateObjectDefaults in U.
        destruct (match get schema "required" with
                  | Some (VArr _) => _ | _ => _ end) as [[ks fs0]|];
          [|discriminate].
        destruct (other_defaults_loop _ _ _ _) as [fs1|]; [|discriminate].
        injection U as <-. eauto. }
      destruct E as [fs E]. rewrite E. rewrite normalize_replaced.
      unfold replaced in Hx |- *. cbn [_getValueType] in Hx |- *.
      change (_isValueTypeAny (Some (VObj fs)) "object" (get schema "type"))
        with (_isValueTypeAny (Some (VObj fields)) "object"
                (get schema "type")).
      rewrite T in Hx |- *. rewrite Hx. exact E.
Qed.

(** Normalizing a normalized value returns it as it is. *)
Lemma normalize_idempotent schema v :
  maxItems_nonnegative schema = true ->
  normalize RegExp schema (Some (normalize RegExp schema v))
  = normalize RegExp schema v.
Proof. apply (normalize_idempotent_below (n := S (depth schema))). lia. Qed.

End Idempotence.
(** C9, counterexample.  With a negative [maxItems], [splice] counts its
    start from the end of the array, so every call removes the last
    element: normalizing [[1, 2, 3]] gives [[1, 2]], and normalizing that
    gives [[1]].  And with a pattern that has flag [g] or [y], the
    validator that has returned "ab" as valid turns it into the default "a"
    when it normalizes it again: the second test of the cached pattern
    starts where the first ended.  Flags with a colon share their cache key
    with another pattern: the pattern [a] with flags [:g] does not compile,
    so the first call leaves "zz" as it is; by the second call the pattern
    [g:a] of the next element is in the cache under the same key, the
    default "g:a" is found valid and replaces "zz". *)
Lemma normalizing_twice_can_differ :
  (let schema := VObj [("type", VStr "array"); ("maxItems", VNum (-1))] in
   getValidValueOrDefault no_patterns schema
     (Some (VArr [VNum 1; VNum 2; VNum 3]))
   = Ok (VArr [VNum 1; VNum 2])
   /\ getValidValueOrDefault no_patterns schema
        (Some (VArr [VNum 1; VNum 2]))
      = Ok (VArr [VNum 1]))
  /\ (let schema := fun flags =>
                      VObj [("type", VStr "string"); ("pattern", VStr "a");
                            ("patternFlags", VStr flags);
                            ("default", VStr "a")] in
      let first := fun flags =>
        Cached.getValidValueOrDefault literal (schema flags)
          (Some (VStr "ab")) Cached.new_JsonSchemaValidator in
      fst (first "g") = Ok (VStr "ab")
      /\ fst (Cached.getValidValueOrDefault literal (schema "g")
                (Some (VStr "ab")) (snd (first "g")))
         = Ok (VStr "a")
      /\ fst (first "y") = Ok (VStr "ab")
      /\ fst (Cached.getValidValueOrDefault literal (schema "y")
                (Some (VStr "ab")) (snd (first "y")))
         = Ok (VStr "a"))
  /\ (let Q := VObj [("type", VStr "string"); ("pattern", VStr "a");
                     ("patternFlags", VStr ":g"); ("default", VStr "g:a")] in
      let P := VObj [("type", VStr "string"); ("pattern", VStr "g:a")] in
      let schema := VObj [("type", VStr "array"); ("items", VArr [Q; P])] in
      let r := VArr [VStr "zz"; VStr "g:a"] in
      let first :=
        Cached.getValidValueOrDefault literal schema (Some r)
          Cached.new_JsonSchemaValidator in
      fst first = Ok r
      /\ fst (Cached.getValidValueOrDefault literal schema (Some r)
                (snd first))
         = Ok (VArr [VStr "g:a"; VStr "g:a"])).
Proof. repeat split; vm_compute; reflexivity. Qed.

(** C9, as amended.  For every schema other than [null] in which, at any
    depth, no [maxItems] is a negative number, no [patternFlags] holds
    [g], [y] or a colon and no [required] list names [__proto__]; for
    every value (absent included); and in whatever state the cache of the
    validator is: [getValidValueOrDefault] returns, and what it returns is
    returned unchanged when the same validator normalizes it again:
    normalization is idempotent. *)
Theorem normalization_is_idempotent
  (compile : string -> string -> string + (string -> nat -> option nat))
  (schema : value) (v : option value) (st : store)
  (cache : Cached.CacheMap) :
  schema <> VNull ->
  maxItems_nonnegative schema = true ->
  stateless_patterns schema = true ->
  requires_no_proto schema = true ->
  consistent compile cache ->
  exists r w1 w2,
    Cached.getValidValueOrDefault compile schema v (Cached.mkWorld st cache)
    = (Ok r, w1)
    /\ Cached.getValidValueOrDefault compile schema (Some r) w1 = (Ok r, w2).
Proof.
  intros Hs Hm Hp _ Hc.
  destruct (@cached_getValidValueOrDefault compile schema v st cache Hp Hc)
    as ([st1 c1] & E1 & Hc1).
  destruct (@cached_getValidValueOrDefault compile schema
              (Some (normalize (fresh compile) schema v)) st1 c1 Hp Hc1)
    as (w2 & E2 & _).
  exists (normalize (fresh compile) schema v), (Cached.mkWorld st1 c1), w2.
  rewrite E1, E2.
  rewrite !getValidValueOrDefault_returns by exact Hs.
  split; [reflexivity|]. do 2 f_equal. apply normalize_idempotent. exact Hm.
Qed.

Lemma normalization_is_idempotent_witness :
  let schema :=
    VObj [("type", VStr "array");
          ("items", VObj [("type", VStr "string"); ("pattern", VStr "b");
                          ("default", VStr "abc")]);
          ("minItems", VNum 2); ("maxItems", VNum 3)] in
  schema <> VNull
  /\ maxItems_nonnegative schema = true
  /\ stateless_patterns schema = true
  /\ requires_no_proto schema = true
  /\ consistent literal (Cached.new_CacheMap 100)
  /\ exists r w1 w2,
       Cached.getValidValueOrDefault literal schema (Some (VArr [VStr "x"]))
         Cached.new_JsonSchemaValidator
       = (Ok r, w1)
       /\ Cached.getValidValueOrDefault literal schema (Some r) w1
          = (Ok r, w2).
Proof.
  intros schema.
  assert (Hs : schema <> VNull) by discriminate.
  split; [exact Hs|]. split; [reflexivity|]. split; [reflexivity|].
  split; [reflexivity|]. split; [apply consistent_new|].
  exact (@normalization_is_idempotent literal schema
           (Some (VArr [VStr "x"])) [] (Cached.new_CacheMap 100)
           Hs eq_refl eq_refl eq_refl (@consistent_new literal 100)).
Defined.

(* ===================================================================== *)
(** * Further properties of the validation engine *)
(* ===================================================================== *)

(** ** The clauses [allOf], [anyOf], [if] and [contains] *)

Section MoreClauses.

Variable keep : loc -> store -> path_info.
Variable RegExp : string -> string -> string + (string -> bool).

Lemma run_valid v s i st :
  is_valid RegExp v s = true ->
  exists st', run keep RegExp v s i st = (Ok tt, st').
Proof.
  intros H. apply (is_valid_run keep RegExp v s i st) in H.
  destruct (run keep RegExp v s i st) as [[[]|e|] st'].
  - eauto.
  - destruct e; discriminate.
  - discriminate.
Qed.

Lemma run_invalid v s i st :
  is_valid RegExp v s = false ->
  exists e st', run keep RegExp v s i st = (Throw e, st').
Proof.
  intros H. pose proof (is_valid_run keep RegExp v s i st) as V.
  pose proof (run_total keep RegExp v s i st) as T.
  destruct (run keep RegExp v s i st) as [[[]|e|] st']; simpl in *.
  - destruct V as [_ V]. rewrite V in H by reflexivity. discriminate.
  - eauto.
  - congruence.
Qed.

(** The first member of a list of sub-schemas that does not validate the
    value. *)
Fixpoint first_failing (v : option value) (subSchemas : list value)
  : option value :=
  match subSchemas with
  | [] => None
  | m :: r => if is_valid RegExp v m then first_failing v r else Some m
  end.

Lemma first_failing_none v subSchemas :
  first_failing v subSchemas = None
  <-> Forall (fun m => is_valid RegExp v m = true) subSchemas.
Proof.
  induction subSchemas as [|m r IH]; simpl.
  - split; auto.
  - destruct (is_valid RegExp v m) eqn:Hm.
    + rewrite IH. split; [auto | intros H; inversion H; assumption].
    + split; [discriminate | intros H; inversion H; congruence].
Qed.

Lemma allOf_loop_result v info subSchemas : forall i st,
  verdict_of (fst (allOf_loop (run keep RegExp) v info i subSchemas st))
  = match first_failing v subSchemas with
    | None => Passes
    | Some m => verdict_of (fst (validate keep RegExp v m []))
    end.
Proof.
  induction subSchemas as [|m r IH]; intros i st; [reflexivity|].
  cbn [allOf_loop first_failing]. unfold schemaPush, schemaPop.
  rewrite bind_modify.
  destruct (is_valid RegExp v m) eqn:Hm.
  - match goal with
    | |- context [bind (run keep RegExp v m info) _ ?st0] =>
        destruct (run_valid v m info st0 Hm) as [st' R]
    end.
    erewrite bind_ok by exact R. rewrite bind_modify. apply IH.
  - match goal with
    | |- context [bind (run keep RegExp v m info) _ ?st0] =>
        destruct (run_invalid v m info st0 Hm) as (e & st' & R);
        rewrite (validate_verdict keep RegExp v m info st0 [])
    end.
    erewrite bind_throw by exact R. rewrite R. reflexivity.
Qed.

Lemma _validateAllOf_result v schema subSchemas info st :
  get schema "allOf" = Some (VArr subSchemas) ->
  verdict_of (fst (_validateAllOf (run keep RegExp) v schema info st))
  = match first_failing v subSchemas with
    | None => Passes
    | Some m => verdict_of (fst (validate keep RegExp v m []))
    end.
Proof.
  intros H. unfold _validateAllOf. rewrite H.
  unfold schemaPush at 1. rewrite bind_modify.
  match goal with
  | |- verdict_of (fst (bind _ _ ?st0)) = _ =>
      pose proof (allOf_loop_result v info subSchemas 0 st0) as L;
      destruct (allOf_loop (run keep RegExp) v info 0 subSchemas st0)
        as [o st'] eqn:Hl
  end.
  cbn [fst] in L. rewrite <- L. unfold bind. rewrite Hl.
  destruct o as [[]|e|]; reflexivity.
Qed.

Lemma anyOf_loop_result v info subSchemas : forall i st,
  fst (anyOf_loop (run keep RegExp) v info i subSchemas st)
  = Ok (existsb (is_valid RegExp v) subSchemas).
Proof.
  induction subSchemas as [|m r IH]; intros i st; [reflexivity|].
  cbn [anyOf_loop existsb]. unfold schemaPush, schemaPop.
  rewrite bind_modify. erewrite bind_ok by apply attempt_run.
  destruct (is_valid RegExp v m); [reflexivity|].
  rewrite bind_modify. apply IH.
Qed.

Lemma _validateAnyOf_result v schema subSchemas info st :
  get schema "anyOf" = Some (VArr subSchemas) ->
  verdict_of (fst (_validateAnyOf keep (run keep RegExp) v schema info st))
  = if existsb (is_valid RegExp v) subSchemas then Passes
    else Fails "0 anyOf schemas matched" v schema.
Proof.
  intros H. unfold _validateAnyOf. rewrite H.
  unfold schemaPush at 1. rewrite bind_modify.
  match goal with
  | |- verdict_of (fst (bind _ _ ?st0)) = _ =>
      pose proof (anyOf_loop_result v info subSchemas 0 st0) as L;
      destruct (anyOf_loop (run keep RegExp) v info 0 subSchemas st0)
        as [o st'] eqn:Hl
  end.
  cbn [fst] in L. subst o. erewrite bind_ok by exact Hl.
  destruct (existsb (is_valid RegExp v) subSchemas); reflexivity.
Qed.

(** The branch [_validateConditional] goes on with. *)
Definition conditional_branch (v : option value) (schema : value)
  : option value :=
  match get schema "if" with
  | Some (VObj ifFields) =>
      match (if is_valid RegExp v (VObj ifFields)
             then get schema "then" else get schema "else") with
      | Some (VObj nextFields) => Some (VObj nextFields)
      | _ => None
      end
  | _ => None
  end.

Lemma _validateConditional_result v schema info st :
  verdict_of (fst (_validateConditional (run keep RegExp) v schema info st))
  = match conditional_branch v schema with
    | Some nextSchema => verdict_of (fst (validate keep RegExp v nextSchema []))
    | None => Passes
    end.
Proof.
  unfold _validateConditional, conditional_branch.
  destruct (get schema "if") as [[| | | | |ifFields]|]; try reflexivity.
  unfold schemaPush at 1. rewrite bind_modify.
  erewrite bind_ok by apply attempt_run.
  unfold schemaPop at 1. rewrite bind_modify.
  destruct (if is_valid RegExp v (VObj ifFields)
            then get schema "then" else get schema "else")
    as [[| | | | |nextFields]|]; try reflexivity.
  unfold schemaPush. rewrite bind_modify.
  match goal with
  | |- context [bind (run keep RegExp v ?n info) _ ?st0] =>
      rewrite (validate_verdict keep RegExp v n info st0 []);
      unfold bind;
      destruct (run keep RegExp v n info st0) as [[[]|e|] st']; reflexivity
  end.
Qed.

Lemma contains_loop_result containsSchema info elements : forall i st,
  fst (contains_loop (run keep RegExp) containsSchema info i elements st)
  = Ok (existsb (fun x => is_valid RegExp (Some x) containsSchema) elements).
Proof.
  induction elements as [|x r IH]; intros i st; [reflexivity|].
  cbn [contains_loop existsb]. unfold valuePush, valuePop, schemaPop.
  rewrite bind_modify. erewrite bind_ok by apply attempt_run.
  destruct (is_valid RegExp (Some x) containsSchema).
  - rewrite bind_modify. reflexivity.
  - rewrite bind_modify. apply IH.
Qed.

Lemma _validateArrayContains_result elements schema containsFields info st :
  get schema "contains" = Some (VObj containsFields) ->
  verdict_of
    (fst (_validateArrayContains keep (run keep RegExp) elements schema info
            st))
  = if existsb (fun x => is_valid RegExp (Some x) (VObj containsFields))
         elements
    then Passes
    else Fails "contains schema didn't match" (Some (VArr elements)) schema.
Proof.
  intros H. unfold _validateArrayContains. rewrite H.
  unfold schemaPush at 1. rewrite bind_modify.
  match goal with
  | |- verdict_of (fst (bind _ _ ?st0)) = _ =>
      pose proof (contains_loop_result (VObj containsFields) info elements 0
                    st0) as L;
      destruct (contains_loop (run keep RegExp) (VObj containsFields) info 0
                  elements st0) as [o st'] eqn:Hl
  end.
  cbn [fst] in L. subst o. erewrite bind_ok by exact Hl.
  destruct (existsb _ elements); reflexivity.
Qed.

Lemma first_failing_some v subSchemas m :
  first_failing v subSchemas = Some m ->
  In m subSchemas /\ is_valid RegExp v m = false.
Proof.
  induction subSchemas as [|m0 r IH]; simpl; [discriminate|].
  destruct (is_valid RegExp v m0) eqn:Hm.
  - intros H. destruct (IH H). auto.
  - intros H. injection H as <-. auto.
Qed.

(** [isValid] is [validate] passing, from whatever store. *)
Lemma valid_iff_validate v s st :
  is_valid RegExp v s = true
  <-> verdict_of (fst (validate keep RegExp v s st)) = Passes.
Proof.
  rewrite (validate_verdict keep RegExp v s 0 [] st).
  apply is_valid_run.
Qed.

(** A valid value has passed each of the clauses of [_validate]. *)
Lemma valid_clauses v schema :
  is_valid RegExp v schema = true ->
  passes (_validateSingleSchema keep RegExp (run keep RegExp) v schema 0)
  /\ passes (_validateConditional (run keep RegExp) v schema 0)
  /\ passes (_validateAllOf (run keep RegExp) v schema 0)
  /\ passes (_validateAnyOf keep (run keep RegExp) v schema 0)
  /\ passes (_validateOneOf keep (run keep RegExp) v schema 0)
  /\ passes (_validateNoneOf keep (run keep RegExp) v schema 0).
Proof.
  intros H. apply (@is_valid_passes keep RegExp v schema 0) in H.
  unfold validate_body in H.
  apply passes_seq in H. destruct H as [H1 H].
  apply passes_seq in H. destruct H as [H2 H].
  apply passes_seq in H. destruct H as [H3 H].
  apply passes_seq in H. destruct H as [H4 H].
  apply passes_seq in H. destruct H as [H5 H6]. auto 6.
Qed.

End MoreClauses.
(** ** The clauses on the validator with the cache *)

Section CachedClauses.

Variable keep : loc -> store -> path_info.
Variable compile : string -> string -> string + (string -> nat -> option nat).

Let recs_agree : forall v schema info,
  stateless_patterns schema = true ->
  agrees compile (run keep (fresh compile) v schema info)
    (Cached.run keep compile v schema info)
  := fun v schema info => @agrees_run keep compile v schema info.

Lemma cached_isValid v schema st cache :
  stateless_patterns schema = true -> consistent compile cache ->
  fst (Cached.isValid keep compile v schema (Cached.mkWorld st cache))
  = Ok (is_valid (fresh compile) v schema).
Proof.
  intros Hs Hc.
  rewrite (proj1 (@agrees_outcome compile _ _ _ st cache
                    (@agrees_isValid keep compile v schema Hs) Hc)).
  apply isValid_is_valid.
Qed.

Lemma cached_validate v schema st cache :
  stateless_patterns schema = true -> consistent compile cache ->
  fst (Cached.validate keep compile v schema (Cached.mkWorld st cache))
  = fst (validate keep (fresh compile) v schema st).
Proof.
  intros Hs Hc.
  apply (proj1 (@agrees_outcome compile _ _ _ st cache
                  (@agrees_validate keep compile v schema Hs) Hc)).
Qed.

Lemma cached_validateConditional v schema info st cache :
  stateless_patterns schema = true -> consistent compile cache ->
  fst (Cached._validateConditional (Cached.run keep compile) v schema info
         (Cached.mkWorld st cache))
  = fst (_validateConditional (run keep (fresh compile)) v schema info st).
Proof.
  intros Hs Hc.
  apply (proj1 (@agrees_outcome compile _ _ _ st cache
                  (@agrees_validateConditional compile _ _ recs_agree
                     v schema info Hs) Hc)).
Qed.

Lemma cached_validateAllOf v schema info st cache :
  stateless_patterns schema = true -> consistent compile cache ->
  fst (Cached._validateAllOf (Cached.run keep compile) v schema info
         (Cached.mkWorld st cache))
  = fst (_validateAllOf (run keep (fresh compile)) v schema info st).
Proof.
  intros Hs Hc.
  apply (proj1 (@agrees_outcome compile _ _ _ st cache
                  (@agrees_validateAllOf compile _ _ recs_agree
                     v schema info Hs) Hc)).
Qed.

Lemma cached_validateAnyOf v schema info st cache :
  stateless_patterns schema = true -> consistent compile cache ->
  fst (Cached._validateAnyOf keep (Cached.run keep compile) v schema info
         (Cached.mkWorld st cache))
  = fst (_validateAnyOf keep (run keep (fresh compile)) v schema info st).
Proof.
  intros Hs Hc.
  apply (proj1 (@agrees_outcome compile _ _ _ st cache
                  (@agrees_validateAnyOf keep compile _ _ recs_agree
                     v schema info Hs) Hc)).
Qed.

Lemma cached_validateArrayContains elements schema info st cache :
  stateless_patterns schema = true -> consistent compile cache ->
  fst (Cached._validateArrayContains keep (Cached.run keep compile) elements
         schema info (Cached.mkWorld st cache))
  = fst (_validateArrayContains keep (run keep (fresh compile)) elements
           schema info st).
Proof.
  intros Hs Hc.
  apply (proj1 (@agrees_outcome compile _ _ _ st cache
                  (@agrees_validateArrayContains keep compile _ _ recs_agree
                     elements schema info Hs) Hc)).
Qed.

Lemma cached_validateSingleSchema v schema info st cache :
  stateless_patterns schema = true -> consistent compile cache ->
  fst (Cached._validateSingleSchema keep compile (Cached.run keep compile)
         v schema info (Cached.mkWorld st cache))
  = fst (_validateSingleSchema keep (fresh compile)
           (run keep (fresh compile)) v schema info st).
Proof.
  intros Hs Hc.
  apply (proj1 (@agrees_outcome compile _ _ _ st cache
                  (@agrees_validateSingleSchema keep compile _ _ recs_agree
                     v schema info Hs) Hc)).
Qed.

End CachedClauses.

(** [allOf]: the clause validates the value against the listed members in
    order and has no handler of its own.  When no [patternFlags] of the
    schema holds [g], [y] or a colon, and whatever the cache of the
    validator holds, it passes exactly when every member validates the
    value; otherwise it fails with what validating the value against the
    first failing member throws (the error names that member, not the
    schema that holds [allOf]).  A value that is valid against the schema
    is valid against every member.  Validity of the value against the
    schema or a member is what [isValid] returns for it, from whatever
    state. *)
Theorem allOf_fails_as_its_first_failing_member
  (keep : loc -> store -> path_info)
  (compile : string -> string -> string + (string -> nat -> option nat))
  (v : option value) (schema : value) (subSchemas : list value) :
  get schema "allOf" = Some (VArr subSchemas) ->
  stateless_patterns schema = true ->
  (forall s st cache,
     s = schema \/ In s subSchemas ->
     consistent compile cache ->
     fst (Cached.isValid keep compile v s (Cached.mkWorld st cache))
     = Ok (is_valid (fresh compile) v s))
  /\ (forall info st cache,
     consistent compile cache ->
     verdict_of
       (fst (Cached._validateAllOf (Cached.run keep compile) v schema info
               (Cached.mkWorld st cache)))
     = match first_failing (fresh compile) v subSchemas with
       | None => Passes
       | Some m =>
           verdict_of
             (fst (Cached.validate keep compile v m
                     Cached.new_JsonSchemaValidator))
       end)
  /\ (forall info st cache,
        consistent compile cache ->
        verdict_of
          (fst (Cached._validateAllOf (Cached.run keep compile) v schema info
                  (Cached.mkWorld st cache)))
        = Passes
        <-> Forall (fun m => is_valid (fresh compile) v m = true) subSchemas)
  /\ (is_valid (fresh compile) v schema = true ->
      Forall (fun m => is_valid (fresh compile) v m = true) subSchemas).
Proof.
  intros H Hs.
  assert (R : forall info st,
             verdict_of
               (fst (_validateAllOf (run keep (fresh compile)) v schema info
                       st))
             = Passes
             <-> Forall (fun m => is_valid (fresh compile) v m = true)
                   subSchemas).
  { intros info st.
    rewrite (_validateAllOf_result keep (fresh compile) v schema info st H).
    rewrite <- first_failing_none.
    destruct (first_failing (fresh compile) v subSchemas) as [m|] eqn:F;
      [|tauto].
    apply first_failing_some in F. destruct F as [_ F].
    split; [|discriminate]. intros P.
    apply (valid_iff_validate keep (fresh compile) v m []) in P. congruence. }
  split; [|split; [|split]].
  - intros s st cache Hin Hc. apply cached_isValid; [|exact Hc].
    destruct Hin as [-> | Hin]; [exact Hs|].
    eapply stateless_member_arr; [|exact Hin].
    eapply stateless_get; eassumption.
  - intros info st cache Hc.
    rewrite (@cached_validateAllOf keep compile v schema info st cache Hs Hc).
    rewrite (_validateAllOf_result keep (fresh compile) v schema info st H).
    destruct (first_failing (fresh compile) v subSchemas) as [m|] eqn:F;
      [|reflexivity].
    apply first_failing_some in F. destruct F as [Hin _].
    assert (Hm : stateless_patterns m = true).
    { eapply stateless_member_arr; [|exact Hin].
      eapply stateless_get; eassumption. }
    unfold Cached.new_JsonSchemaValidator.
    rewrite (@cached_validate keep compile v m [] _ Hm
               (@consistent_new compile 100)).
    reflexivity.
  - intros info st cache Hc.
    rewrite (@cached_validateAllOf keep compile v schema info st cache Hs Hc).
    apply R.
  - intros V.
    destruct (@valid_clauses keep (fresh compile) _ _ V)
      as (_ & _ & [st P] & _).
    apply (R 0 st). exact P.
Qed.

Lemma allOf_fails_as_its_first_failing_member_witness :
  let members := [VObj [("type", VStr "string")];
                  VObj [("pattern", VStr "b"); ("patternFlags", VStr "")];
                  VObj [("pattern", VStr "c")];
                  VObj [("maxLength", VNum 1)]] in
  let schema := VObj [("allOf", VArr members)] in
  get schema "allOf" = Some (VArr members)
  /\ stateless_patterns schema = true
  /\ consistent literal (Cached.new_CacheMap 100)
  /\ verdict_of
       (fst (Cached._validateAllOf (Cached.run reference literal)
               (Some (VStr "ab")) schema 0
               (Cached.mkWorld [new_info (Some (VStr "ab")) schema]
                  (Cached.new_CacheMap 100))))
     = Fails "Pattern match failed" (Some (VStr "ab"))
         (VObj [("pattern", VStr "c")]).
Proof.
  intros members schema. split; [reflexivity|]. split; [reflexivity|].
  split; [apply consistent_new|].
  exact (proj1 (proj2 (@allOf_fails_as_its_first_failing_member reference
                         literal (Some (VStr "ab")) schema members eq_refl
                         eq_refl))
           0 _ _ (@consistent_new literal 100)).
Defined.

(** [anyOf]: when no [patternFlags] of the schema holds [g], [y] or a
    colon, and whatever the cache of the validator holds, the clause
    passes exactly when some listed member validates the value, and
    otherwise fails with "0 anyOf schemas matched" for the value and the
    schema that holds [anyOf]: what the members throw is never reported.
    An empty list is matched by no value.  A value that is valid against
    the schema is valid against some member.  Validity of the value
    against the schema or a member is what [isValid] returns for it, from
    whatever state. *)
Theorem anyOf_passes_when_a_member_matches
  (keep : loc -> store -> path_info)
  (compile : string -> string -> string + (string -> nat -> option nat))
  (v : option value) (schema : value) (subSchemas : list value) :
  get schema "anyOf" = Some (VArr subSchemas) ->
  stateless_patterns schema = true ->
  (forall s st cache,
     s = schema \/ In s subSchemas ->
     consistent compile cache ->
     fst (Cached.isValid keep compile v s (Cached.mkWorld st cache))
     = Ok (is_valid (fresh compile) v s))
  /\ (forall info st cache,
     consistent compile cache ->
     verdict_of
       (fst (Cached._validateAnyOf keep (Cached.run keep compile) v schema
               info (Cached.mkWorld st cache)))
     = if existsb (is_valid (fresh compile) v) subSchemas then Passes
       else Fails "0 anyOf schemas matched" v schema)
  /\ (is_valid (fresh compile) v schema = true ->
      exists m, In m subSchemas /\ is_valid (fresh compile) v m = true)
  /\ (subSchemas = [] -> is_valid (fresh compile) v schema = false).
Proof.
  intros H Hs.
  assert (V : is_valid (fresh compile) v schema = true ->
              existsb (is_valid (fresh compile) v) subSchemas = true).
  { intros V.
    destruct (@valid_clauses keep (fresh compile) _ _ V)
      as (_ & _ & _ & [st P] & _).
    rewrite (_validateAnyOf_result keep (fresh compile) v schema 0 st H) in P.
    destruct (existsb (is_valid (fresh compile) v) subSchemas);
      [reflexivity | discriminate]. }
  split; [|split; [|split]].
  - intros s st cache Hin Hc. apply cached_isValid; [|exact Hc].
    destruct Hin as [-> | Hin]; [exact Hs|].
    eapply stateless_member_arr; [|exact Hin].
    eapply stateless_get; eassumption.
  - intros info st cache Hc.
    rewrite (@cached_validateAnyOf keep compile v schema info st cache Hs Hc).
    apply _validateAnyOf_result, H.
  - intros Hv. apply V in Hv. apply existsb_exists in Hv. exact Hv.
  - intros ->. destruct (is_valid (fresh compile) v schema) eqn:E;
      [|reflexivity].
    specialize (V eq_refl). discriminate.
Qed.

Lemma anyOf_passes_when_a_member_matches_witness :
  let members := [VObj [("type", VStr "number")];
                  VObj [("type", VStr "string"); ("pattern", VStr "b")]] in
  let schema := VObj [("anyOf", VArr members)] in
  get schema "anyOf" = Some (VArr members)
  /\ stateless_patterns schema = true
  /\ consistent literal (Cached.new_CacheMap 100)
  /\ verdict_of
       (fst (Cached._validateAnyOf reference (Cached.run reference literal)
               (Some (VStr "abc")) schema 0
               (Cached.mkWorld [new_info (Some (VStr "abc")) schema]
                  (Cached.new_CacheMap 100))))
     = Passes
  /\ verdict_of
       (fst (Cached._validateAnyOf reference (Cached.run reference literal)
               (Some (VStr "xyz")) schema 0
               (Cached.mkWorld [new_info (Some (VStr "xyz")) schema]
                  (Cached.new_CacheMap 100))))
     = Fails "0 anyOf schemas matched" (Some (VStr "xyz")) schema.
Proof.
  intros members schema. split; [reflexivity|]. split; [reflexivity|].
  split; [apply consistent_new|]. split.
  - exact (proj1 (proj2 (@anyOf_passes_when_a_member_matches reference
                           literal (Some (VStr "abc")) schema members
                           eq_refl eq_refl))
             0 _ _ (@consistent_new literal 100)).
  - exact (proj1 (proj2 (@anyOf_passes_when_a_member_matches reference
                           literal (Some (VStr "xyz")) schema members
                           eq_refl eq_refl))
             0 _ _ (@consistent_new literal 100)).
Defined.

(** [if], [then], [else]: when [if] holds an object, the value is
    validated against it and a failure there is absorbed; the clause then
    is the validation against [then] (when [if] validated the value) or
    [else] (when it did not), and passes when that key holds no object.
    When [if] holds no object the clause passes whatever [then] and [else]
    hold.  A value that is valid against the schema is valid against the
    branch that applies to it.  This holds when no [patternFlags] of the
    schema holds [g], [y] or a colon, whatever the cache of the validator
    holds.  Validity of the value against the schema or against what one
    of its keys holds is what [isValid] returns for it, from whatever
    state. *)
Theorem conditional_follows_the_branch_that_applies
  (keep : loc -> store -> path_info)
  (compile : string -> string -> string + (string -> nat -> option nat))
  (v : option value) (schema : value) :
  stateless_patterns schema = true ->
  (forall s st cache,
     s = schema \/ (exists key, get schema key = Some s) ->
     consistent compile cache ->
     fst (Cached.isValid keep compile v s (Cached.mkWorld st cache))
     = Ok (is_valid (fresh compile) v s))
  /\ (forall info st cache,
     consistent compile cache ->
     verdict_of
       (fst (Cached._validateConditional (Cached.run keep compile) v schema
               info (Cached.mkWorld st cache)))
     = match conditional_branch (fresh compile) v schema with
       | Some nextSchema =>
           verdict_of
             (fst (Cached.validate keep compile v nextSchema
                     Cached.new_JsonSchemaValidator))
       | None => Passes
       end)
  /\ (forall nextSchema,
        is_valid (fresh compile) v schema = true ->
        conditional_branch (fresh compile) v schema = Some nextSchema ->
        is_valid (fresh compile) v nextSchema = true)
  /\ (_isObject (get schema "if") = false ->
      conditional_branch (fresh compile) v schema = None).
Proof.
  intros Hs. split; [|split; [|split]].
  - intros s st cache Hin Hc. apply cached_isValid; [|exact Hc].
    destruct Hin as [-> | [key Hin]]; [exact Hs|].
    eapply stateless_get; eassumption.
  - intros info st cache Hc.
    rewrite (@cached_validateConditional keep compile v schema info st cache
               Hs Hc).
    rewrite _validateConditional_result.
    destruct (conditional_branch (fresh compile) v schema) as [next|] eqn:B;
      [|reflexivity].
    assert (Hn : stateless_patterns next = true).
    { unfold conditional_branch in B.
      destruct (get schema "if") as [[| | | | |f]|]; try discriminate.
      destruct (is_valid (fresh compile) v (VObj f)).
      - destruct (get schema "then") as [[| | | | |n]|] eqn:G;
          try discriminate.
        injection B as <-. eapply stateless_get; eassumption.
      - destruct (get schema "else") as [[| | | | |n]|] eqn:G;
          try discriminate.
        injection B as <-. eapply stateless_get; eassumption. }
    unfold Cached.new_JsonSchemaValidator.
    rewrite (@cached_validate keep compile v next [] _ Hn
               (@consistent_new compile 100)).
    reflexivity.
  - intros nextSchema V B.
    destruct (@valid_clauses keep (fresh compile) _ _ V) as (_ & [st P] & _).
    rewrite _validateConditional_result, B in P.
    apply (valid_iff_validate keep (fresh compile) v nextSchema []). exact P.
  - unfold conditional_branch.
    destruct (get schema "if") as [[| | | | |f]|]; try reflexivity.
    discriminate.
Qed.

Lemma conditional_follows_the_branch_that_applies_witness :
  let schema := VObj [("if", VObj [("pattern", VStr "a")]);
                      ("then", VObj [("maxLength", VNum 2)]);
                      ("else", VObj [("type", VStr "number")])] in
  stateless_patterns schema = true
  /\ consistent literal (Cached.new_CacheMap 100)
  /\ verdict_of
       (fst (Cached._validateConditional (Cached.run reference literal)
               (Some (VStr "abc")) schema 0
               (Cached.mkWorld [new_info (Some (VStr "abc")) schema]
                  (Cached.new_CacheMap 100))))
     = Fails "String length too long" (Some (VStr "abc"))
         (VObj [("maxLength", VNum 2)]).
Proof.
  intros schema. split; [reflexivity|]. split; [apply consistent_new|].
  exact (proj1 (proj2 (@conditional_follows_the_branch_that_applies
                         reference literal (Some (VStr "abc")) schema
                         eq_refl))
           0 _ _ (@consistent_new literal 100)).
Defined.

(** [contains]: when [contains] holds an object and no [patternFlags] of
    the schema holds [g], [y] or a colon, whatever the cache of the
    validator holds, the clause passes exactly when some element of the
    array validates against it, and otherwise fails with "contains schema
    didn't match" for the array; an empty array never passes.  An array
    that is valid against the schema has an element that is valid against
    [contains].  Validity of the array against the schema, or of a value
    against [contains], is what [isValid] returns for it, from whatever
    state. *)
Theorem contains_needs_a_matching_element
  (keep : loc -> store -> path_info)
  (compile : string -> string -> string + (string -> nat -> option nat))
  (elements : list value) (schema : value)
  (containsFields : list (string * value)) :
  get schema "contains" = Some (VObj containsFields) ->
  stateless_patterns schema = true ->
  (forall x s st cache,
     s = schema \/ s = VObj containsFields ->
     consistent compile cache ->
     fst (Cached.isValid keep compile x s (Cached.mkWorld st cache))
     = Ok (is_valid (fresh compile) x s))
  /\ (forall info st cache,
     consistent compile cache ->
     verdict_of
       (fst (Cached._validateArrayContains keep (Cached.run keep compile)
               elements schema info (Cached.mkWorld st cache)))
     = if existsb
            (fun x => is_valid (fresh compile) (Some x) (VObj containsFields))
            elements
       then Passes
       else Fails "contains schema didn't match" (Some (VArr elements))
              schema)
  /\ (is_valid (fresh compile) (Some (VArr elements)) schema = true ->
      exists x, In x elements
                /\ is_valid (fresh compile) (Some x) (VObj containsFields)
                   = true).
Proof.
  intros H Hs. split; [|split].
  - intros x s st cache Hin Hc. apply cached_isValid; [|exact Hc].
    destruct Hin as [-> | ->]; [exact Hs|].
    eapply stateless_get; eassumption.
  - intros info st cache Hc.
    rewrite (@cached_validateArrayContains keep compile elements schema info
               st cache Hs Hc).
    apply _validateArrayContains_result, H.
  - intros V.
    destruct (@valid_clauses keep (fresh compile) _ _ V) as ([st P] & _).
    assert (P' : passes
                   (_validateArrayContains keep (run keep (fresh compile))
                      elements schema 0)).
    { unfold _validateSingleSchema in P.
      destruct schema as [| | | | |fs]; try discriminate.
      assert (Q : passes
           (fail_if keep
              (negb (_isValueTypeAny (Some (VArr elements)) "array"
                       (get (VObj fs) "type")))
              ("Value type " ++ "array" ++ " does not match schema type "
                 ++ js_to_string_opt (get (VObj fs) "type"))
              (Some (VArr elements)) (VObj fs) 0 ;;
            match get (VObj fs) "const" with
            | Some schemaConst =>
                fail_if keep
                  (negb (_valuesAreEqual (Some (VArr elements))
                           (Some schemaConst)))
                  "Invalid constant value" (Some (VArr elements)) (VObj fs) 0
            | None => ret tt
            end ;;
            match get (VObj fs) "enum" with
            | Some (VArr schemaEnum) =>
                fail_if keep
                  (negb (_valuesAreEqualAny (Some (VArr elements)) schemaEnum))
                  "Invalid enum value" (Some (VArr elements)) (VObj fs) 0
            | _ => ret tt
            end ;;
            _validateArray keep (run keep (fresh compile)) elements (VObj fs)
              0)%engine)
        by (exists st; exact P).
      apply passes_seq in Q. destruct Q as [_ Q].
      apply passes_seq in Q. destruct Q as [_ Q].
      apply passes_seq in Q. destruct Q as [_ Q].
      unfold _validateArray in Q.
      apply passes_seq in Q. destruct Q as [_ Q].
      apply passes_seq in Q. destruct Q as [_ Q].
      apply passes_seq in Q. destruct Q as [Q _]. exact Q. }
    destruct P' as [st' P'].
    rewrite (_validateArrayContains_result keep (fresh compile) elements
               schema 0 st' H) in P'.
    destruct (existsb _ elements) eqn:E; [|discriminate].
    apply existsb_exists in E. exact E.
Qed.

Lemma contains_needs_a_matching_element_witness :
  let schema := VObj [("contains", VObj [("pattern", VStr "b")])] in
  let elements := [VStr "x"; VStr "ab"; VStr "c"] in
  get schema "contains" = Some (VObj [("pattern", VStr "b")])
  /\ stateless_patterns schema = true
  /\ consistent literal (Cached.new_CacheMap 100)
  /\ verdict_of
       (fst (Cached._validateArrayContains reference
               (Cached.run reference literal) elements schema 0
               (Cached.mkWorld [new_info (Some (VArr elements)) schema]
                  (Cached.new_CacheMap 100))))
     = Passes
  /\ verdict_of
       (fst (Cached._validateArrayContains reference
               (Cached.run reference literal) [VStr "x"] schema 0
               (Cached.mkWorld [new_info (Some (VArr [VStr "x"])) schema]
                  (Cached.new_CacheMap 100))))
     = Fails "contains schema didn't match" (Some (VArr [VStr "x"])) schema.
Proof.
  intros schema elements. split; [reflexivity|]. split; [reflexivity|].
  split; [apply consistent_new|]. split.
  - exact (proj1 (proj2 (@contains_needs_a_matching_element reference
                           literal elements schema [("pattern", VStr "b")]
                           eq_refl eq_refl))
             0 _ _ (@consistent_new literal 100)).
  - exact (proj1 (proj2 (@contains_needs_a_matching_element reference
                           literal [VStr "x"] schema
                           [("pattern", VStr "b")] eq_refl eq_refl))
             0 _ _ (@consistent_new literal 100)).
Defined.

(** ** What [validate] guarantees when it returns, and what it reports first *)

(** A value of the wrong type is reported before anything else is looked
    at: for every schema other than [null], a value whose runtime type
    [schema.type] does not admit makes [validate] throw the validation
    error "Value type ... does not match schema type ..." for the value
    and the schema, whatever else the schema holds; both trails of the
    error hold their root entries only. *)
Theorem type_mismatch_is_reported_first
  (RegExp : string -> string -> string + (string -> bool))
  (v : option value) (schema : value) (st : store) :
  schema <> VNull ->
  _isValueTypeAny v (_getValueType v) (get schema "type") = false ->
  exists e st',
    validate reference RegExp v schema st = (Throw e, st')
    /\ verdict_of (@Throw unit e)
       = Fails ("Value type " ++ _getValueType v
                  ++ " does not match schema type "
                  ++ js_to_string_opt (get schema "type")) v schema
    /\ trails_of e st' = Some (new_info v schema).
Proof.
  intros Hs Ht. rewrite validate_run, run_unfold.
  unfold validate_body, _validateSingleSchema.
  exists (JsonSchemaValidationError
            ("Value type " ++ _getValueType v
               ++ " does not match schema type "
               ++ js_to_string_opt (get schema "type")) v schema
            (Reference (List.length st))),
         (st ++ [new_info v schema]).
  split; [|split].
  - destruct schema; try congruence; rewrite Ht; reflexivity.
  - reflexivity.
  - cbn [trails_of]. unfold read. rewrite nth_error_app2 by lia.
    rewrite Nat.sub_diag. reflexivity.
Qed.

Lemma type_mismatch_is_reported_first_witness :
  let schema := VObj [("type", VArr [VStr "string"; VStr "number"]);
                      ("minItems", VNum 1)] in
  schema <> VNull
  /\ _isValueTypeAny (Some (VArr [])) "array" (get schema "type") = false
  /\ exists e st',
       validate reference no_patterns (Some (VArr [])) schema [] = (Throw e, st')
       /\ verdict_of (@Throw unit e)
          = Fails "Value type array does not match schema type string,number"
              (Some (VArr [])) schema
       /\ trails_of e st' = Some (new_info (Some (VArr [])) schema).
Proof.
  intros schema.
  assert (Hs : schema <> VNull) by discriminate.
  split; [exact Hs|]. split; [reflexivity|].
  exact (@type_mismatch_is_reported_first no_patterns (Some (VArr [])) schema
           [] Hs eq_refl).
Defined.

(** The keys of a schema the engine reads to constrain a node. *)
Definition clause_keys : list string := ["if"; "allOf"; "anyOf"; "oneOf"; "not"].

(** Keys the engine does not know constrain nothing: a schema object that
    holds none of the keys the engine reads validates every value, absent
    included, whatever else it holds ([title], [description], [default],
    [then] without [if], ...). *)
Theorem unknown_keys_constrain_nothing
  (RegExp : string -> string -> string + (string -> bool))
  (schema : value) (v : option value) :
  combinators_only schema = true ->
  (forall k, In k clause_keys -> get schema k = None) ->
  is_valid RegExp v schema = true
  /\ forall st, fst (validate reference RegExp v schema st) = Ok tt.
Proof.
  intros Hn Hc.
  assert (R : forall i st, fst (run reference RegExp v schema i st) = Ok tt).
  { intros i st.
    destruct (run_combinators_only reference RegExp v schema i st Hn)
      as [st' ->].
    unfold _validateConditional, _validateAllOf, _validateAnyOf,
      _validateOneOf, _validateNoneOf.
    rewrite !Hc by (unfold clause_keys; simpl; tauto). reflexivity. }
  split.
  - apply (is_valid_run reference RegExp v schema 0 []). rewrite R.
    reflexivity.
  - intros st. rewrite validate_run. apply R.
Qed.

Lemma unknown_keys_constrain_nothing_witness :
  let schema := VObj [("title", VStr "anything");
                      ("then", VObj [("type", VStr "string")]);
                      ("default", VNum 1)] in
  combinators_only schema = true
  /\ (forall k, In k clause_keys -> get schema k = None)
  /\ is_valid no_patterns (Some (VArr [VNull; VObj [("a", VNum 1)]])) schema
     = true.
Proof.
  intros schema.
  assert (Hc : forall k, In k clause_keys -> get schema k = None).
  { intros k Hk. unfold clause_keys in Hk. simpl in Hk.
    destruct Hk as [<-|[<-|[<-|[<-|[<-|[]]]]]]; reflexivity. }
  split; [reflexivity|]. split; [exact Hc|].
  exact (proj1 (@unknown_keys_constrain_nothing no_patterns schema
                  (Some (VArr [VNull; VObj [("a", VNum 1)]])) eq_refl Hc)).
Defined.

Lemma stateless_resolved schema p v ps :
  stateless_patterns schema = true ->
  getPropertySchema schema p v = Some ps ->
  stateless_patterns ps = true.
Proof.
  unfold getPropertySchema. intros Hs H.
  destruct (_getPropertySchema schema p v) as [[q steps]|] eqn:E;
    [|discriminate].
  injection H as <-. eapply stateless_getPropertySchema; eassumption.
Qed.

(** What an array has passed that the validator finds valid, when no
    [patternFlags] of the schema holds [g], [y] or a colon: its type is
    admitted, its length is within [minItems] and [maxItems] where these
    are numbers, and for every index a sub-schema resolves against which
    the validator finds the element valid, whatever its cache holds by
    then; so an array with an element for which no sub-schema resolves
    ([additionalItems: false] behind a tuple) is never valid. *)
Theorem valid_array_has_valid_elements
  (compile : string -> string -> string + (string -> nat -> option nat))
  (elements : list value) (schema : value) (st : store)
  (cache : Cached.CacheMap) :
  stateless_patterns schema = true ->
  consistent compile cache ->
  fst (Cached.isValid reference compile (Some (VArr elements)) schema
         (Cached.mkWorld st cache)) = Ok true ->
  _isValueTypeAny (Some (VArr elements)) "array" (get schema "type") = true
  /\ (forall m, number_key schema "minItems" = Some m ->
                (m <= Z.of_nat (List.length elements))%Z)
  /\ (forall m, number_key schema "maxItems" = Some m ->
                (Z.of_nat (List.length elements) <= m)%Z)
  /\ (forall i x,
        nth_error elements i = Some x ->
        exists ps,
          getPropertySchema schema (PNumber (Z.of_nat i))
            (Some (VArr elements)) = Some ps
          /\ forall st' cache',
               consistent compile cache' ->
               fst (Cached.isValid reference compile (Some x) ps
                      (Cached.mkWorld st' cache')) = Ok true).
Proof.
  intros Hs Hc V.
  rewrite (@cached_isValid reference compile _ schema st cache Hs Hc) in V.
  injection V as V.
  destruct (valid_array reference (fresh compile) _ _ V) as (T & Hmin & Hmax & E).
  split; [exact T|]. split; [exact Hmin|]. split; [exact Hmax|].
  intros i x Hx. destruct (E i x Hx) as (ps & Hps & Vx).
  exists ps. split; [exact Hps|]. intros st' cache' Hc'.
  rewrite (@cached_isValid reference compile _ ps st' cache'
             (stateless_resolved _ _ _ Hs Hps) Hc').
  rewrite Vx. reflexivity.
Qed.

Lemma valid_array_has_valid_elements_witness :
  let schema := VObj [("type", VStr "array");
                      ("items", VArr [VObj [("type", VStr "number")]]);
                      ("additionalItems", VObj [("pattern", VStr "b")]);
                      ("maxItems", VNum 3)] in
  let elements := [VNum 1; VStr "b"; VStr "ab"] in
  stateless_patterns schema = true
  /\ consistent literal (Cached.new_CacheMap 100)
  /\ fst (Cached.isValid reference literal (Some (VArr elements)) schema
            Cached.new_JsonSchemaValidator) = Ok true
  /\ exists ps,
       getPropertySchema schema (PNumber 2) (Some (VArr elements)) = Some ps
       /\ fst (Cached.isValid reference literal (Some (VStr "ab")) ps
                 Cached.new_JsonSchemaValidator) = Ok true.
Proof.
  intros schema elements. split; [reflexivity|].
  split; [apply consistent_new|]. split; [reflexivity|].
  destruct (proj2 (proj2 (proj2 (@valid_array_has_valid_elements literal
                                    elements schema [] _ eq_refl
                                    (@consistent_new literal 100) eq_refl)))
              2 (VStr "ab") eq_refl) as (ps & Hps & Hv).
  exists ps. split; [exact Hps|].
  apply (Hv [] _ (@consistent_new literal 100)).
Defined.

(** What an object has passed that the validator finds valid, when no
    [patternFlags] of the schema holds [g], [y] or a colon: its type is
    admitted, every entry of [required] is a string that names an own
    property (an entry that is not a string is never satisfied), and for
    every own property a sub-schema resolves against which the validator
    finds its value valid, whatever its cache holds by then; so an object
    with a property for which no sub-schema resolves
    ([additionalProperties: false]) is never valid.  For an own property
    named [__proto__] that [schema.properties] does not list, the
    sub-schema is the prototype of [schema.properties]. *)
Theorem valid_object_has_valid_properties
  (compile : string -> string -> string + (string -> nat -> option nat))
  (fields : list (string * value)) (schema : value) (st : store)
  (cache : Cached.CacheMap) :
  stateless_patterns schema = true ->
  consistent compile cache ->
  fst (Cached.isValid reference compile (Some (VObj fields)) schema
         (Cached.mkWorld st cache)) = Ok true ->
  _isValueTypeAny (Some (VObj fields)) "object" (get schema "type") = true
  /\ (forall required e,
        get schema "required" = Some (VArr required) -> In e required ->
        exists k, e = VStr k /\ Props.lookup k fields <> None)
  /\ (forall k x,
        Props.lookup k fields = Some x ->
        exists ps,
          getPropertySchema schema (PName k) (Some (VObj fields)) = Some ps
          /\ forall st' cache',
               consistent compile cache' ->
               fst (Cached.isValid reference compile (Some x) ps
                      (Cached.mkWorld st' cache')) = Ok true).
Proof.
  intros Hs Hc V.
  rewrite (@cached_isValid reference compile _ schema st cache Hs Hc) in V.
  injection V as V.
  destruct (valid_object reference (fresh compile) _ _ V) as (T & R & F).
  split; [exact T|]. split.
  - intros required e Hr He. apply R. unfold required_of. rewrite Hr.
    exact He.
  - intros k x L. destruct (F k) as (ps & Hps & Vx); [congruence|].
    exists ps. split; [exact Hps|]. intros st' cache' Hc'.
    rewrite (@cached_isValid reference compile _ ps st' cache'
               (stateless_resolved _ _ _ Hs Hps) Hc').
    rewrite L in Vx. rewrite Vx. reflexivity.
Qed.

Lemma valid_object_has_valid_properties_witness :
  let schema := VObj [("type", VStr "object");
                      ("required", VArr [VStr "a"]);
                      ("properties", VObj [("a", VObj [("type", VStr "number")])]);
                      ("additionalProperties", VObj [("pattern", VStr "b")])] in
  let fields := [("a", VNum 5); ("x", VStr "b"); ("y", VStr "ab")] in
  stateless_patterns schema = true
  /\ consistent literal (Cached.new_CacheMap 100)
  /\ fst (Cached.isValid reference literal (Some (VObj fields)) schema
            Cached.new_JsonSchemaValidator) = Ok true
  /\ exists ps,
       getPropertySchema schema (PName "y") (Some (VObj fields)) = Some ps
       /\ fst (Cached.isValid reference literal (Some (VStr "ab")) ps
                 Cached.new_JsonSchemaValidator) = Ok true.
Proof.
  intros schema fields.
  split; [reflexivity|].
  split; [apply consistent_new|]. split; [reflexivity|].
  destruct (proj2 (proj2 (@valid_object_has_valid_properties literal
                            fields schema [] _ eq_refl
                            (@consistent_new literal 100) eq_refl))
              "y" (VStr "ab") eq_refl) as (ps & Hps & Hv).
  exists ps. split; [exact Hps|].
  apply (Hv [] _ (@consistent_new literal 100)).
Defined.

(* ===================================================================== *)
(** * Further properties of normalization *)
(* ===================================================================== *)

(** A value that the validator has found valid against the schema is
    returned as it is when the same validator normalizes it: no default is
    substituted, nothing is added and nothing is removed.  This holds when
    no [patternFlags] of the schema holds [g], [y] or a colon, whatever
    the cache of the validator holds. *)
Theorem valid_value_is_returned_unchanged
  (compile : string -> string -> string + (string -> nat -> option nat))
  (schema : value) (x : value) (st : store) (cache : Cached.CacheMap)
  (w1 : Cached.world) :
  stateless_patterns schema = true ->
  consistent compile cache ->
  Cached.isValid reference compile (Some x) schema (Cached.mkWorld st cache)
  = (Ok true, w1) ->
  exists w2,
    Cached.getValidValueOrDefault compile schema (Some x) w1 = (Ok x, w2).
Proof.
  intros Hp Hc V.
  destruct (@agrees_outcome compile _ _ _ st cache
              (@agrees_isValid reference compile (Some x) schema Hp) Hc)
    as (E1 & _ & Hc1).
  rewrite V in E1, Hc1. cbn [fst snd] in E1, Hc1.
  rewrite isValid_is_valid in E1. injection E1 as E1. symmetry in E1.
  assert (Hs : schema <> VNull) by (intros ->; discriminate E1).
  destruct w1 as [st1 c1]. cbn [Cached._regexCache] in Hc1.
  destruct (@cached_getValidValueOrDefault compile schema (Some x) st1 c1
              Hp Hc1) as (w2 & E2 & _).
  exists w2. rewrite E2.
  rewrite getValidValueOrDefault_returns by exact Hs.
  do 2 f_equal. apply valid_normalizes_to_itself. exact E1.
Qed.

Lemma valid_value_is_returned_unchanged_witness :
  let schema :=
    VObj [("type", VStr "object");
          ("required", VArr [VStr "a"]);
          ("properties",
           VObj [("a", VObj [("type", VStr "array");
                             ("items", VObj [("type", VStr "string");
                                             ("pattern", VStr "b");
                                             ("default", VStr "b")]);
                             ("minItems", VNum 1)])])] in
  let x := VObj [("b", VStr "kept"); ("a", VArr [VStr "ab"; VStr "abc"])] in
  stateless_patterns schema = true
  /\ consistent literal (Cached.new_CacheMap 100)
  /\ exists w1,
       Cached.isValid reference literal (Some x) schema
         Cached.new_JsonSchemaValidator = (Ok true, w1)
       /\ exists w2,
            Cached.getValidValueOrDefault literal schema (Some x) w1
            = (Ok x, w2).
Proof.
  intros schema x. split; [vm_compute; reflexivity|].
  split; [apply consistent_new|].
  remember (Cached.isValid reference literal (Some x) schema
              Cached.new_JsonSchemaValidator) as r eqn:R.
  assert (E : fst r = Ok true) by (rewrite R; vm_compute; reflexivity).
  destruct r as [o w1]. cbn [fst] in E. subst o.
  exists w1. split; [reflexivity|].
  exact (@valid_value_is_returned_unchanged literal schema x []
           (Cached.new_CacheMap 100) w1 eq_refl
           (@consistent_new literal 100) (eq_sym R)).
Defined.

(** The type names [_getDefaultTypeValue] knows. *)
Definition type_names : list string :=
  ["null"; "boolean"; "number"; "integer"; "string"; "array"; "object"].

Lemma default_has_the_type schema t :
  get schema "type" = Some (VStr t) -> In t type_names ->
  _isValueTypeAny (Some (_getDefaultSchemaValue schema))
    (_getValueType (Some (_getDefaultSchemaValue schema))) (Some (VStr t))
  = true.
Proof.
  intros Ht Hin. unfold _getDefaultSchemaValue, clone. rewrite Ht.
  destruct (get schema "default") as [d|].
  - destruct (_isValueTypeAny (Some d) _ _) eqn:E; [exact E|].
    unfold type_names in Hin. simpl in Hin.
    destruct Hin as [<-|[<-|[<-|[<-|[<-|[<-|[<-|[]]]]]]]]; reflexivity.
  - unfold type_names in Hin. simpl in Hin.
    destruct Hin as [<-|[<-|[<-|[<-|[<-|[<-|[<-|[]]]]]]]]; reflexivity.
Qed.

Lemma replaced_has_the_type schema v t :
  get schema "type" = Some (VStr t) -> In t type_names ->
  _isValueTypeAny (Some (replaced schema v))
    (_getValueType (Some (replaced schema v))) (Some (VStr t)) = true.
Proof.
  intros Ht Hin. unfold replaced. destruct v as [x|].
  - rewrite Ht.
    destruct (_isValueTypeAny (Some x) _ _) eqn:E; [exact E|].
    apply default_has_the_type; assumption.
  - apply default_has_the_type; assumption.
Qed.

(** Whatever the value, the normalized value has the type the schema
    names, when [schema.type] is one of the seven type names: a value of
    another type is replaced, and what replaces it (the schema default, or
    the zero value of the type) is of that type. *)
Theorem normalized_value_has_the_schema_type
  (RegExp : string -> string -> string + (string -> bool))
  (schema : value) (v : option value) (t : string) :
  get schema "type" = Some (VStr t) -> In t type_names ->
  exists r,
    getValidValueOrDefault RegExp schema v = Ok r
    /\ _isValueTypeAny (Some r) (_getValueType (Some r)) (get schema "type")
       = true.
Proof.
  intros Ht Hin.
  assert (Hs : schema <> VNull) by (intros ->; discriminate Ht).
  exists (normalize RegExp schema v).
  split; [apply getValidValueOrDefault_returns; exact Hs|].
  rewrite Ht. rewrite (normalize_replaced RegExp schema v).
  pose proof (@replaced_has_the_type schema v t Ht Hin) as Hx.
  pose proof (replaced_replaced schema v) as Hr.
  remember (replaced schema v) as x eqn:Ex. clear Ex v.
  pose proof (normalize_unfold RegExp schema (Some x)) as U.
  unfold normalize_body in U. fold (replaced schema (Some x)) in U.
  rewrite Hr in U.
  destruct x as [| b | z | s | elements | fields].
  1-4: destruct (is_valid RegExp (Some _) schema) in U;
       [injection U as <-; exact Hx|];
       destruct (is_valid RegExp (Some (_getDefaultSchemaValue schema)) schema);
       injection U as <-;
       [apply default_has_the_type; assumption | exact Hx].
  - unfold _populateArrayDefaults in U.
    destruct (element_defaults_loop _ _ _ _ _) as [l0|]; [|discriminate].
    destruct (match number_key schema "minItems" with
              | Some _ => _ | None => _ end) as [l1|]; [|discriminate].
    injection U as <-. exact Hx.
  - unfold _populateObjectDefaults in U.
    destruct (match get schema "required" with
              | Some (VArr _) => _ | _ => _ end) as [[ks fs0]|];
      [|discriminate].
    destruct (other_defaults_loop _ _ _ _) as [fs1|]; [|discriminate].
    injection U as <-. exact Hx.
Qed.

Lemma normalized_value_has_the_schema_type_witness :
  let schema := VObj [("type", VStr "integer"); ("default", VStr "seven");
                      ("minimum", VNum 3)] in
  get schema "type" = Some (VStr "integer")
  /\ In "integer" type_names
  /\ exists r,
       getValidValueOrDefault no_patterns schema (Some (VStr "x")) = Ok r
       /\ _isValueTypeAny (Some r) (_getValueType (Some r))
            (get schema "type") = true.
Proof.
  intros schema.
  assert (Hin : In "integer" type_names) by (simpl; tauto).
  split; [reflexivity|]. split; [exact Hin|].
  exact (@normalized_value_has_the_schema_type no_patterns schema
           (Some (VStr "x")) "integer" eq_refl Hin).
Defined.

(** ** What the repair of objects and arrays guarantees *)

Section ObjectPresence.

Variable N : value -> option value -> value.
Variable schema : value.

Lemma lookup_touch_keeps fields k k' :
  Props.lookup k fields <> None ->
  Props.lookup k (touch N schema fields k') <> None.
Proof.
  intros H. unfold touch. destruct (field_schema schema k'); [|exact H].
  destruct (string_dec k' k) as [->|Hne].
  - rewrite PropsFacts.lookup_set_eq. discriminate.
  - rewrite PropsFacts.lookup_set_ne by exact Hne. exact H.
Qed.

Lemma lookup_touch_fold_keeps ks : forall fields k,
  Props.lookup k fields <> None ->
  Props.lookup k (fold_left (touch N schema) ks fields) <> None.
Proof.
  induction ks as [|k0 r IH]; intros fields k H; [exact H|].
  cbn [fold_left]. apply IH. apply lookup_touch_keeps. exact H.
Qed.

Lemma lookup_touch_fold_adds ks : forall fields k,
  In k ks -> field_schema schema k <> None ->
  Props.lookup k (fold_left (touch N schema) ks fields) <> None.
Proof.
  induction ks as [|k0 r IH]; intros fields k Hin Hs; [destruct Hin|].
  cbn [fold_left]. destruct Hin as [->|Hin]; [|apply IH; assumption].
  apply lookup_touch_fold_keeps. unfold touch.
  destruct (field_schema schema k); [|congruence].
  rewrite PropsFacts.lookup_set_eq. discriminate.
Qed.

Lemma lookup_visit_keeps fields k k' :
  Props.lookup k fields <> None -> field_schema schema k <> None ->
  Props.lookup k (visit N schema fields k') <> None.
Proof.
  intros H Hs. unfold visit.
  destruct (string_dec k' k) as [->|Hne].
  - destruct (field_schema schema k); [|congruence].
    rewrite PropsFacts.lookup_set_eq. discriminate.
  - destruct (field_schema schema k').
    + rewrite PropsFacts.lookup_set_ne by exact Hne. exact H.
    + rewrite PropsFacts.lookup_remove_ne by exact Hne. exact H.
Qed.

Lemma lookup_visit_fold_keeps ks : forall fields k,
  Props.lookup k fields <> None -> field_schema schema k <> None ->
  Props.lookup k (fold_left (visit N schema) ks fields) <> None.
Proof.
  induction ks as [|k0 r IH]; intros fields k H Hs; [exact H|].
  cbn [fold_left]. apply IH; [|exact Hs]. apply lookup_visit_keeps; assumption.
Qed.

(** A property without a sub-schema survives only if [required] names it,
    and then it is a property the object had. *)
Lemma populated_keeps_named_only fields k :
  Props.lookup k (populated N schema fields) <> None ->
  field_schema schema k = None ->
  In (VStr k) (required_of schema) /\ Props.lookup k fields <> None.
Proof.
  unfold populated. intros L Hs.
  set (rest := fold_left Set_delete (required_of schema) (Props.names fields))
    in *.
  destruct (in_dec string_dec k rest) as [Hr|Hr].
  - rewrite (@lookup_visit_fold_none N schema rest _ k Hr Hs) in L.
    congruence.
  - rewrite lookup_visit_fold_out in L by exact Hr.
    rewrite lookup_touch_fold_out in L by (right; exact Hs).
    split; [|exact L].
    destruct (In_VStr_dec k (required_of schema)) as [Hk|Hk]; [exact Hk|].
    exfalso. apply Hr. unfold rest.
    apply PropsFacts.Set_delete_fold_In. split; [|exact Hk].
    apply PropsFacts.names_In. exact L.
Qed.

End ObjectPresence.

(** The repair of an object, for property names other than [__proto__].
    For an object of a type the schema admits, [getValidValueOrDefault]
    returns an object in which every entry of [required] for which a
    sub-schema resolves is present; no property for which a sub-schema
    resolves is removed; and a property for which none resolves is removed
    unless [required] names it. *)
Theorem normalized_object_has_its_required_properties
  (RegExp : string -> string -> string + (string -> bool))
  (schema : value) (fields : list (string * value)) :
  schema <> VNull ->
  _isValueTypeAny (Some (VObj fields)) "object" (get schema "type") = true ->
  exists r,
    getValidValueOrDefault RegExp schema (Some (VObj fields)) = Ok (VObj r)
    /\ (forall required e,
          get schema "required" = Some (VArr required) -> In e required ->
          names_proto e = false ->
          getPropertySchema schema (property_of_value e) (Some (VObj fields))
            <> None ->
          Props.lookup (property_key (property_of_value e)) r <> None)
    /\ (forall k,
          k <> "__proto__" ->
          Props.lookup k fields <> None ->
          getPropertySchema schema (PName k) (Some (VObj fields)) <> None ->
          Props.lookup k r <> None)
    /\ (forall k,
          k <> "__proto__" ->
          Props.lookup k r <> None ->
          getPropertySchema schema (PName k) (Some (VObj fields)) = None ->
          Props.lookup k fields <> None
          /\ exists required,
               get schema "required" = Some (VArr required)
               /\ In (VStr k) required).
Proof.
  intros Hs T.
  exists (populated (normalize RegExp) schema fields).
  split; [|split; [|split]].
  - rewrite getValidValueOrDefault_returns by exact Hs.
    f_equal. apply normalize_object. exact T.
  - intros required e Hr He _ Hps.
    rewrite (object_type_keyed_by_name _ _ T (property_of_value e) fields)
      in Hps.
    unfold populated.
    apply lookup_visit_fold_keeps; [|exact Hps].
    apply lookup_touch_fold_adds; [|exact Hps].
    apply in_map_iff. exists e. split; [reflexivity|].
    unfold required_of. rewrite Hr. exact He.
  - intros k _ L Hps. unfold populated.
    apply lookup_visit_fold_keeps; [|exact Hps].
    apply lookup_touch_fold_keeps. exact L.
  - intros k _ L Hps.
    destruct (populated_keeps_named_only _ _ _ _ L Hps) as [Hin Hk].
    split; [exact Hk|]. unfold required_of in Hin.
    destruct (get schema "required") as [[| | | |required|]|];
      try destruct Hin.
    exists required. auto.
Qed.

Lemma normalized_object_has_its_required_properties_witness :
  let schema :=
    VObj [("type", VStr "object");
          ("required", VArr [VStr "a"; VStr "z"]);
          ("properties", VObj [("a", VObj [("type", VStr "number")])]);
          ("additionalProperties", VBool false)] in
  let fields := [("z", VNum 1); ("b", VNum 2)] in
  schema <> VNull
  /\ _isValueTypeAny (Some (VObj fields)) "object" (get schema "type") = true
  /\ exists r,
       getValidValueOrDefault no_patterns schema (Some (VObj fields))
       = Ok (VObj r)
       /\ Props.lookup "a" r <> None.
Proof.
  intros schema fields.
  assert (Hs : schema <> VNull) by discriminate.
  split; [exact Hs|]. split; [reflexivity|].
  destruct (@normalized_object_has_its_required_properties no_patterns schema
              fields Hs eq_refl) as (r & Hr & Hreq & _).
  exists r. split; [exact Hr|].
  apply (Hreq [VStr "a"; VStr "z"] (VStr "a") eq_refl).
  - left. reflexivity.
  - reflexivity.
  - discriminate.
Defined.

(** The repair of an array, for [minItems] and [maxItems] that are
    integers (as every number of the embedding).  For an array of a type
    the schema admits, [getValidValueOrDefault] returns an array that is
    no longer than a non-negative integer [maxItems]; that is at least an
    integer [minItems] long when a sub-schema resolves for every index and
    [maxItems] is not below [minItems]; and that has no fewer elements
    than the array it was given when there is no [maxItems]. *)
Theorem normalized_array_length_is_within_bounds
  (RegExp : string -> string -> string + (string -> bool))
  (schema : value) (elements : list value) :
  schema <> VNull ->
  _isValueTypeAny (Some (VArr elements)) "array" (get schema "type") = true ->
  exists r,
    getValidValueOrDefault RegExp schema (Some (VArr elements)) = Ok (VArr r)
    /\ (forall maxItems,
          number_key schema "maxItems" = Some maxItems ->
          (0 <= maxItems)%Z ->
          (Z.of_nat (List.length r) <= maxItems)%Z)
    /\ (forall minItems,
          number_key schema "minItems" = Some minItems ->
          (forall i,
             getPropertySchema schema (PNumber (Z.of_nat i))
               (Some (VArr elements)) <> None) ->
          (forall maxItems,
             number_key schema "maxItems" = Some maxItems ->
             (minItems <= maxItems)%Z) ->
          (minItems <= Z.of_nat (List.length r))%Z)
    /\ (number_key schema "maxItems" = None ->
        List.length elements <= List.length r).
Proof.
  intros Hs T. exists (arranged RegExp schema elements).
  split.
  { rewrite getValidValueOrDefault_returns by exact Hs.
    f_equal. apply normalize_array. exact T. }
  unfold arranged.
  set (n0 := normalized_from RegExp schema 0 elements).
  assert (Hn0 : List.length n0 = List.length elements)
    by apply normalized_from_length.
  set (p := padded RegExp schema n0).
  assert (Hp : List.length n0 <= List.length p).
  { destruct (padded_extends RegExp schema n0) as [extra E].
    unfold p. rewrite E, length_app. lia. }
  assert (Hmin : forall minItems,
             number_key schema "minItems" = Some minItems ->
             (forall i,
                getPropertySchema schema (PNumber (Z.of_nat i))
                  (Some (VArr elements)) <> None) ->
             (minItems <= Z.of_nat (List.length p))%Z).
  { intros m Em Hall. unfold p, padded. rewrite Em.
    destruct (synthesized_length RegExp schema
                (Z.to_nat (m - Z.of_nat (List.length n0))) n0) as [H|[_ H]].
    - rewrite H. lia.
    - exfalso. apply (Hall _ H). }
  unfold truncated. split; [|split].
  - intros M EM HM. rewrite EM.
    destruct (M <? Z.of_nat (List.length p))%Z eqn:C.
    + apply Z.ltb_lt in C. rewrite Array_splice_truncates by lia.
      rewrite length_firstn. lia.
    + apply Z.ltb_ge in C. exact C.
  - intros m Em Hall HM. specialize (Hmin m Em Hall).
    destruct (number_key schema "maxItems") as [M|]; [|exact Hmin].
    specialize (HM M eq_refl).
    destruct (M <? Z.of_nat (List.length p))%Z eqn:C; [|exact Hmin].
    apply Z.ltb_lt in C. destruct (Z.le_gt_cases 0 M) as [H0|H0]; [|lia].
    rewrite Array_splice_truncates by lia. rewrite length_firstn. lia.
  - intros EM. rewrite EM. lia.
Qed.

Lemma normalized_array_length_is_within_bounds_witness :
  let schema := VObj [("type", VStr "array");
                      ("items", VObj [("type", VStr "string")]);
                      ("minItems", VNum 2); ("maxItems", VNum 3)] in
  schema <> VNull
  /\ _isValueTypeAny (Some (VArr [VNum 1])) "array" (get schema "type") = true
  /\ exists r,
       getValidValueOrDefault no_patterns schema (Some (VArr [VNum 1]))
       = Ok (VArr r)
       /\ (2 <= Z.of_nat (List.length r) <= 3)%Z.
Proof.
  intros schema.
  assert (Hs : schema <> VNull) by discriminate.
  split; [exact Hs|]. split; [reflexivity|].
  destruct (@normalized_array_length_is_within_bounds no_patterns schema
              [VNum 1] Hs eq_refl) as (r & Hr & Hmax & Hmin & _).
  exists r. split; [exact Hr|]. split.
  - apply (Hmin 2%Z eq_refl).
    + intros i. discriminate.
    + intros M E. injection E as <-. discriminate.
  - apply (Hmax 3%Z eq_refl). discriminate.
Defined.

(* ===================================================================== *)
(** * Further properties of the guarded view *)
(* ===================================================================== *)

(** ** Reading through the view *)

(** [target[property]] for an own property; [None] when the target does
    not own the property (the runtime then goes on to the prototype of the
    target).  A number addresses the elements of an array; so does the
    name that is the canonical decimal form of a number. *)
Definition read_own (o : Heap.object) (p : property) : option Heap.slot :=
  match o with
  | Heap.Object fields => Heap.lookup (property_key p) fields
  | Heap.Array elements named =>
      match p with
      | PNumber n =>
          if (0 <=? n)%Z then nth_error elements (Z.to_nat n) else None
      | PName k =>
          if String.eqb k "length"
          then Some (Heap.SNum (Z.of_nat (List.length elements)))
          else
            match array_index k with
            | Some i => nth_error elements i
            | None => Heap.lookup k named
            end
      end
  end.

(** What [get] returns: a value as it is; a guarded view
    ([createProxy(value, propertySchema)]); or, for a property the target
    does not own, whatever its prototype holds for the key, behind a
    guarded view when that is an object and a sub-schema was resolved. *)
Inductive reading : Type :=
| Plain (s : Heap.slot)
| View (target : Heap.ref) (schema : value)
| FromPrototype (key : string) (propertySchema : option value).

(** [value !== null && typeof value === 'object' ?
     this._jsonSchemaValidator.createProxy(value, propertySchema) : value]. *)
Definition wrap (s : Heap.slot) (propertySchema : value) : reading :=
  match s with
  | Heap.SRef r => View r propertySchema
  | _ => Plain s
  end.

(** Lines 70-76 of [get]. *)
Definition guarded_read (schema : value) (o : Heap.object) (p : property)
  : outcome reading :=
  match resolve schema p o with
  | Throw e => Throw e
  | OutOfFuel => OutOfFuel
  | Ok None => Ok (Plain Heap.SUndefined)
  | Ok (Some propertySchema) =>
      match read_own o p with
      | Some s => Ok (wrap s propertySchema)
      | None => Ok (FromPrototype (property_key p) (Some propertySchema))
      end
  end.

(** [JsonSchemaProxyHandler.get(target, property)] for a string
    [property]; [schema] is [this._schema]. *)
Definition JsonSchemaProxyHandler_get (schema : value) (target : Heap.ref)
  (property : string) (w : state) : outcome reading :=
  match nth_error (objects w) target with
  | None => Throw (TypeError "target is not an object")
  | Some (Heap.Array elements named) =>
      match parse_decimal property with
      | Some n =>
          guarded_read schema (Heap.Array elements named)
            (PNumber (Z.of_nat n))
      | None =>
          Ok match read_own (Heap.Array elements named) (PName property) with
             | Some s => Plain s
             | None => FromPrototype property None
             end
      end
  | Some (Heap.Object fields) =>
      guarded_read schema (Heap.Object fields) (PName property)
  end.

Lemma read_own_assign o key p v :
  guarded_property o key = Some p -> read_own (assign o p v) p = Some v.
Proof.
  unfold guarded_property. destruct o as [elements named|fields].
  - destruct (parse_decimal key) as [n|]; [|discriminate].
    destruct (List.length elements <? n) eqn:E; [discriminate|].
    intros H. injection H as <-. cbn [assign read_own].
    replace (0 <=? Z.of_nat n)%Z with true by (symmetry; apply Z.leb_le; lia).
    rewrite Nat2Z.id. apply nth_error_put_index.
    apply Nat.ltb_ge in E. exact E.
  - intros H. injection H as <-. cbn [assign read_own property_key].
    apply lookup_put.
Qed.

Lemma runtime_type_of_assign o p v :
  runtime_type_of (assign o p v) = runtime_type_of o.
Proof. destruct o, p; reflexivity. Qed.

Lemma get_guarded schema target o key p w :
  nth_error (objects w) target = Some o ->
  guarded_property o key = Some p ->
  JsonSchemaProxyHandler_get schema target key w = guarded_read schema o p.
Proof.
  intros Ho Hp. unfold JsonSchemaProxyHandler_get. rewrite Ho.
  unfold guarded_property in Hp. destruct o as [elements named|fields].
  - destruct (parse_decimal key) as [n|]; [|discriminate].
    destruct (List.length elements <? n); [discriminate|].
    injection Hp as <-. reflexivity.
  - injection Hp as <-. reflexivity.
Qed.

(** What a successful guarded write has done. *)
Lemma set_commits RegExp T schema target o key p v w w' :
  nth_error (objects w) target = Some o ->
  guarded_property o key = Some p ->
  set RegExp T schema target key v w = (Ok true, w') ->
  exists ps content h' copy st',
    schema <> VNull
    /\ getPropertySchema schema p (Some (runtime_type_of o)) = Some ps
    /\ Heap.clone (objects w) v = Some (content, h', copy)
    /\ validate reference RegExp content ps (infos w) = (Ok tt, st')
    /\ w' = mkState (Heap.store_at target (assign o p copy) h') st'.
Proof.
  intros Ho Hp. rewrite (@set_guarded RegExp T schema target o key p v w Ho Hp).
  unfold guarded_write.
  assert (Hs : schema = VNull \/ schema <> VNull)
    by (destruct schema; [left; reflexivity | right; discriminate ..]).
  destruct Hs as [->|Hs]; [discriminate|].
  rewrite (resolve_schema p o Hs).
  destruct (getPropertySchema schema p (Some (runtime_type_of o))) as [ps|];
    [|discriminate].
  destruct (Heap.clone (objects w) v) as [[[content h'] copy]|];
    [|discriminate].
  destruct (validate reference RegExp content ps (infos w)) as [[[]|e|] st']
    eqn:V; try discriminate.
  intros H. injection H as <-. exists ps, content, h', copy, st'. auto.
Qed.

Lemma clone_extends h v content h' copy :
  Heap.clone h v = Some (content, h', copy) -> exists ext, h' = h ++ ext.
Proof.
  intros H. apply HeapFacts.clone_deep_copy in H.
  unfold HeapFacts.deep_copy in H. destruct content as [c|].
  - destruct H as (_ & ext & -> & _). eauto.
  - destruct H as (_ & _ & ->). exists []. rewrite app_nil_r. reflexivity.
Qed.

(** Reading after writing.  When a write of a key other than [__proto__]
    through the view has succeeded (for a target that is no array, or a
    digit key of an array), reading the same property through the view
    gives the committed copy: the value itself when it is no object, and
    otherwise a guarded view of the copy under the sub-schema the write
    was validated against.  The copy denotes the JSON content the written
    value had. *)
Theorem committed_write_reads_back
  (RegExp : string -> string -> string + (string -> bool))
  (ToNumber_other : Heap.heap -> Heap.slot -> option Z)
  (schema : value) (target : Heap.ref) (o : Heap.object)
  (key : string) (p : property) (v : Heap.slot) (w w' : state) :
  nth_error (objects w) target = Some o ->
  guarded_property o key = Some p ->
  key <> "__proto__" ->
  set RegExp ToNumber_other schema target key v w = (Ok true, w') ->
  exists ps copy,
    getPropertySchema schema p (Some (runtime_type_of o)) = Some ps
    /\ JsonSchemaProxyHandler_get schema target key w' = Ok (wrap copy ps)
    /\ ((forall r, v <> Heap.SRef r) -> copy = v)
    /\ (forall c,
          Heap.view (objects w) (S (List.length (objects w))) v = Some c ->
          Heap.view (objects w') (S (depth c)) copy = Some c).
Proof.
  intros Ho Hp _ Hset.
  destruct (@set_commits RegExp ToNumber_other schema target o key p v w w'
              Ho Hp Hset)
    as (ps & content & h' & copy & st' & Hschema & Hps & Hclone & _ & ->).
  assert (Ht : target < List.length (objects w))
    by (apply nth_error_Some; congruence).
  destruct (@clone_extends _ _ _ _ _ Hclone) as [ext Hext].
  exists ps, copy. split; [exact Hps|]. split; [|split].
  - assert (Ho' : nth_error
                    (objects
                       (mkState (Heap.store_at target (assign o p copy) h') st'))
                    target = Some (assign o p copy)).
    { cbn [objects]. apply HeapFacts.nth_error_store_at_eq.
      rewrite Hext, length_app. lia. }
    assert (Hp' : guarded_property (assign o p copy) key = Some p).
    { unfold guarded_property in Hp |- *.
      destruct o as [elements named|fields]; [|exact Hp].
      destruct (parse_decimal key) as [n|]; [|discriminate].
      destruct (List.length elements <? n) eqn:E; [discriminate|].
      injection Hp as <-. cbn [assign].
      apply Nat.ltb_ge in E.
      replace (List.length (Heap.put_index (Z.to_nat (Z.of_nat n)) copy
                              elements) <? n) with false; [reflexivity|].
      symmetry. apply Nat.ltb_ge. rewrite Nat2Z.id.
      clear - E. revert n E. induction elements as [|x r IH]; intros n E.
      - simpl in *. lia.
      - destruct n; simpl in *; [lia|]. specialize (IH n). lia. }
    rewrite (@get_guarded schema target _ key p _ Ho' Hp'). unfold guarded_read.
    rewrite (resolve_schema p _ Hschema), runtime_type_of_assign, Hps.
    rewrite (@read_own_assign o key p copy Hp). reflexivity.
  - intros Hv. unfold Heap.clone in Hclone.
    destruct v as [| | b | n | s | r];
      try (cbn in Hclone; injection Hclone as _ _ <-; reflexivity).
    exfalso. apply (Hv r). reflexivity.
  - intros c Hc. pose proof (@HeapFacts.clone_deep_copy _ _ _ _ _ Hclone) as D.
    unfold HeapFacts.deep_copy in D. destruct content as [c'|].
    + destruct D as (Hv & ext' & -> & _ & Hview).
      rewrite Hv in Hc. injection Hc as <-. cbn [objects].
      rewrite HeapFacts.store_at_app by exact Ht.
      apply Hview; [apply HeapFacts.store_at_length | lia].
    + destruct D as (-> & _ & _). discriminate Hc.
Qed.

Lemma committed_write_reads_back_witness :
  let schema :=
    VObj [("type", VStr "object");
          ("properties",
           VObj [("a", VObj [("type", VStr "array");
                             ("items", VObj [("type", VStr "number")])])])] in
  let w := mkState [Heap.Object []; Heap.Array [Heap.SNum 1] []] [] in
  nth_error (objects w) 0 = Some (Heap.Object [])
  /\ guarded_property (Heap.Object []) "a" = Some (PName "a")
  /\ "a" <> "__proto__"
  /\ exists w',
       set no_patterns nothing_converts schema 0 "a" (Heap.SRef 1) w
       = (Ok true, w')
       /\ exists ps copy,
            JsonSchemaProxyHandler_get schema 0 "a" w' = Ok (wrap copy ps)
            /\ Heap.view (objects w') 2 copy = Some (VArr [VNum 1]).
Proof.
  intros schema w.
  assert (Hkey : "a" <> "__proto__") by discriminate.
  split; [reflexivity|]. split; [reflexivity|]. split; [exact Hkey|].
  eexists. split; [reflexivity|].
  destruct (@committed_write_reads_back no_patterns nothing_converts schema
              0 (Heap.Object []) "a" (PName "a") (Heap.SRef 1) w _
              eq_refl eq_refl Hkey eq_refl)
    as (ps & copy & _ & Hget & _ & Hview).
  exists ps, copy. split; [exact Hget|].
  apply (Hview (VArr [VNum 1])). reflexivity.
Defined.

Lemma put_index_splits (l : list Heap.slot) : forall i v,
  i <= List.length l ->
  Heap.put_index i v l = firstn i l ++ v :: skipn (S i) l.
Proof.
  induction l as [|x r IH]; intros i v Hi.
  - simpl in Hi. assert (i = 0) by lia. subst i. reflexivity.
  - destruct i; [reflexivity|]. simpl in Hi.
    cbn [Heap.put_index firstn skipn app]. f_equal. apply IH. lia.
Qed.

(** Writing an element through the view.  For an array target and a key
    of decimal digits that denotes [n]: beyond the length the write throws
    "Array index out of range" and changes nothing; a write that succeeds
    has [n] at most the length, replaces element [n] when there is one and
    appends one element when [n] is the length (the array never gets a
    hole), and leaves the named properties of the array and every other
    object as they were. *)
Theorem element_write_replaces_or_appends
  (RegExp : string -> string -> string + (string -> bool))
  (ToNumber_other : Heap.heap -> Heap.slot -> option Z)
  (schema : value) (target : Heap.ref)
  (elements : list Heap.slot) (named : list (string * Heap.slot))
  (key : string) (n : nat) (v : Heap.slot) (w : state) :
  nth_error (objects w) target = Some (Heap.Array elements named) ->
  parse_decimal key = Some n ->
  (List.length elements < n ->
   set RegExp ToNumber_other schema target key v w
   = (Throw (Error "Array index out of range"), w))
  /\ (forall w',
        set RegExp ToNumber_other schema target key v w = (Ok true, w') ->
        n <= List.length elements
        /\ (exists copy,
              nth_error (objects w') target
              = Some (Heap.Array
                        (firstn n elements ++ copy :: skipn (S n) elements)
                        named))
        /\ (forall r,
              r < List.length (objects w) -> r <> target ->
              nth_error (objects w') r = nth_error (objects w) r)).
Proof.
  intros Ho Hk. split.
  - intros Hn. unfold set. rewrite Ho, Hk.
    replace (List.length elements <? n) with true; [reflexivity|].
    symmetry. apply Nat.ltb_lt. exact Hn.
  - intros w' Hset.
    assert (Hn : n <= List.length elements).
    { unfold set in Hset. rewrite Ho, Hk in Hset.
      destruct (List.length elements <? n) eqn:E; [discriminate|].
      apply Nat.ltb_ge in E. exact E. }
    assert (Hp : guarded_property (Heap.Array elements named) key
                 = Some (PNumber (Z.of_nat n))).
    { unfold guarded_property. rewrite Hk.
      replace (List.length elements <? n) with false; [reflexivity|].
      symmetry. apply Nat.ltb_ge. exact Hn. }
    destruct (@set_commits RegExp ToNumber_other schema target _ key _ v w w'
                Ho Hp Hset)
      as (ps & content & h' & copy & st' & _ & _ & Hclone & _ & ->).
    destruct (@clone_extends _ _ _ _ _ Hclone) as [ext ->].
    assert (Ht : target < List.length (objects w))
      by (apply nth_error_Some; congruence).
    split; [exact Hn|]. split.
    + exists copy. cbn [objects assign].
      rewrite HeapFacts.nth_error_store_at_eq by (rewrite length_app; lia).
      rewrite Nat2Z.id, put_index_splits by exact Hn. reflexivity.
    + intros r Hr Hne. cbn [objects].
      rewrite HeapFacts.nth_error_store_at_ne by (apply not_eq_sym; exact Hne).
      apply nth_error_app1. exact Hr.
Qed.

Lemma element_write_replaces_or_appends_witness :
  let schema := VObj [("type", VStr "array");
                      ("items", VObj [("type", VStr "number")])] in
  let w := mkState [Heap.Array [Heap.SNum 1] []] [] in
  nth_error (objects w) 0 = Some (Heap.Array [Heap.SNum 1] [])
  /\ parse_decimal "1" = Some 1
  /\ exists w',
       set no_patterns nothing_converts schema 0 "1" (Heap.SNum 2) w
       = (Ok true, w')
       /\ exists copy,
            nth_error (objects w') 0
            = Some (Heap.Array [Heap.SNum 1; copy] []).
Proof.
  intros schema w. split; [reflexivity|]. split; [reflexivity|].
  eexists. split; [reflexivity|].
  exact (proj1 (proj2 (proj2 (@element_write_replaces_or_appends no_patterns
                                 nothing_converts schema 0 [Heap.SNum 1] []
                                 "1" 1 (Heap.SNum 2) w eq_refl eq_refl)
                         _ eq_refl))).
Defined.

(** ** Deleting through the view *)

Lemma includes_In required property :
  includes required property = true <-> In (VStr property) required.
Proof.
  unfold includes. rewrite existsb_exists. split.
  - intros (e & He & E). destruct e as [| | |s| |]; try discriminate.
    simpl in E. apply String.eqb_eq in E. subst s. exact He.
  - intros H. exists (VStr property). split; [exact H|].
    simpl. apply String.eqb_refl.
Qed.

Lemma heap_lookup_remove_eq k (fs : list (string * Heap.slot)) :
  Heap.lookup k (Heap.remove k fs) = None.
Proof.
  induction fs as [|[k' x] r IH]; simpl; [reflexivity|].
  destruct (String.eqb k k') eqn:E; simpl; [|rewrite E]; exact IH.
Qed.

Lemma heap_lookup_remove_ne k k' (fs : list (string * Heap.slot)) :
  k <> k' -> Heap.lookup k' (Heap.remove k fs) = Heap.lookup k' fs.
Proof.
  intros Hne. induction fs as [|[k0 x] r IH]; simpl; [reflexivity|].
  destruct (String.eqb k k0) eqn:E; simpl.
  - apply String.eqb_eq in E. subst k0.
    apply not_eq_sym in Hne. apply String.eqb_neq in Hne. rewrite Hne.
    exact IH.
  - rewrite IH. reflexivity.
Qed.

(** [deleteProperty] on a target that is no array.  Under a [null]
    schema the call throws a TypeError.  Under any other schema, a property
    that [schema.required] lists (as a string) cannot be deleted: the call
    throws "<property> cannot be deleted" and changes nothing.  Every
    other property is deleted without looking at the schema any further
    and without validating what is left: the call reports success, the
    target no longer owns the property (reading a property other than
    [__proto__] through the view then gives [undefined] or what the
    prototype holds), every other property of the target keeps its value,
    and no other object is touched. *)
Theorem delete_removes_what_is_not_required
  (schema : value) (target : Heap.ref) (fields : list (string * Heap.slot))
  (property : string) (w : state) :
  nth_error (objects w) target = Some (Heap.Object fields) ->
  (schema = VNull ->
   exists message,
     deleteProperty schema target property w = (Throw (TypeError message), w))
  /\ (forall required,
        get schema "required" = Some (VArr required) ->
        In (VStr property) required ->
        deleteProperty schema target property w
        = (Throw (Error (property ++ " cannot be deleted")), w))
  /\ (schema <> VNull ->
      (forall required,
         get schema "required" = Some (VArr required) ->
         ~ In (VStr property) required) ->
      exists w',
        deleteProperty schema target property w = (Ok true, w')
        /\ infos w' = infos w
        /\ nth_error (objects w') target
           = Some (Heap.Object (Heap.remove property fields))
        /\ Heap.lookup property (Heap.remove property fields) = None
        /\ (forall k, k <> property ->
                      Heap.lookup k (Heap.remove property fields)
                      = Heap.lookup k fields)
        /\ (forall r, r <> target ->
                      nth_error (objects w') r = nth_error (objects w) r)
        /\ (property <> "__proto__" ->
            JsonSchemaProxyHandler_get schema target property w'
            = Ok (Plain Heap.SUndefined)
            \/ exists ps,
                 JsonSchemaProxyHandler_get schema target property w'
                 = Ok (FromPrototype property ps))).
Proof.
  intros Ho.
  assert (Ht : target < List.length (objects w))
    by (apply nth_error_Some; congruence).
  split; [|split].
  - intros ->. eexists. unfold deleteProperty. rewrite Ho. reflexivity.
  - intros required Hr Hin. unfold deleteProperty. rewrite Ho.
    destruct schema; try discriminate Hr. cbn [get] in Hr |- *. rewrite Hr.
    apply includes_In in Hin. rewrite Hin. reflexivity.
  - intros Hschema Hnot.
    exists (mkState
              (Heap.store_at target (Heap.Object (Heap.remove property fields))
                 (objects w)) (infos w)).
    assert (Ho' : nth_error
                    (Heap.store_at target
                       (Heap.Object (Heap.remove property fields)) (objects w))
                    target
                  = Some (Heap.Object (Heap.remove property fields)))
      by (apply HeapFacts.nth_error_store_at_eq; exact Ht).
    split; [|split; [reflexivity|split; [exact Ho'|split; [|split; [|split]]]]].
    + unfold deleteProperty. rewrite Ho.
      destruct schema as [| b | n | s | l | fs]; try reflexivity;
        [congruence|].
      destruct (get (VObj fs) "required") as [[| | | |required|]|] eqn:Hr;
        try reflexivity.
      destruct (includes required property) eqn:I; [|reflexivity].
      apply includes_In in I. exfalso. apply (Hnot required eq_refl I).
    + apply heap_lookup_remove_eq.
    + intros k Hk. apply heap_lookup_remove_ne. apply not_eq_sym. exact Hk.
    + intros r Hr. cbn [objects].
      apply HeapFacts.nth_error_store_at_ne. apply not_eq_sym. exact Hr.
    + intros _. unfold JsonSchemaProxyHandler_get. cbn [objects]. rewrite Ho'.
      unfold guarded_read. rewrite (resolve_schema _ _ Hschema).
      cbn [read_own property_key].
      rewrite heap_lookup_remove_eq.
      destruct (getPropertySchema schema (PName property) _) as [ps|]; eauto.
Qed.

Lemma delete_removes_what_is_not_required_witness :
  let schema := VObj [("type", VStr "object"); ("required", VArr [VStr "a"])] in
  let w := mkState [Heap.Object [("a", Heap.SNum 5); ("b", Heap.SNum 6)]] [] in
  nth_error (objects w) 0
  = Some (Heap.Object [("a", Heap.SNum 5); ("b", Heap.SNum 6)])
  /\ deleteProperty schema 0 "a" w = (Throw (Error "a cannot be deleted"), w).
Proof.
  intros schema w. split; [reflexivity|].
  apply (proj1 (proj2 (@delete_removes_what_is_not_required schema 0
                  [("a", Heap.SNum 5); ("b", Heap.SNum 6)] "a" w eq_refl))
           [VStr "a"] eq_refl).
  left. reflexivity.
Defined.

(* ===================================================================== *)
(** * The trails during validation *)
(* ===================================================================== *)

(** The engine pops what it pushed, or less, never more: relative to the
    store a call starts from, the trails of its traversal info only get
    longer, and no other traversal info is touched.  The assertions count
    the entries a trail has at least gained. *)
Section TrailDiscipline.

Variable i : loc.

Definition longer_by (n : nat) (old new : trail) : Prop :=
  exists x, new = old ++ x /\ n <= List.length x.

(** [st] is [st0] with the trails of [i] longer by [cv] and [cs] entries
    at least. *)
Definition above (st0 : store) (cv cs : nat) (st : store) : Prop :=
  List.length st = List.length st0
  /\ (forall j, j <> i -> nth_error st j = nth_error st0 j)
  /\ (forall info0,
        nth_error st0 i = Some info0 ->
        exists info,
          nth_error st i = Some info
          /\ longer_by cv (valuePath info0) (valuePath info)
          /\ longer_by cs (schemaPath info0) (schemaPath info)).

(** From a store above the base by [cv], [cs], the computation returns in
    a store above it by [cv'], [cs'], and throws in a store above it. *)
Definition hoare {A} (cv cs : nat) (m : M A) (cv' cs' : nat) : Prop :=
  forall st0 st,
    above st0 cv cs st ->
    match m st with
    | (Ok _, st') => above st0 cv' cs' st'
    | (_, st') => above st0 0 0 st'
    end.

(** Whatever the outcome, the trails have only grown. *)
Definition grows {A} (m : M A) : Prop :=
  forall st, above st 0 0 (snd (m st)).

Lemma longer_by_weaken n n' old new :
  longer_by n old new -> n' <= n -> longer_by n' old new.
Proof. intros (x & -> & H) Hn. exists x. split; [reflexivity | lia]. Qed.

Lemma longer_by_refl l : longer_by 0 l l.
Proof. exists []. rewrite app_nil_r. split; [reflexivity | simpl; lia]. Qed.

Lemma longer_by_trans n old mid new :
  longer_by n old mid -> longer_by 0 mid new -> longer_by n old new.
Proof.
  intros (x & -> & Hx) (y & -> & _). exists (x ++ y).
  rewrite app_assoc, length_app. split; [reflexivity | lia].
Qed.

Lemma above_weaken st0 cv cs cv' cs' st :
  above st0 cv cs st -> cv' <= cv -> cs' <= cs -> above st0 cv' cs' st.
Proof.
  intros (Hl & Ho & Hi) Hv Hs. split; [exact Hl|]. split; [exact Ho|].
  intros info0 H0. destruct (Hi info0 H0) as (info & Hn & Hvp & Hsp).
  exists info. split; [exact Hn|].
  split; eapply longer_by_weaken; eassumption.
Qed.

Lemma above_refl st : above st 0 0 st.
Proof.
  split; [reflexivity|]. split; [reflexivity|].
  intros info0 H0. exists info0. split; [exact H0|].
  split; apply longer_by_refl.
Qed.

Lemma above_trans st0 cv cs st st' :
  above st0 cv cs st -> above st 0 0 st' -> above st0 cv cs st'.
Proof.
  intros (Hl & Ho & Hi) (Hl' & Ho' & Hi'). split; [congruence|]. split.
  - intros j Hj. rewrite Ho' by exact Hj. apply Ho. exact Hj.
  - intros info0 H0. destruct (Hi info0 H0) as (info & Hn & Hvp & Hsp).
    destruct (Hi' info Hn) as (info' & Hn' & Hvp' & Hsp').
    exists info'. split; [exact Hn'|].
    split; eapply longer_by_trans; eassumption.
Qed.

Lemma length_update f : forall j (st : store),
  List.length (update j f st) = List.length st.
Proof.
  intros j st. revert j. induction st as [|x r IH]; intros j;
    [destruct j; reflexivity|].
  destruct j; simpl; [reflexivity | rewrite IH; reflexivity].
Qed.

Lemma nth_error_update_ne f : forall j k (st : store),
  k <> j -> nth_error (update j f st) k = nth_error st k.
Proof.
  intros j k st. revert j k. induction st as [|x r IH]; intros j k Hne.
  - destruct j; reflexivity.
  - destruct j, k; simpl; try reflexivity; [congruence|]. apply IH. congruence.
Qed.

Lemma nth_error_update_eq f : forall j (st : store),
  nth_error (update j f st) j = option_map f (nth_error st j).
Proof.
  intros j st. revert j. induction st as [|x r IH]; intros j.
  - destruct j; reflexivity.
  - destruct j; simpl; [reflexivity | apply IH].
Qed.

Lemma hoare_weaken {A} (m : M A) cv cs cv' cs' cv1 cs1 cv1' cs1' :
  hoare cv cs m cv' cs' ->
  cv <= cv1 -> cs <= cs1 -> cv1' <= cv' -> cs1' <= cs' ->
  hoare cv1 cs1 m cv1' cs1'.
Proof.
  intros H Hv Hs Hv' Hs' st0 st Ha.
  specialize (H st0 st (above_weaken Ha Hv Hs)).
  destruct (m st) as [[a|e|] st']; [|exact H|exact H].
  eapply above_weaken; eassumption.
Qed.

Lemma hoare_ret {A} (a : A) cv cs : hoare cv cs (ret a) cv cs.
Proof. intros st0 st H. exact H. Qed.

Lemma hoare_validation_error {A} keep message v schema cv cs cv' cs' :
  hoare cv cs (@validation_error keep A message v schema i) cv' cs'.
Proof.
  intros st0 st H. simpl. apply (above_weaken H); lia.
Qed.

Lemma hoare_throw {A} e cv cs cv' cs' : hoare cv cs (@throw A e) cv' cs'.
Proof. intros st0 st H. simpl. apply (above_weaken H); lia. Qed.

Lemma hoare_fail_if keep cond message v schema cv cs :
  hoare cv cs (fail_if keep cond message v schema i) cv cs.
Proof.
  unfold fail_if. destruct cond;
    [apply hoare_validation_error | apply hoare_ret].
Qed.

Lemma hoare_bind {A B} (m : M A) (k : A -> M B) cv cs cv1 cs1 cv' cs' :
  hoare cv cs m cv1 cs1 ->
  (forall a, hoare cv1 cs1 (k a) cv' cs') ->
  hoare cv cs (bind m k) cv' cs'.
Proof.
  intros Hm Hk st0 st H. specialize (Hm st0 st H). unfold bind.
  destruct (m st) as [[a|e|] st1]; [|exact Hm|exact Hm].
  apply (Hk a st0 st1 Hm).
Qed.

Lemma hoare_frame {A} (m : M A) cv cs : grows m -> hoare cv cs m cv cs.
Proof.
  intros G st0 st H. specialize (G st).
  destruct (m st) as [[a|e|] st']; simpl in G.
  - eapply above_trans; eassumption.
  - apply above_weaken with (cv := cv) (cs := cs); [|lia|lia].
    eapply above_trans; eassumption.
  - apply above_weaken with (cv := cv) (cs := cs); [|lia|lia].
    eapply above_trans; eassumption.
Qed.

(** A handler that absorbs what a growing computation throws keeps the
    entries gained before the [try]. *)
Lemma hoare_attempt {A} (m : M A) cv cs :
  grows m -> hoare cv cs (attempt m) cv cs.
Proof.
  intros G st0 st H. specialize (G st). unfold attempt.
  destruct (m st) as [[a|e|] st']; simpl in G.
  - eapply above_trans; eassumption.
  - eapply above_trans; eassumption.
  - apply above_weaken with (cv := cv) (cs := cs); [|lia|lia].
    eapply above_trans; eassumption.
Qed.

Lemma grows_of_hoare {A} (m : M A) : hoare 0 0 m 0 0 -> grows m.
Proof.
  intros H st. specialize (H st st (above_refl st)).
  destruct (m st) as [[a|e|] st']; exact H.
Qed.

Lemma above_update st0 cv cs cv' cs' st f :
  above st0 cv cs st ->
  (forall info0 info,
     longer_by cv (valuePath info0) (valuePath info) ->
     longer_by cs (schemaPath info0) (schemaPath info) ->
     longer_by cv' (valuePath info0) (valuePath (f info))
     /\ longer_by cs' (schemaPath info0) (schemaPath (f info))) ->
  above st0 cv' cs' (update i f st).
Proof.
  intros (Hl & Ho & Hi) Hf. split; [rewrite length_update; exact Hl|]. split.
  - intros j Hj. rewrite nth_error_update_ne by exact Hj. apply Ho, Hj.
  - intros info0 H0. destruct (Hi info0 H0) as (info & Hn & Hvp & Hsp).
    exists (f info). rewrite nth_error_update_eq, Hn.
    split; [reflexivity|]. apply Hf; assumption.
Qed.

Lemma longer_by_push n old new e :
  longer_by n old new -> longer_by (S n) old (new ++ [e]).
Proof.
  intros (x & -> & H). exists (x ++ [e]).
  rewrite app_assoc, length_app. split; [reflexivity | simpl; lia].
Qed.

Lemma longer_by_pop n old new :
  longer_by (S n) old new -> longer_by n old (removelast new).
Proof.
  intros (x & -> & H). exists (removelast x).
  assert (Hx : x <> []) by (intros ->; simpl in H; lia).
  split; [apply removelast_app; exact Hx|].
  pose proof (app_removelast_last (KNull, None) Hx) as E.
  apply (f_equal (@List.length _)) in E. rewrite length_app in E.
  simpl in E. lia.
Qed.

Lemma hoare_valuePush path v cv cs :
  hoare cv cs (valuePush i path v) (S cv) cs.
Proof.
  intros st0 st H. simpl. eapply above_update; [exact H|]. intros info0 info Hv Hs.
  simpl. split; [apply longer_by_push; exact Hv | exact Hs].
Qed.

Lemma hoare_valuePop cv cs : hoare (S cv) cs (valuePop i) cv cs.
Proof.
  intros st0 st H. simpl. eapply above_update; [exact H|]. intros info0 info Hv Hs.
  simpl. split; [apply longer_by_pop; exact Hv | exact Hs].
Qed.

Lemma hoare_schemaPush path s cv cs :
  hoare cv cs (schemaPush i path s) cv (S cs).
Proof.
  intros st0 st H. simpl. eapply above_update; [exact H|]. intros info0 info Hv Hs.
  simpl. split; [exact Hv | apply longer_by_push; exact Hs].
Qed.

Lemma hoare_schemaPop cv cs : hoare cv (S cs) (schemaPop i) cv cs.
Proof.
  intros st0 st H. simpl. eapply above_update; [exact H|]. intros info0 info Hv Hs.
  simpl. split; [exact Hv | apply longer_by_pop; exact Hs].
Qed.

Lemma hoare_push_all steps : forall cv cs,
  hoare cv cs (push_all i steps) cv (List.length steps + cs).
Proof.
  induction steps as [|[p s] r IH]; intros cv cs; [apply hoare_ret|].
  cbn [push_all List.length].
  eapply hoare_bind; [apply hoare_schemaPush|]. intros _.
  eapply hoare_weaken; [apply (IH cv (S cs)) | lia..].
Qed.

Lemma hoare_pop_n n : forall cv cs, hoare cv (n + cs) (pop_n i n) cv cs.
Proof.
  induction n as [|n IH]; intros cv cs; [apply hoare_ret|].
  cbn [pop_n]. eapply hoare_bind; [|intros _; apply IH].
  eapply hoare_weaken with (cv := cv) (cs := S (n + cs));
    [apply hoare_schemaPop | lia..].
Qed.

End TrailDiscipline.

Section EngineGrows.

Variable i : loc.
Variable keep : loc -> store -> path_info.
Variable RegExp : string -> string -> string + (string -> bool).

Lemma hoare_ret_weak {A} (a : A) cv cs cv' cs' :
  cv' <= cv -> cs' <= cs -> hoare i cv cs (ret a) cv' cs'.
Proof.
  intros Hv Hs. apply hoare_weaken with (cv := cv) (cs := cs) (cv' := cv)
                        (cs' := cs); [apply hoare_ret | lia..].
Qed.

(** One step of a chain of checks that push and pop nothing. *)
Ltac hoare_check :=
  repeat match goal with
         | |- hoare _ _ _ (match ?x with _ => _ end) _ _ => destruct x
         end;
  first [ apply hoare_fail_if | apply hoare_ret
        | apply hoare_validation_error ].

Lemma grows_validateNumber n schema :
  grows i (_validateNumber keep n schema i).
Proof.
  apply grows_of_hoare. unfold _validateNumber.
  repeat (eapply hoare_bind; [hoare_check | intros _]). hoare_check.
Qed.

Lemma grows_validateString s schema :
  grows i (_validateString keep RegExp s schema i).
Proof.
  apply grows_of_hoare. unfold _validateString.
  repeat (eapply hoare_bind; [hoare_check | intros _]). hoare_check.
Qed.

Lemma grows_required_loop properties v schema required :
  grows i (required_loop keep properties v schema i required).
Proof.
  apply grows_of_hoare. induction required as [|e r IH]; [apply hoare_ret|].
  cbn [required_loop]. eapply hoare_bind; [apply hoare_fail_if | intros _].
  exact IH.
Qed.

Section Clauses.

Variable rec : option value -> value -> loc -> M unit.
Hypothesis Hrec : forall v s, grows i (rec v s i).

Lemma grows_validateConditional v schema :
  grows i (_validateConditional rec v schema i).
Proof.
  apply grows_of_hoare. unfold _validateConditional.
  destruct (get schema "if") as [[| | | | |ifFields]|]; try apply hoare_ret.
  eapply hoare_bind; [apply hoare_schemaPush | intros _].
  eapply hoare_bind; [apply hoare_attempt, Hrec | intros okay].
  eapply hoare_bind; [apply hoare_schemaPop | intros _].
  destruct (if okay then get schema "then" else get schema "else")
    as [[| | | | |nextFields]|]; try apply hoare_ret.
  eapply hoare_bind; [apply hoare_schemaPush | intros _].
  eapply hoare_bind; [apply hoare_frame, Hrec | intros _].
  apply hoare_schemaPop.
Qed.

Lemma grows_allOf_loop v subSchemas : forall idx,
  grows i (allOf_loop rec v i idx subSchemas).
Proof.
  induction subSchemas as [|m r IH]; intros idx; apply grows_of_hoare;
    [apply hoare_ret|].
  cbn [allOf_loop].
  eapply hoare_bind; [apply hoare_schemaPush | intros _].
  eapply hoare_bind; [apply hoare_frame, Hrec | intros _].
  eapply hoare_bind; [apply hoare_schemaPop | intros _].
  apply hoare_frame, IH.
Qed.

Lemma grows_validateAllOf v schema :
  grows i (_validateAllOf rec v schema i).
Proof.
  apply grows_of_hoare. unfold _validateAllOf.
  destruct (get schema "allOf") as [[| | | |subSchemas|]|];
    try apply hoare_ret.
  eapply hoare_bind; [apply hoare_schemaPush | intros _].
  eapply hoare_bind; [apply hoare_frame, grows_allOf_loop | intros _].
  apply hoare_schemaPop.
Qed.

Lemma grows_anyOf_loop v subSchemas : forall idx,
  grows i (anyOf_loop rec v i idx subSchemas).
Proof.
  induction subSchemas as [|m r IH]; intros idx; apply grows_of_hoare;
    [apply hoare_ret|].
  cbn [anyOf_loop].
  eapply hoare_bind; [apply hoare_schemaPush | intros _].
  eapply hoare_bind; [apply hoare_attempt, Hrec | intros okay].
  destruct okay; [apply hoare_ret_weak; lia|].
  eapply hoare_bind; [apply hoare_schemaPop | intros _].
  apply hoare_frame, IH.
Qed.

Lemma grows_validateAnyOf v schema :
  grows i (_validateAnyOf keep rec v schema i).
Proof.
  apply grows_of_hoare. unfold _validateAnyOf.
  destruct (get schema "anyOf") as [[| | | |subSchemas|]|];
    try apply hoare_ret.
  eapply hoare_bind; [apply hoare_schemaPush | intros _].
  eapply hoare_bind; [apply hoare_frame, grows_anyOf_loop | intros returned].
  destruct returned;
    [apply hoare_ret_weak; lia | apply hoare_validation_error].
Qed.

Lemma grows_oneOf_loop v subSchemas : forall idx count,
  grows i (oneOf_loop rec v i idx count subSchemas).
Proof.
  induction subSchemas as [|m r IH]; intros idx count; apply grows_of_hoare;
    [apply hoare_ret|].
  cbn [oneOf_loop].
  eapply hoare_bind; [apply hoare_schemaPush | intros _].
  eapply hoare_bind; [apply hoare_attempt, Hrec | intros okay].
  eapply hoare_bind; [apply hoare_schemaPop | intros _].
  apply hoare_frame, IH.
Qed.

Lemma grows_validateOneOf v schema :
  grows i (_validateOneOf keep rec v schema i).
Proof.
  apply grows_of_hoare. unfold _validateOneOf.
  destruct (get schema "oneOf") as [[| | | |subSchemas|]|];
    try apply hoare_ret.
  eapply hoare_bind; [apply hoare_schemaPush | intros _].
  eapply hoare_bind; [apply hoare_frame, grows_oneOf_loop | intros count].
  eapply hoare_bind; [|intros _; apply hoare_schemaPop].
  destruct (Nat.eqb count 1);
    [apply hoare_ret | apply hoare_validation_error].
Qed.

Lemma grows_noneOf_loop v schema subSchemas : forall idx,
  grows i (noneOf_loop keep rec v schema i idx subSchemas).
Proof.
  induction subSchemas as [|m r IH]; intros idx; apply grows_of_hoare;
    [apply hoare_ret|].
  cbn [noneOf_loop].
  eapply hoare_bind; [apply hoare_schemaPush | intros _].
  eapply hoare_bind; [apply hoare_attempt, Hrec | intros okay].
  destruct okay; [apply hoare_validation_error|].
  eapply hoare_bind; [apply hoare_schemaPop | intros _].
  apply hoare_frame, IH.
Qed.

Lemma grows_validateNoneOf v schema :
  grows i (_validateNoneOf keep rec v schema i).
Proof.
  apply grows_of_hoare. unfold _validateNoneOf.
  destruct (get schema "not") as [[| | | |subSchemas|]|];
    try apply hoare_ret.
  eapply hoare_bind; [apply hoare_schemaPush | intros _].
  eapply hoare_bind; [apply hoare_frame, grows_noneOf_loop | intros _].
  apply hoare_schemaPop.
Qed.

(** The loop of [contains] pops, when an element matches, the entry its
    caller pushed for the [contains] schema: it starts one schema entry
    above the base. *)
Lemma hoare_contains_loop containsSchema elements : forall idx,
  hoare i 0 1 (contains_loop rec containsSchema i idx elements) 0 0.
Proof.
  induction elements as [|x r IH]; intros idx;
    [apply hoare_ret_weak; lia|].
  cbn [contains_loop].
  eapply hoare_bind; [apply hoare_valuePush | intros _].
  eapply hoare_bind; [apply hoare_attempt, Hrec | intros okay].
  destruct okay.
  - eapply hoare_bind; [apply hoare_schemaPop | intros _].
    apply hoare_ret_weak; lia.
  - eapply hoare_bind; [apply hoare_valuePop | intros _]. apply IH.
Qed.

Lemma grows_validateArrayContains elements schema :
  grows i (_validateArrayContains keep rec elements schema i).
Proof.
  apply grows_of_hoare. unfold _validateArrayContains.
  destruct (get schema "contains") as [[| | | | |containsFields]|];
    try apply hoare_ret.
  eapply hoare_bind; [apply hoare_schemaPush | intros _].
  eapply hoare_bind; [apply hoare_contains_loop | intros returned].
  destruct returned; [apply hoare_ret | apply hoare_validation_error].
Qed.

Lemma grows_array_loop whole schema elements : forall idx,
  grows i (array_loop keep rec whole schema i idx elements).
Proof.
  induction elements as [|x r IH]; intros idx; apply grows_of_hoare;
    [apply hoare_ret|].
  cbn [array_loop].
  destruct (_getPropertySchema schema _ _) as [[ps steps]|];
    [|apply hoare_validation_error].
  eapply hoare_bind; [apply hoare_push_all | intros _].
  eapply hoare_bind; [apply hoare_valuePush | intros _].
  eapply hoare_bind; [apply hoare_frame, Hrec | intros _].
  eapply hoare_bind; [apply hoare_valuePop | intros _].
  eapply hoare_bind; [apply hoare_pop_n | intros _].
  apply hoare_frame, IH.
Qed.

Lemma grows_validateArray elements schema :
  grows i (_validateArray keep rec elements schema i).
Proof.
  apply grows_of_hoare. unfold _validateArray.
  eapply hoare_bind; [hoare_check | intros _].
  eapply hoare_bind; [hoare_check | intros _].
  eapply hoare_bind;
    [apply hoare_frame, grows_validateArrayContains | intros _].
  apply hoare_frame, grows_array_loop.
Qed.

Lemma grows_object_loop fields schema properties :
  grows i (object_loop keep rec fields schema i properties).
Proof.
  induction properties as [|k r IH]; apply grows_of_hoare;
    [apply hoare_ret|].
  cbn [object_loop].
  destruct (_getPropertySchema schema _ _) as [[ps steps]|];
    [|apply hoare_validation_error].
  eapply hoare_bind; [apply hoare_push_all | intros _].
  eapply hoare_bind; [apply hoare_valuePush | intros _].
  eapply hoare_bind; [apply hoare_frame, Hrec | intros _].
  eapply hoare_bind; [apply hoare_valuePop | intros _].
  eapply hoare_bind; [apply hoare_pop_n | intros _].
  apply hoare_frame, IH.
Qed.

Lemma grows_validateObject fields schema :
  grows i (_validateObject keep rec fields schema i).
Proof.
  apply grows_of_hoare. unfold _validateObject.
  eapply hoare_bind.
  { destruct (get schema "required") as [[| | | |required|]|];
      try apply hoare_ret.
    apply hoare_frame, grows_required_loop. }
  intros _.
  eapply hoare_bind; [hoare_check | intros _].
  eapply hoare_bind; [hoare_check | intros _].
  apply hoare_frame, grows_object_loop.
Qed.

Lemma grows_validateSingleSchema v schema :
  grows i (_validateSingleSchema keep RegExp rec v schema i).
Proof.
  apply grows_of_hoare. unfold _validateSingleSchema.
  assert (H : hoare i 0 0
    (fail_if keep
       (negb (_isValueTypeAny v (_getValueType v) (get schema "type")))
       ("Value type " ++ _getValueType v ++ " does not match schema type "
          ++ js_to_string_opt (get schema "type")) v schema i ;;
     match get schema "const" with
     | Some schemaConst =>
         fail_if keep (negb (_valuesAreEqual v (Some schemaConst)))
           "Invalid constant value" v schema i
     | None => ret tt
     end ;;
     match get schema "enum" with
     | Some (VArr schemaEnum) =>
         fail_if keep (negb (_valuesAreEqualAny v schemaEnum))
           "Invalid enum value" v schema i
     | _ => ret tt
     end ;;
     match v with
     | Some (VNum n) => _validateNumber keep n schema i
     | Some (VStr s) => _validateString keep RegExp s schema i
     | Some (VArr elements) => _validateArray keep rec elements schema i
     | Some (VObj fields) => _validateObject keep rec fields schema i
     | _ => ret tt
     end)%engine 0 0).
  { eapply hoare_bind; [apply hoare_fail_if | intros _].
    eapply hoare_bind; [hoare_check | intros _].
    eapply hoare_bind; [hoare_check | intros _].
    destruct v as [[| | n | s | elements | fields]|];
      try apply hoare_ret; apply hoare_frame.
    - apply grows_validateNumber.
    - apply grows_validateString.
    - apply grows_validateArray.
    - apply grows_validateObject. }
  destruct schema; try exact H. apply hoare_throw.
Qed.

Lemma grows_validate_body v schema :
  grows i (validate_body keep RegExp rec v schema i).
Proof.
  apply grows_of_hoare. unfold validate_body.
  eapply hoare_bind; [apply hoare_frame, grows_validateSingleSchema|intros _].
  eapply hoare_bind; [apply hoare_frame, grows_validateConditional|intros _].
  eapply hoare_bind; [apply hoare_frame, grows_validateAllOf|intros _].
  eapply hoare_bind; [apply hoare_frame, grows_validateAnyOf|intros _].
  eapply hoare_bind; [apply hoare_frame, grows_validateOneOf|intros _].
  apply hoare_frame, grows_validateNoneOf.
Qed.

End Clauses.

Lemma grows_validate n : forall v schema,
  grows i (_validate keep RegExp n v schema i).
Proof.
  induction n as [|n IH]; intros v schema.
  - intros st. apply above_refl.
  - cbn [_validate]. apply grows_validate_body. exact IH.
Qed.

End EngineGrows.

Lemma validate_root_entries keep RegExp v schema st :
  exists vp sp,
    nth_error (snd (validate keep RegExp v schema st)) (List.length st)
    = Some (mkInfo ((KNull, v) :: vp) ((KNull, Some schema) :: sp)).
Proof.
  rewrite validate_run.
  destruct (grows_validate (List.length st) keep RegExp (budget v schema)
              v schema (st ++ [new_info v schema])) as (_ & _ & Hi).
  destruct (Hi (new_info v schema)) as ([vp' sp'] & Hn' & Hv & Hs).
  { rewrite nth_error_app2 by lia. rewrite Nat.sub_diag. reflexivity. }
  destruct Hv as (vp & Hv & _). destruct Hs as (sp & Hs & _).
  simpl in Hv, Hs. subst vp' sp'. exists vp, sp. exact Hn'.
Qed.

(** The trails never lose what they held when a validation started: in a
    nested call and at top level, whether the call returns or throws, the
    trails of the traversal info in use are the trails at the start with
    entries added at the end (pops never outnumber pushes), so the root
    entries [(null, value)] and [(null, schema)] stay first; the store
    keeps its size and no other traversal info is changed. *)
Theorem validation_only_extends_the_trails
  (keep : loc -> store -> path_info)
  (RegExp : string -> string -> string + (string -> bool))
  (v : option value) (schema : value) :
  (forall i st,
     List.length (snd (run keep RegExp v schema i st)) = List.length st
     /\ (forall j, j <> i ->
           nth_error (snd (run keep RegExp v schema i st)) j
           = nth_error st j)
     /\ (forall info,
           nth_error st i = Some info ->
           exists vp sp,
             nth_error (snd (run keep RegExp v schema i st)) i
             = Some (mkInfo (valuePath info ++ vp) (schemaPath info ++ sp))))
  /\ (forall st,
        List.length (snd (validate keep RegExp v schema st))
        = S (List.length st)
        /\ (forall j, j < List.length st ->
              nth_error (snd (validate keep RegExp v schema st)) j
              = nth_error st j)
        /\ exists vp sp,
             nth_error (snd (validate keep RegExp v schema st))
               (List.length st)
             = Some (mkInfo ((KNull, v) :: vp) ((KNull, Some schema) :: sp))).
Proof.
  assert (G : forall i st,
             above i st 0 0 (snd (run keep RegExp v schema i st)))
    by (intros i st; apply grows_validate).
  split.
  - intros i st. destruct (G i st) as (Hl & Ho & Hi).
    split; [exact Hl|]. split; [exact Ho|].
    intros info Hn. destruct (Hi info Hn) as ([vp' sp'] & Hn' & Hv & Hs).
    destruct Hv as (vp & Hv & _). destruct Hs as (sp & Hs & _).
    simpl in Hv, Hs. subst vp' sp'. exists vp, sp. exact Hn'.
  - intros st. rewrite validate_run.
    destruct (G (List.length st) (st ++ [new_info v schema]))
      as (Hl & Ho & Hi).
    split; [rewrite Hl, length_app; simpl; lia|]. split.
    + intros j Hj. rewrite Ho by lia. apply nth_error_app1. exact Hj.
    + rewrite <- validate_run. apply validate_root_entries.
Qed.

(* ===================================================================== *)
(** * The dictionary importer's use of the validator *)
(* ===================================================================== *)

(** [_getSchemaErrorPathString(infoList, base)] of the dictionary importer:
    a name is appended after a dot (no dot in front of the first
    character), an index in brackets, and the [null] key of a root entry
    adds nothing. *)
Definition _getSchemaErrorPathString (infoList : trail) (base : string)
  : string :=
  fold_left
    (fun result entry =>
       match fst entry with
       | KName part =>
           ((if String.eqb result "" then result else result ++ ".")
              ++ part)%string
       | KIndex part => (result ++ "[" ++ string_of_Z part ++ "]")%string
       | KNull => result
       end)
    infoList base.

(** The error [_formatSchemaError] builds: its message and its [data]. *)
Record formatted_error : Type := mkFormatted {
  formatted_message : string;
  formatted_data : exn
}.

(** [_formatSchemaError(e, fileName)], evaluated in the store [st]: it
    reads [e.info.valuePath], which throws a [TypeError] when [e] has no
    [info]. *)
Definition _formatSchemaError (e : exn) (st : store) (fileName : string)
  : formatted_error + exn :=
  match e with
  | JsonSchemaValidationError message _ _ _ =>
      match trails_of e st with
      | Some info =>
          let valuePathString :=
            _getSchemaErrorPathString (valuePath info) "dictionary" in
          let schemaPathString :=
            _getSchemaErrorPathString (schemaPath info) "schema" in
          inl (mkFormatted
                 ("Dictionary has invalid data in '" ++ fileName
                    ++ "' for value '" ++ valuePathString
                    ++ "', validated against '" ++ schemaPathString
                    ++ "': " ++ message)%string
                 e)
      | None => inr (TypeError "Cannot read properties of undefined")
      end
  | _ => inr (TypeError "Cannot read properties of undefined")
  end.

(** How a call of [_validateJsonSchema] ends. *)
Inductive checked : Type :=
| Accepted
| Rejected (e2 : formatted_error)
| Crashed (e : exn)
| Unfinished.

(** [_validateJsonSchema(value, schema, fileName)]. *)
Definition _validateJsonSchema
  (RegExp : string -> string -> string + (string -> bool))
  (v : option value) (schema : value) (fileName : string)
  : store -> checked * store :=
  fun st =>
    match validate reference RegExp v schema st with
    | (Ok _, st') => (Accepted, st')
    | (Throw e, st') =>
        (match _formatSchemaError e st' fileName with
         | inl e2 => Rejected e2
         | inr e' => Crashed e'
         end, st')
    | (OutOfFuel, st') => (Unfinished, st')
    end.

Lemma string_append_assoc (a b c : string) :
  ((a ++ b) ++ c = a ++ (b ++ c))%string.
Proof. induction a as [|x a IH]; simpl; [reflexivity | rewrite IH; reflexivity]. Qed.

Lemma string_append_nil_r (a : string) : (a ++ "" = a)%string.
Proof. induction a as [|x a IH]; simpl; [reflexivity | rewrite IH; reflexivity]. Qed.

(** The path string starts with its base, and a trail that starts with a
    root entry gives the same string without it. *)
Lemma _getSchemaErrorPathString_extends infoList : forall base,
  exists suffix,
    _getSchemaErrorPathString infoList base = (base ++ suffix)%string.
Proof.
  unfold _getSchemaErrorPathString.
  induction infoList as [|[k x] r IH]; intros base.
  - exists ""%string. simpl. symmetry. apply string_append_nil_r.
  - cbn [fold_left fst]. destruct k as [|s|n].
    + apply IH.
    + destruct (String.eqb base "") eqn:E.
      * destruct (IH (base ++ s)%string) as [suffix ->].
        exists (s ++ suffix)%string. apply string_append_assoc.
      * destruct (IH ((base ++ ".") ++ s)%string) as [suffix ->].
        exists ("." ++ s ++ suffix)%string.
        rewrite !string_append_assoc. reflexivity.
    + destruct (IH (base ++ "[" ++ string_of_Z n ++ "]")%string)
        as [suffix ->].
      exists (("[" ++ string_of_Z n ++ "]") ++ suffix)%string.
      rewrite !string_append_assoc. reflexivity.
Qed.

(** What the importer makes of a validation.  [_validateJsonSchema]
    returns exactly when the value is valid.  When the validator throws a
    validation error, the importer throws an error that holds it as [data]
    and whose message names the file, a value path that starts with
    "dictionary", a schema path that starts with "schema", and the
    message of the validation error; the traversal info it reads the paths
    from is there.  When the schema is [null], what the validator throws
    has no [info], and the importer's formatter throws a [TypeError] of
    its own instead. *)
Theorem importer_reports_validation_errors_with_paths
  (RegExp : string -> string -> string + (string -> bool))
  (v : option value) (schema : value) (fileName : string) (st : store) :
  (is_valid RegExp v schema = true
   <-> fst (_validateJsonSchema RegExp v schema fileName st) = Accepted)
  /\ (forall message a s p st',
        validate reference RegExp v schema st
        = (Throw (JsonSchemaValidationError message a s p), st') ->
        exists valueSuffix schemaSuffix,
          _validateJsonSchema RegExp v schema fileName st
          = (Rejected
               (mkFormatted
                  ("Dictionary has invalid data in '" ++ fileName
                     ++ "' for value '" ++ ("dictionary" ++ valueSuffix)
                     ++ "', validated against '" ++ ("schema" ++ schemaSuffix)
                     ++ "': " ++ message)%string
                  (JsonSchemaValidationError message a s p)),
             st'))
  /\ fst (_validateJsonSchema RegExp v schema fileName st) <> Unfinished
  /\ (schema = VNull ->
      fst (_validateJsonSchema RegExp v schema fileName st)
      = Crashed (TypeError "Cannot read properties of undefined")).
Proof.
  split; [|split; [|split]].
  - rewrite (valid_iff_validate reference RegExp v schema st).
    unfold _validateJsonSchema.
    destruct (validate reference RegExp v schema st) as [[[]|e|] st'];
      simpl.
    + tauto.
    + split; [destruct e; discriminate|].
      destruct (_formatSchemaError e st' fileName); discriminate.
    + split; discriminate.
  - intros message a s p st' H.
    assert (Hp : p = Reference (List.length st)).
    { pose proof (validate_frozen RegExp v schema st) as R.
      unfold related in R. rewrite H in R.
      destruct (validate frozen RegExp v schema st) as [[u|e2|] st2];
        try contradiction.
      destruct R as [R _]. unfold shows_the_copy in R.
      destruct e2 as [m2 v2 s2 p2| | |]; try contradiction.
      destruct R as (_ & _ & _ & R & _). exact R. }
    destruct (validate_root_entries reference RegExp v schema st)
      as (vp & sp & Hn).
    rewrite H in Hn. cbn [snd] in Hn.
    destruct (_getSchemaErrorPathString_extends vp "dictionary")
      as [valueSuffix Hv].
    destruct (_getSchemaErrorPathString_extends sp "schema")
      as [schemaSuffix Hs].
    exists valueSuffix, schemaSuffix.
    unfold _validateJsonSchema. rewrite H.
    unfold _formatSchemaError, trails_of. subst p. unfold read. rewrite Hn.
    cbn [valuePath schemaPath].
    change (_getSchemaErrorPathString ((KNull, v) :: vp) "dictionary")
      with (_getSchemaErrorPathString vp "dictionary").
    change (_getSchemaErrorPathString ((KNull, Some schema) :: sp) "schema")
      with (_getSchemaErrorPathString sp "schema").
    rewrite Hv, Hs. reflexivity.
  - unfold _validateJsonSchema.
    pose proof (run_total reference RegExp v schema (List.length st)
                  (st ++ [new_info v schema])) as T.
    rewrite <- validate_run in T.
    destruct (validate reference RegExp v schema st) as [[[]|e|] st'];
      simpl in *; try discriminate.
    + destruct (_formatSchemaError e st' fileName); discriminate.
    + congruence.
  - intros ->. reflexivity.
Qed.

(* ===================================================================== *)
(** * The recursion of the engine *)
(* ===================================================================== *)

(** The recursion is bounded by the nesting of the schema and the value.
    The schema a nested call is given is a strict part of the schema at
    hand, or the unconstrained schema together with a strict part of the
    value; so [validate] returns or throws for every value and schema, and
    [getValidValueOrDefault] returns for every schema but [null]; and no
    larger budget for the recursion changes what either of them does. *)
Theorem the_engine_terminates
  (keep : loc -> store -> path_info)
  (RegExp : string -> string -> string + (string -> bool))
  (v : option value) (schema : value) :
  (forall p w ps steps,
     _getPropertySchema schema p w = Some (ps, steps) ->
     depth ps < depth schema \/ ps = unconstrainedSchema)
  /\ (forall st, fst (validate keep RegExp v schema st) <> OutOfFuel)
  /\ (forall n i st,
        depth_opt v + depth schema < n ->
        _validate keep RegExp n v schema i st
        = _validate keep RegExp (budget v schema) v schema i st)
  /\ (schema <> VNull ->
      exists r, getValidValueOrDefault RegExp schema v = Ok r)
  /\ (forall n,
        depth schema + Nat.max (depth schema) (depth_opt v) < n ->
        _getValidValueOrDefault RegExp n schema v
        = _getValidValueOrDefault RegExp (normalize_budget schema v)
            schema v).
Proof.
  split; [|split; [|split; [|split]]].
  - intros p w ps steps H. eapply resolved_getPropertySchema. exact H.
  - intros st. rewrite validate_run. apply run_total.
  - intros n i st Hn. apply (run_any_budget keep RegExp v schema i st Hn).
  - intros Hs. eexists. apply getValidValueOrDefault_returns. exact Hs.
  - intros n Hn.
    rewrite (@normalize_any_budget RegExp n schema v) by exact Hn.
    rewrite (@normalize_any_budget RegExp (normalize_budget schema v) schema v)
      by (unfold normalize_budget, phi; lia).
    reflexivity.
Qed.

(** What [validate] decides depends on the value and the schema only,
    when no [patternFlags] of the schema holds [g], [y] or a colon.  The
    verdict (that the value passes, or the message, the value and the
    schema of the error thrown) is the same in a nested call and at top
    level, whatever the traversal info and the trails hold, whatever
    patterns the cache of the validator holds and wherever their last
    tests ended, and whether an error keeps a reference to the traversal
    info or a copy of it; [isValid] computes the function [is_valid] of the
    value and the schema; and the validation leaves the cache in a state
    from which the same holds again. *)
Theorem validation_depends_on_value_and_schema_only
  (keep keep' : loc -> store -> path_info)
  (compile : string -> string -> string + (string -> nat -> option nat))
  (v : option value) (schema : value) :
  stateless_patterns schema = true ->
  (forall i1 st1 cache1 i2 st2 cache2,
     consistent compile cache1 -> consistent compile cache2 ->
     verdict_of
       (fst (Cached.run keep compile v schema i1 (Cached.mkWorld st1 cache1)))
     = verdict_of
         (fst (Cached.run keep' compile v schema i2
                 (Cached.mkWorld st2 cache2))))
  /\ (forall st1 cache1 st2 cache2,
        consistent compile cache1 -> consistent compile cache2 ->
        verdict_of
          (fst (Cached.validate keep compile v schema
                  (Cached.mkWorld st1 cache1)))
        = verdict_of
            (fst (Cached.validate keep' compile v schema
                    (Cached.mkWorld st2 cache2))))
  /\ (forall st cache,
        consistent compile cache ->
        fst (Cached.isValid keep compile v schema (Cached.mkWorld st cache))
        = Ok (is_valid (fresh compile) v schema)
        /\ consistent compile
             (Cached._regexCache
                (snd (Cached.isValid keep compile v schema
                        (Cached.mkWorld st cache))))).
Proof.
  intros Hs. split; [|split].
  - intros i1 st1 c1 i2 st2 c2 H1 H2.
    rewrite (proj1 (@agrees_outcome compile _ _ _ st1 c1
                      (@agrees_run keep compile v schema i1 Hs) H1)).
    rewrite (proj1 (@agrees_outcome compile _ _ _ st2 c2
                      (@agrees_run keep' compile v schema i2 Hs) H2)).
    apply _validate_info_independent.
  - intros st1 c1 st2 c2 H1 H2.
    rewrite (@cached_validate keep compile v schema st1 c1 Hs H1).
    rewrite (@cached_validate keep' compile v schema st2 c2 Hs H2).
    rewrite !validate_run. apply _validate_info_independent.
  - intros st cache Hc. split.
    + apply cached_isValid; assumption.
    + apply (@agrees_outcome compile _ _ _ st cache
               (@agrees_isValid keep compile v schema Hs) Hc).
Qed.

Lemma validation_depends_on_value_and_schema_only_witness :
  let schema := VObj [("type", VStr "string"); ("pattern", VStr "a");
                      ("patternFlags", VStr "")] in
  let v := Some (VStr "ab") in
  stateless_patterns schema = true
  /\ consistent literal (Cached.new_CacheMap 100)
  /\ exists w1,
       Cached.isValid reference literal v schema
         Cached.new_JsonSchemaValidator = (Ok true, w1)
       /\ fst (Cached.isValid reference literal v schema w1) = Ok true.
Proof.
  intros schema v. split; [reflexivity|]. split; [apply consistent_new|].
  eexists. split; [reflexivity|].
  destruct (proj2 (proj2 (@validation_depends_on_value_and_schema_only
                            reference reference literal v schema eq_refl))
              [] _ (@consistent_new literal 100)) as [_ Hc].
  exact (proj1 (proj2 (proj2 (@validation_depends_on_value_and_schema_only
                                reference reference literal v schema eq_refl))
                  _ _ Hc)).
Defined.

(** ** What a valid number and a valid string have passed *)

Section Scalars.

Variable keep : loc -> store -> path_info.
Variable RegExp : string -> string -> string + (string -> bool).

(** A valid value has passed the checks for values of its kind. *)
Lemma valid_kind v schema :
  is_valid RegExp v schema = true ->
  passes
    match v with
    | Some (VNum n) => _validateNumber keep n schema 0
    | Some (VStr s) => _validateString keep RegExp s schema 0
    | Some (VArr elements) =>
        _validateArray keep (run keep RegExp) elements schema 0
    | Some (VObj fields) =>
        _validateObject keep (run keep RegExp) fields schema 0
    | _ => ret tt
    end.
Proof.
  intros V. destruct (@valid_clauses keep RegExp v schema V) as (H & _).
  unfold _validateSingleSchema in H.
  destruct schema;
    try (apply passes_seq in H; destruct H as [_ H];
         apply passes_seq in H; destruct H as [_ H];
         apply passes_seq in H; destruct H as [_ H]; exact H).
  destruct H as [st H]. discriminate.
Qed.

End Scalars.

(** A valid number lies within [minimum], [exclusiveMinimum], [maximum]
    and [exclusiveMaximum], wherever these keys hold numbers, and
    [multipleOf] is then not zero (against [multipleOf: 0] no number is
    valid).  When the number and [multipleOf] are both below 2^53 in
    magnitude, where the division and the multiplication of the check are
    exact, the number is a multiple of [multipleOf]. *)
Theorem valid_number_is_within_bounds
  (RegExp : string -> string -> string + (string -> bool))
  (n : Z) (schema : value) :
  is_valid RegExp (Some (VNum n)) schema = true ->
  (forall m, number_key schema "multipleOf" = Some m ->
             m <> 0%Z
             /\ ((Z.abs n < 2 ^ 53)%Z -> (Z.abs m < 2 ^ 53)%Z ->
                 exists q, n = (q * m)%Z))
  /\ (forall m, number_key schema "minimum" = Some m -> (m <= n)%Z)
  /\ (forall m, number_key schema "exclusiveMinimum" = Some m -> (m < n)%Z)
  /\ (forall m, number_key schema "maximum" = Some m -> (n <= m)%Z)
  /\ (forall m, number_key schema "exclusiveMaximum" = Some m -> (n < m)%Z).
Proof.
  intros V. pose proof (@valid_kind reference RegExp _ _ V) as H. cbv beta iota in H.
  unfold _validateNumber in H.
  apply passes_seq in H. destruct H as [H1 H].
  apply passes_seq in H. destruct H as [H2 H].
  apply passes_seq in H. destruct H as [H3 H].
  apply passes_seq in H. destruct H as [H4 H5].
  split; [|split; [|split; [|split]]]; intros m E.
  - rewrite E in H1. apply passes_fail_if in H1.
    apply Bool.orb_false_iff in H1. destruct H1 as [Hz Hd].
    apply Z.eqb_neq in Hz. apply Bool.negb_false_iff in Hd.
    apply Z.eqb_eq in Hd. split; [exact Hz|]. intros _ _.
    exists (n / m)%Z. symmetry. exact Hd.
  - rewrite E in H2. apply passes_fail_if in H2. apply Z.ltb_ge in H2.
    exact H2.
  - rewrite E in H3. apply passes_fail_if in H3. apply Z.leb_gt in H3.
    exact H3.
  - rewrite E in H4. apply passes_fail_if in H4. apply Z.ltb_ge in H4.
    exact H4.
  - rewrite E in H5. apply passes_fail_if in H5. apply Z.leb_gt in H5.
    exact H5.
Qed.

Lemma valid_number_is_within_bounds_witness :
  let schema := VObj [("type", VStr "integer"); ("multipleOf", VNum 3);
                      ("exclusiveMaximum", VNum 10)] in
  is_valid no_patterns (Some (VNum 9)) schema = true
  /\ (Z.abs 9 < 2 ^ 53)%Z /\ (Z.abs 3 < 2 ^ 53)%Z
  /\ (exists q, 9 = q * 3)%Z.
Proof.
  intros schema. split; [reflexivity|].
  split; [reflexivity|]. split; [reflexivity|].
  apply (proj2 (proj1 (@valid_number_is_within_bounds no_patterns 9%Z schema
                         eq_refl) 3%Z eq_refl)); reflexivity.
Defined.




(** ** Validity, clause by clause *)

Section Compositional.

Variable keep : loc -> store -> path_info.
Variable RegExp : string -> string -> string + (string -> bool).

(** The checks of the node itself decide the same from every store. *)
Lemma single_schema_verdict v schema i1 st1 i2 st2 :
  verdict_of
    (fst (_validateSingleSchema keep RegExp (run keep RegExp) v schema i1 st1))
  = verdict_of
      (fst (_validateSingleSchema keep RegExp (run keep RegExp) v schema i2
              st2)).
Proof.
  assert (R : sim (same_report) (fun _ _ => True) (fun b => b = true)
                (_validateSingleSchema keep RegExp (run keep RegExp) v schema
                   i1)
                (_validateSingleSchema keep RegExp (run keep RegExp) v schema
                   i2)).
  { apply sim_validateSingleSchema; unfold same_report; auto; try congruence.
    intros v' s' _. unfold run. apply _validate_info_sim. }
  unfold sim in R. specialize (R st1 st2 I). unfold related, same_report in R.
  destruct (_validateSingleSchema keep RegExp (run keep RegExp) v schema i1 st1)
    as [[a|e|] s1],
    (_validateSingleSchema keep RegExp (run keep RegExp) v schema i2 st2)
    as [[b|e'|] s2];
    simpl in *; try contradiction; try discriminate; try tauto.
Qed.

(** The computation passes from every store. *)
Definition passes_everywhere {A} (m : M A) : Prop :=
  forall st, verdict_of (fst (m st)) = Passes.

Lemma passes_everywhere_seq {A} (m : M unit) (k : M A) :
  passes_everywhere m -> passes_everywhere k ->
  passes_everywhere (bind m (fun _ => k)).
Proof.
  intros Hm Hk st. specialize (Hm st). unfold bind.
  destruct (m st) as [[[]|e|] st']; simpl in Hm.
  - apply Hk.
  - destruct e; discriminate.
  - discriminate.
Qed.

End Compositional.

(** Validity on the engine without cache, clause by clause. *)
Lemma valid_by_clauses
  (RegExp : string -> string -> string + (string -> bool))
  (v : option value) (schema : value) :
  is_valid RegExp v schema = true
  <-> ((forall i st,
          verdict_of
            (fst (_validateSingleSchema reference RegExp
                    (run reference RegExp) v schema i st)) = Passes)
       /\ (forall nextSchema,
             conditional_branch RegExp v schema = Some nextSchema ->
             is_valid RegExp v nextSchema = true)
       /\ (forall subSchemas,
             get schema "allOf" = Some (VArr subSchemas) ->
             Forall (fun m => is_valid RegExp v m = true) subSchemas)
       /\ (forall subSchemas,
             get schema "anyOf" = Some (VArr subSchemas) ->
             existsb (is_valid RegExp v) subSchemas = true)
       /\ (forall subSchemas,
             get schema "oneOf" = Some (VArr subSchemas) ->
             List.length (filter (is_valid RegExp v) subSchemas) = 1)
       /\ (forall subSchemas,
             get schema "not" = Some (VArr subSchemas) ->
             Forall (fun m => is_valid RegExp v m = false) subSchemas)).
Proof.
  split.
  - intros V.
    destruct (@valid_clauses reference RegExp v schema V)
      as ([s1 H1] & [s2 H2] & [s3 H3] & [s4 H4] & [s5 H5] & [s6 H6]).
    split; [|split; [|split; [|split; [|split]]]].
    + intros i st. rewrite <- H1. apply single_schema_verdict.
    + intros nextSchema B. rewrite _validateConditional_result, B in H2.
      apply (valid_iff_validate reference RegExp v nextSchema []). exact H2.
    + intros subSchemas E.
      rewrite (_validateAllOf_result reference RegExp v schema 0 s3 E) in H3.
      apply first_failing_none.
      destruct (first_failing RegExp v subSchemas) as [m|] eqn:F;
        [|reflexivity].
      apply first_failing_some in F. destruct F as [_ F].
      apply (valid_iff_validate reference RegExp v m []) in H3. congruence.
    + intros subSchemas E.
      rewrite (_validateAnyOf_result reference RegExp v schema 0 s4 E) in H4.
      destruct (existsb (is_valid RegExp v) subSchemas);
        [reflexivity | discriminate].
    + intros subSchemas E.
      rewrite (_validateOneOf_result reference RegExp v schema 0 s5 E) in H5.
      unfold matching in H5.
      destruct (Nat.eqb (List.length (filter (is_valid RegExp v) subSchemas)) 1)
        eqn:C; [|discriminate].
      apply Nat.eqb_eq in C. exact C.
    + intros subSchemas E.
      rewrite (_validateNoneOf_result reference RegExp v schema 0 s6 E) in H6.
      apply first_matching_none.
      destruct (first_matching RegExp v subSchemas); [discriminate|].
      reflexivity.
  - intros (H1 & H2 & H3 & H4 & H5 & H6).
    apply (is_valid_run reference RegExp v schema 0 []).
    rewrite run_unfold. unfold validate_body.
    repeat apply passes_everywhere_seq.
    + intros st. apply H1.
    + intros st. rewrite _validateConditional_result.
      destruct (conditional_branch RegExp v schema) as [nextSchema|] eqn:B;
        [|reflexivity].
      apply (valid_iff_validate reference RegExp v nextSchema []).
      apply H2. reflexivity.
    + intros st.
      destruct (get schema "allOf") as [[| | | |subSchemas|]|] eqn:E;
        try (unfold _validateAllOf; rewrite E; reflexivity).
      rewrite (_validateAllOf_result reference RegExp v schema 0 st E).
      replace (first_failing RegExp v subSchemas) with (@None value);
        [reflexivity|].
      symmetry. apply first_failing_none. apply H3. reflexivity.
    + intros st.
      destruct (get schema "anyOf") as [[| | | |subSchemas|]|] eqn:E;
        try (unfold _validateAnyOf; rewrite E; reflexivity).
      rewrite (_validateAnyOf_result reference RegExp v schema 0 st E).
      rewrite (H4 subSchemas eq_refl). reflexivity.
    + intros st.
      destruct (get schema "oneOf") as [[| | | |subSchemas|]|] eqn:E;
        try (unfold _validateOneOf; rewrite E; reflexivity).
      rewrite (_validateOneOf_result reference RegExp v schema 0 st E).
      unfold matching. rewrite (H5 subSchemas eq_refl). reflexivity.
    + intros st.
      destruct (get schema "not") as [[| | | |subSchemas|]|] eqn:E;
        try (unfold _validateNoneOf; rewrite E; reflexivity).
      rewrite (_validateNoneOf_result reference RegExp v schema 0 st E).
      replace (first_matching RegExp v subSchemas) with (@None nat);
        [reflexivity|].
      symmetry. apply first_matching_none. apply H6. reflexivity.
Qed.

(** [isValid(value, schema)] on the validator in the state [w]: whether it
    returns [true]. *)
Definition verdict_in
  (compile : string -> string -> string + (string -> nat -> option nat))
  (w : Cached.world) (v : option value) (s : value) : bool :=
  match fst (Cached.isValid reference compile v s w) with
  | Ok true => true
  | _ => false
  end.

Lemma verdict_in_is_valid compile st cache v s :
  stateless_patterns s = true -> consistent compile cache ->
  verdict_in compile (Cached.mkWorld st cache) v s
  = is_valid (fresh compile) v s.
Proof.
  intros Hs Hc. unfold verdict_in.
  rewrite (@cached_isValid reference compile v s st cache Hs Hc).
  destruct (is_valid (fresh compile) v s); reflexivity.
Qed.

Lemma verdict_in_member compile st cache v l m :
  stateless_patterns (VArr l) = true -> consistent compile cache ->
  In m l ->
  verdict_in compile (Cached.mkWorld st cache) v m
  = is_valid (fresh compile) v m.
Proof.
  intros Hs Hc Hin. apply verdict_in_is_valid; [|exact Hc].
  eapply stateless_member_arr; eassumption.
Qed.

Lemma existsb_ext_in {A} (f g : A -> bool) l :
  (forall x, In x l -> f x = g x) -> existsb f l = existsb g l.
Proof.
  induction l as [|x l IH]; intros H; [reflexivity|].
  cbn [existsb]. rewrite (H x (or_introl eq_refl)), IH; [reflexivity|].
  intros y Hy. apply H. right. exact Hy.
Qed.

Lemma Forall_ext_in {A} (f g : A -> bool) b l :
  (forall x, In x l -> f x = g x) ->
  Forall (fun x => f x = b) l <-> Forall (fun x => g x = b) l.
Proof.
  intros H. rewrite !Forall_forall.
  split; intros F x Hx; [rewrite <- H | rewrite H]; auto.
Qed.

(** A value is valid against a schema exactly when it passes the checks
    of the node itself ([type], [const], [enum] and the checks for values
    of its kind) and each of the clauses: it is valid against the branch
    of [if] that applies, against every member of [allOf], against some
    member of [anyOf], against exactly one member of [oneOf] and against no
    member of [not].  A key that holds no list (for [if]: no object) adds
    no condition.  Validity is what [isValid] returns on the validator at
    hand, for the schema and for each member from the same state of the
    validator; no [patternFlags] of the schema holds [g], [y] or a colon. *)
Theorem validity_is_the_conjunction_of_the_clauses
  (compile : string -> string -> string + (string -> nat -> option nat))
  (v : option value) (schema : value) (st : store) (cache : Cached.CacheMap) :
  stateless_patterns schema = true ->
  consistent compile cache ->
  let w := Cached.mkWorld st cache in
  verdict_in compile w v schema = true
  <-> ((forall i,
          verdict_of
            (fst (Cached._validateSingleSchema reference compile
                    (Cached.run reference compile) v schema i w)) = Passes)
       /\ (forall ifFields nextFields,
             get schema "if" = Some (VObj ifFields) ->
             (if verdict_in compile w v (VObj ifFields)
              then get schema "then" else get schema "else")
             = Some (VObj nextFields) ->
             verdict_in compile w v (VObj nextFields) = true)
       /\ (forall subSchemas,
             get schema "allOf" = Some (VArr subSchemas) ->
             Forall (fun m => verdict_in compile w v m = true) subSchemas)
       /\ (forall subSchemas,
             get schema "anyOf" = Some (VArr subSchemas) ->
             existsb (verdict_in compile w v) subSchemas = true)
       /\ (forall subSchemas,
             get schema "oneOf" = Some (VArr subSchemas) ->
             List.length (filter (verdict_in compile w v) subSchemas) = 1)
       /\ (forall subSchemas,
             get schema "not" = Some (VArr subSchemas) ->
             Forall (fun m => verdict_in compile w v m = false) subSchemas)).
Proof.
  intros Hs Hc w. unfold w.
  rewrite (@verdict_in_is_valid compile st cache v schema Hs Hc).
  rewrite (valid_by_clauses (fresh compile) v schema).
  assert (Hm : forall k l, get schema k = Some (VArr l) ->
               forall m, In m l ->
               verdict_in compile (Cached.mkWorld st cache) v m
               = is_valid (fresh compile) v m).
  { intros k l G m Hin. eapply verdict_in_member; [|exact Hc|exact Hin].
    eapply stateless_get; eassumption. }
  assert (Ho : forall k fs, get schema k = Some (VObj fs) ->
               verdict_in compile (Cached.mkWorld st cache) v (VObj fs)
               = is_valid (fresh compile) v (VObj fs)).
  { intros k fs G. apply verdict_in_is_valid; [|exact Hc].
    eapply stateless_get; eassumption. }
  split; intros (H1 & H2 & H3 & H4 & H5 & H6);
    (split; [|split; [|split; [|split; [|split]]]]).
  - intros i.
    rewrite (@cached_validateSingleSchema reference compile v schema i st
               cache Hs Hc).
    apply H1.
  - intros ifFields nextFields Gif Gnext.
    rewrite (Ho _ _ Gif) in Gnext.
    assert (Gn : get schema "then" = Some (VObj nextFields)
                 \/ get schema "else" = Some (VObj nextFields))
      by (destruct (is_valid (fresh compile) v (VObj ifFields)); auto).
    assert (E : verdict_in compile (Cached.mkWorld st cache) v
                  (VObj nextFields)
                = is_valid (fresh compile) v (VObj nextFields))
      by (destruct Gn as [Gn|Gn]; exact (Ho _ _ Gn)).
    rewrite E. apply H2. unfold conditional_branch.
    rewrite Gif, Gnext. reflexivity.
  - intros l G. apply (@Forall_ext_in _ _ _ true l (Hm _ _ G)). apply H3, G.
  - intros l G. rewrite (@existsb_ext_in _ _ _ l (Hm _ _ G)). apply H4, G.
  - intros l G. rewrite (filter_ext_in _ _ l (Hm _ _ G)). apply H5, G.
  - intros l G. apply (@Forall_ext_in _ _ _ false l (Hm _ _ G)). apply H6, G.
  - intros i st0.
    rewrite (@single_schema_verdict reference (fresh compile) v schema i st0
               0 st).
    rewrite <- (@cached_validateSingleSchema reference compile v schema 0 st
                  cache Hs Hc).
    apply H1.
  - intros nextSchema B. unfold conditional_branch in B.
    destruct (get schema "if") as [[| | | | |ifFields]|] eqn:Gif;
      try discriminate.
    destruct (if is_valid (fresh compile) v (VObj ifFields)
              then get schema "then" else get schema "else")
      as [[| | | | |nextFields]|] eqn:Gnext; try discriminate.
    injection B as <-.
    assert (Gn : get schema "then" = Some (VObj nextFields)
                 \/ get schema "else" = Some (VObj nextFields))
      by (destruct (is_valid (fresh compile) v (VObj ifFields)); auto).
    assert (E : verdict_in compile (Cached.mkWorld st cache) v
                  (VObj nextFields)
                = is_valid (fresh compile) v (VObj nextFields))
      by (destruct Gn as [Gn|Gn]; exact (Ho _ _ Gn)).
    rewrite <- E. apply (H2 ifFields nextFields eq_refl).
    rewrite (Ho _ _ Gif). exact Gnext.
  - intros l G. apply (@Forall_ext_in _ _ _ true l (Hm _ _ G)). apply H3, G.
  - intros l G. rewrite <- (@existsb_ext_in _ _ _ l (Hm _ _ G)). apply H4, G.
  - intros l G. rewrite <- (filter_ext_in _ _ l (Hm _ _ G)). apply H5, G.
  - intros l G. apply (@Forall_ext_in _ _ _ false l (Hm _ _ G)). apply H6, G.
Qed.

Lemma validity_is_the_conjunction_of_the_clauses_witness :
  let A := VObj [("type", VStr "string"); ("pattern", VStr "a")] in
  let B := VObj [("type", VStr "string"); ("pattern", VStr "c");
                 ("patternFlags", VStr "")] in
  let schema := VObj [("minLength", VNum 1); ("oneOf", VArr [A; B])] in
  let w := Cached.new_JsonSchemaValidator in
  stateless_patterns schema = true
  /\ consistent literal (Cached.new_CacheMap 100)
  /\ verdict_in literal w (Some (VStr "ab")) schema = true
  /\ List.length (filter (verdict_in literal w (Some (VStr "ab"))) [A; B]) = 1.
Proof.
  intros A B schema w.
  assert (Hs : stateless_patterns schema = true) by (vm_compute; reflexivity).
  assert (Hv : verdict_in literal w (Some (VStr "ab")) schema = true)
    by (vm_compute; reflexivity).
  split; [exact Hs|]. split; [apply consistent_new|]. split; [exact Hv|].
  destruct (proj1 (@validity_is_the_conjunction_of_the_clauses literal
                     (Some (VStr "ab")) schema [] (Cached.new_CacheMap 100)
                     Hs (@consistent_new literal 100)) Hv)
    as (_ & _ & _ & _ & H5 & _).
  exact (H5 [A; B] eq_refl).
Defined.

(** Named properties of an array pass the view unguarded in both
    directions.  For an array target and a key that is not all decimal
    digits (and is neither "length" nor "__proto__"), what was written is
    read back as it is, whatever the schemas of the two views: the very
    value that was given (an object is not copied on the way in and gets
    no guarded view on the way out).  For
    [length], a number in the range of array lengths is accepted without
    validation, is read back as the length, keeps the elements below it
    and leaves holes above the old length. *)
Theorem named_array_property_reads_back
  (RegExp : string -> string -> string + (string -> bool))
  (ToNumber_other : Heap.heap -> Heap.slot -> option Z)
  (schema schema' : value) (target : Heap.ref)
  (elements : list Heap.slot) (named : list (string * Heap.slot))
  (w : state) :
  nth_error (objects w) target = Some (Heap.Array elements named) ->
  (forall key v,
     parse_decimal key = None -> key <> "length"%string ->
     key <> "__proto__"%string ->
     exists w',
       set RegExp ToNumber_other schema target key v w = (Ok true, w')
       /\ JsonSchemaProxyHandler_get schema' target key w' = Ok (Plain v))
  /\ (forall n,
        (0 <= n < 2 ^ 32)%Z ->
        exists w' elements',
          set RegExp ToNumber_other schema target "length" (Heap.SNum n) w
          = (Ok true, w')
          /\ nth_error (objects w') target
             = Some (Heap.Array elements' named)
          /\ JsonSchemaProxyHandler_get schema' target "length" w'
             = Ok (Plain (Heap.SNum n))
          /\ (forall j, j < Z.to_nat n -> j < List.length elements ->
                        nth_error elements' j = nth_error elements j)
          /\ (forall j, List.length elements <= j -> j < Z.to_nat n ->
                        nth_error elements' j = Some Heap.SUndefined)).
Proof.
  intros Ho.
  assert (Ht : target < List.length (objects w))
    by (apply nth_error_Some; congruence).
  split.
  - intros key v Hk Hne _.
    rewrite (@set_direct RegExp ToNumber_other schema target elements named
               key v w Ho Hk).
    unfold direct_write. apply String.eqb_neq in Hne. rewrite Hne.
    eexists. split; [reflexivity|].
    unfold JsonSchemaProxyHandler_get. cbn [objects].
    rewrite HeapFacts.nth_error_store_at_eq by exact Ht.
    rewrite Hk. cbn [read_own]. rewrite Hne.
    unfold array_index. rewrite Hk. rewrite lookup_put. reflexivity.
  - intros n Hn.
    assert (Hk : parse_decimal "length" = None) by reflexivity.
    rewrite (@set_direct RegExp ToNumber_other schema target elements named
               "length" (Heap.SNum n) w Ho Hk).
    unfold direct_write, Array_set_length, ToNumber.
    cbn [String.eqb Ascii.eqb Bool.eqb].
    replace ((0 <=? n)%Z && (n <? 2 ^ 32)%Z) with true
      by (symmetry; apply Bool.andb_true_iff; split;
          [apply Z.leb_le | apply Z.ltb_lt]; lia).
    set (elements' := firstn (Z.to_nat n) elements
                        ++ repeat Heap.SUndefined
                             (Z.to_nat n - List.length elements)).
    assert (Hlen : List.length elements' = Z.to_nat n).
    { unfold elements'. rewrite length_app, length_firstn, repeat_length.
      lia. }
    eexists. exists elements'. split; [reflexivity|]. cbn [objects].
    rewrite HeapFacts.nth_error_store_at_eq by exact Ht.
    split; [reflexivity|]. split; [|split].
    + unfold JsonSchemaProxyHandler_get. cbn [objects].
      rewrite HeapFacts.nth_error_store_at_eq by exact Ht.
      rewrite Hk. cbn [read_own String.eqb Ascii.eqb Bool.eqb].
      rewrite Hlen, Z2Nat.id by lia. reflexivity.
    + intros j Hj Hj'. unfold elements'.
      rewrite nth_error_app1 by (rewrite length_firstn; lia).
      rewrite nth_error_firstn.
      replace (j <? Z.to_nat n) with true; [reflexivity|].
      symmetry. apply Nat.ltb_lt. exact Hj.
    + intros j Hj Hj'. unfold elements'.
      rewrite nth_error_app2 by (rewrite length_firstn; lia).
      rewrite length_firstn, Nat.min_r by lia.
      apply nth_error_repeat. lia.
Qed.

Lemma named_array_property_reads_back_witness :
  let w := mkState [Heap.Array [Heap.SNum 1; Heap.SNum 2] []; Heap.Object []]
             [] in
  let strict := VObj [("type", VStr "array"); ("minItems", VNum 2);
                      ("additionalProperties", VBool false)] in
  nth_error (objects w) 0 = Some (Heap.Array [Heap.SNum 1; Heap.SNum 2] [])
  /\ exists w',
       set no_patterns nothing_converts strict 0 "extra" (Heap.SRef 1) w
       = (Ok true, w')
       /\ JsonSchemaProxyHandler_get strict 0 "extra" w'
          = Ok (Plain (Heap.SRef 1)).
Proof.
  intros w strict. split; [reflexivity|].
  apply (proj1 (@named_array_property_reads_back no_patterns nothing_converts
                  strict strict 0 [Heap.SNum 1; Heap.SNum 2] [] w eq_refl)
           "extra" (Heap.SRef 1)).
  - reflexivity.
  - discriminate.
  - discriminate.
Defined.
